(** * bp-db-diagram: the schema extractor and the orthogonal edge router

    A shallow embedding of [lib/sql/parseSqlToGraph.ts] (the schema
    extractor) and of the routing part of
    [components/konva/DiagramCanvas.tsx] (the orthogonal router), with the
    properties the specification states about them.

    Modelling conventions.
    - A JavaScript string is a [string]: a sequence of code units below 256.
      Character classes, [trim] and [toLowerCase] are the ECMAScript ones
      restricted to that range.
    - A regular expression literal is a value of [Re.regex]; [Re.rmatch] is
      the backtracking matcher of the ECMAScript specification, written in
      the same continuation-passing style.
    - A JavaScript number of the router is a rational ([Qc]): equality of
      numbers is Leibniz equality. Arithmetic on it is exact;
      [Router.Double] computes with the rounding of IEEE 754 doubles the
      functions whose properties depend on it.
    - A [Map] is a [gmap]; an array is a [list]. *)

From Stdlib Require Import String Ascii ZArith NArith Lia Bool List.
From Stdlib Require Import QArith Qcanon Qround Qcabs Lqa.
From stdpp Require Import gmap strings list fin_maps.

Local Open Scope string_scope.
Local Open Scope nat_scope.

(** ** Characters *)

Module Chars.

Definition code (c : ascii) : N := N_of_ascii c.

Definition in_range (lo hi : N) (c : ascii) : bool :=
  ((lo <=? code c) && (code c <=? hi))%N.

Definition is_char (n : N) (c : ascii) : bool := (code c =? n)%N.

(** The double quote, code unit 34. *)
Definition dquote : ascii := ascii_of_N 34.

(** [\s]: WhiteSpace and LineTerminator code units below 256. *)
Definition is_space (c : ascii) : bool :=
  in_range 9 13 c || is_char 32 c || is_char 160 c.

(** LineTerminator below 256: LF and CR; [.] matches everything else. *)
Definition is_line_terminator (c : ascii) : bool :=
  is_char 10 c || is_char 13 c.

Definition is_upper (c : ascii) : bool := in_range 65 90 c.
Definition is_lower (c : ascii) : bool := in_range 97 122 c.
Definition is_digit (c : ascii) : bool := in_range 48 57 c.
Definition is_alpha (c : ascii) : bool := is_upper c || is_lower c.

(** [\w] = [A-Za-z0-9_]. *)
Definition is_word (c : ascii) : bool :=
  is_alpha c || is_digit c || is_char 95 c.

(** [String.prototype.toLowerCase] on one code unit below 256: A-Z and the
    Latin-1 capitals (192..222 except the multiplication sign 215). *)
Definition to_lower (c : ascii) : ascii :=
  if is_upper c || (in_range 192 222 c && negb (is_char 215 c))
  then ascii_of_N (code c + 32) else c.

(** A pattern character under the [i] flag: below 256 only the two cases of
    an ASCII letter canonicalize to the same code unit. *)
Definition eq_ci (p c : ascii) : bool :=
  if is_alpha p then is_alpha c && Ascii.eqb (to_lower p) (to_lower c)
  else Ascii.eqb p c.

End Chars.

(** ** Strings *)

Module Str.

Fixpoint map (f : ascii -> ascii) (s : string) : string :=
  match s with
  | EmptyString => EmptyString
  | String c s' => String (f c) (map f s')
  end.

Definition toLowerCase (s : string) : string := map Chars.to_lower s.

Fixpoint drop (n : nat) (s : string) : string :=
  match n, s with
  | S n', String _ s' => drop n' s'
  | _, _ => s
  end.

Fixpoint take (n : nat) (s : string) : string :=
  match n, s with
  | S n', String c s' => String c (take n' s')
  | _, _ => EmptyString
  end.

(** [s.slice(a, b)] for [0 <= a], [0 <= b]. *)
Definition slice (a b : nat) (s : string) : string := take (b - a) (drop a s).

(** [s[p]]; [None] is [undefined]. *)
Definition at_ (s : string) (p : nat) : option ascii :=
  match drop p s with
  | String c _ => Some c
  | EmptyString => None
  end.

Fixpoint rev_onto (s acc : string) : string :=
  match s with
  | EmptyString => acc
  | String c s' => rev_onto s' (String c acc)
  end.

Definition rev (s : string) : string := rev_onto s EmptyString.

Fixpoint trimStart (s : string) : string :=
  match s with
  | String c s' => if Chars.is_space c then trimStart s' else s
  | EmptyString => EmptyString
  end.

Definition trim (s : string) : string := rev (trimStart (rev (trimStart s))).

Fixpoint is_prefix (p s : string) : bool :=
  match p, s with
  | EmptyString, _ => true
  | String a p', String b s' => Ascii.eqb a b && is_prefix p' s'
  | String _ _, EmptyString => false
  end.

(** [s.indexOf(needle, from)] as an offset search over the suffix: the first
    [i >= pos] at which [needle] occurs. [rest] is [s] from [pos] on. *)
Fixpoint indexOf_from (needle rest : string) (pos : nat) : option nat :=
  if is_prefix needle rest then Some pos
  else match rest with
       | EmptyString => None
       | String _ rest' => indexOf_from needle rest' (S pos)
       end.

Definition indexOf (needle s : string) (from : nat) : option nat :=
  if String.length s <? from then
    (if String.length needle =? 0 then Some (String.length s) else None)
  else indexOf_from needle (drop from s) from.

(** [s.split(sep)] for a one-character separator: [cur] is the segment being
    read, reversed. *)
Fixpoint split_go (sep : ascii) (s : string) (cur : string) : list string :=
  match s with
  | EmptyString => [rev cur]
  | String c s' =>
      if Ascii.eqb c sep then rev cur :: split_go sep s' EmptyString
      else split_go sep s' (String c cur)
  end.

Definition split (sep : ascii) (s : string) : list string :=
  split_go sep s EmptyString.

(** Truthiness of a string: the empty string is falsy. *)
Definition truthy (s : string) : bool :=
  match s with EmptyString => false | _ => true end.

End Str.

(** ** Regular expressions *)

Module Re.

Inductive regex : Type :=
| REmpty : regex
| RChar : (ascii -> bool) -> regex        (* one character of a class *)
| RSeq : regex -> regex -> regex
| RAlt : regex -> regex -> regex           (* r1|r2, r1 first *)
| RStar : bool -> regex -> regex           (* r* when true, r*? when false *)
| ROpt : regex -> regex                    (* r? *)
| RGroup : nat -> regex -> regex           (* the n-th capture group *)
| RBol : regex                             (* ^ *)
| REol : regex                             (* $ *)
| RWordB : regex.                          (* \b *)

(** The state of a match attempt: the position, the character before it,
    the input from it on, and the captures as (group, (start, end)), the
    latest first. *)
Record mstate : Type := MState {
  m_pos : nat;
  m_prev : option ascii;
  m_rest : string;
  m_caps : list (nat * (nat * nat))
}.

Fixpoint groups_of (r : regex) : list nat :=
  match r with
  | RSeq a b | RAlt a b => groups_of a ++ groups_of b
  | RStar _ a | ROpt a => groups_of a
  | RGroup n a => n :: groups_of a
  | _ => []
  end.

Definition mem_nat (n : nat) (l : list nat) : bool := existsb (Nat.eqb n) l.

(** A quantified atom forgets the captures of its own groups when an
    iteration starts. *)
Definition clear_groups (gs : list nat) (st : mstate) : mstate :=
  MState (m_pos st) (m_prev st) (m_rest st)
         (List.filter (fun c => negb (mem_nat (fst c) gs)) (m_caps st)).

Definition set_cap (n start : nat) (st : mstate) : mstate :=
  MState (m_pos st) (m_prev st) (m_rest st)
         ((n, (start, m_pos st)) :: m_caps st).

Definition orelse {A} (a b : option A) : option A :=
  match a with Some _ => a | None => b end.

Definition next_char (st : mstate) : option ascii :=
  match m_rest st with String c _ => Some c | EmptyString => None end.

Definition opt_test (p : ascii -> bool) (o : option ascii) : bool :=
  match o with Some c => p c | None => false end.

(** The RepeatMatcher for min 0, max infinity, over the matcher [ma] of the
    quantified atom: an iteration that consumes nothing fails. [n] bounds the
    iterations by the length of the remaining input, which such iterations
    cannot exceed. *)
Fixpoint star_loop (ma : mstate -> (mstate -> option mstate) -> option mstate)
  (gs : list nat) (greedy : bool) (k : mstate -> option mstate) (n : nat)
  (st : mstate) {struct n} : option mstate :=
  match n with
  | O => k st
  | S n' =>
      let iter :=
        ma (clear_groups gs st)
           (fun st' => if m_pos st <? m_pos st'
                       then star_loop ma gs greedy k n' st' else None) in
      if greedy then orelse iter (k st) else orelse (k st) iter
  end.

Section Matcher.
(** The [m] flag. *)
Variable multiline : bool.

Definition at_bol (st : mstate) : bool :=
  match m_prev st with
  | None => true
  | Some c => multiline && Chars.is_line_terminator c
  end.

Definition at_eol (st : mstate) : bool :=
  match next_char st with
  | None => true
  | Some c => multiline && Chars.is_line_terminator c
  end.

Definition at_word_boundary (st : mstate) : bool :=
  xorb (opt_test Chars.is_word (m_prev st)) (opt_test Chars.is_word (next_char st)).

(** [rmatch r st k]: match [r] from [st], then go on with [k]; the first
    success wins. *)
Fixpoint rmatch (r : regex) (st : mstate) (k : mstate -> option mstate)
  {struct r} : option mstate :=
  match r with
  | REmpty => k st
  | RChar p =>
      match m_rest st with
      | String c rest =>
          if p c then k (MState (S (m_pos st)) (Some c) rest (m_caps st))
          else None
      | EmptyString => None
      end
  | RSeq a b => rmatch a st (fun st' => rmatch b st' k)
  | RAlt a b => orelse (rmatch a st k) (rmatch b st k)
  | RStar greedy a =>
      star_loop (rmatch a) (groups_of a) greedy k (String.length (m_rest st)) st
  | ROpt a =>
      orelse
        (rmatch a (clear_groups (groups_of a) st)
           (fun st' => if m_pos st <? m_pos st' then k st' else None))
        (k st)
  | RGroup n a => rmatch a st (fun st' => k (set_cap n (m_pos st) st'))
  | RBol => if at_bol st then k st else None
  | REol => if at_eol st then k st else None
  | RWordB => if at_word_boundary st then k st else None
  end.

(** One attempt at position [pos]. *)
Definition match_at (r : regex) (pos : nat) (prev : option ascii)
  (rest : string) : option mstate :=
  rmatch r (MState pos prev rest []) Some.

(** The leftmost match at or after [pos]: [(start, final state)]. *)
Fixpoint search (r : regex) (pos : nat) (prev : option ascii)
  (rest : string) : option (nat * mstate) :=
  match match_at r pos prev rest with
  | Some st => Some (pos, st)
  | None =>
      match rest with
      | EmptyString => None
      | String c rest' => search r (S pos) (Some c) rest'
      end
  end.
End Matcher.

(** The result array of [exec]: index, end, captures. *)
Record rmatch_result : Type := MatchResult {
  mr_index : nat;
  mr_end : nat;
  mr_caps : list (nat * (nat * nat))
}.

Definition result_of (start : nat) (st : mstate) : rmatch_result :=
  MatchResult start (m_pos st) (m_caps st).

Fixpoint find_cap (n : nat) (caps : list (nat * (nat * nat))) : option (nat * nat) :=
  match caps with
  | [] => None
  | (g, se) :: caps' => if Nat.eqb g n then Some se else find_cap n caps'
  end.

(** [m[0]]. *)
Definition whole (s : string) (m : rmatch_result) : string :=
  Str.slice (mr_index m) (mr_end m) s.

(** [m[n]] for [n >= 1]; [None] is [undefined]. *)
Definition group (s : string) (m : rmatch_result) (n : nat) : option string :=
  match find_cap n (mr_caps m) with
  | Some (a, b) => Some (Str.slice a b s)
  | None => None
  end.

(** [re.exec(s)] with [lastIndex = 0] (a regex without the [g] flag, or a
    fresh one). *)
Definition exec (ml : bool) (r : regex) (s : string) : option rmatch_result :=
  match search ml r 0 None s with
  | Some (i, st) => Some (result_of i st)
  | None => None
  end.

(** [re.test(s)]. *)
Definition test (ml : bool) (r : regex) (s : string) : bool :=
  match exec ml r s with Some _ => true | None => false end.

(** The loop [while ((m = re.exec(s))) { ... }] over a [g] regex that starts
    at [lastIndex = 0]: all the results in order. [skip] characters are still
    inside the previous match. An empty match leaves [lastIndex] where it is,
    so the loop never ends: [None]. *)
Fixpoint exec_loop (ml : bool) (r : regex) (pos : nat) (prev : option ascii)
  (rest : string) (skip : nat) : option (list rmatch_result) :=
  match skip, rest with
  | S skip', String c rest' => exec_loop ml r (S pos) (Some c) rest' skip'
  | S _, EmptyString => Some []
  | O, _ =>
      match match_at ml r pos prev rest with
      | Some st =>
          if m_pos st <=? pos then None
          else
            match rest with
            | String c rest' =>
                option_map (cons (result_of pos st))
                  (exec_loop ml r (S pos) (Some c) rest' (m_pos st - pos - 1))
            | EmptyString => Some [result_of pos st]
            end
      | None =>
          match rest with
          | String c rest' => exec_loop ml r (S pos) (Some c) rest' 0
          | EmptyString => Some []
          end
      end
  end.

Definition exec_all (ml : bool) (r : regex) (s : string) : option (list rmatch_result) :=
  exec_loop ml r 0 None s 0.

(** [s.replace(re, repl)] for a [g] regex and a replacement without [$]
    patterns. After an empty match the search resumes one character on. *)
Fixpoint replace_loop (ml : bool) (r : regex) (repl : string) (pos : nat)
  (prev : option ascii) (rest : string) (skip : nat) : string :=
  match skip, rest with
  | S skip', String c rest' => replace_loop ml r repl (S pos) (Some c) rest' skip'
  | S _, EmptyString => EmptyString
  | O, _ =>
      match match_at ml r pos prev rest with
      | Some st =>
          repl ++
          match rest with
          | String c rest' =>
              if m_pos st <=? pos
              then String c (replace_loop ml r repl (S pos) (Some c) rest' 0)
              else replace_loop ml r repl (S pos) (Some c) rest' (m_pos st - pos - 1)
          | EmptyString => EmptyString
          end
      | None =>
          match rest with
          | String c rest' => String c (replace_loop ml r repl (S pos) (Some c) rest' 0)
          | EmptyString => EmptyString
          end
      end
  end.

Definition replace_all (ml : bool) (r : regex) (repl : string) (s : string) : string :=
  replace_loop ml r repl 0 None s 0.

(** *** Pattern syntax *)

Fixpoint rseq (rs : list regex) : regex :=
  match rs with
  | [] => REmpty
  | [r] => r
  | r :: rs' => RSeq r (rseq rs')
  end.

Definition rplus (r : regex) : regex := RSeq r (RStar true r).
Definition rplus_lazy (r : regex) : regex := RSeq r (RStar false r).
Definition rstar (r : regex) : regex := RStar true r.
Definition chr (c : ascii) : regex := RChar (Ascii.eqb c).
Definition not_chr (c : ascii) : regex := RChar (fun x => negb (Ascii.eqb c x)).

Fixpoint lit (s : string) : regex :=
  match s with
  | EmptyString => REmpty
  | String c EmptyString => chr c
  | String c s' => RSeq (chr c) (lit s')
  end.

(** A literal under the [i] flag. *)
Fixpoint lit_i (s : string) : regex :=
  match s with
  | EmptyString => REmpty
  | String c EmptyString => RChar (Chars.eq_ci c)
  | String c s' => RSeq (RChar (Chars.eq_ci c)) (lit_i s')
  end.

Definition ws : regex := RChar Chars.is_space.             (* \s *)
Definition word : regex := RChar Chars.is_word.            (* \w *)
Definition any : regex := RChar (fun _ => true).           (* [\s\S] *)
Definition dot : regex := RChar (fun c => negb (Chars.is_line_terminator c)).
Definition dq : regex := chr Chars.dquote.

(** *** Two syntactic checks on a pattern *)

(** Every match of [r] consumes at least one character. *)
Fixpoint consumes (r : regex) : bool :=
  match r with
  | RChar _ => true
  | RSeq a b => consumes a || consumes b
  | RAlt a b => consumes a && consumes b
  | RGroup _ a => consumes a
  | _ => false
  end.

(** Every match of [r] leaves capture [n] defined. *)
Fixpoint sets (n : nat) (r : regex) : bool :=
  match r with
  | RSeq a b => (sets n a && negb (mem_nat n (groups_of b))) || sets n b
  | RAlt a b => sets n a && sets n b
  | RGroup m a => Nat.eqb n m || sets n a
  | _ => false
  end.

(** *** Notions used to state the properties of the matcher *)

(** What a match of [r] does to the state it starts from. *)
Record step_ok (r : regex) (st st' : mstate) : Prop := StepOk {
  so_pos : m_pos st <= m_pos st';
  so_consumes : consumes r = true -> m_pos st < m_pos st';
  so_sets : forall n, sets n r = true -> is_Some (find_cap n (m_caps st'));
  so_frame : forall n, mem_nat n (groups_of r) = false ->
             find_cap n (m_caps st') = find_cap n (m_caps st)
}.

(** The end of the input is at a fixed distance: what is consumed moves the
    position forward by as much. *)
Definition same_end (st st' : mstate) : Prop :=
  m_pos st' + String.length (m_rest st') = m_pos st + String.length (m_rest st).

(** A continuation only matters on the states that keep the end of the
    input where it is. *)
Definition ext_on (st : mstate) (k k' : mstate -> option mstate) : Prop :=
  forall st', same_end st st' -> k st' = k' st'.

End Re.

(** ** The schema extractor ([lib/sql/parseSqlToGraph.ts]) *)

Module Sql.
Import Re.

Record SqlEnum : Type := mkEnum {
  en_name : string;
  en_values : list string
}.

Record SqlIndex : Type := mkIndex {
  ix_name : string;
  ix_table : string;
  ix_unique : bool;
  ix_method : option string;
  ix_expression : string;
  ix_include : option string;
  ix_where : option string
}.

Record FkTo : Type := mkFkTo {
  fk_table : string;
  fk_column : option string
}.

(** Optional fields are [option]s: [None] is a field that was never set. *)
Record SqlColumn : Type := mkColumn {
  c_name : string;
  c_type : string;
  isPrimaryKey : bool;
  isNotNull : option bool;
  isForeignKey : option bool;
  fkTo : option FkTo;
  isEnum : option bool;
  enumName : option string
}.

Record SqlTable : Type := mkTable {
  t_name : string;
  columns : list SqlColumn;
  indexes : list SqlIndex
}.

Record SqlRelation : Type := mkRelation {
  r_id : option string;
  fromTable : string;
  fromColumn : string;
  toTable : string;
  toColumn : string
}.

Record SqlGraph : Type := mkGraph {
  tables : list SqlTable;
  relations : list SqlRelation;
  enums : list SqlEnum
}.

(** *** Small helpers *)

(** [/--.*$/gm] *)
Definition lineCommentRe : regex := rseq [lit "--"; rstar dot; REol].
(** [/\/\*[\s\S]*?\*\//g] *)
Definition blockCommentRe : regex := rseq [lit "/*"; RStar false any; lit "*/"].

Definition stripComments (input : string) : string :=
  replace_all false blockCommentRe "" (replace_all true lineCommentRe "" input).

(** [s.replace(/\s+/g, ' ').trim()] *)
Definition normalizeWs (s : string) : string :=
  Str.trim (replace_all false (rplus ws) " " s).

(** [/^Q+|Q+$/g], where Q stands for the double quote. *)
Definition outerQuotesRe : regex :=
  RAlt (RSeq RBol (rplus dq)) (RSeq (rplus dq) REol).

Definition unquoteIdent (s : string) : string :=
  Str.trim (replace_all false outerQuotesRe "" s).

(** [parts[parts.length - 1]]; [None] is [undefined]. *)
Definition last_part (parts : list string) : option string := List.last (List.map Some parts) None.

(** The last segment of a schema-qualified name. [split] never returns an
    empty array, so the result is a string. *)
Definition normalizeTableName (raw : string) : string :=
  let s := unquoteIdent (Str.trim raw) in
  match last_part (Str.split "." s) with
  | Some p => p
  | None => EmptyString
  end.

(** [/\[\]$/g] *)
Definition arraySuffixRe : regex := rseq [lit "[]"; REol].

Definition baseTypeOf (t : string) : string :=
  Str.trim (replace_all false arraySuffixRe "" t).

Definition is_squote (c : ascii) : bool := Ascii.eqb c "'".
Definition is_dquote (c : ascii) : bool := Ascii.eqb c Chars.dquote.
Definition is_lparen (c : ascii) : bool := Ascii.eqb c "(".
Definition is_rparen (c : ascii) : bool := Ascii.eqb c ")".
Definition is_comma (c : ascii) : bool := Ascii.eqb c ",".

(** The [for] loop of [splitTopLevelComma]: [rest] is [body] from [i] on. *)
Fixpoint split_loop (body rest : string) (i start depth : nat)
  (inSingle inDouble : bool) (parts : list string) : list string :=
  match rest with
  | EmptyString => parts ++ [Str.trim (Str.slice start (String.length body) body)]
  | String ch rest' =>
      let inSingle := if is_squote ch && negb inDouble then negb inSingle else inSingle in
      let inDouble := if is_dquote ch && negb inSingle then negb inDouble else inDouble in
      if negb inSingle && negb inDouble then
        let depth := if is_lparen ch then S depth else depth in
        let depth := if is_rparen ch then Nat.pred depth else depth in
        if is_comma ch && (depth =? 0) then
          split_loop body rest' (S i) (S i) depth inSingle inDouble
            (parts ++ [Str.trim (Str.slice start i body)])
        else split_loop body rest' (S i) start depth inSingle inDouble parts
      else split_loop body rest' (S i) start depth inSingle inDouble parts
  end.

Definition splitTopLevelComma (body : string) : list string :=
  List.filter Str.truthy (split_loop body body 0 0 0 false false []).

(** *** [parseCreateTableBlocks] *)

Record Block : Type := mkBlock { b_name : string; b_body : string }.

(** [while (p < s.length && cond(s[p])) p++], on the input from [p] on. *)
Fixpoint scan_run (cond : ascii -> bool) (rest : string) (p : nat) : nat :=
  match rest with
  | String c rest' => if cond c then scan_run cond rest' (S p) else p
  | EmptyString => p
  end.

Definition scan_while (cond : ascii -> bool) (s : string) (p : nat) : nat :=
  scan_run cond (Str.drop p s) p.

(** The class [A-Za-z0-9_.Q\.], where Q stands for the double quote. *)
Definition is_name_char (c : ascii) : bool :=
  Chars.is_word c || Ascii.eqb c "." || is_dquote c.

(** The body scan [while (p < s.length && depth > 0)]: returns the final
    [p]. *)
Fixpoint body_scan (rest : string) (p depth : nat) (inSingle inDouble : bool) : nat :=
  match depth with
  | O => p
  | S d =>
      match rest with
      | EmptyString => p
      | String ch rest' =>
          if is_squote ch && negb inDouble then
            body_scan rest' (S p) depth (negb inSingle) inDouble
          else if is_dquote ch && negb inSingle then
            body_scan rest' (S p) depth inSingle (negb inDouble)
          else if negb inSingle && negb inDouble then
            if is_lparen ch then body_scan rest' (S p) (S depth) inSingle inDouble
            else if is_rparen ch then body_scan rest' (S p) d inSingle inDouble
            else body_scan rest' (S p) depth inSingle inDouble
          else body_scan rest' (S p) depth inSingle inDouble
      end
  end.

Definition createTable : string := "create table".

(** The name after the keyword: [(rawName, p)]. *)
Definition read_name (s : string) (p : nat) : string * nat :=
  if opt_test is_dquote (Str.at_ s p) then
    let p := S p in
    let start := p in
    let p := scan_while (fun c => negb (is_dquote c)) s p in
    (Str.slice start p s, S p)
  else
    let start := p in
    let p := scan_while is_name_char s p in
    (Str.slice start p s, p).

(** The outer [while (i < s.length)] loop; [None] when [fuel] iterations do
    not end it. *)
Fixpoint blocks_loop (fuel : nat) (s lower : string) (i : nat) (out : list Block)
  : option (list Block) :=
  match fuel with
  | O => None
  | S fuel' =>
      if negb (i <? String.length s) then Some out
      else
        match Str.indexOf createTable lower i with
        | None => Some out
        | Some idx =>
            let p := idx + String.length createTable in
            let p := scan_while Chars.is_space s p in
            let '(rawName, p) := read_name s p in
            let name := normalizeTableName rawName in
            let p := scan_while (fun c => negb (is_lparen c)) s p in
            if (String.length s <=? p) || negb (opt_test is_lparen (Str.at_ s p)) then
              blocks_loop fuel' s lower p out
            else
              let bodyStart := p + 1 in
              let p := S p in
              let p := body_scan (Str.drop p s) p 1 false false in
              let bodyEnd := p - 1 in
              let body := Str.slice bodyStart bodyEnd s in
              blocks_loop fuel' s lower p (out ++ [mkBlock name body])
        end
  end.

(** Every iteration moves [i] forward, so [s.length + 1] iterations are
    enough (see [blocks_loop_total]). *)
Definition parseCreateTableBlocks (sql : string) : option (list Block) :=
  blocks_loop (S (String.length sql)) sql (Str.toLowerCase sql) 0 [].

(** *** The patterns *)

Definition word_or_dot : regex := RChar (fun c => Chars.is_word c || Ascii.eqb c ".").
(** A possibly quoted, possibly qualified name: Q?[\w.]+Q? with Q the
    double quote. *)
Definition qname : regex := rseq [ROpt dq; rplus word_or_dot; ROpt dq].
(** Q?([\w]+)Q? with the capture numbered [n]. *)
Definition qident (n : nat) : regex := rseq [ROpt dq; RGroup n (rplus word); ROpt dq].
(** (?: \( \s* Q? ([\w]+) Q? \s* \) )? with the capture numbered [n]. *)
Definition opt_target_column (n : nat) : regex :=
  ROpt (rseq [lit "("; rstar ws; qident n; rstar ws; lit ")"]).

(** The [gi] enum pattern, token by token:
    create \s+ type \s+ (Q? [\w.]+ Q?) \s+ as \s+ enum \s* \( ([\s\S]*?) \) \s* ;? *)
Definition enumRe : regex :=
  rseq [lit_i "create"; rplus ws; lit_i "type"; rplus ws; RGroup 1 qname;
        rplus ws; lit_i "as"; rplus ws; lit_i "enum"; rstar ws; lit "(";
        RGroup 2 (RStar false any); lit ")"; rstar ws; ROpt (lit ";")].

(** The [g] pattern of a quoted literal: a single quote, capture 1 holding
    any number of [''] or [[^']], a single quote. *)
Definition valRe : regex :=
  rseq [lit "'"; RGroup 1 (rstar (RAlt (lit "''") (not_chr "'"))); lit "'"].

(** [/''/g] *)
Definition twoQuotesRe : regex := lit "''".

(** The [gi] index pattern, token by token (Q is the double quote):
    create \s+ (unique \s+)? index \s+ (Q? [^Q\s;]+ Q?) \s+ on \s+ (Q? [\w.]+ Q?) \s*
    (?: using \s+ (\w+) \s* )? \( ([\s\S]*?) \) \s*
    (?: include \s* \( ([\s\S]*?) \) \s* )?
    (?: where \s* \( ([\s\S]*?) \) \s* )? ;? *)
Definition indexRe : regex :=
  rseq [lit_i "create"; rplus ws;
        ROpt (RGroup 1 (rseq [lit_i "unique"; rplus ws]));
        lit_i "index"; rplus ws;
        RGroup 2 (rseq [ROpt dq;
                        rplus (RChar (fun c => negb (is_dquote c || Chars.is_space c
                                                     || Ascii.eqb c ";")));
                        ROpt dq]);
        rplus ws; lit_i "on"; rplus ws; RGroup 3 qname; rstar ws;
        ROpt (rseq [lit_i "using"; rplus ws; RGroup 4 (rplus word); rstar ws]);
        lit "("; RGroup 5 (RStar false any); lit ")"; rstar ws;
        ROpt (rseq [lit_i "include"; rstar ws; lit "("; RGroup 6 (RStar false any);
                    lit ")"; rstar ws]);
        ROpt (rseq [lit_i "where"; rstar ws; lit "("; RGroup 7 (RStar false any);
                    lit ")"; rstar ws]);
        ROpt (lit ";")].

(** The [i] pattern of a table-level foreign key, token by token:
    (?: constraint \s+ Q? [^Q\s]+ Q? \s+ )? foreign \s+ key \s* \( \s* Q? ([\w]+) Q? \s* \)
    \s+ references \s+ (Q? [\w.]+ Q?) \s* (?: \( \s* Q? ([\w]+) Q? \s* \) )? *)
Definition tableFkRe : regex :=
  rseq [ROpt (rseq [lit_i "constraint"; rplus ws; ROpt dq;
                    rplus (RChar (fun c => negb (is_dquote c || Chars.is_space c)));
                    ROpt dq; rplus ws]);
        lit_i "foreign"; rplus ws; lit_i "key"; rstar ws; lit "("; rstar ws;
        qident 1; rstar ws; lit ")"; rplus ws; lit_i "references"; rplus ws;
        RGroup 2 qname; rstar ws; opt_target_column 3].

(** The [i] pattern of a column-level reference, token by token:
    ^ Q? ([\w]+) Q? \s+ ([\s\S]+?) \s+ references \s+ (Q? [\w.]+ Q?) \s*
    (?: \( \s* Q? ([\w]+) Q? \s* \) )? *)
Definition colRefRe : regex :=
  rseq [RBol; qident 1; rplus ws; RGroup 2 (rplus_lazy any); rplus ws;
        lit_i "references"; rplus ws; RGroup 3 qname; rstar ws;
        opt_target_column 4].

(** [/^constraint\b/i], [/\breferences\b/i], [/^primary\s+key\b/i],
    [/^unique\b/i], [/^check\b/i] *)
Definition constraintRe : regex := rseq [RBol; lit_i "constraint"; RWordB].
Definition referencesRe : regex := rseq [RWordB; lit_i "references"; RWordB].
Definition primaryKeyClauseRe : regex :=
  rseq [RBol; lit_i "primary"; rplus ws; lit_i "key"; RWordB].
Definition uniqueRe : regex := rseq [RBol; lit_i "unique"; RWordB].
Definition checkRe : regex := rseq [RBol; lit_i "check"; RWordB].

(** [/^Q?([\w]+)Q?\s+(.+)$/] *)
Definition colDefRe : regex :=
  rseq [RBol; qident 1; rplus ws; RGroup 2 (rplus dot); REol].

(** [/\bprimary\s+key\b/i] and [/\bnot\s+null\b/i] *)
Definition primaryKeyRe : regex :=
  rseq [RWordB; lit_i "primary"; rplus ws; lit_i "key"; RWordB].
Definition notNullRe : regex :=
  rseq [RWordB; lit_i "not"; rplus ws; lit_i "null"; RWordB].

(** The [i] pattern of a type, token by token:
    ^ \s* ([a-zA-Z_]+)
    ( \s+ with \s+ time \s+ zone | \s+ without \s+ time \s+ zone | \s+ varying )?
    ( \s* \( [^\)]* \) )? ( \[\] )? *)
Definition typeRe : regex :=
  rseq [RBol; rstar ws;
        RGroup 1 (rplus (RChar (fun c => Chars.is_alpha c || Ascii.eqb c "_")));
        ROpt (RGroup 2
          (RAlt (rseq [rplus ws; lit_i "with"; rplus ws; lit_i "time"; rplus ws; lit_i "zone"])
          (RAlt (rseq [rplus ws; lit_i "without"; rplus ws; lit_i "time"; rplus ws; lit_i "zone"])
                (rseq [rplus ws; lit_i "varying"]))));
        ROpt (RGroup 3 (rseq [rstar ws; lit "("; rstar (not_chr ")"); lit ")"]));
        ROpt (RGroup 4 (lit "[]"))].

(** The [g] pattern \( [^\)]* \) of a parenthesised suffix. *)
Definition parenRe : regex := rseq [lit "("; rstar (not_chr ")"); lit ")"].

(** [/_enum$/i] *)
Definition enumSuffixRe : regex := rseq [lit_i "_enum"; REol].

(** *** [parseEnumTypes] *)

(** Reading a capture the code uses as a string: on [undefined] the call
    made on it throws, which is [None] here. *)
Definition parseEnumValues (body : string) : option (list string) :=
  vms ← exec_all false valRe body;
  mapM (fun vm => v ← group body vm 1;
                  Some (replace_all false twoQuotesRe "'" v)) vms.

Definition parseEnum (sql : string) (m : rmatch_result) : option SqlEnum :=
  raw ← group sql m 1;
  body ← group sql m 2;
  values ← parseEnumValues body;
  Some (mkEnum (normalizeTableName raw) values).

Definition parseEnumTypes (sql : string) : option (list SqlEnum) :=
  ms ← exec_all false enumRe sql;
  mapM (parseEnum sql) ms.

(** *** Indexes *)

(** [g ? f(g) : undefined] for a capture [g]. *)
Definition if_truthy (f : string -> string) (g : option string) : option string :=
  match g with
  | Some s => if Str.truthy s then Some (f s) else None
  | None => None
  end.

Definition parseIndex (cleaned : string) (im : rmatch_result) : option SqlIndex :=
  let unique := match group cleaned im 1 with
                | Some s => Str.truthy s
                | None => false
                end in
  g2 ← group cleaned im 2;
  g3 ← group cleaned im 3;
  let method := Str.toLowerCase <$> group cleaned im 4 in
  g5 ← group cleaned im 5;
  Some (mkIndex (unquoteIdent g2) (normalizeTableName g3) unique method
          (normalizeWs g5)
          (if_truthy normalizeWs (group cleaned im 6))
          (if_truthy normalizeWs (group cleaned im 7))).

Definition parseIndexes (cleaned : string) : option (list SqlIndex) :=
  ims ← exec_all false indexRe cleaned;
  mapM (parseIndex cleaned) ims.

(** *** [parseSqlToGraph] *)

(** The template [`${fromTable}.${fromColumn}->${toTable}.${toColumn}`]. *)
Definition relId (fromT fromC toT toC : string) : string :=
  String.append fromT (String.append "." (String.append fromC
    (String.append "->" (String.append toT (String.append "." toC))))).

(** What the loop over the items of one table updates: the [columns] of the
    table, and the [relations] and [pkByTable] of the whole run. *)
Record ItemAcc : Type := mkAcc {
  a_columns : list SqlColumn;
  a_relations : list SqlRelation;
  a_pkByTable : gmap string string
}.

(** [x || '?'] *)
Definition or_qmark (x : string) : string := if Str.truthy x then x else "?".

(** The branch [if (fk) { ... continue; }]. *)
Definition tableLevelFk (tableName line : string) (fk : rmatch_result)
  (a : ItemAcc) : option ItemAcc :=
  g1 ← group line fk 1;
  g2 ← group line fk 2;
  let fromColumn := unquoteIdent g1 in
  let toTable := normalizeTableName g2 in
  let toColumn := match if_truthy unquoteIdent (group line fk 3) with
                  | Some c => c
                  | None => ""
                  end in
  Some (mkAcc (a_columns a)
          (a_relations a ++
             [mkRelation (Some (relId tableName fromColumn toTable (or_qmark toColumn)))
                tableName fromColumn toTable toColumn])
          (a_pkByTable a)).

(** The type token of a column. *)
Definition columnType (rest : string) : string :=
  let fallback := match head (Str.split " " (normalizeWs rest)) with
                  | Some w => w
                  | None => normalizeWs rest
                  end in
  match exec false typeRe rest with
  | Some tm => if Str.truthy (whole rest tm) then normalizeWs (whole rest tm) else fallback
  | None => fallback
  end.

(** The enum flags of a column of type [type]. *)
Definition enumOf (enumSet : gset string) (type : string) : option string :=
  let base := baseTypeOf (replace_all false parenRe "" type) in
  let enumName := normalizeTableName base in
  if bool_decide (enumName ∈ enumSet) || test false enumSuffixRe enumName
  then Some enumName else None.

(** A column definition, from the match [m] of [colDefRe] on. *)
Definition columnDef (enumSet : gset string) (tableName line : string)
  (m : rmatch_result) (a : ItemAcc) : option ItemAcc :=
  g1 ← group line m 1;
  rest ← group line m 2;
  let colName := unquoteIdent g1 in
  let isPk := test false primaryKeyRe rest in
  let isNotNull := isPk || test false notNullRe rest in
  let type := columnType rest in
  let pk := if isPk && negb (bool_decide (is_Some (a_pkByTable a !! tableName)))
            then <[tableName := colName]> (a_pkByTable a) else a_pkByTable a in
  let en := enumOf enumSet type in
  let isEn := match en with Some _ => Some true | None => None end in
  match exec false colRefRe line with
  | Some r =>
      r1 ← group line r 1;
      r3 ← group line r 3;
      let fromColumn := unquoteIdent r1 in
      let toTable := normalizeTableName r3 in
      let toColumn := if_truthy unquoteIdent (group line r 4) in
      let col := mkColumn colName type isPk (Some isNotNull) (Some true)
                   (Some (mkFkTo toTable toColumn)) isEn en in
      Some (mkAcc (a_columns a ++ [col])
              (a_relations a ++
                 [mkRelation
                    (Some (relId tableName fromColumn toTable (default "?" toColumn)))
                    tableName fromColumn toTable (default "" toColumn)])
              pk)
  | None =>
      let col := mkColumn colName type isPk (Some isNotNull) None None isEn en in
      Some (mkAcc (a_columns a ++ [col]) (a_relations a) pk)
  end.

(** The body of [for (const item of items)]. *)
Definition processItem (enumSet : gset string) (tableName : string)
  (a : ItemAcc) (item : string) : option ItemAcc :=
  let line := normalizeWs item in
  match exec false tableFkRe line with
  | Some fk => tableLevelFk tableName line fk a
  | None =>
      if test false constraintRe line && negb (test false referencesRe line) then Some a
      else if test false primaryKeyClauseRe line then Some a
      else if test false uniqueRe line then Some a
      else if test false checkRe line then Some a
      else
        match exec false colDefRe line with
        | None => Some a
        | Some m => columnDef enumSet tableName line m a
        end
  end.

Fixpoint foldlM {A B : Type} (f : A -> B -> option A) (a : A) (l : list B) : option A :=
  match l with
  | [] => Some a
  | b :: l' => a' ← f a b; foldlM f a' l'
  end.

(** The state of the loop over the table blocks. [tableByName] maps a name
    to the position in [tables] of the table object the [Map] holds. *)
Record PState : Type := mkPState {
  p_tables : list SqlTable;
  p_relations : list SqlRelation;
  p_tableByName : gmap string nat;
  p_pkByTable : gmap string string
}.

Definition initPState : PState := mkPState [] [] ∅ ∅.

(** The body of [for (const { name: tableName, body } of tableBlocks)]. *)
Definition processBlock (enumSet : gset string) (st : PState) (b : Block)
  : option PState :=
  let tableName := b_name b in
  let items := splitTopLevelComma (b_body b) in
  a ← foldlM (processItem enumSet tableName)
             (mkAcc [] (p_relations st) (p_pkByTable st)) items;
  let t := mkTable tableName (a_columns a) [] in
  Some (mkPState (p_tables st ++ [t]) (a_relations a)
          (<[tableName := length (p_tables st)]> (p_tableByName st))
          (a_pkByTable a)).

(** [t.indexes.push(idx)] on the table at position [i]. *)
Definition push_index (idx : SqlIndex) (t : SqlTable) : SqlTable :=
  mkTable (t_name t) (columns t) (indexes t ++ [idx]).

Definition attachIndex (tableByName : gmap string nat) (tables : list SqlTable)
  (idx : SqlIndex) : list SqlTable :=
  match tableByName !! ix_table idx with
  | Some i => alter (push_index idx) i tables
  | None => tables
  end.

(** [r.toColumn && r.toColumn.length > 0 ? r.toColumn : pkByTable.get(r.toTable) ?? 'id'] *)
Definition resolveColumn (pkByTable : gmap string string) (r : SqlRelation) : string :=
  if Str.truthy (toColumn r) && (0 <? String.length (toColumn r))
  then toColumn r
  else default "id" (pkByTable !! toTable r).

Definition resolveRelation (pkByTable : gmap string string) (r : SqlRelation)
  : SqlRelation :=
  let toColumn := resolveColumn pkByTable r in
  mkRelation (Some (relId (fromTable r) (fromColumn r) (toTable r) toColumn))
    (fromTable r) (fromColumn r) (toTable r) toColumn.

Definition has_table (tableByName : gmap string nat) (n : string) : bool :=
  bool_decide (is_Some (tableByName !! n)).

Definition resolveRelations (tableByName : gmap string nat)
  (pkByTable : gmap string string) (rels : list SqlRelation) : list SqlRelation :=
  List.filter (fun r => has_table tableByName (fromTable r)
                        && has_table tableByName (toTable r))
    (List.map (resolveRelation pkByTable) rels).

(** [c.isForeignKey = true; c.fkTo = {...}] on the first column named
    [rel.fromColumn]. *)
Definition set_fk (rel : SqlRelation) (c : SqlColumn) : SqlColumn :=
  mkColumn (c_name c) (c_type c) (isPrimaryKey c) (isNotNull c) (Some true)
    (Some (mkFkTo (toTable rel) (Some (toColumn rel)))) (isEnum c) (enumName c).

Fixpoint mark_first (rel : SqlRelation) (cols : list SqlColumn) : list SqlColumn :=
  match cols with
  | [] => []
  | c :: cs =>
      if String.eqb (c_name c) (fromColumn rel) then set_fk rel c :: cs
      else c :: mark_first rel cs
  end.

Definition mark_table (rel : SqlRelation) (t : SqlTable) : SqlTable :=
  mkTable (t_name t) (mark_first rel (columns t)) (indexes t).

Definition markFk (tableByName : gmap string nat) (tables : list SqlTable)
  (rel : SqlRelation) : list SqlTable :=
  match tableByName !! fromTable rel with
  | Some i => alter (mark_table rel) i tables
  | None => tables
  end.

(** The state after the loop over the table blocks: the tables as pushed,
    the relations as captured (the target column still empty when the clause
    omitted it), [tableByName] and [pkByTable]. *)
Definition collect (enumSet : gset string) (cleaned : string) : option PState :=
  tableBlocks ← parseCreateTableBlocks cleaned;
  foldlM (processBlock enumSet) initPState tableBlocks.

(** What [parseSqlToGraph] holds when it reaches [// Attach indexes to
    tables]. *)
Record Captured : Type := mkCaptured {
  cp_enums : list SqlEnum;
  cp_indexes : list SqlIndex;
  cp_state : PState
}.

(** [parseSqlToGraph] up to that point. [None] stands for a call that throws
    or does not return. *)
Definition capture (sql : string) : option Captured :=
  let cleaned := stripComments sql in
  enums ← parseEnumTypes cleaned;
  let enumSet : gset string := list_to_set (List.map en_name enums) in
  allIndexes ← parseIndexes cleaned;
  st ← collect enumSet cleaned;
  Some (mkCaptured enums allIndexes st).

(** [parseSqlToGraph] from that point on. *)
Definition assemble (cp : Captured) : SqlGraph :=
  let st := cp_state cp in
  let tables := foldl (attachIndex (p_tableByName st)) (p_tables st) (cp_indexes cp) in
  let resolvedRelations :=
    resolveRelations (p_tableByName st) (p_pkByTable st) (p_relations st) in
  let tables := foldl (markFk (p_tableByName st)) tables resolvedRelations in
  mkGraph tables resolvedRelations (cp_enums cp).

Definition parseSqlToGraph (sql : string) : option SqlGraph :=
  assemble <$> capture sql.

(** *** Notions used to state the properties *)

(** The names of the columns of [cols] flagged primary key, in order. *)
Definition pkNames (cols : list SqlColumn) : list string :=
  List.map c_name (List.filter isPrimaryKey cols).

(** The primary-key columns of the tables named [n], in the order of
    [tables]; the first one is the first primary-key column discovered for
    that name. *)
Definition pkNamesOf (n : string) (tables : list SqlTable) : list string :=
  List.flat_map (fun t => if String.eqb (t_name t) n then pkNames (columns t) else [])
    tables.

Definition firstPk (tables : list SqlTable) (n : string) : option string :=
  head (pkNamesOf n tables).

(** A column flagged primary key is flagged not-null. *)
Definition pk_implies_not_null (c : SqlColumn) : Prop :=
  isPrimaryKey c = true -> isNotNull c = Some true.

(** Some table of [tables] is named [n]. *)
Definition is_table (tables : list SqlTable) (n : string) : bool :=
  existsb (fun t => String.eqb (t_name t) n) tables.

(** Both ends of the captured reference [c] are names of tables. *)
Definition between_tables (tables : list SqlTable) (c : SqlRelation) : bool :=
  is_table tables (fromTable c) && is_table tables (toTable c).

(** The tables named [n], in the order of [tables]. *)
Definition tablesNamed (n : string) (tables : list SqlTable) : list SqlTable :=
  List.filter (fun t => String.eqb (t_name t) n) tables.

(** What the returned relation [r] is to the captured reference [c]: the
    same ends, and the target column of [c] when it has one; when it has
    none, the first primary-key column discovered among the tables that bear
    the name of the target, or [id] when none of them declares one. When a
    single table bears that name, this is its own first primary-key column. *)
Record resolves (tables : list SqlTable) (r c : SqlRelation) : Prop := Resolves {
  rs_fromTable : fromTable r = fromTable c;
  rs_fromColumn : fromColumn r = fromColumn c;
  rs_toTable : toTable r = toTable c;
  rs_given : toColumn c <> "" -> toColumn r = toColumn c;
  rs_omitted : toColumn c = "" ->
    toColumn r = default "id" (firstPk tables (toTable c));
  rs_single : forall t, toColumn c = "" -> tablesNamed (toTable c) tables = [t] ->
    toColumn r = default "id" (head (pkNames (columns t)))
}.

(** *** What the loops keep true *)

(** The three things [processItem] can do to the accumulator of table
    [tn]: nothing, push relations, or push one column (with the relations of
    its reference, and the first primary key of [tn] recorded). *)
Inductive item_step (tn : string) (a : ItemAcc) : ItemAcc -> Prop :=
| item_skip : item_step tn a a
| item_fk (rel : SqlRelation) :
    item_step tn a (mkAcc (a_columns a) (a_relations a ++ [rel]) (a_pkByTable a))
| item_col (col : SqlColumn) (rels : list SqlRelation) :
    pk_implies_not_null col ->
    item_step tn a
      (mkAcc (a_columns a ++ [col]) (a_relations a ++ rels)
         (if isPrimaryKey col && negb (bool_decide (is_Some (a_pkByTable a !! tn)))
          then <[tn := c_name col]> (a_pkByTable a) else a_pkByTable a)).

Definition table_cols_ok (t : SqlTable) : Prop :=
  Forall pk_implies_not_null (columns t).

(** While the items of table [tn] are read, after the tables [tables]. *)
Record acc_ok (tables : list SqlTable) (tn : string) (a : ItemAcc) : Prop := AccOk {
  aok_cols : Forall pk_implies_not_null (a_columns a);
  aok_pk : forall n,
    a_pkByTable a !! n = firstPk (tables ++ [mkTable tn (a_columns a) []]) n
}.

Record pstate_ok (st : PState) : Prop := PStateOk {
  ok_cols : Forall table_cols_ok (p_tables st);
  ok_names : forall n i,
    p_tableByName st !! n = Some i -> t_name <$> p_tables st !! i = Some n;
  ok_pk : forall n, p_pkByTable st !! n = firstPk (p_tables st) n
}.

(** *** Notions used to state further properties *)

(** The flags [processItem] sets together on the column it pushes, which
    marking the foreign keys keeps: [isNotNull] is set; [isForeignKey] is set
    with [fkTo]; [enumName] is what [enumOf] makes of the type; [isEnum] is
    set with [enumName]. *)
Record flags_ok (enumSet : gset string) (c : SqlColumn) : Prop := FlagsOk {
  fo_notnull : is_Some (isNotNull c);
  fo_fk : isForeignKey c = (fun _ => true) <$> fkTo c;
  fo_enum : enumName c = enumOf enumSet (c_type c);
  fo_isEnum : isEnum c = (fun _ => true) <$> enumName c
}.

(** What the loop over the blocks pushes for the block [b]. *)
Definition table_of_block (es : gset string) (t : SqlTable) (b : Block) : Prop :=
  t_name t = b_name b /\ indexes t = [] /\
  length (columns t) <= length (splitTopLevelComma (b_body b)) /\
  Forall (flags_ok es) (columns t).

(** Another table named [n] follows position [i]. *)
Definition later_named (n : string) (i : nat) (ts : list SqlTable) : bool :=
  existsb (fun t => String.eqb (t_name t) n) (drop (S i) ts).

(** [tableByName] holds, for a name, the last table pushed under it. *)
Definition registered (tbn : gmap string nat) (ts : list SqlTable) : Prop :=
  forall n i, tbn !! n = Some i <->
              (t_name <$> ts !! i = Some n /\ later_named n i ts = false).

(** All the pushes of the loop [for (const idx of allIndexes)] on the table
    at position [i]. *)
Definition attach_all (tbn : gmap string nat) (ixs : list SqlIndex) (i : nat)
  (t : SqlTable) : SqlTable :=
  mkTable (t_name t) (columns t)
    (indexes t ++
     List.filter (fun ix => bool_decide (tbn !! ix_table ix = Some i)) ixs)%list.

(** The enum [e] is named [n]. *)
Definition enum_named (n : string) (e : SqlEnum) : bool := String.eqb (en_name e) n.

(** The test [(x) => x.name === n] of [columns.find]. *)
Definition named (n : string) (c : SqlColumn) : bool := String.eqb (c_name c) n.

(** The column [c] carries the mark of a relation of [done] that leaves
    the same column as [r]. *)
Definition fk_marked (done : list SqlRelation) (r : SqlRelation) (c : SqlColumn) : Prop :=
  isForeignKey c = Some true /\
  exists r', r' ∈ done /\ fromTable r' = fromTable r /\ fromColumn r' = fromColumn r /\
             fkTo c = Some (mkFkTo (toTable r') (Some (toColumn r'))).

(** [s] has a character of the class [p]. *)
Fixpoint has_char (p : ascii -> bool) (s : string) : bool :=
  match s with
  | EmptyString => false
  | String c s' => p c || has_char p s'
  end.

Definition is_dot (c : ascii) : bool := Ascii.eqb c ".".

(** [s.replace(/p+/g, repl)] read as a scan: every maximal run of
    characters of the class [p] becomes [repl]; [in_run] says that the
    character before was one of the run. *)
Fixpoint squeeze (p : ascii -> bool) (repl : string) (s : string) (in_run : bool)
  : string :=
  match s with
  | EmptyString => EmptyString
  | String c s' =>
      if p c then (if in_run then squeeze p repl s' true
                   else String.append repl (squeeze p repl s' true))
      else String c (squeeze p repl s' false)
  end.

(** The words of [s], the maximal runs of characters that are not white
    space, joined by single spaces. [sep] says that a word has been written
    and white space has been read since. *)
Fixpoint join_words (s : string) (started sep : bool) : string :=
  match s with
  | EmptyString => EmptyString
  | String c s' =>
      if Chars.is_space c then join_words s' started started
      else if sep then String " " (String c (join_words s' true false))
           else String c (join_words s' true false)
  end.

(** [s.trimEnd()], without a reversal. *)
Fixpoint trimEnd (s : string) : string :=
  match s with
  | EmptyString => EmptyString
  | String c s' =>
      match trimEnd s' with
      | EmptyString => if Chars.is_space c then EmptyString else String c EmptyString
      | t => String c t
      end
  end.

(** A text in which white space only occurs as single spaces between two
    other characters; [prev_space] says that the character before was a
    space, or that there was none. *)
Fixpoint single_spaced (s : string) (prev_space : bool) : bool :=
  match s with
  | EmptyString => negb prev_space
  | String c s' =>
      if Chars.is_space c then Ascii.eqb c " " && negb prev_space && single_spaced s' true
      else single_spaced s' false
  end.

Definition ws_normal (s : string) : bool :=
  match s with
  | EmptyString => true
  | _ => single_spaced s true
  end.

(** [s.replace(/\s+/g, ' ')] as a scan. *)
Definition sq (s : string) (b : bool) : string := squeeze Chars.is_space " " s b.

(** A property of the rest of the input that going forward keeps. *)
Definition suffix_closed (Q : string -> Prop) : Prop :=
  forall c s, Q (String c s) -> Q s.

(** Every character of [s] is of the class [p]. *)
Fixpoint all_chars (p : ascii -> bool) (s : string) : bool :=
  match s with
  | EmptyString => true
  | String c s' => p c && all_chars p s'
  end.

(** [needle] occurs in [s]. *)
Fixpoint occurs (needle s : string) : bool :=
  Str.is_prefix needle s ||
  match s with
  | EmptyString => false
  | String _ s' => occurs needle s'
  end.

(** A name of word characters: [[A-Za-z0-9_]+]. *)
Definition ident (s : string) : bool := Str.truthy s && all_chars Chars.is_word s.

(** A character that is neither a quote nor a parenthesis. *)
Definition is_plain (c : ascii) : bool :=
  negb (is_squote c || is_dquote c || is_lparen c || is_rparen c).

(** A text without quotes whose parentheses are balanced from the depth
    [depth] on; with [top_commas] unset, every comma is inside
    parentheses. *)
Fixpoint well_nested (top_commas : bool) (x : string) (depth : nat) : bool :=
  match x with
  | EmptyString => depth =? 0
  | String c x' =>
      if is_squote c || is_dquote c then false
      else if is_lparen c then well_nested top_commas x' (S depth)
      else if is_rparen c then
        match depth with
        | O => false
        | S d => well_nested top_commas x' d
        end
      else if is_comma c then
        (top_commas || (0 <? depth)) && well_nested top_commas x' depth
      else well_nested top_commas x' depth
  end.

(** Not white space. *)
Definition not_space (c : ascii) : bool := negb (Chars.is_space c).

(** The statement [create table name(body)]. *)
Definition create_table (name body : string) : string :=
  String.append "create table "
    (String.append name (String "(" (String.append body ")"))).

(** A character of an item: neither a quote, nor a parenthesis, nor a
    comma. *)
Definition is_item_char (c : ascii) : bool := is_plain c && negb (is_comma c).

(** What follows the first item in the body: each further item after a
    comma and the white space [w]. *)
Fixpoint more_items (w : string) (items : list string) : string :=
  match items with
  | [] => EmptyString
  | x :: rest => String "," (String.append w (String.append x (more_items w rest)))
  end.

Definition join_items (w : string) (items : list string) : string :=
  match items with
  | [] => EmptyString
  | x :: rest => String.append x (more_items w rest)
  end.

(** An item that [splitTopLevelComma] gives back as it is. *)
Definition item_ok (x : string) : bool :=
  Str.truthy x && well_nested false x 0 && String.eqb (Str.trim x) x.

(** The item [name type] of a column. *)
Definition column_item (ct : string * string) : string :=
  String.append ct.1 (String " " ct.2).

(** At most one white-space character. *)
Fixpoint one_space (s : string) : bool :=
  match s with
  | EmptyString => true
  | String c s' => if Chars.is_space c then all_chars not_space s' else one_space s'
  end.

(** The tests of [processItem] that make it ignore an item. *)
Definition is_noise (line : string) : bool :=
  (test false constraintRe line && negb (test false referencesRe line))
  || test false primaryKeyClauseRe line
  || test false uniqueRe line
  || test false checkRe line.

(** A column [name type] that [processItem] reads as a column: two names of
    word characters, and not one of the clauses it ignores. *)
Definition column_ok (ct : string * string) : bool :=
  ident ct.1 && ident ct.2 && negb (is_noise (column_item ct)).

(** The statement [create table name(c1 t1,w c2 t2,w ...)]. *)
Definition table_statement (name w : string) (cols : list (string * string)) : string :=
  create_table name (join_items w (List.map column_item cols)).

(** What the extractor records of a column, the enum flags apart. *)
Definition column_facts (c : SqlColumn)
  : string * string * bool * option bool * option bool * option FkTo :=
  (c_name c, c_type c, isPrimaryKey c, isNotNull c, isForeignKey c, fkTo c).

(** A character of [table_statement]. *)
Definition is_statement_char (c : ascii) : bool :=
  Chars.is_word c || Chars.is_space c || is_comma c || is_lparen c || is_rparen c.

(** A character of the first chunk of a type: [[a-zA-Z_]]. *)
Definition is_type_letter (c : ascii) : bool := Chars.is_alpha c || Ascii.eqb c "_".

(** What ends the type token: the end of the text, or a character that is
    neither of the type, nor white space, nor an opening parenthesis or
    bracket. *)
Definition type_stop (r : string) : bool :=
  match r with
  | EmptyString => true
  | String c _ =>
      negb (is_type_letter c || Chars.is_space c || is_lparen c || Ascii.eqb c "[")
  end.

(** A value written for an enum: every single quote doubled. *)
Fixpoint escape (v : string) : string :=
  match v with
  | EmptyString => EmptyString
  | String c v' =>
      if is_squote c then String "'" (String "'" (escape v')) else String c (escape v')
  end.

(** The literal of the value [v]. *)
Definition quote (v : string) : string := String "'" (String.append (escape v) "'").

(** The text does not start with a single quote. *)
Definition no_quote_ahead (s : string) : bool :=
  match s with
  | EmptyString => true
  | String c _ => negb (is_squote c)
  end.

(** The statement [create type name as enum (body)]. *)
Definition enum_statement (name body : string) : string :=
  String.append "create type "
    (String.append name (String.append " as enum (" (String.append body ")"))).

(** Not a closing parenthesis. *)
Definition not_rparen (c : ascii) : bool := negb (is_rparen c).

(** The name [n] between double quotes. *)
Definition quoted_name (n : string) : string :=
  String Chars.dquote (String.append n (String Chars.dquote "")).

(** A character of a schema prefix: neither white space nor a double
    quote. *)
Definition is_prefix_char (c : ascii) : bool :=
  negb (Chars.is_space c) && negb (is_dquote c).

(** What stands between two statements: white space and semicolons. *)
Definition is_sep_char (c : ascii) : bool := Chars.is_space c || Ascii.eqb c ";".

(** The script of the statements [create table name(body)], each followed
    by [sep]. *)
Fixpoint table_script (sep : string) (l : list (string * string)) : string :=
  match l with
  | [] => EmptyString
  | nb :: l' =>
      String.append (create_table nb.1 nb.2) (String.append sep (table_script sep l'))
  end.

(** A table [name] with columns [(name, type)] that the extractor reads as
    written. *)
Definition table_ok (nc : string * list (string * string)) : bool :=
  ident nc.1 && forallb column_ok nc.2.

(** The name and the body [c1 t1,w c2 t2,w ...] of the statement of a
    table. *)
Definition table_text (w : string) (nc : string * list (string * string))
  : string * string :=
  (nc.1, join_items w (List.map column_item nc.2)).

(** The script [create table n1(c t, ...)sep create table n2(...)sep ...]. *)
Definition schema_script (sep w : string) (ts : list (string * list (string * string)))
  : string :=
  table_script sep (List.map (table_text w) ts).

(** A character of [schema_script]. *)
Definition is_script_char (c : ascii) : bool := is_statement_char c || Ascii.eqb c ";".

(** What the extractor records of a table, the indexes and the enum flags
    apart. *)
Definition table_facts (t : SqlTable)
  : string * list (string * string * bool * option bool * option bool * option FkTo) :=
  (t_name t, List.map column_facts (columns t)).

(** What a statement of the script says of its table. *)
Definition stated_facts (nc : string * list (string * string))
  : string * list (string * string * bool * option bool * option bool * option FkTo) :=
  (nc.1, List.map (fun ct => (ct.1, columnType ct.2, false, Some false, None, None)) nc.2).

(** The statement [create [unique] index name on table (expression)]. *)
Definition index_statement (unique : bool) (name table expression : string) : string :=
  String.append "create "
    (String.append (if unique then "unique " else "")
       (String.append "index "
          (String.append name
             (String.append " on "
                (String.append table
                   (String.append " (" (String.append expression ")"))))))).

(** [indexRe] from the keyword [index] on. *)
Definition indexRe_tail : regex :=
  rseq [lit_i "index"; rplus ws;
        RGroup 2 (rseq [ROpt dq;
                        rplus (RChar (fun c => negb (is_dquote c || Chars.is_space c
                                                     || Ascii.eqb c ";")));
                        ROpt dq]);
        rplus ws; lit_i "on"; rplus ws; RGroup 3 qname; rstar ws;
        ROpt (rseq [lit_i "using"; rplus ws; RGroup 4 (rplus word); rstar ws]);
        lit "("; RGroup 5 (RStar false any); lit ")"; rstar ws;
        ROpt (rseq [lit_i "include"; rstar ws; lit "("; RGroup 6 (RStar false any);
                    lit ")"; rstar ws]);
        ROpt (rseq [lit_i "where"; rstar ws; lit "("; RGroup 7 (RStar false any);
                    lit ")"; rstar ws]);
        ROpt (lit ";")].

(** Not a dash, and not a slash. *)
Definition not_dash (c : ascii) : bool := negb (Ascii.eqb c "-").
Definition not_slash (c : ascii) : bool := negb (Ascii.eqb c "/").

(** The text is at the end of a line: it is empty or starts with a line
    terminator. *)
Definition line_end (b : string) : bool :=
  match b with
  | EmptyString => true
  | String c _ => Chars.is_line_terminator c
  end.

(** [x] is the word [w] in some letter case: character by character, the
    test of the [i] flag. *)
Fixpoint same_ci (w x : string) : bool :=
  match w, x with
  | EmptyString, EmptyString => true
  | String p w', String c x' => Chars.eq_ci p c && same_ci w' x'
  | _, _ => false
  end.

(** White space, at least one character of it. *)
Definition blank (s : string) : bool := all_chars Chars.is_space s.
Definition spaces (s : string) : bool := Str.truthy s && blank s.

(** The words of an enum statement as they are written: the four keywords,
    and the white space after each word; there may be none before the
    opening parenthesis. *)
Record EnumWords : Type := mkEnumWords {
  w_create : string; s_create : string;
  w_type : string; s_type : string;
  s_name : string;
  w_as : string; s_as : string;
  w_enum : string; s_enum : string
}.

Definition words_ok (W : EnumWords) : bool :=
  same_ci "create" (w_create W) && spaces (s_create W) &&
  same_ci "type" (w_type W) && spaces (s_type W) &&
  spaces (s_name W) &&
  same_ci "as" (w_as W) && spaces (s_as W) &&
  same_ci "enum" (w_enum W) && blank (s_enum W).

(** The text up to the name, and the text between the name and the values. *)
Definition enum_head (W : EnumWords) : string :=
  String.append (w_create W) (String.append (s_create W)
    (String.append (w_type W) (s_type W))).

Definition enum_mid (W : EnumWords) : string :=
  String.append (s_name W) (String.append (w_as W) (String.append (s_as W)
    (String.append (w_enum W) (String.append (s_enum W) "(")))).

(** The statement [create type name as enum (body)] written with the words
    [W]. *)
Definition enum_text (W : EnumWords) (name body : string) : string :=
  String.append (enum_head W)
    (String.append name (String.append (enum_mid W) (String.append body ")"))).

(** The words of [CREATE TYPE t AS ENUM('a''b','c')]. *)
Definition upper_words : EnumWords :=
  mkEnumWords "CREATE" " " "TYPE" " " " " "AS" " " "ENUM" "".

(** *** Sample inputs *)

(** [DEFAULT_SQL] of the application. *)
Definition DEFAULT_SQL : string := "create table user
(
    id  bigint primary key,
    ame varchar(100)
);

create table content
(
    id         bigint primary key,
    author_id  bigint,
    title      varchar(100),
    created_at timestamp,
    constraint fk_author foreign key (author_id) references user (id)
);

create table view
(
    id             bigint primary key,
    content_id     bigint,
    user_id        bigint,
    total_sec_view int,
    created_at     timestamp,
    constraint fk_content foreign key (content_id) references content (id),
    constraint fk_user foreign key (user_id) references user (id)
);
".

Definition example_sql : string :=
  "create table a(id bigint primary key); create table b(id bigint primary key, a_id bigint references a(id));".

Definition omitted_sql : string :=
  "create table a(uid bigint primary key); create table b(a_id bigint references a, c_id bigint references c); create table c(x int);".

(** Three tables that bear the name [a] once the schema is dropped, and a
    reference to the first of them. *)
Definition repeated_sql : string :=
  "create table s1.a(x int); create table s2.a(y int primary key); create table s3.a(z int); create table b(a_id int references s1.a);".

(** A reference followed by a list of columns. *)
Definition column_list_sql : string :=
  "create table a(k int, uid int primary key); create table b(x int, y int references a(k, uid));".

(** A table-level foreign key without a target column. *)
Definition table_level_sql : string :=
  "create table a(uid int primary key); create table b(x int, foreign key (x) references a);".

Definition cut_short_sql : string := "create table a(id bigint primary key, ".

Definition nameless_sql : string := "create table (x int);".

(** Definitions cut short: an enum in its last literal, an index in its
    [where] clause, a reference in the parentheses of its target column. *)
Definition partial_enum_sql : string := "create type mood as enum ('sad', 'ok);".

Definition partial_index_sql : string :=
  "create table t(a int); create index i on t (a) where (a > 0".

Definition partial_relation_sql : string :=
  "create table a(uid int); create table b(a_id int references a(ui".

End Sql.

(** ** The orthogonal router ([components/konva/DiagramCanvas.tsx]) *)

Module Router.

(** *** Numbers *)

(** A number is a rational; [NaN] and the sign of zero are left out, and
    [Infinity] only appears as the default of a missing score ([lt_inf]).
    A division by zero, which no call of the application makes (the grid step
    is always [ROUTE_GRID]), gives 0 here. *)
Definition num (z : Z) : Qc := Q2Qc (inject_Z z).

(** [===], [<=], [<] on numbers. *)
Definition eqb (x y : Qc) : bool := Qeq_bool x y.
Definition leb (x y : Qc) : bool := Qle_bool x y.
Definition ltb (x y : Qc) : bool := negb (Qle_bool y x).

(** [Math.min(a, b)], [Math.max(a, b)], [Math.min(a, b, ...rest)]. *)
Definition nmin (x y : Qc) : Qc := if leb x y then x else y.
Definition nmax (x y : Qc) : Qc := if leb x y then y else x.
Definition min_of (a : Qc) (rest : list Qc) : Qc := foldl nmin a rest.
Definition max_of (a : Qc) (rest : list Qc) : Qc := foldl nmax a rest.

(** [Math.round]: the nearest integer, halves upwards. *)
Definition round (x : Qc) : Z := Qfloor (x + Q2Qc (1 # 2))%Qc.

(** A number or [Infinity] (the value of [m.get(k) ?? Infinity]): [None] is
    [Infinity]. [lt_inf] is [<] on such values. *)
Definition lt_inf {A : Type} (lt : A -> A -> bool) (x y : option A) : bool :=
  match x, y with
  | Some a, Some b => lt a b
  | Some _, None => true
  | None, _ => false
  end.

(** *** Constants *)

Definition ROUTE_GRID : Qc := num 24.
Definition ROUTE_PAD : Qc := num 260.
Definition OBSTACLE_PAD : Qc := num 14.
Definition ENDPOINT_PAD : Qc := num 4.
Definition ROUTE_MAX_ITERS : nat := N.to_nat 40000.

(** *** Geometry *)

Record AARect : Type := mkRect { r_x : Qc; r_y : Qc; r_w : Qc; r_h : Qc }.

(** A point [{x, y}], also a grid cell. A flat array [x0, y0, x1, y1, ...] of
    even length is the list of its points. *)
Abbreviation Point := (Qc * Qc)%type.

Definition inflateRect (r : AARect) (pad : Qc) : AARect :=
  mkRect (r_x r - pad)%Qc (r_y r - pad)%Qc
         (r_w r + pad * num 2)%Qc (r_h r + pad * num 2)%Qc.

Definition pointInRect (x y : Qc) (r : AARect) : bool :=
  leb (r_x r) x && leb x (r_x r + r_w r)%Qc
  && leb (r_y r) y && leb y (r_y r + r_h r)%Qc.

Definition snap (v step : Qc) : Qc := (num (round (v / step)) * step)%Qc.

Definition point_eqb (a b : Point) : bool := eqb a.1 b.1 && eqb a.2 b.2.

(** The loop of [compressOrthogonal]: [rout] is [out] with the last point
    first. *)
Fixpoint compress_loop (rout : list Point) (pts : list Point) : list Point :=
  match pts with
  | [] => rev rout
  | (x, y) :: pts' =>
      match rout with
      | (ox, oy) :: before =>
          if eqb x ox && eqb y oy then compress_loop rout pts'
          else
            match before with
            | (px, py) :: _ =>
                if (eqb px ox && eqb ox x) || (eqb py oy && eqb oy y)
                then compress_loop ((x, y) :: before) pts'
                else compress_loop ((x, y) :: rout) pts'
            | [] => compress_loop ((x, y) :: rout) pts'
            end
      | [] => compress_loop [(x, y)] pts'
      end
  end.

(** [pts.length <= 4] is two points or fewer. *)
Definition compressOrthogonal (pts : list Point) : list Point :=
  if length pts <=? 2 then pts
  else match pts with
       | p0 :: rest => compress_loop [p0] rest
       | [] => []
       end.

(** [out.splice(2, 0, nx, sy)] when the first segment is diagonal. *)
Definition corner_after_start (out : list Point) : list Point :=
  match out with
  | (sx, sy) :: (nx, ny) :: tl =>
      if negb (eqb sx nx) && negb (eqb sy ny)
      then (sx, sy) :: (nx, sy) :: (nx, ny) :: tl
      else out
  | _ => out
  end.

(** [out.splice(n - 2, 0, px, ey)] when the last segment is diagonal. *)
Definition corner_before_end (out : list Point) : list Point :=
  let n := length out in
  match out !! (n - 1), out !! (n - 2) with
  | Some (ex, ey), Some (px, py) =>
      if negb (eqb ex px) && negb (eqb ey py)
      then take (n - 1) out ++ [(px, ey); (ex, ey)]
      else out
  | _, _ => out
  end.

(** [pts.length < 8] is fewer than four points. *)
Definition enforceRightAngleEndpoints (pts : list Point) : list Point :=
  if length pts <? 4 then pts
  else compressOrthogonal (corner_before_end (corner_after_start pts)).

Definition manhattan (a b : Point) : Qc :=
  (Qcabs (a.1 - b.1) + Qcabs (a.2 - b.2))%Qc.

Definition isBlocked (x y : Qc) (obstacles : list AARect) : bool :=
  existsb (pointInRect x y) obstacles.

(** *** Nodes and obstacles *)

(** A node with its rectangle [nodeRect(n)]: [n_w] and [n_h] are the results
    of the [estimate*Width] and [estimate*Height] functions of its kind. *)
Inductive NodeKind : Type :=
| TableNode (cols : list string)
| EnumNode.

Record Node : Type := mkNode {
  n_id : string;
  n_kind : NodeKind;
  n_x : Qc;
  n_y : Qc;
  n_w : Qc;
  n_h : Qc
}.

Definition nodeRect (n : Node) : AARect := mkRect (n_x n) (n_y n) (n_w n) (n_h n).

Definition buildObstaclesForEdge (nodes : list Node) (sourceId targetId : string)
  : list AARect :=
  List.map (fun n =>
    let pad := if String.eqb (n_id n) sourceId || String.eqb (n_id n) targetId
               then ENDPOINT_PAD else OBSTACLE_PAD in
    inflateRect (nodeRect n) pad) nodes.

(** *** Anchors *)

(** [TABLE_LAYOUT] of the table node. *)
Definition headerH : Qc := num 40.
Definition padding : Qc := num 12.
Definition rowH : Qc := num 24.

(** [cols.findIndex((c) => c.name === columnName)]; [None] is [-1]. *)
Fixpoint findIndex (name : string) (cols : list string) (i : nat) : option nat :=
  match cols with
  | [] => None
  | c :: cols' => if String.eqb c name then Some i else findIndex name cols' (S i)
  end.

Definition tableAnchorY (cols : list string) (columnName : option string) : Qc :=
  let count := Nat.max 1 (length cols) in
  let idx := match columnName with
             | Some name => default 0 (findIndex name cols 0)
             | None => count / 2
             end in
  let clampedIdx := Nat.min idx (count - 1) in
  let rowTop := (headerH + padding + num (Z.of_nat clampedIdx) * rowH)%Qc in
  (rowTop + rowH / num 2)%Qc.

Definition anchorY (n : Node) (column : option string) : Qc :=
  match n_kind n with
  | TableNode cols => (n_y n + tableAnchorY cols column)%Qc
  | EnumNode => (n_y n + n_h n / num 2)%Qc
  end.

(** [start] and [end] of an edge from [a] to [b]. *)
Definition anchors (a b : Node) (sourceColumn targetColumn : option string)
  : Point * Point :=
  let aCx := (n_x a + n_w a / num 2)%Qc in
  let bCx := (n_x b + n_w b / num 2)%Qc in
  let exitRight := leb aCx bCx in
  let enterLeft := exitRight in
  ((if exitRight then (n_x a + n_w a)%Qc else n_x a, anchorY a sourceColumn),
   (if enterLeft then n_x b else (n_x b + n_w b)%Qc, anchorY b targetColumn)).

(** *** The A* search *)

Record Bounds : Type := mkBounds { minX : Qc; minY : Qc; maxX : Qc; maxY : Qc }.

Definition routeBounds (start goal : Point) (obstacles : list AARect) : Bounds :=
  mkBounds
    (min_of start.1 (goal.1 :: List.map r_x obstacles) - ROUTE_PAD)%Qc
    (min_of start.2 (goal.2 :: List.map r_y obstacles) - ROUTE_PAD)%Qc
    (max_of start.1 (goal.1 :: List.map (fun r => r_x r + r_w r)%Qc obstacles) + ROUTE_PAD)%Qc
    (max_of start.2 (goal.2 :: List.map (fun r => r_y r + r_h r)%Qc obstacles) + ROUTE_PAD)%Qc.

Definition inBounds (b : Bounds) (c : Point) : bool :=
  leb (minX b) c.1 && leb c.1 (maxX b) && leb (minY b) c.2 && leb c.2 (maxY b).

(** The six cells [nudgeOut] tries, in its order. *)
Definition candidates (step : Qc) (c : Point) : list Point :=
  [ (c.1 + step, c.2); (c.1 - step, c.2); (c.1, c.2 + step); (c.1, c.2 - step);
    (c.1 + step * num 2, c.2); (c.1 - step * num 2, c.2) ]%Qc.

Definition free_cell (b : Bounds) (obstacles : list AARect) (k : Point) : bool :=
  inBounds b k && negb (isBlocked k.1 k.2 obstacles).

Definition nudgeOut (b : Bounds) (obstacles : list AARect) (step : Qc) (c : Point)
  : Point :=
  if negb (isBlocked c.1 c.2 obstacles) then c
  else match List.find (free_cell b obstacles) (candidates step c) with
       | Some ok => ok
       | None => c
       end.

Definition neighbors (step : Qc) (c : Point) : list Point :=
  [ (c.1 + step, c.2); (c.1 - step, c.2); (c.1, c.2 + step); (c.1, c.2 - step) ]%Qc.

(** The mutable state of the search. A key [keyOf(c)] is the cell [c]: the
    text [x,y] of a cell determines it. *)
Record AStar : Type := mkAStar {
  open : list Point;
  cameFrom : gmap Point Point;
  gScore : gmap Point nat;
  fScore : gmap Point Qc
}.

Fixpoint bestIndex_loop (fs : gmap Point Qc) (cells : list Point) (i best : nat)
  (bestF : option Qc) : nat :=
  match cells with
  | [] => best
  | c :: cells' =>
      let f := fs !! c in
      if lt_inf ltb f bestF then bestIndex_loop fs cells' (S i) i f
      else bestIndex_loop fs cells' (S i) best bestF
  end.

Definition bestIndex (st : AStar) : nat :=
  bestIndex_loop (fScore st) (open st) 0 0 None.

(** The body of [for (const nb of neighbors(current))]. *)
Definition visit (b : Bounds) (obstacles : list AARect) (g current : Point)
  (st : AStar) (nb : Point) : AStar :=
  if negb (inBounds b nb) then st
  else if isBlocked nb.1 nb.2 obstacles then st
  else
    let tentative := S <$> gScore st !! current in
    if lt_inf Nat.ltb tentative (gScore st !! nb) then
      match tentative with
      | Some t =>
          mkAStar
            (if existsb (point_eqb nb) (open st) then open st else open st ++ [nb])
            (<[nb := current]> (cameFrom st))
            (<[nb := t]> (gScore st))
            (<[nb := (num (Z.of_nat t) + manhattan nb g)%Qc]> (fScore st))
      | None => st
      end
    else st.

(** The loop [while (cameFrom.has(k))] that walks back from the goal: [path]
    in push order. [None] when [fuel] steps do not end it. *)
Fixpoint walk_back (fuel : nat) (cf : gmap Point Point) (k : Point)
  (path : list Point) : option (list Point) :=
  match cf !! k with
  | None => Some path
  | Some prev =>
      match fuel with
      | O => None
      | S fuel' => walk_back fuel' cf prev (path ++ [prev])
      end
  end.

(** [pts[0] = startWorld.x; pts[1] = startWorld.y; pts[len - 2] = endWorld.x;
    pts[len - 1] = endWorld.y], in this order. *)
Definition exact_endpoints (startWorld endWorld : Point) (path : list Point)
  : list Point :=
  let pts := <[0 := startWorld]> path in
  <[length pts - 1 := endWorld]> pts.

(** One turn of the main loop from a state with a non-empty [open]: the next
    state, or the returned path. [None] when [open[idx]] is missing or the walk
    back does not end. The walk back is given as many steps as the score of
    the cell it starts from, which is enough (see [walk_back_total]). *)
Definition iteration (b : Bounds) (obstacles : list AARect) (step : Qc)
  (startWorld endWorld g : Point) (st : AStar) : option (AStar + list Point) :=
  let idx := bestIndex st in
  current ← open st !! idx;
  let st := mkAStar (delete idx (open st)) (cameFrom st) (gScore st) (fScore st) in
  if point_eqb current g then
    path ← walk_back (default 0 (gScore st !! current)) (cameFrom st) current [current];
    Some (inr (compressOrthogonal (exact_endpoints startWorld endWorld (rev path))))
  else
    Some (inl (foldl (visit b obstacles g current) st (neighbors step current))).

(** [while (open.length && iters < ROUTE_MAX_ITERS)]: the result ([None] is
    [null]) and the number of turns taken. The outer [None] is a run that
    [fuel] turns do not end, or that [iteration] does not end. *)
Fixpoint main_loop (fuel : nat) (b : Bounds) (obstacles : list AARect) (step : Qc)
  (startWorld endWorld g : Point) (st : AStar) (iters : nat)
  : option (option (list Point) * nat) :=
  match fuel with
  | O => None
  | S fuel' =>
      if negb (0 <? length (open st)) || negb (iters <? ROUTE_MAX_ITERS)
      then Some (None, iters)
      else
        let iters := iters + 1 in
        r ← iteration b obstacles step startWorld endWorld g st;
        match r with
        | inr pts => Some (Some pts, iters)
        | inl st' => main_loop fuel' b obstacles step startWorld endWorld g st' iters
        end
  end.

Record Setup : Type := mkSetup {
  su_bounds : Bounds;
  su_start : Point;      (* s *)
  su_goal : Point;       (* g *)
  su_state : AStar
}.

(** Everything before the main loop. *)
Definition setup (startWorld endWorld : Point) (obstacles : list AARect) (step : Qc)
  : Setup :=
  let start := (snap startWorld.1 step, snap startWorld.2 step) in
  let goal := (snap endWorld.1 step, snap endWorld.2 step) in
  let b := routeBounds start goal obstacles in
  let s := nudgeOut b obstacles step start in
  let g := nudgeOut b obstacles step goal in
  mkSetup b s g
    (mkAStar [s] ∅ {[ s := 0 ]} {[ s := manhattan s g ]}).

(** The search with the count of the turns of its main loop. *)
Definition routeManhattanAStar_counted (startWorld endWorld : Point)
  (obstacles : list AARect) (step : Qc) : option (option (list Point) * nat) :=
  let su := setup startWorld endWorld obstacles step in
  main_loop (S ROUTE_MAX_ITERS) (su_bounds su) obstacles step startWorld endWorld
    (su_goal su) (su_state su) 0.

Definition routeManhattanAStar (startWorld endWorld : Point)
  (obstacles : list AARect) (step : Qc) : option (option (list Point)) :=
  fst <$> routeManhattanAStar_counted startWorld endWorld obstacles step.

(** *** The path of an edge *)

(** The fallback [compressOrthogonal([start.x, start.y, (start.x + end.x) / 2,
    start.y, (start.x + end.x) / 2, end.y, end.x, end.y])]. *)
Definition fallbackPath (start end_ : Point) : list Point :=
  let mid := ((start.1 + end_.1) / num 2)%Qc in
  compressOrthogonal [start; (mid, start.2); (mid, end_.2); end_].

(** [ptsRaw] then [pts] of [edgePaths]. *)
Definition routedPoints (start end_ : Point) (obstacles : list AARect)
  : option (list Point) :=
  r ← routeManhattanAStar start end_ obstacles ROUTE_GRID;
  Some (enforceRightAngleEndpoints (default (fallbackPath start end_) r)).

(** [nodesById.get(id)]: the last node with this id. *)
Definition nodeById (nodes : list Node) (id : string) : option Node :=
  List.find (fun n => String.eqb (n_id n) id) (rev nodes).

Record Edge : Type := mkEdge {
  e_source : string;
  e_target : string;
  e_sourceColumn : option string;
  e_targetColumn : option string
}.

(** The [points] of one edge in [edgePaths]; the inner [None] is an edge
    with a missing end, which is left out. *)
Definition edgePoints (nodes : list Node) (e : Edge) : option (option (list Point)) :=
  match nodeById nodes (e_source e), nodeById nodes (e_target e) with
  | Some a, Some b =>
      let '(start, end_) := anchors a b (e_sourceColumn e) (e_targetColumn e) in
      Some <$> routedPoints start end_ (buildObstaclesForEdge nodes (e_source e) (e_target e))
  | _, _ => Some None
  end.

(** The coordinates of a list of points as fractions in lowest terms. *)
Definition coords (pts : list Point) : list (Q * Q) :=
  List.map (fun p : Point => (this p.1, this p.2)) pts.

(** *** Notions used to state the properties *)

(** Every link of [cameFrom] goes to a cell with a smaller score. *)
Definition score_ok (st : AStar) : Prop :=
  forall k p, cameFrom st !! k = Some p ->
    exists gk gp, gScore st !! k = Some gk /\ gScore st !! p = Some gp /\ gp < gk.

(** Every open cell but the start cell [s] has a link. *)
Definition open_ok (s : Point) (st : AStar) : Prop :=
  forall c, c ∈ open st -> c = s \/ is_Some (cameFrom st !! c).

(** What the ends of a returned path are: the last point is the target
    anchor; the first point is the source anchor, unless start and goal are
    one cell, and then the path is the target anchor alone. *)
Definition ends_ok (startWorld endWorld s g : Point) (pts : list Point) : Prop :=
  last pts = Some endWorld /\
  (head pts = Some startWorld \/ (s = g /\ pts = [endWorld])).

(** [s] is what [nudgeOut] makes of the cell [c]: [c] itself when it is
    free of obstacles; else the first of the six candidates that is in
    bounds and free of obstacles; else, when there is none, [c] again, still
    inside an obstacle. *)
Definition nudged (b : Bounds) (obstacles : list AARect) (step : Qc) (c s : Point)
  : Prop :=
  length (candidates step c) = 6 /\
  (isBlocked c.1 c.2 obstacles = false -> s = c) /\
  (isBlocked c.1 c.2 obstacles = true ->
     (exists l1 l2, candidates step c = (l1 ++ s :: l2)%list /\
        Forall (fun k => free_cell b obstacles k = false) l1 /\
        inBounds b s = true /\ isBlocked s.1 s.2 obstacles = false)
     \/ (Forall (fun k => free_cell b obstacles k = false) (candidates step c) /\ s = c)).

(** *** Notions used to state further properties *)

(** [a] and [b] share a coordinate: the segment between them is horizontal
    or vertical. *)
Definition aligned (a b : Point) : Prop := a.1 = b.1 \/ a.2 = b.2.

(** One half. *)
Definition half : Qc := Q2Qc (1 # 2).

(** Each cell is one of the four neighbours of the cell before it. *)
Fixpoint grid_walk (step : Qc) (cells : list Point) : Prop :=
  match cells with
  | [] => True
  | c1 :: tl =>
      match tl with
      | [] => True
      | c2 :: _ => c2 ∈ neighbors step c1
      end /\ grid_walk step tl
  end.

(** The cells the walk back pushes from [k]: each is the link of the one
    before, and the last one has no link. *)
Fixpoint linked (cf : gmap Point Point) (k : Point) (ext : list Point) : Prop :=
  match ext with
  | [] => cf !! k = None
  | p :: ext' => cf !! k = Some p /\ linked cf p ext'
  end.

(** What the links of [cameFrom] are: a link goes from a cell in bounds
    and free of obstacles to a neighbour of it, which is the start cell [s] or
    has a link itself; [s] has no link, and keeps the score 0. *)
Record links_ok (b : Bounds) (obstacles : list AARect) (step : Qc) (s : Point)
  (st : AStar) : Prop := LinksOk {
  lk_free : forall k p, cameFrom st !! k = Some p ->
            free_cell b obstacles k = true /\ k ∈ neighbors step p;
  lk_back : forall k p, cameFrom st !! k = Some p ->
            p = s \/ is_Some (cameFrom st !! p);
  lk_start : cameFrom st !! s = None;
  lk_start_score : gScore st !! s = Some 0
}.

(** The cells of a found route: a walk on the grid from the start cell
    [s] to the goal cell [g], in bounds and free of obstacles after its first
    cell. *)
Record route_cells (b : Bounds) (obstacles : list AARect) (step : Qc) (s g : Point)
  (cells : list Point) : Prop := RouteCells {
  rc_head : head cells = Some s;
  rc_last : last cells = Some g;
  rc_walk : grid_walk step cells;
  rc_free : Forall (fun k => free_cell b obstacles k = true) (tail cells)
}.

(** A cell of the grid of step [step]: both coordinates are whole multiples
    of [step]. *)
Definition on_grid (step : Qc) (c : Point) : Prop :=
  exists zx zy : Z, c = (num zx * step, num zy * step)%Qc.





(** A wall between a start and an end, and the route the search finds
    around it. *)
Definition sample_wall : list AARect := [mkRect (num 30) (num (-50)) (num 20) (num 100)].
Definition sample_route : list Point :=
  [(num 0, num 0); (num 24, num 0); (num 24, num 72); (num 96, num 72);
   (num 96, num 24); (num 100, num 10)].

(** The score [fScore.get(keyOf(open[i])) ?? Infinity] of the open cell at
    index [i]; [None] is [Infinity]. *)
Definition open_score (st : AStar) (i : nat) : option Qc :=
  match open st !! i with
  | Some c => fScore st !! c
  | None => None
  end.

(** *** Double precision *)

(** The source computes on IEEE 754 doubles, and the definitions above on
    exact rationals: the two agree as long as no result needs more than the
    53 binary digits of a double. [Double] holds the functions whose
    properties depend on the rounding, computed as the source does: [fl x] is
    the double nearest to the rational [x], a tie going to the even last
    digit, and each arithmetic operation is the exact one followed by [fl].
    Comparisons are exact, and so is [Math.round], the nearest whole number,
    a half going up. Numbers of magnitude [2^1024] and above, which the
    source turns into [Infinity], are not represented. *)
Module Double.

(** [2^e] for an integer [e]. *)
Definition pow2 (e : Z) : Qc :=
  if (0 <=? e)%Z then num (2 ^ e) else (1 / num (2 ^ (- e)))%Qc.

(** The whole number nearest to [x]; halfway between two, the even one. *)
Definition rne (x : Qc) : Z :=
  let f := Qfloor x in
  let r := (x - num f)%Qc in
  if ltb r half then f
  else if ltb half r then (f + 1)%Z
  else if Z.even f then f else (f + 1)%Z.

(** The binary exponent of [x <> 0]: the [e] with [2^e <= |x| < 2^(e+1)]. *)
Definition ilog2 (x : Qc) : Z :=
  if leb 1 (Qcabs x) then Z.log2 (Qfloor (Qcabs x))
  else (- Z.log2_up (Qceiling (1 / Qcabs x)%Qc))%Z.

(** The exponent of the last binary digit a double keeps of [x]: 52 below
    the binary exponent, and never below -1074. *)
Definition ulp_exp (x : Qc) : Z := Z.max (ilog2 x - 52) (-1074).

(** The double nearest to [x], ties to even. *)
Definition fl (x : Qc) : Qc :=
  if eqb x 0 then 0%Qc
  else (num (rne (x / pow2 (ulp_exp x))) * pow2 (ulp_exp x))%Qc.

Definition add (x y : Qc) : Qc := fl (x + y).
Definition sub (x y : Qc) : Qc := fl (x - y).
Definition mul (x y : Qc) : Qc := fl (x * y).
Definition div (x y : Qc) : Qc := fl (x / y).

(** [Math.round(v / step) * step] *)
Definition snap (v step : Qc) : Qc := mul (num (round (div v step))) step.

Definition inflateRect (r : AARect) (pad : Qc) : AARect :=
  mkRect (sub (r_x r) pad) (sub (r_y r) pad)
         (add (r_w r) (mul pad (num 2))) (add (r_h r) (mul pad (num 2))).

Definition pointInRect (x y : Qc) (r : AARect) : bool :=
  leb (r_x r) x && leb x (add (r_x r) (r_w r))
  && leb (r_y r) y && leb y (add (r_y r) (r_h r)).

Definition isBlocked (x y : Qc) (obstacles : list AARect) : bool :=
  existsb (pointInRect x y) obstacles.

Definition buildObstaclesForEdge (nodes : list Node) (sourceId targetId : string)
  : list AARect :=
  List.map (fun n =>
    let pad := if String.eqb (n_id n) sourceId || String.eqb (n_id n) targetId
               then ENDPOINT_PAD else OBSTACLE_PAD in
    inflateRect (nodeRect n) pad) nodes.

End Double.

(** A whole number of magnitude at most [2^32]. *)
Definition is_whole (x : Qc) : bool :=
  (Qden (this x) =? 1)%positive && (Z.abs (Qnum (this x)) <=? 2 ^ 32)%Z.

(** A node whose position and size are such whole numbers. *)
Definition whole_node (n : Node) : bool :=
  is_whole (n_x n) && is_whole (n_y n) && is_whole (n_w n) && is_whole (n_h n).

(** *** Sample nodes *)

(** Tables of two columns: 360 wide, 112 high; the anchor of the first
    column is 64 below the top. *)
Definition table_a : Node :=
  mkNode "a" (TableNode ["id"; "name"]) (num 0) (num 0) (num 360) (num 112).
(** [b] ten units to the right of [a]. *)
Definition table_b_near : Node :=
  mkNode "b" (TableNode ["id"; "a_id"]) (num 370) (num 0) (num 360) (num 112).
(** [b] forty units to the right of [a] and thirty lower. *)
Definition table_b_lower : Node :=
  mkNode "b" (TableNode ["id"; "a_id"]) (num 400) (num 30) (num 360) (num 112).
(** The edge of a relation from [a.id] to [b.id]. *)
Definition edge_ab : Edge := mkEdge "a" "b" (Some "id") (Some "id").

End Router.

(** ** The diagram: the table card ([components/konva/TableNodeKonva.tsx])
    and the nodes and edges ([app/hooks/useDiagrams.ts]) *)

Module Diagram.
Import Sql Router.

(** *** The table card *)

(** [idx.where ? 1 : 0]. *)
Definition has_where (idx : SqlIndex) : bool :=
  match ix_where idx with
  | Some w => Str.truthy w
  | None => false
  end.

(** The height of the card of one index in [getIndexesBlockHeight]:
    [indexCardBaseH + lines * indexLineH]. *)
Definition indexCardHeight (idx : SqlIndex) : Z :=
  let lines := (1 + 1 + (if has_where idx then 1 else 0))%Z in
  ((10 + 8 * 2) + lines * 14)%Z.

Definition getIndexesBlockHeight (indexes : list SqlIndex) : Z :=
  match indexes with
  | [] => 0
  | _ =>
      (20 + 8 + foldl Z.add 0 (List.map indexCardHeight indexes)
       + 8 * (Z.of_nat (length indexes) - 1) + 10)%Z
  end.

(** [headerH + padding + colsCount * rowH + (indexesBlockH ? 14 : 12) +
    indexesBlockH]. *)
Definition estimateTableHeight (t : SqlTable) : Z :=
  let colsCount := Z.of_nat (Nat.max 1 (length (columns t))) in
  let indexesBlockH := getIndexesBlockHeight (indexes t) in
  (40 + 12 + colsCount * 24 + (if (indexesBlockH =? 0)%Z then 12 else 14)
   + indexesBlockH)%Z.

(** [headerH + padding + Math.min(maxRows, values.length || 1) * rowH + 22]
    with the constants of [estimateEnumHeight]. *)
Definition estimateEnumHeight (e : SqlEnum) : Z :=
  let rows := match length (en_values e) with
              | O => 1
              | n => n
              end in
  (40 + 12 + Z.of_nat (Nat.min 8 rows) * 18 + 22)%Z.

(** [rowTop = colsTopY + i * rowH] of the row of the [i]-th column, with
    [colsTopY = headerH + padding]. *)
Definition rowTop (i : nat) : Qc := (headerH + padding + num (Z.of_nat i) * rowH)%Qc.

(** *** The nodes and the edges *)

(** The nodes [useDiagrams] sets for a graph: one per table, then one per
    enum. The position of a node is what the layout gives for its id, and its
    width what [estimateTableWidth] or [estimateEnumWidth] gives: both are
    parameters here. *)
Definition tableNode (pos : string -> Point) (tableW : SqlTable -> Qc) (t : SqlTable)
  : Node :=
  mkNode (t_name t) (TableNode (List.map c_name (columns t)))
    (pos (t_name t)).1 (pos (t_name t)).2 (tableW t) (num (estimateTableHeight t)).

Definition enumId (e : SqlEnum) : string := String.append "enum:" (en_name e).

Definition enumNode (pos : string -> Point) (enumW : SqlEnum -> Qc) (e : SqlEnum)
  : Node :=
  mkNode (enumId e) EnumNode (pos (enumId e)).1 (pos (enumId e)).2 (enumW e)
    (num (estimateEnumHeight e)).

Definition diagramNodes (pos : string -> Point) (tableW : SqlTable -> Qc)
  (enumW : SqlEnum -> Qc) (g : SqlGraph) : list Node :=
  List.map (tableNode pos tableW) (tables g) ++ List.map (enumNode pos enumW) (enums g).

(** [source: r.fromTable, target: r.toTable, sourceColumn: r.fromColumn,
    targetColumn: r.toColumn]. *)
Definition relationEdge (r : SqlRelation) : Edge :=
  mkEdge (fromTable r) (toTable r) (Some (fromColumn r)) (Some (toColumn r)).

Definition diagramEdges (g : SqlGraph) : list Edge :=
  List.map relationEdge (relations g).

(** The effect of [useDiagrams] for the graph [g]: the nodes and the edges
    it sets. [layout g] stands for the call of [layoutGraph], which hands the
    nodes and edges to the dagre library: the position it gives to each node
    id when it returns, and [None] when it throws; then the effect stops
    before any node or edge is set. *)
Definition useDiagrams (layout : SqlGraph -> option (string -> Point))
  (tableW : SqlTable -> Qc) (enumW : SqlEnum -> Qc) (g : SqlGraph)
  : option (list Node * list Edge) :=
  pos ← layout g;
  Some (diagramNodes pos tableW enumW g, diagramEdges g).

(** The node that stands for the id [id] among the nodes of [g]: the node
    of the last enum whose node id is [id] when there is one (a table can
    bear the name [enum:x] of the node of an enum [x]), and the node of the
    last table named [id] otherwise. *)
Definition node_of (pos : string -> Point) (tableW : SqlTable -> Qc)
  (enumW : SqlEnum -> Qc) (g : SqlGraph) (id : string) : option Node :=
  match last (List.filter (fun e => String.eqb (enumId e) id) (enums g)) with
  | Some e => Some (enumNode pos enumW e)
  | None =>
      tableNode pos tableW
        <$> last (List.filter (fun t => String.eqb (t_name t) id) (tables g))
  end.

End Diagram.

(** * Properties *)

Local Open Scope list_scope.

(** ** Lists *)

Module ListFacts.

Lemma foldl_inv {A B} (f : A -> B -> A) (P : A -> Prop) :
  (forall a b, P a -> P (f a b)) -> forall l a, P a -> P (foldl f a l).
Proof.
  intros Hf. induction l as [|b l IH]; intros a Ha; simpl; auto.
Qed.

Lemma fmap_alter_same {A B} (f : A -> B) (g : A -> A) :
  (forall x, f (g x) = f x) -> forall (l : list A) i, f <$> alter g i l = f <$> l.
Proof.
  intros Hfg. induction l as [|x l IH]; intros i; [reflexivity|].
  destruct i as [|i]; simpl.
  - rewrite Hfg. reflexivity.
  - f_equal. apply IH.
Qed.

Lemma find_first {A} (p : A -> bool) : forall l k,
  List.find p l = Some k ->
  exists l1 l2, l = l1 ++ k :: l2 /\ p k = true /\ Forall (fun x => p x = false) l1.
Proof.
  induction l as [|x l IH]; intros k H; simpl in H; [discriminate|].
  destruct (p x) eqn:Hx.
  - injection H as <-. exists [], l. split; [reflexivity|]. split; [exact Hx|constructor].
  - destruct (IH k H) as (l1 & l2 & -> & Hk & Hl1).
    exists (x :: l1), l2. split; [reflexivity|]. split; [exact Hk|].
    constructor; assumption.
Qed.

Lemma find_none {A} (p : A -> bool) : forall l,
  List.find p l = None -> Forall (fun x => p x = false) l.
Proof.
  induction l as [|x l IH]; simpl; intros H; [constructor|].
  destruct (p x) eqn:Hx; [discriminate|]. constructor; auto.
Qed.

End ListFacts.

(** ** Strings *)

Module StrFacts.
Import Sql.

Lemma str_app_cons c (a b : string) :
  String.append (String c a) b = String c (String.append a b).
Proof. reflexivity. Qed.

Lemma str_app_nil_l (b : string) : String.append "" b = b.
Proof. reflexivity. Qed.

Lemma str_app_nil_r (s : string) : String.append s "" = s.
Proof. induction s as [|c s IH]; [reflexivity|]. rewrite str_app_cons, IH. reflexivity. Qed.

Lemma str_app_assoc (a b c : string) :
  String.append (String.append a b) c = String.append a (String.append b c).
Proof. induction a as [|x a IH]; [reflexivity|]. rewrite !str_app_cons, IH. reflexivity. Qed.

Lemma str_length_app (a b : string) :
  String.length (String.append a b) = String.length a + String.length b.
Proof.
  induction a as [|x a IH]; [reflexivity|]. rewrite str_app_cons. cbn [String.length].
  rewrite IH. reflexivity.
Qed.

Lemma str_rev_onto_app : forall s acc,
  Str.rev_onto s acc = String.append (Str.rev s) acc.
Proof.
  unfold Str.rev. induction s as [|c s IH]; intros acc; [reflexivity|].
  cbn [Str.rev_onto]. rewrite IH, (IH (String c "")), str_app_assoc. reflexivity.
Qed.

Lemma str_rev_cons c s : Str.rev (String c s) = String.append (Str.rev s) (String c "").
Proof. unfold Str.rev at 1. simpl. apply str_rev_onto_app. Qed.

Lemma str_rev_app a b : Str.rev (String.append a b) = String.append (Str.rev b) (Str.rev a).
Proof.
  induction a as [|x a IH].
  - rewrite str_app_nil_l. change (Str.rev "") with ""%string. rewrite str_app_nil_r. reflexivity.
  - rewrite str_app_cons, !str_rev_cons, IH, str_app_assoc. reflexivity.
Qed.

Lemma str_rev_rev s : Str.rev (Str.rev s) = s.
Proof.
  induction s as [|c s IH]; [reflexivity|].
  rewrite str_rev_cons, str_rev_app, IH. reflexivity.
Qed.

(** [trimStart] of a text that ends with [c]. *)
Lemma trimStart_snoc s c :
  Str.trimStart (String.append s (String c "")) =
    match Str.trimStart s with
    | EmptyString => if Chars.is_space c then "" else String c ""
    | t => String.append t (String c "")
    end%string.
Proof.
  induction s as [|x s IH]; [reflexivity|].
  rewrite str_app_cons. cbn [Str.trimStart].
  destruct (Chars.is_space x); [exact IH|reflexivity].
Qed.

Lemma str_rev_eq_nil s : Str.rev s = ""%string -> s = ""%string.
Proof.
  intros H. apply (f_equal Str.rev) in H. rewrite str_rev_rev in H. exact H.
Qed.

(** [trimEnd] is the reversal of [trimStart] on the reversal. *)
Lemma trimEnd_rev s : Str.rev (Str.trimStart (Str.rev s)) = trimEnd s.
Proof.
  induction s as [|c s IH]; [reflexivity|].
  rewrite str_rev_cons, trimStart_snoc. cbn [trimEnd]. rewrite <- IH.
  destruct (Str.trimStart (Str.rev s)) as [|y t] eqn:E.
  - change (Str.rev "") with ""%string. destruct (Chars.is_space c); reflexivity.
  - rewrite str_rev_app. change (Str.rev (String c "")) with (String c "").
    rewrite str_app_cons, str_app_nil_l.
    destruct (Str.rev (String y t)) eqn:E2; [|reflexivity].
    apply str_rev_eq_nil in E2. discriminate.
Qed.

Lemma trim_trimEnd s : Str.trim s = trimEnd (Str.trimStart s).
Proof. unfold Str.trim. apply trimEnd_rev. Qed.

End StrFacts.

(** ** The matcher *)

Module ReFacts.
Import Re.

Lemma orelse_Some {A} (a b : option A) (x : A) :
  orelse a b = Some x -> a = Some x \/ b = Some x.
Proof. destruct a; simpl; intros H; [left | right]; assumption. Qed.

Lemma mem_nat_app n l1 l2 :
  mem_nat n (l1 ++ l2) = mem_nat n l1 || mem_nat n l2.
Proof. unfold mem_nat. apply existsb_app. Qed.

Lemma find_cap_clear n gs caps :
  mem_nat n gs = false ->
  find_cap n (List.filter (fun c => negb (mem_nat (fst c) gs)) caps) = find_cap n caps.
Proof.
  intros Hn. induction caps as [|[g se] caps IH]; simpl; [reflexivity|].
  destruct (mem_nat g gs) eqn:Hg; simpl.
  - destruct (Nat.eqb g n) eqn:E; [|exact IH].
    apply Nat.eqb_eq in E. subst g. congruence.
  - rewrite IH. reflexivity.
Qed.

Lemma star_loop_step (ma : mstate -> (mstate -> option mstate) -> option mstate)
  (gs : list nat) (greedy : bool) (k : mstate -> option mstate) (res : mstate) :
  (forall st k' , ma st k' = Some res ->
     exists st', k' st' = Some res /\ m_pos st <= m_pos st' /\
       forall n, mem_nat n gs = false -> find_cap n (m_caps st') = find_cap n (m_caps st)) ->
  forall n st, star_loop ma gs greedy k n st = Some res ->
    exists st', k st' = Some res /\ m_pos st <= m_pos st' /\
      forall n, mem_nat n gs = false -> find_cap n (m_caps st') = find_cap n (m_caps st).
Proof.
  intros Hma. induction n as [|n IH]; intros st H; simpl in H.
  - exists st. auto.
  - assert (Hiter : forall st0,
      ma (clear_groups gs st)
         (fun st' => if m_pos st <? m_pos st' then star_loop ma gs greedy k n st' else None)
        = Some st0 -> st0 = res ->
      exists st', k st' = Some res /\ m_pos st <= m_pos st' /\
        forall n, mem_nat n gs = false -> find_cap n (m_caps st') = find_cap n (m_caps st)).
    { intros st0 H0 ->. apply Hma in H0. destruct H0 as (st1 & Hk & Hp & Hf).
      destruct (m_pos st <? m_pos st1) eqn:E; [|discriminate].
      apply IH in Hk. destruct Hk as (st2 & Hk2 & Hp2 & Hf2).
      exists st2. split; [exact Hk2|]. simpl in Hp. split; [lia|].
      intros m Hm. rewrite (Hf2 m Hm), (Hf m Hm). simpl. apply find_cap_clear, Hm. }
    destruct greedy; apply orelse_Some in H; destruct H as [H|H];
      try (eapply Hiter; [exact H|reflexivity]); exists st; auto.
Qed.

Lemma rmatch_step ml (r : regex) :
  forall st k res, rmatch ml r st k = Some res ->
    exists st', k st' = Some res /\ step_ok r st st'.
Proof.
  induction r as [|p|a IHa b IHb|a IHa b IHb|greedy a IHa|a IHa|g a IHa| | |];
    intros st k res H; simpl in H.
  - exists st. split; [exact H|]. constructor; simpl; auto; discriminate.
  - destruct (m_rest st) as [|c rest] eqn:E; [discriminate|].
    destruct (p c); [|discriminate].
    eexists. split; [exact H|]. constructor; simpl; auto; try lia; discriminate.
  - apply IHa in H. destruct H as (st1 & H & [Hp1 Hc1 Hs1 Hf1]).
    apply IHb in H. destruct H as (st2 & H & [Hp2 Hc2 Hs2 Hf2]).
    exists st2. split; [exact H|]. constructor; simpl.
    + lia.
    + intros Hc. apply orb_true_iff in Hc. destruct Hc as [Hc|Hc];
        [specialize (Hc1 Hc)|specialize (Hc2 Hc)]; lia.
    + intros n Hn. apply orb_true_iff in Hn. destruct Hn as [Hn|Hn].
      * apply andb_true_iff in Hn. destruct Hn as [Hn Hm].
        apply negb_true_iff in Hm. rewrite (Hf2 n Hm). auto.
      * auto.
    + intros n Hn. rewrite mem_nat_app in Hn. apply orb_false_iff in Hn.
      destruct Hn as [Hna Hnb]. rewrite (Hf2 n Hnb). auto.
  - apply orelse_Some in H. destruct H as [H|H].
    + apply IHa in H. destruct H as (st1 & H & [Hp1 Hc1 Hs1 Hf1]).
      exists st1. split; [exact H|]. constructor; simpl; auto.
      * intros Hc. apply andb_true_iff in Hc. tauto.
      * intros n Hn. apply andb_true_iff in Hn. apply Hs1. tauto.
      * intros n Hn. rewrite mem_nat_app in Hn. apply orb_false_iff in Hn. apply Hf1. tauto.
    + apply IHb in H. destruct H as (st1 & H & [Hp1 Hc1 Hs1 Hf1]).
      exists st1. split; [exact H|]. constructor; simpl; auto.
      * intros Hc. apply andb_true_iff in Hc. tauto.
      * intros n Hn. apply andb_true_iff in Hn. apply Hs1. tauto.
      * intros n Hn. rewrite mem_nat_app in Hn. apply orb_false_iff in Hn. apply Hf1. tauto.
  - apply star_loop_step in H.
    + destruct H as (st1 & H & Hp & Hf). exists st1. split; [exact H|].
      constructor; simpl; auto; discriminate.
    + intros st0 k' H0. apply IHa in H0. destruct H0 as (st1 & H0 & [Hp1 Hc1 Hs1 Hf1]).
      exists st1. auto.
  - apply orelse_Some in H. destruct H as [H|H].
    + apply IHa in H. destruct H as (st1 & H & [Hp1 Hc1 Hs1 Hf1]).
      destruct (m_pos st <? m_pos st1); [|discriminate].
      exists st1. split; [exact H|]. simpl in Hp1. constructor; simpl; auto; try discriminate.
      intros n Hn. rewrite (Hf1 n Hn). simpl. apply find_cap_clear, Hn.
    + exists st. split; [exact H|]. constructor; simpl; auto; discriminate.
  - apply IHa in H. destruct H as (st1 & H & [Hp1 Hc1 Hs1 Hf1]).
    eexists. split; [exact H|]. constructor; simpl; auto.
    + intros n Hn. destruct (Nat.eqb g n) eqn:E; [eauto|].
      rewrite Nat.eqb_sym, E in Hn. simpl in Hn. auto.
    + intros n Hn. apply orb_false_iff in Hn. destruct Hn as [Hg Hn].
      rewrite Nat.eqb_sym, Hg. auto.
  - destruct (at_bol ml st); [|discriminate].
    exists st. split; [exact H|]. constructor; simpl; auto; discriminate.
  - destruct (at_eol ml st); [|discriminate].
    exists st. split; [exact H|]. constructor; simpl; auto; discriminate.
  - destruct (at_word_boundary st); [|discriminate].
    exists st. split; [exact H|]. constructor; simpl; auto; discriminate.
Qed.

Lemma match_at_ok ml r pos prev rest st :
  match_at ml r pos prev rest = Some st ->
  pos <= m_pos st /\ (consumes r = true -> pos < m_pos st) /\
  forall n, sets n r = true -> is_Some (find_cap n (m_caps st)).
Proof.
  unfold match_at. intros H. apply rmatch_step in H.
  destruct H as (st' & Hk & [Hp Hc Hs _]). injection Hk as ->.
  simpl in *. auto.
Qed.

Lemma search_match ml r : forall rest pos prev i st,
  search ml r pos prev rest = Some (i, st) ->
  exists prev' rest', match_at ml r i prev' rest' = Some st.
Proof.
  induction rest as [|c rest IH]; intros pos prev i st H; simpl in H.
  - destruct (match_at ml r pos prev "") eqn:E; [|discriminate].
    injection H as <- <-. eauto.
  - destruct (match_at ml r pos prev (String c rest)) eqn:E.
    + injection H as <- <-. eauto.
    + eapply IH. exact H.
Qed.

Lemma group_is_Some s m n :
  is_Some (find_cap n (mr_caps m)) -> is_Some (group s m n).
Proof.
  unfold group. intros [[a b] ->]. eauto.
Qed.

(** A capture that every match sets is defined in the result of [exec]. *)
Lemma exec_group ml r s m n :
  exec ml r s = Some m -> sets n r = true -> is_Some (group s m n).
Proof.
  unfold exec. destruct (search ml r 0 None s) as [[i st]|] eqn:E; [|discriminate].
  intros H Hn. injection H as <-. apply group_is_Some. simpl.
  apply search_match in E. destruct E as (prev' & rest' & E).
  apply match_at_ok in E. apply E, Hn.
Qed.

(** The [while (exec)] loop over a pattern that cannot match the empty
    string ends, and every result has the captures every match sets. *)
Lemma exec_loop_total ml r : consumes r = true ->
  forall rest pos prev skip, is_Some (exec_loop ml r pos prev rest skip).
Proof.
  intros Hc. induction rest as [|c rest IH]; intros pos prev skip.
  - destruct skip; simpl; [|eauto].
    destruct (match_at ml r pos prev "") as [st|] eqn:E; [|eauto].
    apply match_at_ok in E. destruct E as (_ & E & _). specialize (E Hc).
    destruct (m_pos st <=? pos) eqn:L; [apply Nat.leb_le in L; lia|eauto].
  - destruct skip; simpl; [|apply IH].
    destruct (match_at ml r pos prev (String c rest)) as [st|] eqn:E; [|apply IH].
    apply match_at_ok in E. destruct E as (_ & E & _). specialize (E Hc).
    destruct (m_pos st <=? pos) eqn:L; [apply Nat.leb_le in L; lia|].
    destruct (IH (S pos) (Some c) (m_pos st - pos - 1)) as [l ->]. simpl. eauto.
Qed.

Lemma exec_loop_groups ml r n : sets n r = true ->
  forall rest pos prev skip ms, exec_loop ml r pos prev rest skip = Some ms ->
    Forall (fun m => is_Some (find_cap n (mr_caps m))) ms.
Proof.
  intros Hn. induction rest as [|c rest IH]; intros pos prev skip ms H.
  - destruct skip; simpl in H; [|injection H as <-; constructor].
    destruct (match_at ml r pos prev "") as [st|] eqn:E; [|injection H as <-; constructor].
    destruct (m_pos st <=? pos); [discriminate|]. injection H as <-.
    constructor; [|constructor]. simpl. apply match_at_ok in E. apply E, Hn.
  - destruct skip; simpl in H; [|eapply IH; exact H].
    destruct (match_at ml r pos prev (String c rest)) as [st|] eqn:E; [|eapply IH; exact H].
    destruct (m_pos st <=? pos); [discriminate|].
    destruct (exec_loop ml r (S pos) (Some c) rest (m_pos st - pos - 1)) as [l|] eqn:El;
      [|discriminate].
    simpl in H. injection H as <-. constructor.
    + simpl. apply match_at_ok in E. apply E, Hn.
    + eapply IH. exact El.
Qed.

Lemma exec_all_total ml r s : consumes r = true -> is_Some (exec_all ml r s).
Proof. intros Hc. apply exec_loop_total, Hc. Qed.

Lemma exec_all_groups ml r s n ms :
  sets n r = true -> exec_all ml r s = Some ms ->
  Forall (fun m => is_Some (group s m n)) ms.
Proof.
  intros Hn H. eapply exec_loop_groups in H; [|exact Hn].
  eapply Forall_impl; [exact H|]. intros m Hm. apply group_is_Some, Hm.
Qed.

(** *** The bound on the iterations of a star is never reached *)

Lemma same_end_refl st : same_end st st.
Proof. reflexivity. Qed.

Lemma same_end_trans st1 st2 st3 :
  same_end st1 st2 -> same_end st2 st3 -> same_end st1 st3.
Proof. unfold same_end. lia. Qed.

Lemma star_loop_ext (ma : mstate -> (mstate -> option mstate) -> option mstate)
  (gs : list nat) (greedy : bool) :
  (forall st k k', ext_on st k k' -> ma st k = ma st k') ->
  forall n st k k', ext_on st k k' ->
    star_loop ma gs greedy k n st = star_loop ma gs greedy k' n st.
Proof.
  intros Hma. induction n as [|n IH]; intros st k k' Hk; simpl.
  - apply Hk, same_end_refl.
  - rewrite (Hk st (same_end_refl st)).
    assert (Hiter :
      ma (clear_groups gs st)
        (fun st' => if m_pos st <? m_pos st' then star_loop ma gs greedy k n st' else None)
      = ma (clear_groups gs st)
        (fun st' => if m_pos st <? m_pos st' then star_loop ma gs greedy k' n st' else None)).
    { apply Hma. intros st' Hst'. destruct (m_pos st <? m_pos st'); [|reflexivity].
      apply IH. intros st'' Hst''. apply Hk.
      eapply same_end_trans; [|exact Hst'']. exact Hst'. }
    rewrite Hiter. reflexivity.
Qed.

Lemma rmatch_ext ml (r : regex) :
  forall st k k', ext_on st k k' -> rmatch ml r st k = rmatch ml r st k'.
Proof.
  induction r as [|p|a IHa b IHb|a IHa b IHb|greedy a IHa|a IHa|g a IHa| | |];
    intros st k k' Hk; simpl.
  - apply Hk, same_end_refl.
  - destruct (m_rest st) as [|c rest] eqn:E; [reflexivity|].
    destruct (p c); [|reflexivity]. apply Hk. unfold same_end. simpl. rewrite E. simpl. lia.
  - apply IHa. intros st' Hst'. apply IHb. intros st'' Hst''. apply Hk.
    eapply same_end_trans; eauto.
  - rewrite (IHa st k k' Hk), (IHb st k k' Hk). reflexivity.
  - apply star_loop_ext; [|exact Hk]. intros st0 k0 k0' H0. apply IHa, H0.
  - rewrite (Hk st (same_end_refl st)). f_equal.
    apply IHa. intros st' Hst'. destruct (m_pos st <? m_pos st'); [|reflexivity].
    apply Hk. exact Hst'.
  - apply IHa. intros st' Hst'. apply Hk. exact Hst'.
  - destruct (at_bol ml st); [|reflexivity]. apply Hk, same_end_refl.
  - destruct (at_eol ml st); [|reflexivity]. apply Hk, same_end_refl.
  - destruct (at_word_boundary st); [|reflexivity]. apply Hk, same_end_refl.
Qed.

Lemma rmatch_fail ml r st : rmatch ml r st (fun _ => None) = None.
Proof.
  destruct (rmatch ml r st (fun _ => None)) as [res|] eqn:E; [|reflexivity].
  apply rmatch_step in E. destruct E as (st' & E & _). discriminate.
Qed.

Lemma orelse_None_r {A} (a : option A) : orelse a None = a.
Proof. destruct a; reflexivity. Qed.

Lemma star_loop_S ma gs greedy k n st :
  star_loop ma gs greedy k (S n) st =
  if greedy
  then orelse (ma (clear_groups gs st)
                 (fun st' => if m_pos st <? m_pos st'
                             then star_loop ma gs greedy k n st' else None)) (k st)
  else orelse (k st)
         (ma (clear_groups gs st)
            (fun st' => if m_pos st <? m_pos st'
                        then star_loop ma gs greedy k n st' else None)).
Proof. reflexivity. Qed.

Lemma star_loop_one_more ml a gs greedy k : forall n st,
  String.length (m_rest st) <= n ->
  star_loop (rmatch ml a) gs greedy k (S n) st = star_loop (rmatch ml a) gs greedy k n st.
Proof.
  induction n as [|n IH]; intros st Hn.
  - rewrite star_loop_S. cbn [star_loop].
    rewrite (rmatch_ext ml a (clear_groups gs st) _ (fun _ => None)).
    + rewrite rmatch_fail. destruct greedy; [reflexivity|apply orelse_None_r].
    + intros st' Hst'. unfold same_end in Hst'. simpl in Hst'.
      destruct (m_pos st <? m_pos st') eqn:E; [|reflexivity].
      apply Nat.ltb_lt in E. lia.
  - rewrite (star_loop_S _ _ _ _ (S n)), (star_loop_S _ _ _ _ n).
    rewrite (rmatch_ext ml a (clear_groups gs st)
               (fun st' => if m_pos st <? m_pos st'
                           then star_loop (rmatch ml a) gs greedy k (S n) st' else None)
               (fun st' => if m_pos st <? m_pos st'
                           then star_loop (rmatch ml a) gs greedy k n st' else None));
      [reflexivity|].
    intros st' Hst'. unfold same_end in Hst'. simpl in Hst'.
    destruct (m_pos st <? m_pos st') eqn:E; [|reflexivity].
    apply Nat.ltb_lt in E. apply IH. lia.
Qed.

(** Any bound that is at least the length of the remaining input gives the
    result of [r*]: the bound [rmatch] uses cuts nothing off. *)
Lemma star_bound_adequate ml a greedy k st : forall d,
  star_loop (rmatch ml a) (groups_of a) greedy k (String.length (m_rest st) + d) st
  = rmatch ml (RStar greedy a) st k.
Proof.
  induction d as [|d IH]; cbn [rmatch].
  - rewrite Nat.add_0_r. reflexivity.
  - rewrite Nat.add_succ_r, star_loop_one_more by lia. exact IH.
Qed.

End ReFacts.

(** ** More about the matcher *)

Module ReMore.
Import Re ReFacts Sql.

Lemma clear_groups_nil st : clear_groups [] st = st.
Proof.
  destruct st as [pos prev rest caps]. unfold clear_groups. simpl. f_equal.
  induction caps as [|c caps IH]; simpl; [reflexivity|]. rewrite IH. reflexivity.
Qed.

Lemma scan_run_shift cond : forall rest p, scan_run cond rest p = p + scan_run cond rest 0.
Proof.
  induction rest as [|c rest IH]; intros p; simpl; [lia|].
  destruct (cond c); [|lia]. rewrite (IH (S p)), (IH 1). lia.
Qed.

Lemma rmatch_char ml p st k :
  rmatch ml (RChar p) st k =
    match m_rest st with
    | String c rest =>
        if p c then k (MState (S (m_pos st)) (Some c) rest (m_caps st)) else None
    | EmptyString => None
    end.
Proof. reflexivity. Qed.

(** A greedy star over a character class, with nothing after it, takes the
    whole run. *)
Lemma star_char_run ml p : forall n st,
  String.length (m_rest st) <= n ->
  exists st', star_loop (rmatch ml (RChar p)) [] true Some n st = Some st' /\
              m_pos st' = scan_run p (m_rest st) (m_pos st).
Proof.
  induction n as [|n IH]; intros st Hn.
  - destruct (m_rest st) eqn:E; [|simpl in Hn; lia].
    exists st. simpl. auto.
  - rewrite star_loop_S. rewrite clear_groups_nil, rmatch_char.
    destruct (m_rest st) as [|c rest] eqn:E.
    + exists st. simpl. auto.
    + destruct (p c) eqn:Hp.
      * cbn [m_pos]. replace (m_pos st <? S (m_pos st)) with true
          by (symmetry; apply Nat.ltb_lt; lia).
        destruct (IH (MState (S (m_pos st)) (Some c) rest (m_caps st))) as (st' & Hs & Hpos).
        { simpl in *. lia. }
        exists st'. split; [rewrite Hs; reflexivity|]. rewrite Hpos. simpl. rewrite Hp. reflexivity.
      * exists st. simpl. rewrite Hp. auto.
Qed.

Lemma match_at_plus_char ml p pos prev rest :
  match rest with
  | String c rest' =>
      if p c then exists st', match_at ml (rplus (RChar p)) pos prev rest = Some st' /\
                              m_pos st' = S pos + scan_run p rest' 0
      else match_at ml (rplus (RChar p)) pos prev rest = None
  | EmptyString => match_at ml (rplus (RChar p)) pos prev rest = None
  end.
Proof.
  destruct rest as [|c rest']; [reflexivity|].
  unfold match_at, rplus. cbn [rmatch m_rest].
  destruct (p c); [|reflexivity]. cbn [m_rest m_pos m_caps].
  destruct (star_char_run ml p (String.length rest')
              (MState (S pos) (Some c) rest' [])) as (st' & H & Hpos); [simpl; lia|].
  exists st'. split; [exact H|]. rewrite Hpos. simpl. apply scan_run_shift.
Qed.

(** Replacing the runs of a class is squeezing them. *)
Lemma replace_plus_char ml p repl : forall rest pos prev,
  replace_loop ml (rplus (RChar p)) repl pos prev rest 0 = squeeze p repl rest false /\
  replace_loop ml (rplus (RChar p)) repl pos prev rest (scan_run p rest 0)
    = squeeze p repl rest true.
Proof.
  induction rest as [|c rest IH]; intros pos prev; [split; reflexivity|].
  pose proof (match_at_plus_char ml p pos prev (String c rest)) as Hm.
  cbn beta iota in Hm. cbn [scan_run squeeze]. destruct (p c) eqn:Hp.
  - destruct Hm as (st' & Hm & Hpos). split.
    + cbn [replace_loop]. rewrite Hm.
      replace (m_pos st' <=? pos) with false by (symmetry; apply Nat.leb_gt; lia).
      replace (m_pos st' - pos - 1) with (scan_run p rest 0) by lia.
      rewrite (proj2 (IH (S pos) (Some c))). reflexivity.
    + rewrite (scan_run_shift p rest 1). cbn [Nat.add replace_loop].
      apply (proj2 (IH (S pos) (Some c))).
  - cbn [replace_loop]. rewrite Hm. rewrite (proj1 (IH (S pos) (Some c))). auto.
Qed.

Lemma replace_all_plus_char ml p repl s :
  replace_all ml (rplus (RChar p)) repl s = squeeze p repl s false.
Proof. apply replace_plus_char. Qed.

End ReMore.

(** ** The schema extractor *)

Module SqlFacts.
Import Re ReFacts Sql ListFacts.

(** *** The extractor returns *)

Lemma parseEnumValues_total body : is_Some (parseEnumValues body).
Proof.
  unfold parseEnumValues.
  destruct (exec_all_total false valRe body eq_refl) as [vms Hv]. rewrite Hv. simpl.
  apply mapM_is_Some.
  eapply Forall_impl; [exact (exec_all_groups false valRe body 1 vms eq_refl Hv)|].
  intros vm [v Hv']. unfold compose. rewrite Hv'. simpl. eauto.
Qed.

Lemma parseEnumTypes_total sql : is_Some (parseEnumTypes sql).
Proof.
  unfold parseEnumTypes.
  destruct (exec_all_total false enumRe sql eq_refl) as [ms Hm]. rewrite Hm. simpl.
  apply mapM_is_Some.
  pose proof (exec_all_groups false enumRe sql 1 ms eq_refl Hm) as H1.
  pose proof (exec_all_groups false enumRe sql 2 ms eq_refl Hm) as H2.
  rewrite Forall_forall in *. intros m Hin.
  destruct (H1 m Hin) as [raw Hr]. destruct (H2 m Hin) as [body Hb].
  unfold compose, parseEnum. rewrite Hr, Hb. simpl.
  destruct (parseEnumValues_total body) as [vs ->]. simpl. eauto.
Qed.

Lemma parseIndexes_total sql : is_Some (parseIndexes sql).
Proof.
  unfold parseIndexes.
  destruct (exec_all_total false indexRe sql eq_refl) as [ms Hm]. rewrite Hm. simpl.
  apply mapM_is_Some.
  pose proof (exec_all_groups false indexRe sql 2 ms eq_refl Hm) as H2.
  pose proof (exec_all_groups false indexRe sql 3 ms eq_refl Hm) as H3.
  pose proof (exec_all_groups false indexRe sql 5 ms eq_refl Hm) as H5.
  rewrite Forall_forall in *. intros m Hin.
  destruct (H2 m Hin) as [g2 E2]. destruct (H3 m Hin) as [g3 E3].
  destruct (H5 m Hin) as [g5 E5].
  unfold compose, parseIndex. rewrite E2, E3, E5. simpl. eauto.
Qed.

Lemma indexOf_from_ge needle : forall rest pos idx,
  Str.indexOf_from needle rest pos = Some idx -> pos <= idx.
Proof.
  induction rest as [|c rest IH]; intros pos idx H; simpl in H.
  - destruct (Str.is_prefix needle ""); [injection H as <-; lia|discriminate].
  - destruct (Str.is_prefix needle (String c rest)); [injection H as <-; lia|].
    apply IH in H. lia.
Qed.

Lemma indexOf_ge needle s from idx :
  Str.indexOf needle s from = Some idx -> String.length needle <> 0 -> from <= idx.
Proof.
  unfold Str.indexOf. intros H Hn.
  destruct (String.length s <? from).
  - destruct (String.length needle =? 0) eqn:E; [|discriminate].
    apply Nat.eqb_eq in E. contradiction.
  - eapply indexOf_from_ge, H.
Qed.

Lemma scan_run_ge cond : forall rest p, p <= scan_run cond rest p.
Proof.
  induction rest as [|c rest IH]; intros p; simpl; [lia|].
  destruct (cond c); [|lia]. specialize (IH (S p)). lia.
Qed.

Lemma scan_while_ge cond s p : p <= scan_while cond s p.
Proof. apply scan_run_ge. Qed.

Lemma read_name_ge s p : p <= snd (read_name s p).
Proof.
  unfold read_name. destruct (opt_test is_dquote (Str.at_ s p)); simpl.
  - pose proof (scan_while_ge (fun c => negb (is_dquote c)) s (S p)). lia.
  - apply scan_while_ge.
Qed.

Lemma body_scan_ge : forall rest p depth inS inD, p <= body_scan rest p depth inS inD.
Proof.
  induction rest as [|ch rest IH]; intros p depth inS inD;
    destruct depth as [|d]; simpl; try lia.
  repeat match goal with
         | |- context [if ?b then _ else _] => destruct b
         end;
    match goal with
    | |- _ <= body_scan rest (S p) ?d' ?a ?b => specialize (IH (S p) d' a b); lia
    end.
Qed.

(** Every turn of the outer loop of [parseCreateTableBlocks] moves [i]
    forward, so more than [s.length - i] turns end the loop. *)
Lemma blocks_loop_total s lower : forall fuel i out,
  String.length s - i < fuel -> is_Some (blocks_loop fuel s lower i out).
Proof.
  induction fuel as [|fuel IH]; intros i out Hf; [simpl in Hf; lia|].
  cbn [blocks_loop].
  destruct (i <? String.length s) eqn:Hi; cbn [negb]; [|eauto].
  apply Nat.ltb_lt in Hi.
  destruct (Str.indexOf createTable lower i) as [idx|] eqn:Hidx; [|eauto].
  apply indexOf_ge in Hidx; [|discriminate].
  change (String.length createTable) with 12.
  pose proof (scan_while_ge Chars.is_space s (idx + 12)) as H1.
  pose proof (read_name_ge s (scan_while Chars.is_space s (idx + 12))) as H2.
  destruct (read_name s (scan_while Chars.is_space s (idx + 12))) as [rawName p].
  cbn [snd] in H2.
  pose proof (scan_while_ge (fun c => negb (is_lparen c)) s p) as H3.
  set (q := scan_while (fun c => negb (is_lparen c)) s p) in *.
  destruct (_ || _).
  - apply IH. lia.
  - apply IH. pose proof (body_scan_ge (Str.drop (S q) s) (S q) 1 false false). lia.
Qed.

Lemma parseCreateTableBlocks_total sql : is_Some (parseCreateTableBlocks sql).
Proof. apply blocks_loop_total. lia. Qed.

Lemma foldlM_total {A B} (f : A -> B -> option A) :
  (forall a b, is_Some (f a b)) -> forall l a, is_Some (foldlM f a l).
Proof.
  intros Hf. induction l as [|b l IH]; intros a; simpl; [eauto|].
  destruct (Hf a b) as [a' ->]. simpl. apply IH.
Qed.

Lemma tableLevelFk_total tableName line fk a :
  exec false tableFkRe line = Some fk -> is_Some (tableLevelFk tableName line fk a).
Proof.
  intros H. unfold tableLevelFk.
  destruct (exec_group _ _ _ _ 1 H eq_refl) as [g1 ->].
  destruct (exec_group _ _ _ _ 2 H eq_refl) as [g2 ->]. simpl. eauto.
Qed.

Lemma columnDef_total enumSet tableName line m a :
  exec false colDefRe line = Some m -> is_Some (columnDef enumSet tableName line m a).
Proof.
  intros H. unfold columnDef.
  destruct (exec_group _ _ _ _ 1 H eq_refl) as [g1 ->].
  destruct (exec_group _ _ _ _ 2 H eq_refl) as [rest ->]. simpl.
  destruct (exec false colRefRe line) as [r|] eqn:Hr; [|eauto].
  destruct (exec_group _ _ _ _ 1 Hr eq_refl) as [r1 ->].
  destruct (exec_group _ _ _ _ 3 Hr eq_refl) as [r3 ->]. simpl. eauto.
Qed.

Lemma processItem_total enumSet tableName a item :
  is_Some (processItem enumSet tableName a item).
Proof.
  unfold processItem.
  destruct (exec false tableFkRe (normalizeWs item)) as [fk|] eqn:Hfk.
  - apply tableLevelFk_total, Hfk.
  - repeat match goal with
           | |- is_Some (if ?b then _ else _) => destruct b; [eauto|]
           end.
    destruct (exec false colDefRe (normalizeWs item)) as [m|] eqn:Hm; [|eauto].
    apply columnDef_total, Hm.
Qed.

Lemma processBlock_total enumSet st b : is_Some (processBlock enumSet st b).
Proof.
  unfold processBlock.
  destruct (foldlM_total (processItem enumSet (b_name b))
              (processItem_total enumSet (b_name b))
              (splitTopLevelComma (b_body b))
              (mkAcc [] (p_relations st) (p_pkByTable st))) as [a ->].
  simpl. eauto.
Qed.

Lemma collect_total enumSet cleaned : is_Some (collect enumSet cleaned).
Proof.
  unfold collect. destruct (parseCreateTableBlocks_total cleaned) as [bs ->]. simpl.
  apply foldlM_total, processBlock_total.
Qed.

Lemma capture_total sql : is_Some (capture sql).
Proof.
  unfold capture.
  destruct (parseEnumTypes_total (stripComments sql)) as [enums ->]. simpl.
  destruct (parseIndexes_total (stripComments sql)) as [ixs ->]. simpl.
  destruct (collect_total (list_to_set (List.map en_name enums)) (stripComments sql))
    as [st ->]. simpl. eauto.
Qed.

Lemma parseSqlToGraph_capture sql :
  exists cp, capture sql = Some cp /\ parseSqlToGraph sql = Some (assemble cp).
Proof.
  destruct (capture_total sql) as [cp H]. exists cp. split; [exact H|].
  unfold parseSqlToGraph. rewrite H. reflexivity.
Qed.

(** *** What one item does *)

Lemma foldlM_inv {A B} (f : A -> B -> option A) (P : A -> Prop) :
  (forall a b a', P a -> f a b = Some a' -> P a') ->
  forall l a a', P a -> foldlM f a l = Some a' -> P a'.
Proof.
  intros Hf. induction l as [|b l IH]; intros a a' Ha H; simpl in H.
  - injection H as <-. exact Ha.
  - destruct (f a b) as [a1|] eqn:E; [|discriminate]. simpl in H.
    eapply IH; [|exact H]. eapply Hf; eauto.
Qed.

Lemma processItem_step enumSet tn a item a' :
  processItem enumSet tn a item = Some a' -> item_step tn a a'.
Proof.
  unfold processItem.
  destruct (exec false tableFkRe (normalizeWs item)) as [fk|].
  - unfold tableLevelFk.
    destruct (group (normalizeWs item) fk 1); [|discriminate].
    destruct (group (normalizeWs item) fk 2); [|discriminate].
    simpl. intros H. injection H as <-. apply item_fk.
  - repeat match goal with
           | |- (if ?b then _ else _) = _ -> _ =>
               destruct b; [intros H; injection H as <-; apply item_skip|]
           end.
    destruct (exec false colDefRe (normalizeWs item)) as [m|];
      [|intros H; injection H as <-; apply item_skip].
    unfold columnDef.
    destruct (group (normalizeWs item) m 1) as [g1|]; [|discriminate].
    destruct (group (normalizeWs item) m 2) as [rest|]; [|discriminate].
    simpl.
    destruct (exec false colRefRe (normalizeWs item)) as [r|].
    + destruct (group (normalizeWs item) r 1) as [r1|]; [|discriminate].
      destruct (group (normalizeWs item) r 3) as [r3|]; [|discriminate].
      simpl. intros H. injection H as <-.
      match goal with
      | |- item_step _ _ (mkAcc (_ ++ [?c]) (_ ++ ?rs) _) => apply (item_col tn a c rs)
      end.
      unfold pk_implies_not_null. simpl. intros ->. reflexivity.
    + intros H. injection H as <-.
      match goal with
      | |- item_step _ _ (mkAcc (_ ++ [?c]) _ _) =>
          rewrite <- (app_nil_r (a_relations a)); apply (item_col tn a c [])
      end.
      unfold pk_implies_not_null. simpl. intros ->. reflexivity.
Qed.

(** *** Invariants of the loop over the blocks *)

Lemma pkNames_app cols1 cols2 : pkNames (cols1 ++ cols2) = pkNames cols1 ++ pkNames cols2.
Proof. unfold pkNames. rewrite List.filter_app, List.map_app. reflexivity. Qed.

Lemma pkNamesOf_app n l1 l2 : pkNamesOf n (l1 ++ l2) = pkNamesOf n l1 ++ pkNamesOf n l2.
Proof. unfold pkNamesOf. apply List.flat_map_app. Qed.

Lemma pkNamesOf_one n t :
  pkNamesOf n [t] = if String.eqb (t_name t) n then pkNames (columns t) else [].
Proof. unfold pkNamesOf. simpl. apply app_nil_r. Qed.

Lemma item_step_ok tables tn a a' :
  acc_ok tables tn a -> item_step tn a a' -> acc_ok tables tn a'.
Proof.
  intros [Hc Hp] Hs. destruct Hs as [|rel|col rels Hcol].
  - constructor; assumption.
  - constructor; assumption.
  - constructor; simpl.
    + apply Forall_app. split; [exact Hc|]. constructor; [exact Hcol|constructor].
    + intros n. unfold firstPk in *.
      rewrite pkNamesOf_app, pkNamesOf_one. simpl.
      specialize (Hp n) as Hn. rewrite pkNamesOf_app, pkNamesOf_one in Hn. simpl in Hn.
      rewrite pkNames_app.
      assert (Hone : pkNames [col] = if isPrimaryKey col then [c_name col] else []).
      { unfold pkNames. simpl. destruct (isPrimaryKey col); reflexivity. }
      rewrite Hone.
      destruct (isPrimaryKey col) eqn:Epk; simpl.
      2:{ rewrite app_nil_r. exact Hn. }
      destruct (String.eqb tn n) eqn:En; rewrite ?En in Hn.
      * apply String.eqb_eq in En. subst n.
        destruct (a_pkByTable a !! tn) as [x|] eqn:Ex.
        -- rewrite bool_decide_eq_true_2 by eauto. simpl. rewrite Ex.
           rewrite app_assoc, (head_app (_ ++ _)), <- Hn. reflexivity.
        -- rewrite bool_decide_eq_false_2 by (intros [? ?]; discriminate). simpl.
           rewrite lookup_insert_eq.
           rewrite app_assoc, (head_app (_ ++ _)). rewrite <- Hn. reflexivity.
      * rewrite app_nil_r. rewrite app_nil_r in Hn.
        assert (Hne : tn <> n) by (intros ->; rewrite String.eqb_refl in En; discriminate).
        destruct (negb _); [rewrite lookup_insert_ne by exact Hne|]; exact Hn.
Qed.

Lemma processBlock_ok enumSet st b st' :
  pstate_ok st -> processBlock enumSet st b = Some st' -> pstate_ok st'.
Proof.
  intros [Hc Hn Hp]. unfold processBlock.
  destruct (foldlM _ _ _) as [a|] eqn:Hfold; [|discriminate].
  simpl. intros H. injection H as <-.
  assert (Ha : acc_ok (p_tables st) (b_name b) a).
  { eapply (foldlM_inv _ (acc_ok (p_tables st) (b_name b))); [| |exact Hfold].
    - intros a0 item a1 Ha0 Hstep. eapply item_step_ok; [exact Ha0|].
      eapply processItem_step, Hstep.
    - constructor; simpl; [constructor|].
      intros n. rewrite Hp. unfold firstPk.
      rewrite pkNamesOf_app, pkNamesOf_one. simpl.
      destruct (String.eqb (b_name b) n); rewrite app_nil_r; reflexivity. }
  destruct Ha as [Hac Hap].
  constructor; cbn [p_tables p_relations p_tableByName p_pkByTable].
  - apply Forall_app. split; [exact Hc|]. constructor; [exact Hac|constructor].
  - intros n i Hl. destruct (decide (n = b_name b)) as [->|Hne].
    + rewrite lookup_insert_eq in Hl. injection Hl as <-.
      rewrite lookup_app_r by lia. rewrite Nat.sub_diag. reflexivity.
    + rewrite lookup_insert_ne in Hl by congruence.
      specialize (Hn n i Hl).
      destruct (p_tables st !! i) as [t|] eqn:Et; [|discriminate].
      rewrite (lookup_app_l_Some _ _ _ _ Et). exact Hn.
  - exact Hap.
Qed.

Lemma collect_ok enumSet cleaned st :
  collect enumSet cleaned = Some st -> pstate_ok st.
Proof.
  unfold collect. destruct (parseCreateTableBlocks cleaned) as [bs|]; [|discriminate].
  simpl. apply (foldlM_inv _ pstate_ok).
  - intros a b a' Ha H. eapply processBlock_ok; eauto.
  - constructor; simpl.
    + constructor.
    + intros n i H. rewrite lookup_empty in H. discriminate.
    + intros n. rewrite lookup_empty. reflexivity.
Qed.

Lemma capture_ok sql cp : capture sql = Some cp -> pstate_ok (cp_state cp).
Proof.
  unfold capture.
  destruct (parseEnumTypes _) as [enums|]; [|discriminate]. simpl.
  destruct (parseIndexes _) as [ixs|]; [|discriminate]. simpl.
  destruct (collect _ _) as [st|] eqn:E; [|discriminate]. simpl.
  intros H. injection H as <-. simpl. eapply collect_ok, E.
Qed.

(** *** From the captured state to the graph *)

Lemma pkNames_mark_first rel cols : pkNames (mark_first rel cols) = pkNames cols.
Proof.
  unfold pkNames. induction cols as [|c cols IH]; simpl; [reflexivity|].
  destruct (String.eqb (c_name c) (fromColumn rel)); simpl.
  - destruct (isPrimaryKey c); reflexivity.
  - destruct (isPrimaryKey c); simpl; rewrite IH; reflexivity.
Qed.

Lemma mark_first_cols_ok rel cols :
  Forall pk_implies_not_null cols -> Forall pk_implies_not_null (mark_first rel cols).
Proof.
  induction 1 as [|c cols Hc Hcols IH]; simpl; [constructor|].
  destruct (String.eqb (c_name c) (fromColumn rel)); constructor; auto.
Qed.

(** What attaching the indexes and marking the foreign keys leave alone. *)
Lemma assemble_tables_fmap {B} (f : SqlTable -> B) cp :
  (forall idx t, f (push_index idx t) = f t) ->
  (forall rel t, f (mark_table rel t) = f t) ->
  f <$> tables (assemble cp) = f <$> p_tables (cp_state cp).
Proof.
  intros Hpush Hmark. unfold assemble. cbn [tables].
  set (tbn := p_tableByName (cp_state cp)).
  assert (Hidx : forall ixs ts, f <$> foldl (attachIndex tbn) ts ixs = f <$> ts).
  { induction ixs as [|ix ixs IH]; intros ts; simpl; [reflexivity|].
    rewrite IH. unfold attachIndex. destruct (tbn !! ix_table ix); [|reflexivity].
    apply fmap_alter_same, Hpush. }
  assert (Hrel : forall rels ts, f <$> foldl (markFk tbn) ts rels = f <$> ts).
  { induction rels as [|rel rels IH]; intros ts; simpl; [reflexivity|].
    rewrite IH. unfold markFk. destruct (tbn !! fromTable rel); [|reflexivity].
    apply fmap_alter_same, Hmark. }
  rewrite Hrel, Hidx. reflexivity.
Qed.

Lemma assemble_names cp :
  t_name <$> tables (assemble cp) = t_name <$> p_tables (cp_state cp).
Proof. apply assemble_tables_fmap; reflexivity. Qed.

Lemma assemble_firstPk cp n :
  firstPk (tables (assemble cp)) n = firstPk (p_tables (cp_state cp)) n.
Proof.
  unfold firstPk, pkNamesOf. rewrite !List.flat_map_concat_map. f_equal. f_equal.
  apply (assemble_tables_fmap
           (fun t => if String.eqb (t_name t) n then pkNames (columns t) else [])).
  - reflexivity.
  - intros rel t. simpl. rewrite pkNames_mark_first. reflexivity.
Qed.

Lemma assemble_cols_ok cp :
  Forall table_cols_ok (p_tables (cp_state cp)) ->
  Forall table_cols_ok (tables (assemble cp)).
Proof.
  intros H. unfold assemble. cbn [tables].
  apply foldl_inv.
  - intros ts rel Hts. unfold markFk. destruct (_ !! _); [|exact Hts].
    apply Forall_alter; [exact Hts|]. intros t _ Ht.
    unfold table_cols_ok in *. simpl. apply mark_first_cols_ok, Ht.
  - apply foldl_inv; [|exact H].
    intros ts ix Hts. unfold attachIndex. destruct (_ !! _); [|exact Hts].
    apply Forall_alter; [exact Hts|]. intros t _ Ht. exact Ht.
Qed.

Lemma has_table_named cp n :
  pstate_ok (cp_state cp) ->
  has_table (p_tableByName (cp_state cp)) n = true ->
  exists t, t ∈ tables (assemble cp) /\ t_name t = n.
Proof.
  intros Hok Hhas. unfold has_table in Hhas. apply bool_decide_eq_true_1 in Hhas.
  destruct Hhas as [i Hi]. apply (ok_names _ Hok) in Hi.
  rewrite <- list_lookup_fmap, <- assemble_names, list_lookup_fmap in Hi.
  destruct (tables (assemble cp) !! i) as [t|] eqn:Et; [|discriminate].
  exists t. split; [eapply list_elem_of_lookup_2, Et|].
  simpl in Hi. congruence.
Qed.

Lemma resolved_in_tables cp r :
  r ∈ relations (assemble cp) ->
  has_table (p_tableByName (cp_state cp)) (fromTable r) = true /\
  has_table (p_tableByName (cp_state cp)) (toTable r) = true.
Proof.
  unfold assemble, resolveRelations. cbn [relations]. intros H.
  apply list_elem_of_In, List.filter_In in H. destruct H as [_ H].
  apply andb_true_iff in H. exact H.
Qed.

(** *** The relations returned *)

Lemma pkNamesOf_tablesNamed n ts :
  pkNamesOf n ts = List.flat_map (fun t => pkNames (columns t)) (tablesNamed n ts).
Proof.
  unfold pkNamesOf, tablesNamed. induction ts as [|t ts IH]; simpl; [reflexivity|].
  destruct (String.eqb (t_name t) n); simpl; rewrite IH; reflexivity.
Qed.

Lemma firstPk_single n ts t :
  tablesNamed n ts = [t] -> firstPk ts n = head (pkNames (columns t)).
Proof.
  intros H. unfold firstPk. rewrite pkNamesOf_tablesNamed, H. simpl.
  rewrite app_nil_r. reflexivity.
Qed.

Lemma is_table_names ts ts' n :
  t_name <$> ts = t_name <$> ts' -> is_table ts n = is_table ts' n.
Proof.
  unfold is_table. revert ts'. induction ts as [|t ts IH]; intros [|t' ts'] H;
    try discriminate; [reflexivity|].
  simpl in H. injection H as Ht H. simpl. rewrite Ht, (IH _ H). reflexivity.
Qed.

(** Every table pushed is registered under its name, and the other way round. *)
Lemma processBlock_has_table es st b st' :
  (forall n, has_table (p_tableByName st) n = is_table (p_tables st) n) ->
  processBlock es st b = Some st' ->
  forall n, has_table (p_tableByName st') n = is_table (p_tables st') n.
Proof.
  intros H. unfold processBlock.
  destruct (foldlM _ _ _) as [a|]; [|discriminate]. simpl.
  intros E. injection E as <-. simpl. intros n.
  unfold is_table. rewrite existsb_app. simpl. rewrite orb_false_r.
  fold (is_table (p_tables st) n). rewrite <- H. unfold has_table.
  destruct (String.eqb_spec (b_name b) n) as [->|Hne].
  - rewrite lookup_insert_eq, orb_true_r. apply bool_decide_eq_true_2. eauto.
  - rewrite lookup_insert_ne by exact Hne. rewrite orb_false_r. reflexivity.
Qed.

Lemma capture_has_table sql cp n :
  capture sql = Some cp ->
  has_table (p_tableByName (cp_state cp)) n = is_table (tables (assemble cp)) n.
Proof.
  intros Hcp. rewrite (is_table_names _ _ n (assemble_names cp)).
  revert n. unfold capture in Hcp.
  destruct (parseEnumTypes _) as [enums|]; [|discriminate]. simpl in Hcp.
  destruct (parseIndexes _) as [ixs|]; [|discriminate]. simpl in Hcp.
  destruct (collect _ _) as [st|] eqn:E; [|discriminate]. simpl in Hcp.
  injection Hcp as <-. simpl.
  unfold collect in E.
  destruct (parseCreateTableBlocks _) as [bs|]; [|discriminate]. simpl in E.
  refine (foldlM_inv (processBlock _)
            (fun st => forall n, has_table (p_tableByName st) n = is_table (p_tables st) n)
            _ bs _ _ _ E).
  - intros a b a' Ha Hb. eapply processBlock_has_table; eauto.
  - intros n. unfold has_table. simpl. rewrite lookup_empty.
    apply bool_decide_eq_false_2. intros [? ?]. discriminate.
Qed.

Lemma resolveRelation_resolves pk ts c :
  (forall n, pk !! n = firstPk ts n) ->
  resolves ts (resolveRelation pk c) c.
Proof.
  intros Hpk.
  assert (Hom : toColumn c = "" ->
            toColumn (resolveRelation pk c) = default "id" (firstPk ts (toTable c))).
  { intros Hc. unfold resolveRelation. cbn [toColumn]. unfold resolveColumn.
    rewrite Hc. cbn [Str.truthy andb]. rewrite Hpk. reflexivity. }
  split; try reflexivity.
  - intros Hc. unfold resolveRelation. cbn [toColumn]. unfold resolveColumn.
    destruct (toColumn c) as [|x s]; [congruence|]. reflexivity.
  - exact Hom.
  - intros t Hc Ht. rewrite (Hom Hc), (firstPk_single _ _ _ Ht). reflexivity.
Qed.

Lemma Forall2_filter_map {A B} (P : B -> A -> Prop) (f : A -> B) (p : B -> bool)
  (q : A -> bool) (l : list A) :
  (forall a, p (f a) = q a) -> (forall a, P (f a) a) ->
  Forall2 P (List.filter p (List.map f l)) (List.filter q l).
Proof.
  intros Hpq HP. induction l as [|a l IH]; simpl; [constructor|].
  rewrite Hpq. destruct (q a); [constructor; auto|exact IH].
Qed.

Lemma relations_resolve sql cp :
  capture sql = Some cp ->
  Forall2 (resolves (tables (assemble cp))) (relations (assemble cp))
    (List.filter (between_tables (tables (assemble cp))) (p_relations (cp_state cp))).
Proof.
  intros Hcp. unfold assemble at 2. cbn [relations]. unfold resolveRelations.
  apply Forall2_filter_map.
  - intros c. unfold between_tables. rewrite !(capture_has_table _ _ _ Hcp). reflexivity.
  - intros c. apply resolveRelation_resolves. intros n.
    rewrite assemble_firstPk. apply (ok_pk _ (capture_ok _ _ Hcp)).
Qed.

(** *** Sample runs *)

Example default_sql_graph :
  (fun g => (List.map (fun t => (t_name t, List.map c_name (columns t))) (tables g),
             List.map r_id (relations g)))
    <$> parseSqlToGraph DEFAULT_SQL
  = Some ([("user", ["id"; "ame"]);
           ("content", ["id"; "author_id"; "title"; "created_at"]);
           ("view", ["id"; "content_id"; "user_id"; "total_sec_view"; "created_at"])],
          [Some "content.author_id->user.id"; Some "view.content_id->content.id";
           Some "view.user_id->user.id"]).
Proof. vm_compute. reflexivity. Qed.

Example stripComments_sample :
  stripComments "a -- x
b /* c
d */ e" = "a 
b  e".
Proof. vm_compute. reflexivity. Qed.

Example splitTopLevelComma_sample :
  splitTopLevelComma "a numeric(10, 2), b text default 'x,y', check (a > 0, b)"
  = ["a numeric(10, 2)"; "b text default 'x,y'"; "check (a > 0, b)"].
Proof. vm_compute. reflexivity. Qed.

Example columnType_samples :
  List.map columnType
    ["timestamp with time zone not null"; "numeric(10, 2)[] default 0";
     "character varying (20)"; "123abc def"]
  = ["timestamp with time zone"; "numeric(10, 2)[]"; "character varying (20)"; "123abc"].
Proof. vm_compute. reflexivity. Qed.

(** Greedy and lazy stars, and a replacement at empty matches. *)
Example star_samples :
  (mr_end <$> exec false (rseq [RStar true any; lit "b"]) "abcabc") = Some 5 /\
  (mr_end <$> exec false (rseq [RStar false any; lit "b"]) "abcabc") = Some 2 /\
  replace_all false (RStar true (chr "x")) "-" "abc" = "-a-b-c-".
Proof. vm_compute. auto. Qed.

(** An index: the expression ends at the first closing parenthesis. *)
Example parseIndexes_sample :
  parseIndexes "create unique index idx_c on content using BTREE (lower(title)) where (x);"
  = Some [mkIndex "idx_c" "content" true (Some "btree") "lower(title" None None].
Proof. vm_compute. reflexivity. Qed.

(** A reference followed by a list of columns is captured without a
    target column, and resolves like a reference that omits it. *)
Example column_list_reference :
  List.map (fun r => (fromTable r, fromColumn r, toTable r, toColumn r))
    <$> (relations <$> parseSqlToGraph column_list_sql)
  = Some [("b", "y", "a", "uid")] /\
  (List.map toColumn <$> (p_relations <$> (cp_state <$> capture column_list_sql)))
  = Some [""].
Proof. split; vm_compute; reflexivity. Qed.

(** A table-level foreign key that omits its target column. *)
Example table_level_reference :
  List.map (fun r => (fromTable r, fromColumn r, toTable r, toColumn r))
    <$> (relations <$> parseSqlToGraph table_level_sql)
  = Some [("b", "x", "a", "uid")] /\
  (List.map toColumn <$> (p_relations <$> (cp_state <$> capture table_level_sql)))
  = Some [""].
Proof. split; vm_compute; reflexivity. Qed.

(** *** The properties of the extractor *)

(** C1. The end-to-end example: on [example_sql] the extractor returns a
    graph whose tables are exactly [a] and [b], in this order, and whose only
    relation goes from [b.a_id] to [a.id]. *)
Theorem C1_end_to_end_example :
  exists g, parseSqlToGraph example_sql = Some g /\
    List.map t_name (tables g) = ["a"; "b"] /\
    List.map (fun r => (fromTable r, fromColumn r, toTable r, toColumn r)) (relations g)
      = [("b", "a_id", "a", "id")].
Proof.
  eexists. split; [vm_compute; reflexivity|]. split; reflexivity.
Qed.

(** C2. For every input the extractor returns a graph in which every
    relation has a source table and a target table among the returned tables;
    so a captured reference whose target table is not among the returned
    tables yields no relation: the relation it resolves to is not returned,
    and no returned relation has that target. *)
Theorem C2_relations_reference_tables (sql : string) :
  exists cp g, capture sql = Some cp /\ parseSqlToGraph sql = Some g /\
    (forall r, r ∈ relations g ->
       (exists t, t ∈ tables g /\ t_name t = fromTable r) /\
       (exists t, t ∈ tables g /\ t_name t = toTable r)) /\
    (forall c, c ∈ p_relations (cp_state cp) ->
       (forall t, t ∈ tables g -> t_name t <> toTable c) ->
       (resolveRelation (p_pkByTable (cp_state cp)) c ∉ relations g) /\
       (forall r, r ∈ relations g -> toTable r <> toTable c)).
Proof.
  destruct (parseSqlToGraph_capture sql) as (cp & Hcp & Hg).
  exists cp, (assemble cp). split; [exact Hcp|]. split; [exact Hg|].
  pose proof (capture_ok _ _ Hcp) as Hok.
  assert (Hrel : forall r, r ∈ relations (assemble cp) ->
            (exists t, t ∈ tables (assemble cp) /\ t_name t = fromTable r) /\
            (exists t, t ∈ tables (assemble cp) /\ t_name t = toTable r)).
  { intros r Hr. apply resolved_in_tables in Hr. destruct Hr as [Hf Ht].
    split; apply has_table_named; assumption. }
  split; [exact Hrel|].
  intros c _ Hnone.
  assert (Hno : forall r, r ∈ relations (assemble cp) -> toTable r <> toTable c).
  { intros r Hr Heq. destruct (Hrel r Hr) as [_ (t & Ht & Hname)].
    apply (Hnone t Ht). congruence. }
  split; [|exact Hno].
  intros Hin. apply (Hno _ Hin). reflexivity.
Qed.

(** C3 as stated fails when several table definitions bear the name of
    the target. In [repeated_sql] the clause names [s1.a]; the table it
    names, which is the first table named [a], declares no primary key, and
    neither does the table registered under the name, which is the last one;
    yet the target column is not [id] but [y], the primary key of the second
    table named [a]. *)
Lemma C3_repeated_name_counterexample :
  exists g r t1 t3, parseSqlToGraph repeated_sql = Some g /\
    relations g = [r] /\ fromTable r = "b" /\ fromColumn r = "a_id" /\ toTable r = "a" /\
    head (tablesNamed "a" (tables g)) = Some t1 /\ pkNames (columns t1) = [] /\
    last (tablesNamed "a" (tables g)) = Some t3 /\ pkNames (columns t3) = [] /\
    toColumn r = "y" /\ toColumn r <> "id".
Proof.
  do 4 eexists. split; [vm_compute; reflexivity|].
  repeat (split; [reflexivity|]). discriminate.
Qed.

(** C3, amended. For every input the returned relations are, in order,
    the captured foreign-key clauses whose two tables are among the returned
    tables, each resolved: the same source table, source column and target
    table, and the target column of the clause when the pattern captured
    one. For a clause captured without a target column (the clause omits it,
    or what follows the target table is not one parenthesised name), the
    target column is the first primary-key column discovered among the
    tables that bear the name of the target, and [id] when none of them
    declares one; when a single table bears that name, this is the first
    primary-key column of that table, or [id] when it declares none. *)
Theorem C3_omitted_target_column (sql : string) :
  exists cp g, capture sql = Some cp /\ parseSqlToGraph sql = Some g /\
    Forall2 (resolves (tables g)) (relations g)
      (List.filter (between_tables (tables g)) (p_relations (cp_state cp))).
Proof.
  destruct (parseSqlToGraph_capture sql) as (cp & Hcp & Hg).
  exists cp, (assemble cp). split; [exact Hcp|]. split; [exact Hg|].
  apply (relations_resolve sql), Hcp.
Qed.

(** C6. For every input the extractor returns a graph in which every column
    flagged primary key is flagged not-null. *)
Theorem C6_primary_key_not_null (sql : string) :
  exists g, parseSqlToGraph sql = Some g /\
    forall t c, t ∈ tables g -> c ∈ columns t ->
      isPrimaryKey c = true -> isNotNull c = Some true.
Proof.
  destruct (parseSqlToGraph_capture sql) as (cp & Hcp & Hg).
  exists (assemble cp). split; [exact Hg|].
  intros t c Ht Hc.
  pose proof (assemble_cols_ok cp (ok_cols _ (capture_ok _ _ Hcp))) as Hall.
  rewrite Forall_forall in Hall. specialize (Hall t Ht).
  unfold table_cols_ok in Hall. rewrite Forall_forall in Hall. exact (Hall c Hc).
Qed.

Lemma C2_relations_reference_tables_witness :
  exists t, t ∈ [mkTable "a" [mkColumn "id" "bigint" true (Some true) None None None None] [];
                 mkTable "b" [mkColumn "id" "bigint" true (Some true) None None None None;
                              mkColumn "a_id" "bigint" false (Some false) (Some true)
                                (Some (mkFkTo "a" (Some "id"))) None None] []]
            /\ t_name t = "a".
Proof.
  destruct (C2_relations_reference_tables example_sql) as (cp & g & _ & Hg & H & _).
  vm_compute in Hg. injection Hg as <-.
  apply (H (mkRelation (Some "b.a_id->a.id") "b" "a_id" "a" "id")).
  apply list_elem_of_here.
Defined.

Lemma C3_omitted_target_column_witness :
  exists g r c, parseSqlToGraph omitted_sql = Some g /\
    head (relations g) = Some r /\ toColumn c = "" /\ resolves (tables g) r c /\
    toTable r = "a" /\ toColumn r = default "id" (firstPk (tables g) "a") /\
    firstPk (tables g) "a" = Some "uid".
Proof.
  destruct (C3_omitted_target_column omitted_sql) as (cp & g & Hcp & Hg & H).
  vm_compute in Hcp. injection Hcp as <-.
  vm_compute in Hg. injection Hg as <-.
  cbn [relations tables cp_state p_relations] in H.
  inversion H as [|r c rs cs Hr _ E1 E2].
  eexists. exists r, c. split; [vm_compute; reflexivity|].
  vm_compute in E2. subst r c.
  split; [reflexivity|]. split; [reflexivity|]. split; [exact Hr|].
  split; [reflexivity|]. split; [exact (rs_omitted _ _ _ Hr eq_refl)|reflexivity].
Defined.

Lemma C6_primary_key_not_null_witness :
  isNotNull (mkColumn "id" "bigint" true (Some true) None None None None) = Some true.
Proof.
  destruct (C6_primary_key_not_null example_sql) as (g & Hg & H).
  vm_compute in Hg. injection Hg as <-.
  eapply H; [apply list_elem_of_here|apply list_elem_of_here|reflexivity].
Defined.

(** *** Text that is not a definition *)

Lemma foldl_attachIndex_nil ixs : foldl (attachIndex ∅) [] ixs = [].
Proof.
  induction ixs as [|ix ixs IH]; simpl; [reflexivity|].
  unfold attachIndex at 2. rewrite lookup_empty. exact IH.
Qed.

Lemma eq_ci_to_lower p c :
  Chars.eq_ci p c = true -> Chars.to_lower p = Chars.to_lower c.
Proof.
  unfold Chars.eq_ci. destruct (Chars.is_alpha p).
  - intros H. apply andb_true_iff in H. destruct H as [_ H].
    apply Ascii.eqb_eq in H. exact H.
  - intros H. apply Ascii.eqb_eq in H. congruence.
Qed.

(** A literal under the [i] flag matches only where the text, in lower
    case, starts with the literal in lower case. *)
Lemma lit_i_prefix ml : forall w st k,
  rmatch ml (lit_i w) st k <> None ->
  Str.is_prefix (Str.toLowerCase w) (Str.toLowerCase (m_rest st)) = true.
Proof.
  assert (Hc : forall p st k,
            rmatch ml (RChar (Chars.eq_ci p)) st k <> None ->
            exists c rest, m_rest st = String c rest /\
              Chars.to_lower p = Chars.to_lower c /\
              rmatch ml (RChar (Chars.eq_ci p)) st k
              = k (MState (S (m_pos st)) (Some c) rest (m_caps st))).
  { intros p st k. cbn [rmatch]. destruct (m_rest st) as [|c rest]; [congruence|].
    destruct (Chars.eq_ci p c) eqn:E; [|congruence].
    intros _. exists c, rest. split; [reflexivity|]. split; [|reflexivity].
    apply eq_ci_to_lower, E. }
  induction w as [|p w IH]; intros st k H; [reflexivity|].
  destruct w as [|p' w'].
  - cbn [lit_i] in H. destruct (Hc _ _ _ H) as (c & rest & -> & Hp & _).
    simpl. rewrite Hp, Ascii.eqb_refl. reflexivity.
  - change (lit_i (String p (String p' w')))
      with (RSeq (RChar (Chars.eq_ci p)) (lit_i (String p' w'))) in H.
    cbn [rmatch] in H. fold (rmatch ml) in H.
    change (rmatch ml (RChar (Chars.eq_ci p)) st
              (fun st' => rmatch ml (lit_i (String p' w')) st' k) <> None) in H.
    destruct (Hc _ _ _ H) as (c & rest & Hst & Hp & Hk).
    rewrite Hk in H. apply IH in H. cbn [m_rest] in H.
    rewrite Hst. change (Str.toLowerCase (String p (String p' w')))
      with (String (Chars.to_lower p) (Str.toLowerCase (String p' w'))).
    change (Str.toLowerCase (String c rest))
      with (String (Chars.to_lower c) (Str.toLowerCase rest)).
    cbn [Str.is_prefix]. rewrite Hp, Ascii.eqb_refl. exact H.
Qed.

Lemma is_prefix_app_l p q : forall s,
  Str.is_prefix (String.append p q) s = true -> Str.is_prefix p s = true.
Proof.
  induction p as [|a p IH]; intros s H; [reflexivity|].
  destruct s as [|b s]; [discriminate|]. simpl in *.
  apply andb_true_iff in H. destruct H as [H1 H2]. rewrite H1. apply IH, H2.
Qed.

Lemma indexOf_from_app p q : forall rest pos,
  Str.indexOf_from p rest pos = None ->
  Str.indexOf_from (String.append p q) rest pos = None.
Proof.
  induction rest as [|c rest IH]; intros pos; cbn [Str.indexOf_from];
    destruct (Str.is_prefix p _) eqn:E; try discriminate;
    destruct (Str.is_prefix (String.append p q) _) eqn:E'.
  - apply is_prefix_app_l in E'. congruence.
  - reflexivity.
  - apply is_prefix_app_l in E'. congruence.
  - apply IH.
Qed.

(** A [g] pattern that starts with a literal finds nothing in a text
    where the literal does not occur. *)
Lemma exec_loop_no_literal ml w r : forall rest pos prev p0,
  Str.indexOf_from (Str.toLowerCase w) (Str.toLowerCase rest) p0 = None ->
  exec_loop ml (RSeq (lit_i w) r) pos prev rest 0 = Some [].
Proof.
  induction rest as [|c rest IH]; intros pos prev p0 H.
  - cbn [exec_loop]. unfold match_at. cbn [rmatch].
    destruct (rmatch ml (lit_i w) _ _) eqn:E; [|reflexivity].
    assert (E' : rmatch ml (lit_i w) (MState pos prev "" [])
                   (fun st' => rmatch ml r st' Some) <> None) by congruence.
    apply lit_i_prefix in E'. cbn [m_rest] in E'.
    change (Str.toLowerCase "") with "" in *.
    cbn [Str.indexOf_from] in H. rewrite E' in H. discriminate.
  - cbn [exec_loop]. unfold match_at. cbn [rmatch].
    change (Str.toLowerCase (String c rest))
      with (String (Chars.to_lower c) (Str.toLowerCase rest)) in H.
    cbn [Str.indexOf_from] in H.
    destruct (Str.is_prefix _ (String _ _)) eqn:Ep; [discriminate|].
    destruct (rmatch ml (lit_i w) _ _) eqn:E.
    + assert (E' : rmatch ml (lit_i w) (MState pos prev (String c rest) [])
                     (fun st' => rmatch ml r st' Some) <> None) by congruence.
      apply lit_i_prefix in E'. cbn [m_rest] in E'.
      change (Str.toLowerCase (String c rest))
        with (String (Chars.to_lower c) (Str.toLowerCase rest)) in E'.
      congruence.
    + apply (IH _ _ _ H).
Qed.

Lemma indexOf_0 needle s : Str.indexOf needle s 0 = Str.indexOf_from needle s 0.
Proof. unfold Str.indexOf. destruct s; reflexivity. Qed.

Lemma no_create_no_enum sql cp :
  Str.indexOf "create" (Str.toLowerCase (stripComments sql)) 0 = None ->
  capture sql = Some cp -> cp_enums cp = [].
Proof.
  intros Hno. rewrite indexOf_0 in Hno. unfold capture.
  unfold parseEnumTypes, exec_all.
  change enumRe with (RSeq (lit_i "create")
    (rseq [rplus ws; lit_i "type"; rplus ws; RGroup 1 qname;
           rplus ws; lit_i "as"; rplus ws; lit_i "enum"; rstar ws; lit "(";
           RGroup 2 (RStar false any); lit ")"; rstar ws; ROpt (lit ";")])).
  rewrite (exec_loop_no_literal false "create" _ _ 0 None 0 Hno).
  cbn [mbind option_bind mapM mret option_ret].
  destruct (parseIndexes _) as [ixs|]; [|discriminate]. cbn [mbind option_bind].
  match goal with |- context [collect ?a ?b] => destruct (collect a b) as [st|] end;
    [|discriminate].
  cbn [mbind option_bind].
  intros H. injection H as <-. reflexivity.
Qed.

Lemma no_keyword_no_table sql cp :
  Str.indexOf createTable (Str.toLowerCase (stripComments sql)) 0 = None ->
  capture sql = Some cp ->
  tables (assemble cp) = [] /\ relations (assemble cp) = [].
Proof.
  intros Hno. unfold capture.
  destruct (parseEnumTypes _) as [enums|]; [|discriminate]. cbn [mbind option_bind].
  destruct (parseIndexes _) as [ixs|]; [|discriminate]. cbn [mbind option_bind].
  unfold collect, parseCreateTableBlocks. cbn [blocks_loop]. rewrite Hno.
  destruct (negb _); cbn [mbind option_bind foldlM];
    intros H; injection H as <-; unfold assemble; simpl;
    rewrite foldl_attachIndex_nil; split; reflexivity.
Qed.

(** C8 as stated fails for each of the four kinds. A table definition cut
    short before its closing parenthesis still puts a table in the output,
    and so does a definition without a name; an enum definition whose last
    literal is not closed yields the enum with the values before it; an index
    definition whose [where] clause is not closed yields the index without
    the clause; a reference cut short inside the parentheses of its target
    column yields a relation to the column [id]. *)
Lemma C8_partial_output_counterexample :
  parseSqlToGraph cut_short_sql
  = Some (mkGraph
            [mkTable "a" [mkColumn "id" "bigint" true (Some true) None None None None] []]
            [] []) /\
  parseSqlToGraph nameless_sql
  = Some (mkGraph
            [mkTable "" [mkColumn "x" "int" false (Some false) None None None None] []]
            [] []) /\
  parseSqlToGraph partial_enum_sql = Some (mkGraph [] [] [mkEnum "mood" ["sad"]]) /\
  (fun g => List.map (fun t => (t_name t, indexes t)) (tables g))
    <$> parseSqlToGraph partial_index_sql
  = Some [("t", [mkIndex "i" "t" false None "a" None None])] /\
  relations <$> parseSqlToGraph partial_relation_sql
  = Some [mkRelation (Some "b.a_id->a.id") "b" "a_id" "a" "id"].
Proof. repeat split; vm_compute; reflexivity. Qed.

(** C8, amended. For every input the extractor returns a graph (no call it
    makes throws and every loop ends). When the text left once the comments
    are stripped, put in lower case, does not contain [create table], the
    graph has no table and no relation, hence no index; when it does not
    contain [create], the graph has no enum either: it is empty. *)
Theorem C8_returns_for_every_input (sql : string) :
  exists g, parseSqlToGraph sql = Some g /\
    (Str.indexOf createTable (Str.toLowerCase (stripComments sql)) 0 = None ->
     tables g = [] /\ relations g = []) /\
    (Str.indexOf "create" (Str.toLowerCase (stripComments sql)) 0 = None ->
     g = mkGraph [] [] []).
Proof.
  destruct (parseSqlToGraph_capture sql) as (cp & Hcp & Hg).
  exists (assemble cp). split; [exact Hg|]. split.
  - intros Hno. eapply no_keyword_no_table; eauto.
  - intros Hno.
    assert (Hno' : Str.indexOf createTable (Str.toLowerCase (stripComments sql)) 0 = None).
    { rewrite indexOf_0 in *. apply (indexOf_from_app "create" " table"), Hno. }
    destruct (no_keyword_no_table _ _ Hno' Hcp) as [Ht Hr].
    pose proof (no_create_no_enum _ _ Hno Hcp) as He.
    destruct (assemble cp) as [ts rs es] eqn:E.
    assert (es = cp_enums cp) by (unfold assemble in E; injection E as _ _ <-; reflexivity).
    simpl in Ht, Hr. subst. rewrite He. reflexivity.
Qed.

Lemma C8_returns_for_every_input_witness :
  exists g, parseSqlToGraph "create  table a(id int);" = Some g /\
    tables g = [] /\ relations g = [] /\
    parseSqlToGraph "select 1; drop it (" = Some (mkGraph [] [] []).
Proof.
  destruct (C8_returns_for_every_input "create  table a(id int);") as (g & Hg & H & _).
  exists g. split; [exact Hg|].
  destruct H as [Ht Hr]; [vm_compute; reflexivity|].
  split; [exact Ht|]. split; [exact Hr|].
  destruct (C8_returns_for_every_input "select 1; drop it (") as (g' & Hg' & _ & H').
  rewrite Hg'. f_equal. apply H'. vm_compute. reflexivity.
Defined.

End SqlFacts.

(** ** More about the schema extractor *)

Module SqlMore.
Import Re ReFacts ReMore Sql ListFacts StrFacts SqlFacts.

Lemma processItem_columns es tn a item a' :
  processItem es tn a item = Some a' ->
  a_columns a' = a_columns a \/
  exists col, a_columns a' = a_columns a ++ [col] /\ flags_ok es col.
Proof.
  unfold processItem.
  destruct (exec false tableFkRe (normalizeWs item)) as [fk|].
  - unfold tableLevelFk.
    destruct (group (normalizeWs item) fk 1); [|discriminate].
    destruct (group (normalizeWs item) fk 2); [|discriminate].
    simpl. intros H. injection H as <-. left. reflexivity.
  - repeat match goal with
           | |- (if ?b then _ else _) = _ -> _ =>
               destruct b; [intros H; injection H as <-; left; reflexivity|]
           end.
    destruct (exec false colDefRe (normalizeWs item)) as [m|];
      [|intros H; injection H as <-; left; reflexivity].
    unfold columnDef.
    destruct (group (normalizeWs item) m 1) as [g1|]; [|discriminate].
    destruct (group (normalizeWs item) m 2) as [rest|]; [|discriminate].
    simpl.
    destruct (exec false colRefRe (normalizeWs item)) as [r|].
    + destruct (group (normalizeWs item) r 1) as [r1|]; [|discriminate].
      destruct (group (normalizeWs item) r 3) as [r3|]; [|discriminate].
      simpl. intros H. injection H as <-. right. eexists. split; [reflexivity|].
      constructor; cbn; eauto.
    + intros H. injection H as <-. right. eexists. split; [reflexivity|].
      constructor; cbn; eauto.
Qed.

(** The items of a block push at most one column each, all of them fresh. *)
Lemma items_columns es tn : forall items a a',
  foldlM (processItem es tn) a items = Some a' ->
  exists cols, a_columns a' = a_columns a ++ cols /\
    length cols <= length items /\ Forall (flags_ok es) cols.
Proof.
  induction items as [|item items IH]; intros a a' H; simpl in H.
  - injection H as <-. exists []. rewrite app_nil_r. repeat split; [simpl; lia|constructor].
  - destruct (processItem es tn a item) as [a1|] eqn:E; [|discriminate]. simpl in H.
    destruct (IH _ _ H) as (cols & Hc & Hl & Hf).
    destruct (processItem_columns _ _ _ _ _ E) as [E1|(col & E1 & Hcol)].
    + exists cols. rewrite Hc, E1. repeat split; [simpl; lia|exact Hf].
    + exists (col :: cols). rewrite Hc, E1, <- app_assoc. repeat split;
        [simpl; lia|constructor; assumption].
Qed.

Lemma processBlock_table es st b st' :
  processBlock es st b = Some st' ->
  exists t, p_tables st' = p_tables st ++ [t] /\ table_of_block es t b /\
    p_tableByName st' = <[b_name b := length (p_tables st)]> (p_tableByName st).
Proof.
  unfold processBlock.
  destruct (foldlM _ _ _) as [a|] eqn:Hfold; [|discriminate].
  simpl. intros H. injection H as <-.
  destruct (items_columns _ _ _ _ _ Hfold) as (cols & Hc & Hl & Hf). simpl in Hc.
  eexists. split; [reflexivity|]. split; [|reflexivity].
  unfold table_of_block. simpl. subst. auto.
Qed.

Lemma blocks_tables es : forall bs st st',
  foldlM (processBlock es) st bs = Some st' ->
  exists ts, p_tables st' = p_tables st ++ ts /\ Forall2 (table_of_block es) ts bs.
Proof.
  induction bs as [|b bs IH]; intros st st' H; simpl in H.
  - injection H as <-. exists []. rewrite app_nil_r. split; [reflexivity|constructor].
  - destruct (processBlock es st b) as [st1|] eqn:E; [|discriminate]. simpl in H.
    destruct (IH _ _ H) as (ts & Hts & HF).
    destruct (processBlock_table _ _ _ _ E) as (t & Ht & Htb & _).
    exists (t :: ts). rewrite Hts, Ht, <- app_assoc. split; [reflexivity|].
    constructor; assumption.
Qed.

Lemma capture_blocks sql cp :
  capture sql = Some cp ->
  exists blocks, parseCreateTableBlocks (stripComments sql) = Some blocks /\
    Forall2 (table_of_block (list_to_set (List.map en_name (cp_enums cp))))
      (p_tables (cp_state cp)) blocks.
Proof.
  unfold capture.
  destruct (parseEnumTypes _) as [enums|]; [|discriminate]. simpl.
  destruct (parseIndexes _) as [ixs|]; [|discriminate]. simpl.
  destruct (collect _ _) as [st|] eqn:E; [|discriminate]. simpl.
  intros H. injection H as <-. simpl.
  unfold collect in E.
  destruct (parseCreateTableBlocks _) as [bs|]; [|discriminate]. simpl in E.
  exists bs. split; [reflexivity|].
  destruct (blocks_tables _ _ _ _ E) as (ts & Hts & HF). simpl in Hts. subst. exact HF.
Qed.

(** X1. One table per block, in the order of the blocks, named as the
    block, with at most one column per top-level item of the body. *)
Theorem tables_in_source_order (sql : string) :
  exists g blocks, parseSqlToGraph sql = Some g /\
    parseCreateTableBlocks (stripComments sql) = Some blocks /\
    Forall2 (fun t b => t_name t = b_name b /\
                        length (columns t) <= length (splitTopLevelComma (b_body b)))
      (tables g) blocks.
Proof.
  destruct (parseSqlToGraph_capture sql) as (cp & Hcp & Hg).
  destruct (capture_blocks _ _ Hcp) as (blocks & Hb & HF).
  exists (assemble cp), blocks. split; [exact Hg|]. split; [exact Hb|].
  pose proof (assemble_tables_fmap (fun t => (t_name t, length (columns t))) cp) as Hf.
  assert (Hlen : forall rel cols, length (mark_first rel cols) = length cols).
  { intros rel. induction cols as [|c cols IH]; simpl; [reflexivity|].
    destruct (String.eqb _ _); simpl; congruence. }
  specialize (Hf (fun _ _ => eq_refl)).
  assert (H2 : Forall2 (fun p b => fst p = b_name b /\
                          snd p <= length (splitTopLevelComma (b_body b)))
                 ((fun t => (t_name t, length (columns t))) <$> tables (assemble cp)) blocks).
  { rewrite Hf.
    - apply Forall2_fmap_l. eapply Forall2_impl; [exact HF|].
      intros t b (Hn & _ & Hl & _). simpl. auto.
    - intros rel t. simpl. rewrite Hlen. reflexivity. }
  apply Forall2_fmap_l in H2. exact H2.
Qed.

Lemma later_named_app_l n i ts t :
  i < length ts ->
  later_named n i (ts ++ [t]) = later_named n i ts || String.eqb (t_name t) n.
Proof.
  intros Hi. unfold later_named. rewrite drop_app_le by lia.
  rewrite existsb_app. simpl. rewrite orb_false_r. reflexivity.
Qed.

Lemma later_named_ge n i ts : length ts <= S i -> later_named n i ts = false.
Proof. intros H. unfold later_named. rewrite drop_ge by lia. reflexivity. Qed.

Lemma registered_push tbn ts t :
  registered tbn ts -> registered (<[t_name t := length ts]> tbn) (ts ++ [t]).
Proof.
  intros HR n i. destruct (decide (n = t_name t)) as [->|Hne].
  - rewrite lookup_insert_eq. split.
    + intros H. injection H as <-. rewrite lookup_app_r by lia.
      rewrite Nat.sub_diag. split; [reflexivity|].
      apply later_named_ge. rewrite length_app. simpl. lia.
    + intros [Hn Hl]. f_equal.
      destruct (decide (i < length ts)) as [Hi|Hi].
      * rewrite later_named_app_l in Hl by exact Hi.
        rewrite String.eqb_refl, orb_true_r in Hl. discriminate.
      * destruct ((ts ++ [t]) !! i) eqn:E; [|discriminate].
        apply lookup_lt_Some in E. rewrite length_app in E. simpl in E. lia.
  - rewrite lookup_insert_ne by congruence. rewrite (HR n i). split.
    + intros [Hn Hl]. destruct (ts !! i) as [t0|] eqn:E; [|discriminate].
      pose proof (lookup_lt_Some _ _ _ E) as Hi.
      rewrite (lookup_app_l_Some _ _ _ _ E). split; [exact Hn|].
      rewrite later_named_app_l by exact Hi. rewrite Hl. simpl.
      apply String.eqb_neq. congruence.
    + intros [Hn Hl]. destruct (decide (i < length ts)) as [Hi|Hi].
      * rewrite lookup_app_l in Hn by exact Hi. split; [exact Hn|].
        rewrite later_named_app_l in Hl by exact Hi.
        apply orb_false_iff in Hl. tauto.
      * destruct ((ts ++ [t]) !! i) as [t0|] eqn:E; [|discriminate].
        pose proof (lookup_lt_Some _ _ _ E) as Hi'. rewrite length_app in Hi'. simpl in Hi'.
        assert (i = length ts) by lia. subst i.
        rewrite lookup_app_r in E by lia. rewrite Nat.sub_diag in E.
        simpl in E. injection E as <-. simpl in Hn. congruence.
Qed.

Lemma blocks_registered es : forall bs st st',
  registered (p_tableByName st) (p_tables st) ->
  foldlM (processBlock es) st bs = Some st' ->
  registered (p_tableByName st') (p_tables st').
Proof.
  intros bs st st' H0 H.
  refine (foldlM_inv (processBlock es)
            (fun st => registered (p_tableByName st) (p_tables st)) _ bs st st' H0 H).
  intros a b a' Ha Hb.
  destruct (processBlock_table _ _ _ _ Hb) as (t & Ht & (Hn & _) & Htb).
  rewrite Ht, Htb, <- Hn. apply registered_push, Ha.
Qed.

Lemma capture_registered sql cp :
  capture sql = Some cp ->
  registered (p_tableByName (cp_state cp)) (p_tables (cp_state cp)).
Proof.
  unfold capture.
  destruct (parseEnumTypes _) as [enums|]; [|discriminate]. simpl.
  destruct (parseIndexes _) as [ixs|]; [|discriminate]. simpl.
  destruct (collect _ _) as [st|] eqn:E; [|discriminate]. simpl.
  intros H. injection H as <-. simpl.
  unfold collect in E.
  destruct (parseCreateTableBlocks _) as [bs|]; [|discriminate]. simpl in E.
  eapply blocks_registered; [|exact E].
  intros n i. simpl. rewrite lookup_empty. split; [discriminate|].
  intros [H _]. discriminate.
Qed.

Lemma capture_indexes sql cp :
  capture sql = Some cp -> parseIndexes (stripComments sql) = Some (cp_indexes cp).
Proof.
  unfold capture.
  destruct (parseEnumTypes _) as [enums|]; [|discriminate]. simpl.
  destruct (parseIndexes _) as [ixs|]; [|discriminate]. simpl.
  destruct (collect _ _) as [st|] eqn:E; [|discriminate]. simpl.
  intros H. injection H as <-. reflexivity.
Qed.

(** The loop that attaches the indexes, table by table. *)
Lemma foldl_attachIndex tbn : forall ixs ts,
  foldl (attachIndex tbn) ts ixs = imap (attach_all tbn ixs) ts.
Proof.
  induction ixs as [|ix ixs IH]; intros ts.
  - simpl. apply list_eq. intros i. rewrite list_lookup_imap.
    destruct (ts !! i) as [t|]; [|reflexivity]. simpl. f_equal.
    unfold attach_all. simpl. rewrite app_nil_r. destruct t; reflexivity.
  - simpl. rewrite IH. apply list_eq. intros i. rewrite !list_lookup_imap.
    unfold attachIndex. destruct (tbn !! ix_table ix) as [j|] eqn:Ej.
    + destruct (decide (i = j)) as [->|Hne].
      * rewrite list_lookup_alter_eq. destruct (ts !! j) as [t|]; [|reflexivity].
        simpl. f_equal. unfold attach_all, push_index. simpl.
        rewrite bool_decide_eq_true_2 by exact Ej. rewrite <- app_assoc. reflexivity.
      * rewrite list_lookup_alter_ne by congruence.
        destruct (ts !! i) as [t|]; [|reflexivity].
        simpl. f_equal. unfold attach_all. simpl.
        rewrite bool_decide_eq_false_2 by (rewrite Ej; congruence). reflexivity.
    + destruct (ts !! i) as [t|]; [|reflexivity].
      simpl. f_equal. unfold attach_all. simpl.
      rewrite bool_decide_eq_false_2 by (rewrite Ej; congruence). reflexivity.
Qed.

Lemma foldl_attachIndex_fmap {B} (f : SqlTable -> B) tbn :
  (forall ix t, f (push_index ix t) = f t) ->
  forall ixs ts, f <$> foldl (attachIndex tbn) ts ixs = f <$> ts.
Proof.
  intros Hpush. induction ixs as [|ix ixs IH]; intros ts; simpl; [reflexivity|].
  rewrite IH. unfold attachIndex. destruct (tbn !! ix_table ix); [|reflexivity].
  apply fmap_alter_same, Hpush.
Qed.

Lemma foldl_markFk_fmap {B} (f : SqlTable -> B) tbn :
  (forall rel t, f (mark_table rel t) = f t) ->
  forall rels ts, f <$> foldl (markFk tbn) ts rels = f <$> ts.
Proof.
  intros Hmark. induction rels as [|rel rels IH]; intros ts; simpl; [reflexivity|].
  rewrite IH. unfold markFk. destruct (tbn !! fromTable rel); [|reflexivity].
  apply fmap_alter_same, Hmark.
Qed.

Lemma later_named_fmap n i ts ts' :
  t_name <$> ts = t_name <$> ts' -> later_named n i ts = later_named n i ts'.
Proof.
  intros H. unfold later_named.
  assert (E : forall l, existsb (fun t => String.eqb (t_name t) n) l
                        = existsb (fun x => String.eqb x n) (t_name <$> l)).
  { induction l as [|t l IH]; simpl; [reflexivity|]. rewrite IH. reflexivity. }
  rewrite !E, !fmap_drop, H. reflexivity.
Qed.

(** X2. The indexes of a returned table are the parsed indexes whose [table]
    is its name, in the order of the text; when a later table has the same
    name, that table has them and this one has none. *)
Theorem indexes_of_table (sql : string) :
  exists g ixs, parseSqlToGraph sql = Some g /\
    parseIndexes (stripComments sql) = Some ixs /\
    forall i t, tables g !! i = Some t ->
      indexes t =
        if later_named (t_name t) i (tables g) then []
        else List.filter (fun ix => String.eqb (ix_table ix) (t_name t)) ixs.
Proof.
  destruct (parseSqlToGraph_capture sql) as (cp & Hcp & Hg).
  exists (assemble cp), (cp_indexes cp). split; [exact Hg|].
  split; [eapply capture_indexes, Hcp|].
  pose proof (capture_registered _ _ Hcp) as HR.
  destruct (capture_blocks _ _ Hcp) as (blocks & _ & HF).
  pose proof (assemble_names cp) as Hnames.
  intros i t Ht.
  rewrite (later_named_fmap _ _ _ _ Hnames).
  set (tbn := p_tableByName (cp_state cp)) in *.
  assert (Hix : indexes <$> tables (assemble cp)
                = indexes <$> imap (attach_all tbn (cp_indexes cp)) (p_tables (cp_state cp))).
  { unfold assemble. cbn [tables]. rewrite foldl_markFk_fmap by reflexivity.
    rewrite foldl_attachIndex. reflexivity. }
  assert (Hi : indexes <$> tables (assemble cp) !! i = Some (indexes t))
    by (rewrite Ht; reflexivity).
  rewrite <- list_lookup_fmap, Hix, list_lookup_fmap, list_lookup_imap in Hi.
  assert (Hn : t_name <$> p_tables (cp_state cp) !! i = Some (t_name t)).
  { rewrite <- list_lookup_fmap, <- Hnames, list_lookup_fmap, Ht. reflexivity. }
  destruct (p_tables (cp_state cp) !! i) as [t0|] eqn:Et0; [|discriminate].
  simpl in Hi, Hn. injection Hi as <-. injection Hn as Hn.
  assert (H0 : indexes t0 = []).
  { apply list_elem_of_lookup_2 in Et0.
    assert (HA : Forall (fun t => indexes t = []) (p_tables (cp_state cp))).
    { clear -HF. induction HF as [|t b ts bs Htb _ IH]; constructor; [apply Htb|exact IH]. }
    rewrite Forall_forall in HA. apply HA, Et0. }
  unfold attach_all. cbn [indexes]. rewrite H0, app_nil_l, <- Hn.
  destruct (later_named (t_name t0) i (p_tables (cp_state cp))) eqn:El.
  - rewrite (List.filter_ext _ (fun _ => false)).
    + clear. induction (cp_indexes cp) as [|ix l IH]; [reflexivity|exact IH].
    + intros ix. apply bool_decide_eq_false_2. intros Hix'.
      apply HR in Hix'. destruct Hix' as [Hname Hl].
      rewrite Et0 in Hname. simpl in Hname. injection Hname as Hname.
      rewrite Hname, Hl in El. discriminate.
  - apply List.filter_ext. intros ix.
    destruct (String.eqb (ix_table ix) (t_name t0)) eqn:Eq.
    + apply String.eqb_eq in Eq. apply bool_decide_eq_true_2. apply HR.
      rewrite Et0, Eq. split; [reflexivity|exact El].
    + apply bool_decide_eq_false_2. intros Hix'. apply HR in Hix'.
      destruct Hix' as [Hname _]. rewrite Et0 in Hname. simpl in Hname.
      injection Hname as Hname. rewrite Hname, String.eqb_refl in Eq. discriminate.
Qed.

Lemma set_fk_flags_ok es rel c : flags_ok es c -> flags_ok es (set_fk rel c).
Proof. intros [H1 H2 H3 H4]. constructor; simpl; auto. Qed.

Lemma mark_first_flags_ok es rel cols :
  Forall (flags_ok es) cols -> Forall (flags_ok es) (mark_first rel cols).
Proof.
  induction 1 as [|c cols Hc Hcols IH]; simpl; [constructor|].
  destruct (String.eqb (c_name c) (fromColumn rel)); constructor; auto using set_fk_flags_ok.
Qed.

Lemma assemble_flags_ok sql cp :
  capture sql = Some cp ->
  Forall (fun t => Forall (flags_ok (list_to_set (List.map en_name (cp_enums cp)))) (columns t))
    (tables (assemble cp)).
Proof.
  intros Hcp. destruct (capture_blocks _ _ Hcp) as (blocks & _ & HF).
  set (es := list_to_set (List.map en_name (cp_enums cp))) in *.
  assert (H : Forall (fun t => Forall (flags_ok es) (columns t)) (p_tables (cp_state cp))).
  { clear -HF. induction HF as [|t b ts bs Htb _ IH]; constructor; [apply Htb|exact IH]. }
  unfold assemble. cbn [tables].
  apply foldl_inv.
  - intros ts rel Hts. unfold markFk. destruct (_ !! _); [|exact Hts].
    apply Forall_alter; [exact Hts|]. intros t _ Ht. simpl. apply mark_first_flags_ok, Ht.
  - apply foldl_inv; [|exact H].
    intros ts ix Hts. unfold attachIndex. destruct (_ !! _); [|exact Hts].
    apply Forall_alter; [exact Hts|]. intros t _ Ht. exact Ht.
Qed.

(** X4. In a returned graph a column has [isForeignKey] exactly when it has
    [fkTo], and the flag is never [false]; [isNotNull] is always set. *)
Theorem foreign_key_flags (sql : string) :
  exists g, parseSqlToGraph sql = Some g /\
    forall t c, t ∈ tables g -> c ∈ columns t ->
      is_Some (isNotNull c) /\
      (isForeignKey c = Some true /\ is_Some (fkTo c) \/
       isForeignKey c = None /\ fkTo c = None).
Proof.
  destruct (parseSqlToGraph_capture sql) as (cp & Hcp & Hg).
  exists (assemble cp). split; [exact Hg|].
  intros t c Ht Hc. pose proof (assemble_flags_ok _ _ Hcp) as H.
  rewrite Forall_forall in H. specialize (H t Ht).
  rewrite Forall_forall in H. destruct (H c Hc) as [H1 H2 _ _].
  split; [exact H1|]. rewrite H2. destruct (fkTo c); simpl; eauto.
Qed.

Lemma in_enumSet (n : string) (enums : list SqlEnum) :
  bool_decide (n ∈ (list_to_set (List.map en_name enums) : gset string))
  = existsb (enum_named n) enums.
Proof.
  destruct (existsb (enum_named n) enums) eqn:E.
  - apply bool_decide_eq_true_2. apply existsb_exists in E. destruct E as (e & He & Hn).
    apply String.eqb_eq in Hn. rewrite elem_of_list_to_set, list_elem_of_In.
    apply in_map_iff. eauto.
  - apply bool_decide_eq_false_2. intros H.
    rewrite elem_of_list_to_set, list_elem_of_In in H. apply in_map_iff in H.
    destruct H as (e & He & Hin).
    assert (Ht : existsb (enum_named n) enums = true).
    { apply existsb_exists. exists e. split; [exact Hin|]. apply String.eqb_eq, He. }
    congruence.
Qed.

(** X5. The enum flags of a returned column are decided by its recorded
    type and the returned enums. Let [n] be the type with every parenthesised
    part removed, then a final [[]] removed, then read as a name: trimmed,
    surrounding double quotes and any schema prefix stripped. When [n] is the
    name of a returned enum, or ends in [_enum] in any letter case, the
    column has [enumName] set to [n] and [isEnum] set to true; otherwise
    both are unset. *)
Theorem enum_flags (sql : string) :
  exists g, parseSqlToGraph sql = Some g /\
    forall t c, t ∈ tables g -> c ∈ columns t ->
      let n := normalizeTableName (baseTypeOf (replace_all false parenRe "" (c_type c))) in
      if existsb (enum_named n) (enums g) || test false enumSuffixRe n
      then enumName c = Some n /\ isEnum c = Some true
      else enumName c = None /\ isEnum c = None.
Proof.
  destruct (parseSqlToGraph_capture sql) as (cp & Hcp & Hg).
  exists (assemble cp). split; [exact Hg|].
  intros t c Ht Hc. pose proof (assemble_flags_ok _ _ Hcp) as H.
  rewrite Forall_forall in H. specialize (H t Ht).
  rewrite Forall_forall in H. destruct (H c Hc) as [_ _ H3 H4].
  cbn zeta. rewrite H4, H3. unfold enumOf. rewrite in_enumSet.
  change (enums (assemble cp)) with (cp_enums cp).
  destruct (existsb _ (cp_enums cp) || test false enumSuffixRe _); split; reflexivity.
Qed.

(** *** Marking the foreign keys *)

Lemma find_mark_first rel n : forall cols,
  List.find (named n) (mark_first rel cols)
  = (fun c => if String.eqb (c_name c) (fromColumn rel) then set_fk rel c else c)
      <$> List.find (named n) cols.
Proof.
  induction cols as [|c cols IH]; simpl; [reflexivity|].
  destruct (String.eqb (c_name c) (fromColumn rel)) eqn:E; simpl.
  - unfold named at 1 3. simpl. destruct (String.eqb (c_name c) n) eqn:En; simpl.
    + rewrite E. reflexivity.
    + destruct (List.find (named n) cols) as [c'|] eqn:F; [|reflexivity].
      apply List.find_some in F. destruct F as [_ F]. unfold named in F.
      apply String.eqb_eq in F, E. simpl.
      destruct (String.eqb (c_name c') (fromColumn rel)) eqn:E'; [|reflexivity].
      apply String.eqb_eq in E'. apply String.eqb_neq in En. congruence.
  - unfold named at 1 3. destruct (String.eqb (c_name c) n) eqn:En; simpl.
    + rewrite E. reflexivity.
    + exact IH.
Qed.

Lemma foldl_markFk_marked tbn ts0 :
  (forall n i, tbn !! n = Some i -> t_name <$> ts0 !! i = Some n) ->
  forall rels r i t c,
    r ∈ rels -> tbn !! fromTable r = Some i ->
    foldl (markFk tbn) ts0 rels !! i = Some t ->
    List.find (named (fromColumn r)) (columns t) = Some c ->
    fk_marked rels r c.
Proof.
  intros Hnames. induction rels as [|rel rels IH] using rev_ind; intros r i t c Hr Hi Ht Hc.
  - inversion Hr.
  - rewrite foldl_app in Ht. simpl in Ht.
    set (ts := foldl (markFk tbn) ts0 rels) in *.
    assert (Hmono : forall c0, fk_marked rels r c0 -> fk_marked (rels ++ [rel]) r c0).
    { intros c0 (H1 & r' & Hr' & H2). split; [exact H1|].
      exists r'. split; [apply elem_of_app; left; exact Hr'|exact H2]. }
    assert (Hsame : fromTable rel = fromTable r -> fromColumn rel = fromColumn r ->
                    forall c0, fk_marked (rels ++ [rel]) r (set_fk rel c0)).
    { intros E1 E2 c0. split; [reflexivity|]. exists rel.
      split; [apply elem_of_app; right; apply list_elem_of_here|]. auto. }
    assert (Hold : forall t0 c0, ts !! i = Some t0 ->
                     List.find (named (fromColumn r)) (columns t0) = Some c0 ->
                     (fromTable rel <> fromTable r \/ fromColumn rel <> fromColumn r) ->
                     fk_marked (rels ++ [rel]) r c0).
    { intros t0 c0 Ht0 Hc0 Hne. apply Hmono.
      apply elem_of_app in Hr. destruct Hr as [Hr|Hr].
      - eapply IH; eauto.
      - apply list_elem_of_singleton in Hr. subst r. destruct Hne; congruence. }
    unfold markFk in Ht. destruct (tbn !! fromTable rel) as [j|] eqn:Ej.
    + destruct (decide (i = j)) as [->|Hne].
      * assert (Efrom : fromTable rel = fromTable r).
        { pose proof (Hnames _ _ Ej) as H1. pose proof (Hnames _ _ Hi) as H2. congruence. }
        rewrite list_lookup_alter_eq in Ht.
        destruct (ts !! j) as [t0|] eqn:Et0; [|discriminate].
        simpl in Ht. injection Ht as <-. simpl in Hc.
        rewrite find_mark_first in Hc.
        destruct (List.find (named (fromColumn r)) (columns t0)) as [c0|] eqn:Ec0;
          [|discriminate].
        simpl in Hc. injection Hc as <-.
        pose proof (List.find_some _ _ Ec0) as [_ Hname]. unfold named in Hname.
        apply String.eqb_eq in Hname.
        destruct (String.eqb (c_name c0) (fromColumn rel)) eqn:E.
        -- apply String.eqb_eq in E. apply Hsame; congruence.
        -- apply String.eqb_neq in E. eapply Hold; eauto. right. congruence.
      * rewrite list_lookup_alter_ne in Ht by congruence.
        eapply Hold; eauto. left. intros E. rewrite E, Hi in Ej. congruence.
    + eapply Hold; eauto. left. intros E. rewrite E, Hi in Ej. congruence.
Qed.

(** X3. Every returned relation has marked its source column: in the table
    registered under [fromTable], the first column named [fromColumn], when
    there is one, is flagged foreign key, and its [fkTo] is the resolved
    target of a returned relation that leaves the same column. *)
Theorem relations_mark_source_column (sql : string) :
  exists g, parseSqlToGraph sql = Some g /\
    forall r, r ∈ relations g ->
      exists t, t ∈ tables g /\ t_name t = fromTable r /\
        forall c, List.find (named (fromColumn r)) (columns t) = Some c ->
          isForeignKey c = Some true /\
          exists r', r' ∈ relations g /\ fromTable r' = fromTable r /\
                     fromColumn r' = fromColumn r /\
                     fkTo c = Some (mkFkTo (toTable r') (Some (toColumn r'))).
Proof.
  destruct (parseSqlToGraph_capture sql) as (cp & Hcp & Hg).
  exists (assemble cp). split; [exact Hg|].
  pose proof (capture_ok _ _ Hcp) as Hok.
  intros r Hr. pose proof (resolved_in_tables _ _ Hr) as [Hfrom _].
  unfold has_table in Hfrom. apply bool_decide_eq_true in Hfrom. destruct Hfrom as [i Hi].
  pose proof (ok_names _ Hok _ _ Hi) as Hn.
  rewrite <- list_lookup_fmap, <- assemble_names, list_lookup_fmap in Hn.
  destruct (tables (assemble cp) !! i) as [t|] eqn:Et; [|discriminate].
  simpl in Hn. injection Hn as Hn.
  exists t. split; [eapply list_elem_of_lookup_2, Et|]. split; [exact Hn|].
  intros c Hc.
  unfold assemble in Et, Hr. cbn [tables relations] in Et, Hr.
  eapply foldl_markFk_marked; [|exact Hr|exact Hi|exact Et|exact Hc].
  intros n j Hj. pose proof (ok_names _ Hok _ _ Hj) as Hnj.
  rewrite <- list_lookup_fmap in Hnj |- *.
  rewrite foldl_attachIndex_fmap by reflexivity. exact Hnj.
Qed.

Lemma has_char_rev_onto p : forall s acc,
  has_char p (Str.rev_onto s acc) = has_char p s || has_char p acc.
Proof.
  induction s as [|c s IH]; intros acc; simpl; [reflexivity|].
  rewrite IH. simpl. destruct (p c), (has_char p s), (has_char p acc); reflexivity.
Qed.

Lemma has_char_rev p s : has_char p (Str.rev s) = has_char p s.
Proof. unfold Str.rev. rewrite has_char_rev_onto. simpl. apply orb_false_r. Qed.

Lemma split_go_no_sep sep : forall s cur,
  has_char (fun c => Ascii.eqb c sep) cur = false ->
  Forall (fun x => has_char (fun c => Ascii.eqb c sep) x = false) (Str.split_go sep s cur).
Proof.
  induction s as [|c s IH]; intros cur Hcur; simpl.
  - constructor; [|constructor]. rewrite has_char_rev. exact Hcur.
  - destruct (Ascii.eqb c sep) eqn:E.
    + constructor; [rewrite has_char_rev; exact Hcur|]. apply IH. reflexivity.
    + apply IH. simpl. rewrite E, Hcur. reflexivity.
Qed.

Lemma last_part_Forall (P : string -> Prop) : forall parts p,
  Forall P parts -> last_part parts = Some p -> P p.
Proof.
  unfold last_part. induction parts as [|x parts IH]; intros p HF H; [discriminate|].
  inversion HF as [|? ? Hx Hparts]; subst. simpl in H.
  destruct parts as [|y parts]; [injection H as <-; exact Hx|].
  apply IH; [exact Hparts|exact H].
Qed.

Lemma normalizeTableName_no_dot raw : has_char is_dot (normalizeTableName raw) = false.
Proof.
  unfold normalizeTableName.
  destruct (last_part _) as [p|] eqn:E; [|reflexivity].
  eapply (last_part_Forall (fun x => has_char is_dot x = false)); [|exact E].
  apply (split_go_no_sep "."). reflexivity.
Qed.

Lemma blocks_loop_names s lower (P : string -> Prop) :
  (forall raw, P (normalizeTableName raw)) ->
  forall fuel i out out',
    Forall (fun b => P (b_name b)) out ->
    blocks_loop fuel s lower i out = Some out' ->
    Forall (fun b => P (b_name b)) out'.
Proof.
  intros HP. induction fuel as [|fuel IH]; intros i out out' Hout H; [discriminate|].
  cbn [blocks_loop] in H.
  destruct (negb (i <? String.length s)); [injection H as <-; exact Hout|].
  destruct (Str.indexOf createTable lower i) as [idx|]; [|injection H as <-; exact Hout].
  destruct (read_name s _) as [rawName p].
  destruct (_ || _).
  - eapply IH; [exact Hout|exact H].
  - eapply IH; [|exact H]. apply Forall_app. split; [exact Hout|].
    constructor; [apply HP|constructor].
Qed.

Lemma parseEnumTypes_names (P : string -> Prop) sql enums :
  (forall raw, P (normalizeTableName raw)) ->
  parseEnumTypes sql = Some enums -> Forall (fun e => P (en_name e)) enums.
Proof.
  intros HP. unfold parseEnumTypes.
  destruct (exec_all false enumRe sql) as [ms|]; [|discriminate]. simpl.
  intros H. apply mapM_Some in H.
  induction H as [|m e ms es Hm _ IH]; constructor; [|exact IH].
  unfold parseEnum in Hm.
  destruct (group sql m 1) as [raw|]; [|discriminate].
  destruct (group sql m 2) as [body|]; [|discriminate]. simpl in Hm.
  destruct (parseEnumValues body); [|discriminate]. simpl in Hm.
  injection Hm as <-. apply HP.
Qed.

(** X6. No returned name is schema-qualified: the names of the tables and
    of the enums, and the two table names of a relation, have no dot. *)
Theorem names_have_no_dot (sql : string) :
  exists g, parseSqlToGraph sql = Some g /\
    (forall t, t ∈ tables g -> has_char is_dot (t_name t) = false) /\
    (forall e, e ∈ enums g -> has_char is_dot (en_name e) = false) /\
    (forall r, r ∈ relations g ->
       has_char is_dot (fromTable r) = false /\ has_char is_dot (toTable r) = false).
Proof.
  destruct (parseSqlToGraph_capture sql) as (cp & Hcp & Hg).
  exists (assemble cp). split; [exact Hg|].
  pose proof (capture_ok _ _ Hcp) as Hok.
  assert (Ht : forall t, t ∈ tables (assemble cp) -> has_char is_dot (t_name t) = false).
  { destruct (capture_blocks _ _ Hcp) as (blocks & Hb & HF).
    assert (HB : Forall (fun b => has_char is_dot (b_name b) = false) blocks).
    { eapply (blocks_loop_names _ _ (fun n => has_char is_dot n = false));
        [apply normalizeTableName_no_dot| |exact Hb]. constructor. }
    assert (HT : Forall (fun n => has_char is_dot n = false)
                   (t_name <$> tables (assemble cp))).
    { rewrite assemble_names. clear -HF HB.
      induction HF as [|t b ts bs Htb _ IH]; simpl; [constructor|].
      inversion HB; subst. constructor; [|auto].
      destruct Htb as [-> _]. assumption. }
    intros t Hin. rewrite Forall_forall in HT. apply HT.
    apply list_elem_of_fmap. exists t. auto. }
  split; [exact Ht|]. split.
  - assert (He : Forall (fun e => has_char is_dot (en_name e) = false) (cp_enums cp)).
    { revert Hcp. unfold capture.
      destruct (parseEnumTypes _) as [enums|] eqn:E; [|discriminate]. simpl.
      destruct (parseIndexes _) as [ixs|]; [|discriminate]. simpl.
      destruct (collect _ _) as [st|]; [|discriminate]. simpl.
      intros H. injection H as <-. simpl.
      apply (parseEnumTypes_names (fun n => has_char is_dot n = false) _ _
               normalizeTableName_no_dot E). }
    intros e Hin. rewrite Forall_forall in He. apply He, Hin.
  - intros r Hr. apply resolved_in_tables in Hr. destruct Hr as [Hf Hto].
    apply (has_table_named _ _ Hok) in Hf, Hto.
    destruct Hf as (t1 & Hin1 & <-). destruct Hto as (t2 & Hin2 & <-). auto.
Qed.

(** *** [normalizeWs] *)

Lemma trimStart_squeeze_run s : Str.trimStart (sq s false) = Str.trimStart (sq s true).
Proof.
  destruct s as [|c s]; [reflexivity|]. unfold sq. cbn [squeeze].
  destruct (Chars.is_space c); reflexivity.
Qed.

Lemma trimStart_squeeze : forall s, Str.trimStart (sq s true) = sq (Str.trimStart s) true.
Proof.
  induction s as [|c s IH]; [reflexivity|]. unfold sq in *. cbn [squeeze Str.trimStart].
  destruct (Chars.is_space c) eqn:E; [exact IH|].
  cbn [Str.trimStart squeeze]. rewrite E. reflexivity.
Qed.

Lemma trimEnd_cons_nonspace c s :
  Chars.is_space c = false -> trimEnd (String c s) = String c (trimEnd s).
Proof. intros E. cbn [trimEnd]. rewrite E. destruct (trimEnd s); reflexivity. Qed.

Lemma trimEnd_cons_cons c1 c2 s :
  Chars.is_space c2 = false ->
  trimEnd (String c1 (String c2 s)) = String c1 (String c2 (trimEnd s)).
Proof.
  intros E. change (trimEnd (String c1 (String c2 s)))
    with (match trimEnd (String c2 s) with
          | EmptyString => if Chars.is_space c1 then EmptyString else String c1 EmptyString
          | t => String c1 t
          end).
  rewrite trimEnd_cons_nonspace by exact E. reflexivity.
Qed.

(** The space [squeeze] writes when a run starts is the space [join_words]
    writes when the next word starts; [trimEnd] drops it when no word
    follows. *)
Lemma trimEnd_squeeze : forall s,
  trimEnd (sq s false) = join_words s true false /\
  trimEnd (String " " (sq s true)) = join_words s true true.
Proof.
  induction s as [|c s [IHa IHb]]; [split; reflexivity|].
  unfold sq in *. cbn [squeeze join_words]. destruct (Chars.is_space c) eqn:E.
  - split; [|exact IHb]. exact IHb.
  - split.
    + rewrite trimEnd_cons_nonspace by exact E. rewrite IHa. reflexivity.
    + rewrite trimEnd_cons_cons by exact E. rewrite IHa. reflexivity.
Qed.

Lemma join_words_trimStart : forall s,
  join_words s false false = join_words (Str.trimStart s) false false.
Proof.
  induction s as [|c s IH]; [reflexivity|]. cbn [join_words Str.trimStart].
  destruct (Chars.is_space c) eqn:E; [exact IH|].
  cbn [join_words]. rewrite E. reflexivity.
Qed.

Lemma trimStart_head s :
  Str.trimStart s = ""%string \/
  exists c s', Str.trimStart s = String c s' /\ Chars.is_space c = false.
Proof.
  induction s as [|c s IH]; [left; reflexivity|]. cbn [Str.trimStart].
  destruct (Chars.is_space c) eqn:E; [exact IH|]. right. eauto.
Qed.

Lemma normalizeWs_join_words s : normalizeWs s = join_words s false false.
Proof.
  unfold normalizeWs. unfold ws. rewrite replace_all_plus_char. fold (sq s false).
  rewrite trim_trimEnd, trimStart_squeeze_run, trimStart_squeeze, join_words_trimStart.
  destruct (trimStart_head s) as [->|(c & s' & -> & E)]; [reflexivity|].
  unfold sq. cbn [squeeze join_words]. rewrite E.
  rewrite trimEnd_cons_nonspace by exact E.
  fold (sq s' false). rewrite (proj1 (trimEnd_squeeze s')). reflexivity.
Qed.

Lemma join_words_single_spaced : forall s sep,
  single_spaced (join_words s true sep) false = true.
Proof.
  induction s as [|c s IH]; intros sep; [reflexivity|]. cbn [join_words].
  destruct (Chars.is_space c) eqn:E; [apply IH|].
  destruct sep; cbn [single_spaced]; rewrite ?E; [|apply IH].
  change (Chars.is_space " ") with true. cbn [andb negb Ascii.eqb].
  apply IH.
Qed.

Lemma join_words_normal s : ws_normal (join_words s false false) = true.
Proof.
  rewrite join_words_trimStart.
  destruct (trimStart_head s) as [->|(c & s' & -> & E)]; [reflexivity|].
  cbn [join_words]. rewrite E. cbn [ws_normal single_spaced]. rewrite E.
  apply join_words_single_spaced.
Qed.

Lemma single_spaced_join_words : forall s,
  (single_spaced s false = true -> join_words s true false = s) /\
  (single_spaced s true = true ->
     join_words s true true = String " " s /\ forall st, join_words s st false = s).
Proof.
  induction s as [|c s [IH1 IH2]]; [split; [reflexivity|discriminate]|].
  cbn [single_spaced join_words]. destruct (Chars.is_space c) eqn:E.
  - split.
    + intros H. apply andb_true_iff in H. destruct H as [H Hs].
      apply andb_true_iff in H. destruct H as [Hc _].
      apply Ascii.eqb_eq in Hc. subst c. apply (IH2 Hs).
    + intros H. apply andb_true_iff in H. destruct H as [H _].
      apply andb_true_iff in H. destruct H as [_ H]. discriminate.
  - split.
    + intros H. rewrite (IH1 H). reflexivity.
    + intros H. rewrite (IH1 H). split; [reflexivity|]. intros st. reflexivity.
Qed.

Lemma ws_normal_join_words s : ws_normal s = true -> join_words s false false = s.
Proof.
  destruct s as [|c s]; [reflexivity|]. unfold ws_normal. intros H.
  apply (proj2 (single_spaced_join_words (String c s)) H).
Qed.

(** X17. [normalizeWs] returns the words of its argument joined by single
    spaces: the result has no white space but single spaces between two
    words, a text of that form is returned as it is, and so normalizing twice
    is normalizing once. *)
Theorem normalizeWs_words (s : string) :
  normalizeWs s = join_words s false false /\
  ws_normal (normalizeWs s) = true /\
  (ws_normal s = true -> normalizeWs s = s) /\
  normalizeWs (normalizeWs s) = normalizeWs s.
Proof.
  rewrite !normalizeWs_join_words.
  split; [reflexivity|]. split; [apply join_words_normal|].
  split; [apply ws_normal_join_words|].
  apply ws_normal_join_words, join_words_normal.
Qed.

Lemma normalizeWs_words_witness : normalizeWs "a b" = "a b".
Proof.
  destruct (normalizeWs_words "a b") as (_ & _ & H & _). apply H. reflexivity.
Defined.

(** *** About patterns *)

(** A match can only go on from states further in the input: when what
    follows fails on all of them, the match fails. *)
Lemma star_loop_none_on (Q : string -> Prop)
  (ma : mstate -> (mstate -> option mstate) -> option mstate) gs greedy k :
  (forall st k', Q (m_rest st) -> (forall st', Q (m_rest st') -> k' st' = None) ->
                 ma st k' = None) ->
  (forall st', Q (m_rest st') -> k st' = None) ->
  forall n st, Q (m_rest st) -> star_loop ma gs greedy k n st = None.
Proof.
  intros Hma Hk. induction n as [|n IH]; intros st HQ; [apply Hk, HQ|].
  rewrite star_loop_S.
  assert (Hiter : ma (clear_groups gs st)
                    (fun st' => if m_pos st <? m_pos st'
                                then star_loop ma gs greedy k n st' else None) = None).
  { apply Hma; [exact HQ|]. intros st' HQ'. destruct (_ <? _); [apply IH, HQ'|reflexivity]. }
  rewrite Hiter, (Hk st HQ). destruct greedy; reflexivity.
Qed.

Lemma rmatch_none_on ml (Q : string -> Prop) : suffix_closed Q ->
  forall r st k,
    Q (m_rest st) -> (forall st', Q (m_rest st') -> k st' = None) ->
    rmatch ml r st k = None.
Proof.
  intros HQc.
  induction r as [|p|a IHa b IHb|a IHa b IHb|greedy a IHa|a IHa|g a IHa| | |];
    intros st k HQ Hk; simpl.
  - apply Hk, HQ.
  - destruct (m_rest st) as [|c rest] eqn:E; [reflexivity|].
    destruct (p c); [|reflexivity]. apply Hk. simpl. eapply HQc. exact HQ.
  - apply IHa; [exact HQ|]. intros st' HQ'. apply IHb; assumption.
  - rewrite (IHa st k HQ Hk), (IHb st k HQ Hk). reflexivity.
  - apply (star_loop_none_on Q); [|exact Hk|exact HQ].
    intros st0 k0 HQ0 Hk0. apply IHa; assumption.
  - rewrite (Hk st HQ), IHa; [reflexivity|exact HQ|].
    intros st' HQ'. destruct (_ <? _); [apply Hk, HQ'|reflexivity].
  - apply IHa; [exact HQ|]. intros st' HQ'. apply Hk. exact HQ'.
  - destruct (at_bol ml st); [apply Hk, HQ|reflexivity].
  - destruct (at_eol ml st); [apply Hk, HQ|reflexivity].
  - destruct (at_word_boundary st); [apply Hk, HQ|reflexivity].
Qed.

Lemma rmatch_seq ml a b st k :
  rmatch ml (RSeq a b) st k = rmatch ml a st (fun st' => rmatch ml b st' k).
Proof. reflexivity. Qed.

Lemma rmatch_alt ml a b st k :
  rmatch ml (RAlt a b) st k = orelse (rmatch ml a st k) (rmatch ml b st k).
Proof. reflexivity. Qed.

Lemma rmatch_bol ml st k : rmatch ml RBol st k = if at_bol ml st then k st else None.
Proof. reflexivity. Qed.

Lemma rmatch_eol ml st k : rmatch ml REol st k = if at_eol ml st then k st else None.
Proof. reflexivity. Qed.

Lemma rmatch_wordb ml st k :
  rmatch ml RWordB st k = if at_word_boundary st then k st else None.
Proof. reflexivity. Qed.

Lemma rmatch_group ml n a st k :
  rmatch ml (RGroup n a) st k = rmatch ml a st (fun st' => k (set_cap n (m_pos st) st')).
Proof. reflexivity. Qed.

Lemma rmatch_opt ml a st k :
  rmatch ml (ROpt a) st k =
    orelse (rmatch ml a (clear_groups (groups_of a) st)
              (fun st' => if m_pos st <? m_pos st' then k st' else None))
           (k st).
Proof. reflexivity. Qed.

Lemma rmatch_star ml greedy a st k :
  rmatch ml (RStar greedy a) st k =
    star_loop (rmatch ml a) (groups_of a) greedy k (String.length (m_rest st)) st.
Proof. reflexivity. Qed.

(** What is before a part of a pattern that fails everywhere does not help. *)
Lemma rmatch_seq_none ml (Q : string -> Prop) a b st k :
  suffix_closed Q -> Q (m_rest st) ->
  (forall st', Q (m_rest st') -> rmatch ml b st' k = None) ->
  rmatch ml (RSeq a b) st k = None.
Proof. intros HQc HQ Hb. cbn [rmatch]. apply (rmatch_none_on ml Q HQc); assumption. Qed.

Lemma search_none ml r (Q : string -> Prop) : suffix_closed Q ->
  (forall pos prev rest, Q rest -> match_at ml r pos prev rest = None) ->
  forall rest pos prev, Q rest -> search ml r pos prev rest = None.
Proof.
  intros HQc Hm. induction rest as [|c rest IH]; intros pos prev HQ; cbn [search];
    rewrite (Hm _ _ _ HQ); [reflexivity|].
  apply IH. eapply HQc, HQ.
Qed.

Lemma replace_loop_none ml r repl (Q : string -> Prop) : suffix_closed Q ->
  (forall pos prev rest, Q rest -> match_at ml r pos prev rest = None) ->
  forall rest pos prev, Q rest -> replace_loop ml r repl pos prev rest 0 = rest.
Proof.
  intros HQc Hm. induction rest as [|c rest IH]; intros pos prev HQ; cbn [replace_loop];
    rewrite (Hm _ _ _ HQ); [reflexivity|].
  f_equal. apply IH. eapply HQc, HQ.
Qed.

(** *** About strings *)

Lemma all_chars_app p a b :
  all_chars p (String.append a b) = all_chars p a && all_chars p b.
Proof.
  induction a as [|c a IH]; [reflexivity|]. rewrite str_app_cons. cbn [all_chars].
  rewrite IH, andb_assoc. reflexivity.
Qed.

Lemma all_chars_impl (p q : ascii -> bool) s :
  (forall c, p c = true -> q c = true) -> all_chars p s = true -> all_chars q s = true.
Proof.
  intros Hpq. induction s as [|c s IH]; [reflexivity|]. cbn [all_chars].
  rewrite !andb_true_iff. intros [H1 H2]. auto.
Qed.

Lemma drop_app a b : Str.drop (String.length a) (String.append a b) = b.
Proof. induction a as [|c a IH]; [destruct b; reflexivity|exact IH]. Qed.

Lemma take_app a b : Str.take (String.length a) (String.append a b) = a.
Proof.
  induction a as [|c a IH]; [destruct b; reflexivity|].
  rewrite str_app_cons. cbn [String.length Str.take]. rewrite IH. reflexivity.
Qed.

Lemma take_all a : Str.take (String.length a) a = a.
Proof. pose proof (take_app a "") as H. rewrite str_app_nil_r in H. exact H. Qed.

Lemma slice_app a b c :
  Str.slice (String.length a) (String.length a + String.length b)
    (String.append a (String.append b c)) = b.
Proof.
  unfold Str.slice. rewrite drop_app.
  replace (String.length a + String.length b - String.length a) with (String.length b) by lia.
  apply take_app.
Qed.

Lemma map_app f a b :
  Str.map f (String.append a b) = String.append (Str.map f a) (Str.map f b).
Proof.
  induction a as [|c a IH]; [reflexivity|]. rewrite str_app_cons. cbn [Str.map].
  rewrite IH. reflexivity.
Qed.

Lemma is_prefix_app p x : Str.is_prefix p (String.append p x) = true.
Proof.
  induction p as [|c p IH]; [reflexivity|]. rewrite str_app_cons. cbn [Str.is_prefix].
  rewrite IH, Ascii.eqb_refl. reflexivity.
Qed.

(** A scan goes over a run of the class and stops at what follows. *)
Lemma scan_run_app cond run rest p :
  all_chars cond run = true ->
  match rest with String c _ => cond c = false | EmptyString => True end ->
  scan_run cond (String.append run rest) p = p + String.length run.
Proof.
  intros Hrun Hrest. revert p. induction run as [|c run IH]; intros p.
  - rewrite str_app_nil_l. destruct rest as [|c rest]; simpl; [lia|].
    rewrite Hrest. lia.
  - rewrite str_app_cons. cbn [scan_run all_chars String.length] in *.
    apply andb_true_iff in Hrun. destruct Hrun as [Hc Hrun].
    rewrite Hc, (IH Hrun). lia.
Qed.

Lemma occurs_tail needle c s : occurs needle (String c s) = false -> occurs needle s = false.
Proof. cbn [occurs]. intros H. apply orb_false_iff in H. tauto. Qed.

Lemma occurs_prefix needle s : occurs needle s = false -> Str.is_prefix needle s = false.
Proof. destruct s; cbn [occurs]; intros H; apply orb_false_iff in H; tauto. Qed.

(** A literal needs its text at the position. *)
Lemma rmatch_lit_none ml : forall w st k,
  w <> ""%string -> Str.is_prefix w (m_rest st) = false -> rmatch ml (lit w) st k = None.
Proof.
  induction w as [|c w IH]; intros st k Hne Hp; [contradiction|].
  destruct w as [|c2 w].
  - cbn [lit]. unfold chr. rewrite rmatch_char.
    destruct (m_rest st) as [|x rest]; [reflexivity|].
    cbn [Str.is_prefix] in Hp. rewrite andb_true_r in Hp. rewrite Hp. reflexivity.
  - change (lit (String c (String c2 w))) with (RSeq (chr c) (lit (String c2 w))).
    cbn [rmatch]. fold (rmatch ml). unfold chr at 1. rewrite rmatch_char.
    destruct (m_rest st) as [|x rest] eqn:E; [reflexivity|].
    destruct (Ascii.eqb c x) eqn:Ex; [|reflexivity].
    apply IH; [discriminate|]. cbn [m_rest].
    cbn [Str.is_prefix] in Hp. rewrite Ex in Hp. exact Hp.
Qed.

Lemma stripComments_id (s : string) :
  occurs "--" s = false -> occurs "/*" s = false -> stripComments s = s.
Proof.
  intros H1 H2. unfold stripComments, replace_all.
  assert (E1 : replace_loop true lineCommentRe "" 0 None s 0 = s).
  { apply (replace_loop_none true lineCommentRe "" (fun x => occurs "--" x = false));
      [intros c x; apply occurs_tail| |exact H1].
    intros pos prev rest Hr. unfold match_at, lineCommentRe.
    change (rseq [lit "--"; rstar dot; REol]) with (RSeq (lit "--") (RSeq (rstar dot) REol)).
    cbn [rmatch]. fold (rmatch true). apply rmatch_lit_none; [discriminate|].
    apply occurs_prefix, Hr. }
  rewrite E1.
  apply (replace_loop_none false blockCommentRe "" (fun x => occurs "/*" x = false));
    [intros c x; apply occurs_tail| |exact H2].
  intros pos prev rest Hr. unfold match_at, blockCommentRe.
  change (rseq [lit "/*"; RStar false any; lit "*/"])
    with (RSeq (lit "/*") (RSeq (RStar false any) (lit "*/"))).
  cbn [rmatch]. fold (rmatch false). apply rmatch_lit_none; [discriminate|].
  apply occurs_prefix, Hr.
Qed.

(** X18. A text with no [--] and no slash-star in it has no comment to
    strip: [stripComments] returns it as it is. *)
Theorem stripComments_without_comments (s : string) :
  occurs "--" s = false -> occurs "/*" s = false -> stripComments s = s.
Proof. apply stripComments_id. Qed.

Lemma stripComments_without_comments_witness :
  stripComments "create table a(id bigint - 1 / 2)" = "create table a(id bigint - 1 / 2)".
Proof.
  apply stripComments_without_comments; reflexivity.
Defined.

(** *** About the block scanner *)

Lemma is_word_other c :
  Chars.is_word c = true ->
  Chars.is_space c = false /\ is_dquote c = false /\ is_lparen c = false /\
  is_rparen c = false /\ is_squote c = false /\ is_comma c = false /\
  is_dot c = false /\ Chars.is_line_terminator c = false /\ is_name_char c = true.
Proof.
  destruct c as [b0 b1 b2 b3 b4 b5 b6 b7].
  destruct b0, b1, b2, b3, b4, b5, b6, b7; vm_compute; intros H;
    first [discriminate H | repeat split].
Qed.

Lemma all_chars_tail p c s : all_chars p (String c s) = true -> all_chars p s = true.
Proof. cbn [all_chars]. intros H. apply andb_true_iff in H. tauto. Qed.

Lemma trimStart_id s : all_chars not_space s = true -> Str.trimStart s = s.
Proof.
  destruct s as [|c s]; [reflexivity|]. cbn [all_chars Str.trimStart]. unfold not_space.
  intros H. apply andb_true_iff in H. destruct H as [H _].
  apply negb_true_iff in H. rewrite H. reflexivity.
Qed.

Lemma trimEnd_id : forall s, all_chars not_space s = true -> trimEnd s = s.
Proof.
  induction s as [|c s IH]; [reflexivity|]. intros H.
  cbn [all_chars] in H. apply andb_true_iff in H. destruct H as [Hc Hs].
  rewrite trimEnd_cons_nonspace by (apply negb_true_iff, Hc). rewrite (IH Hs). reflexivity.
Qed.

Lemma trim_id s : all_chars not_space s = true -> Str.trim s = s.
Proof. intros H. rewrite trim_trimEnd, (trimStart_id s H). apply trimEnd_id, H. Qed.

Lemma word_not_space s : all_chars Chars.is_word s = true -> all_chars not_space s = true.
Proof.
  apply all_chars_impl. intros c H. apply is_word_other in H. unfold not_space.
  destruct H as [-> _]. reflexivity.
Qed.

Lemma rmatch_plus_char_none ml p st k :
  match m_rest st with String c _ => p c = false | EmptyString => True end ->
  rmatch ml (rplus (RChar p)) st k = None.
Proof.
  intros H. unfold rplus. rewrite rmatch_seq, rmatch_char.
  destruct (m_rest st) as [|c rest]; [reflexivity|]. rewrite H. reflexivity.
Qed.

Lemma unquote_id s :
  all_chars (fun c => negb (is_dquote c)) s = true ->
  replace_all false outerQuotesRe "" s = s.
Proof.
  intros H. unfold replace_all.
  apply (replace_loop_none false outerQuotesRe ""
           (fun x => all_chars (fun c => negb (is_dquote c)) x = true));
    [intros c x; apply all_chars_tail| |exact H].
  intros pos prev rest Hr. unfold match_at, outerQuotesRe.
  assert (Hplus : forall st k, all_chars (fun c => negb (is_dquote c)) (m_rest st) = true ->
                    rmatch false (rplus dq) st k = None).
  { intros st k Hst. apply rmatch_plus_char_none.
    destruct (m_rest st) as [|c r]; [exact I|]. cbn [all_chars] in Hst.
    apply andb_true_iff in Hst. destruct Hst as [Hc _]. apply negb_true_iff in Hc.
    unfold is_dquote in Hc. rewrite Ascii.eqb_sym. exact Hc. }
  rewrite rmatch_alt, !rmatch_seq, rmatch_bol.
  rewrite !Hplus by exact Hr. destruct (at_bol false _); reflexivity.
Qed.

Lemma unquoteIdent_ident s : all_chars Chars.is_word s = true -> unquoteIdent s = s.
Proof.
  intros H. unfold unquoteIdent. rewrite unquote_id.
  - apply trim_id, word_not_space, H.
  - revert H. apply all_chars_impl. intros c Hc. apply is_word_other in Hc.
    destruct Hc as (_ & -> & _). reflexivity.
Qed.

Lemma split_go_no_sep_id sep : forall s cur,
  all_chars (fun c => negb (Ascii.eqb c sep)) s = true ->
  Str.split_go sep s cur = [String.append (Str.rev cur) s].
Proof.
  induction s as [|c s IH]; intros cur H; cbn [Str.split_go].
  - rewrite str_app_nil_r. reflexivity.
  - cbn [all_chars] in H. apply andb_true_iff in H. destruct H as [Hc Hs].
    apply negb_true_iff in Hc. rewrite Hc, (IH _ Hs), str_rev_cons, str_app_assoc.
    reflexivity.
Qed.

Lemma normalizeTableName_ident s :
  all_chars Chars.is_word s = true -> normalizeTableName s = s.
Proof.
  intros H. unfold normalizeTableName.
  rewrite (trim_id s) by (apply word_not_space, H).
  rewrite (unquoteIdent_ident s H). unfold Str.split.
  rewrite split_go_no_sep_id; [reflexivity|].
  revert H. apply all_chars_impl. intros c Hc. apply is_word_other in Hc.
  destruct Hc as (_ & _ & _ & _ & _ & _ & Hd & _). unfold is_dot in Hd. rewrite Hd.
  reflexivity.
Qed.

Lemma indexOf_from_here needle rest pos :
  Str.is_prefix needle rest = true -> Str.indexOf_from needle rest pos = Some pos.
Proof. intros H. destruct rest; simpl; rewrite H; reflexivity. Qed.

Lemma scan_run_stop cond rest p :
  match rest with String c _ => cond c = false | EmptyString => True end ->
  scan_run cond rest p = p.
Proof. destruct rest as [|c rest]; [reflexivity|]. simpl. intros ->. reflexivity. Qed.

Lemma paren_chars c :
  (is_lparen c = true -> is_squote c = false /\ is_dquote c = false /\
                         is_rparen c = false /\ is_comma c = false) /\
  (is_rparen c = true -> is_squote c = false /\ is_dquote c = false /\
                         is_lparen c = false /\ is_comma c = false) /\
  (is_comma c = true -> is_squote c = false /\ is_dquote c = false /\
                        is_lparen c = false /\ is_rparen c = false).
Proof.
  unfold is_lparen, is_rparen, is_comma.
  split; [|split]; intros H; apply Ascii.eqb_eq in H; subst c; repeat split; reflexivity.
Qed.

(** Plain text is well nested, at any depth it starts from. *)
Lemma plain_nested b : forall x y d,
  all_chars (fun c => is_plain c && (b || negb (is_comma c))) x = true ->
  well_nested b (String.append x y) d = well_nested b y d.
Proof.
  induction x as [|c x IH]; intros y d H; [rewrite str_app_nil_l; reflexivity|].
  rewrite str_app_cons. cbn [all_chars] in H. apply andb_true_iff in H.
  destruct H as [Hc Hx]. apply andb_true_iff in Hc. destruct Hc as [Hc Hcomma].
  unfold is_plain in Hc. apply negb_true_iff in Hc.
  apply orb_false_iff in Hc. destruct Hc as [Hc Hr].
  apply orb_false_iff in Hc. destruct Hc as [Hc Hl].
  cbn [well_nested]. rewrite Hc, Hl, Hr.
  destruct (is_comma c); [|apply IH, Hx].
  destruct b; [cbn [orb andb]; apply IH, Hx|discriminate Hcomma].
Qed.

(** The body scan goes over a well-nested text and ends after the
    parenthesis that closes the body. *)
Lemma body_scan_nested : forall body d rest p,
  well_nested true body d = true ->
  body_scan (String.append body (String ")" rest)) p (S d) false false
    = p + String.length body + 1.
Proof.
  induction body as [|c body IH]; intros d rest p H.
  - cbn [well_nested] in H. apply Nat.eqb_eq in H. subst d.
    rewrite str_app_nil_l. cbn [body_scan].
    change (is_squote ")") with false. change (is_dquote ")") with false.
    change (is_lparen ")") with false. change (is_rparen ")") with true.
    cbn [andb negb]. destruct rest; cbn [body_scan String.length]; lia.
  - rewrite str_app_cons. cbn [well_nested] in H. cbn [body_scan String.length].
    destruct (is_squote c) eqn:Hs; [discriminate H|].
    destruct (is_dquote c) eqn:Hd; [discriminate H|]. cbn [orb andb negb] in *.
    destruct (is_lparen c) eqn:Hl; [rewrite (IH _ rest (S p) H); lia|].
    destruct (is_rparen c) eqn:Hr.
    + destruct d as [|d]; [discriminate H|]. rewrite (IH _ rest (S p) H). lia.
    + assert (H' : well_nested true body d = true)
        by (destruct (is_comma c); exact H).
      rewrite (IH _ rest (S p) H'). lia.
Qed.

Lemma ident_inv s :
  ident s = true ->
  exists c s', s = String c s' /\ Chars.is_word c = true /\ all_chars Chars.is_word s = true.
Proof.
  unfold ident. destruct s as [|c s']; [discriminate|]. cbn [Str.truthy andb].
  intros H. exists c, s'. split; [reflexivity|]. split; [|exact H].
  cbn [all_chars] in H. apply andb_true_iff in H. tauto.
Qed.

(** *** About the items of a body *)

Lemma is_space_item_char c : Chars.is_space c = true -> is_item_char c = true.
Proof.
  destruct c as [b0 b1 b2 b3 b4 b5 b6 b7].
  destruct b0, b1, b2, b3, b4, b5, b6, b7; vm_compute; intros H;
    first [discriminate H | reflexivity].
Qed.

(** The loop goes over a well-nested text without a split and comes back
    to depth 0. *)
Lemma split_loop_nested body : forall run d rest i start parts,
  well_nested false run d = true ->
  split_loop body (String.append run rest) i start d false false parts
    = split_loop body rest (i + String.length run) start 0 false false parts.
Proof.
  induction run as [|c run IH]; intros d rest i start parts H.
  - cbn [well_nested] in H. apply Nat.eqb_eq in H. subst d.
    rewrite str_app_nil_l. cbn [String.length]. f_equal. lia.
  - rewrite str_app_cons. cbn [well_nested] in H. cbn [split_loop String.length].
    replace (i + S (String.length run)) with (S i + String.length run) by lia.
    destruct (is_squote c) eqn:Hs; [discriminate H|].
    destruct (is_dquote c) eqn:Hd; [discriminate H|]. cbn [orb andb negb] in *.
    destruct (paren_chars c) as (Pl & Pr & Pc).
    destruct (is_lparen c) eqn:Hl.
    { destruct (Pl eq_refl) as (_ & _ & -> & ->). cbn [andb]. apply IH, H. }
    destruct (is_rparen c) eqn:Hr.
    { destruct (Pr eq_refl) as (_ & _ & _ & ->). cbn [andb].
      destruct d as [|d]; [discriminate H|]. cbn [Nat.pred]. apply IH, H. }
    destruct (is_comma c) eqn:Hc; [|cbn [andb]; apply IH, H].
    cbn [orb] in H. apply andb_true_iff in H. destruct H as [Hpos H].
    apply Nat.ltb_lt in Hpos. destruct d as [|d]; [lia|]. cbn [Nat.eqb andb].
    apply IH, H.
Qed.

Lemma item_chars_nested w x d :
  all_chars is_item_char w = true ->
  well_nested false (String.append w x) d = well_nested false x d.
Proof.
  intros H. apply plain_nested. revert H. apply all_chars_impl.
  intros c Hc. unfold is_item_char in Hc. exact Hc.
Qed.

Lemma trim_after_space w x :
  all_chars Chars.is_space w = true -> Str.trim (String.append w x) = Str.trim x.
Proof.
  intros Hw. rewrite !trim_trimEnd. f_equal.
  induction w as [|c w IH]; [reflexivity|]. rewrite str_app_cons.
  cbn [all_chars] in Hw. apply andb_true_iff in Hw. destruct Hw as [Hc Hw].
  cbn [Str.trimStart]. rewrite Hc. apply IH, Hw.
Qed.

Lemma item_ok_inv x :
  item_ok x = true ->
  x <> ""%string /\ well_nested false x 0 = true /\ Str.trim x = x.
Proof.
  unfold item_ok. rewrite !andb_true_iff. intros [[H1 H2] H3].
  split; [destruct x; [discriminate|discriminate]|]. split; [exact H2|].
  apply String.eqb_eq, H3.
Qed.

Lemma split_loop_more body w : all_chars Chars.is_space w = true ->
  forall more pre chunk parts,
    Forall (fun x => item_ok x = true) more ->
    body = String.append pre (String.append chunk (more_items w more)) ->
    split_loop body (more_items w more) (String.length pre + String.length chunk)
      (String.length pre) 0 false false parts
    = parts ++ [Str.trim chunk] ++ more.
Proof.
  intros Hw. induction more as [|x more IH]; intros pre chunk parts Hok Hbody.
  - cbn [more_items split_loop]. rewrite Hbody.
    cbn [more_items]. rewrite str_app_nil_r.
    unfold Str.slice. rewrite drop_app.
    replace (String.length (String.append pre chunk) - String.length pre)
      with (String.length chunk) by (rewrite str_length_app; lia).
    rewrite take_all. reflexivity.
  - inversion Hok as [|? ? Hx Hmore]; subst x0 l.
    destruct (item_ok_inv _ Hx) as (Hne & Hchars & Htrim).
    cbn [more_items split_loop].
    change (is_squote ",") with false. change (is_dquote ",") with false.
    change (is_lparen ",") with false. change (is_rparen ",") with false.
    change (is_comma ",") with true. cbn [andb negb Nat.eqb].
    rewrite <- str_app_assoc. rewrite (split_loop_nested body (String.append w x) 0).
    2:{ rewrite item_chars_nested; [exact Hchars|].
        revert Hw. apply all_chars_impl, is_space_item_char. }
    assert (Eslice : Str.slice (String.length pre) (String.length pre + String.length chunk)
                       body = chunk).
    { rewrite Hbody. apply slice_app. }
    rewrite Eslice.
    specialize (IH (String.append pre (String.append chunk ","))
                  (String.append w x) (parts ++ [Str.trim chunk]) Hmore).
    rewrite !str_length_app in IH. cbn [String.length] in IH.
    rewrite str_length_app.
    replace (S (String.length pre + String.length chunk) +
             (String.length w + String.length x))
      with (String.length pre + (String.length chunk + 1) +
            (String.length w + String.length x)) by lia.
    replace (S (String.length pre + String.length chunk))
      with (String.length pre + (String.length chunk + 1)) by lia.
    rewrite IH.
    + rewrite (trim_after_space w x Hw), Htrim, <- app_assoc. reflexivity.
    + rewrite Hbody. cbn [more_items]. rewrite !str_app_assoc. reflexivity.
Qed.

Lemma splitTopLevelComma_join_items (w : string) (items : list string) :
  all_chars Chars.is_space w = true ->
  Forall (fun x => item_ok x = true) items ->
  splitTopLevelComma (join_items w items) = items.
Proof.
  intros Hw Hok. unfold splitTopLevelComma.
  destruct items as [|x more]; [reflexivity|].
  inversion Hok as [|? ? Hx Hmore]; subst x0 l.
  destruct (item_ok_inv _ Hx) as (Hne & Hchars & Htrim).
  cbn [join_items]. set (body := String.append x (more_items w more)).
  unfold body at 2. rewrite (split_loop_nested _ x 0) by exact Hchars.
  pose proof (split_loop_more body w Hw more "" x [] Hmore eq_refl) as H.
  cbn [String.length Nat.add] in H |- *. rewrite H, Htrim. cbn [app].
  assert (Hf : forall l, Forall (fun x => item_ok x = true) l ->
                         List.filter Str.truthy l = l).
  { induction 1 as [|y l Hy _ IH]; [reflexivity|]. cbn [List.filter].
    destruct (item_ok_inv _ Hy) as (Hy' & _). destruct y; [contradiction|].
    cbn [Str.truthy]. rewrite IH. reflexivity. }
  apply Hf, Hok.
Qed.

(** X19. Splitting a body made of items joined by commas gives the items
    back. *)
Theorem splitTopLevelComma_join (w : string) (items : list string) :
  all_chars Chars.is_space w = true ->
  Forall (fun x => item_ok x = true) items ->
  splitTopLevelComma (join_items w items) = items.
Proof. apply splitTopLevelComma_join_items. Qed.

Lemma splitTopLevelComma_join_witness :
  splitTopLevelComma "id bigint, price numeric(10,2), x geometry(Point, 4326)"
    = ["id bigint"; "price numeric(10,2)"; "x geometry(Point, 4326)"].
Proof.
  apply (splitTopLevelComma_join " "
           ["id bigint"; "price numeric(10,2)"; "x geometry(Point, 4326)"]);
    [reflexivity|repeat constructor].
Defined.

(** *** About a greedy run *)

(** A greedy star over a character class goes to the end of the run first:
    when what follows matches there, that is the match. *)
Lemma star_char_greedy ml p k rest' :
  match rest' with String c _ => p c = false | EmptyString => True end ->
  forall run n pos prev caps,
    all_chars p run = true -> String.length run <= n ->
    (forall prev', is_Some (k (MState (pos + String.length run) prev' rest' caps))) ->
    exists prev',
      star_loop (rmatch ml (RChar p)) [] true k n
        (MState pos prev (String.append run rest') caps)
      = k (MState (pos + String.length run) prev' rest' caps).
Proof.
  intros Hstop. induction run as [|c run IH]; intros n pos prev caps Hrun Hn Hk.
  - rewrite str_app_nil_l. cbn [String.length]. rewrite Nat.add_0_r. exists prev.
    destruct n as [|n]; [reflexivity|].
    rewrite star_loop_S, clear_groups_nil, rmatch_char. cbn [m_rest].
    destruct rest' as [|c r]; [reflexivity|]. rewrite Hstop. reflexivity.
  - rewrite str_app_cons. cbn [all_chars String.length] in *.
    apply andb_true_iff in Hrun. destruct Hrun as [Hc Hrun].
    destruct n as [|n]; [lia|].
    rewrite star_loop_S, clear_groups_nil, rmatch_char. cbn [m_rest m_pos m_caps].
    rewrite Hc. replace (pos <? S pos) with true by (symmetry; apply Nat.ltb_lt; lia).
    destruct (IH n (S pos) (Some c) caps Hrun) as (prev' & E); [lia| |].
    + intros prev'.
      replace (S pos + String.length run) with (pos + S (String.length run)) by lia.
      apply Hk.
    + exists prev'. rewrite E.
      replace (S pos + String.length run) with (pos + S (String.length run)) by lia.
      destruct (Hk prev') as [x ->]. reflexivity.
Qed.

(** [p+] on a run of the class [p] that ends where [rest'] starts: the
    match goes on from the end of the run. *)
Lemma rmatch_plus_char_run ml p k (P : mstate -> Prop) c run rest' pos prev caps :
  p c = true -> all_chars p run = true ->
  match rest' with String c' _ => p c' = false | EmptyString => True end ->
  (forall prev', exists x,
      k (MState (pos + S (String.length run)) prev' rest' caps) = Some x /\ P x) ->
  exists x,
    rmatch ml (rplus (RChar p)) (MState pos prev (String c (String.append run rest')) caps) k
      = Some x /\ P x.
Proof.
  intros Hc Hrun Hstop Hk. unfold rplus. rewrite rmatch_seq, rmatch_char.
  cbn [m_rest m_pos m_caps]. rewrite Hc, rmatch_star. cbn [m_rest groups_of].
  destruct (star_char_greedy ml p k rest' Hstop run
              (String.length (String.append run rest')) (S pos) (Some c) caps Hrun)
    as (prev' & E).
  - rewrite str_length_app. lia.
  - intros prev'.
    replace (S pos + String.length run) with (pos + S (String.length run)) by lia.
    destruct (Hk prev') as (x & -> & _). eauto.
  - rewrite E.
    replace (S pos + String.length run) with (pos + S (String.length run)) by lia.
    apply Hk.
Qed.

(** An optional character that is not there. *)
Lemma rmatch_opt_char_skip ml p st k :
  match m_rest st with String c _ => p c = false | EmptyString => True end ->
  rmatch ml (ROpt (RChar p)) st k = k st.
Proof.
  intros H. rewrite rmatch_opt, rmatch_char. cbn [groups_of]. rewrite clear_groups_nil.
  destruct (m_rest st) as [|c r]; [reflexivity|]. rewrite H. reflexivity.
Qed.

(** *** About a column item *)

Lemma word_not_dquote c : Chars.is_word c = true -> Ascii.eqb Chars.dquote c = false.
Proof.
  intros H. apply is_word_other in H. destruct H as (_ & H & _).
  unfold is_dquote in H. rewrite Ascii.eqb_sym. exact H.
Qed.

Lemma word_is_dot c : Chars.is_word c = true -> negb (Chars.is_line_terminator c) = true.
Proof.
  intros H. apply is_word_other in H. destruct H as (_ & _ & _ & _ & _ & _ & _ & H & _).
  rewrite H. reflexivity.
Qed.

(** [colDefRe] on the item [name type]: the two captures are the name and
    the type. *)
Lemma match_colDefRe c t :
  ident c = true -> ident t = true ->
  exists st, match_at false colDefRe 0 None (column_item (c, t)) = Some st /\
    m_caps st = [(2, (String.length c + 1, String.length c + 1 + String.length t));
                 (1, (0, String.length c))].
Proof.
  intros Hc Ht.
  destruct (ident_inv _ Hc) as (c0 & c' & -> & Hc0 & Hcw).
  destruct (ident_inv _ Ht) as (t0 & t' & -> & Ht0 & Htw).
  pose proof (all_chars_tail _ _ _ Hcw) as Hcw'.
  pose proof (all_chars_tail _ _ _ Htw) as Htw'.
  unfold column_item, match_at, colDefRe. cbn [fst snd rseq]. unfold qident. cbn [rseq].
  rewrite rmatch_seq, rmatch_bol. cbn [at_bol m_prev].
  rewrite rmatch_seq, rmatch_seq. unfold dq at 1, chr.
  rewrite rmatch_opt_char_skip by (cbn [m_rest]; rewrite str_app_cons; apply word_not_dquote, Hc0).
  rewrite rmatch_seq, rmatch_group. cbn [m_pos]. rewrite str_app_cons.
  unfold word.
  apply (rmatch_plus_char_run false Chars.is_word _ _ c0 c' (String " " (String t0 t')) 0 None []
           Hc0 Hcw' eq_refl).
  intros prev1. cbn [set_cap m_pos m_prev m_rest m_caps Nat.add].
  unfold dq, chr. rewrite rmatch_opt_char_skip by reflexivity.
  rewrite rmatch_seq. unfold ws.
  change (String " " (String t0 t')) with (String " " (String.append "" (String t0 t'))).
  apply (rmatch_plus_char_run false Chars.is_space _ _ " "%char "" (String t0 t')
           (S (String.length c')) prev1 _ eq_refl eq_refl).
  { destruct (is_word_other _ Ht0) as [H _]. exact H. }
  intros prev2. cbn [String.length Nat.add].
  rewrite rmatch_seq, rmatch_group. cbn [m_pos]. unfold dot.
  pose proof (rmatch_plus_char_run false (fun c => negb (Chars.is_line_terminator c))
                (fun st' => rmatch false REol
                              (set_cap 2 (S (String.length c') + 1) st') Some)
                (fun st => m_caps st =
                   [(2, (S (String.length c') + 1,
                         S (String.length c') + 1 + S (String.length t')));
                    (1, (0, S (String.length c')))])
                t0 t' "" (S (String.length c') + 1) prev2
                [(1, (0, S (String.length c')))]) as H.
  rewrite str_app_nil_r in H. apply H; clear H.
  - apply word_is_dot, Ht0.
  - revert Htw'. apply all_chars_impl. intros x Hx. apply word_is_dot, Hx.
  - exact I.
  - intros prev3. rewrite rmatch_eol. cbn [set_cap at_eol next_char m_rest m_pos m_prev m_caps].
    eexists. split; [reflexivity|]. cbn [m_caps]. reflexivity.
Qed.

(** *** About patterns that fail *)

Lemma exec_none ml r (Q : string -> Prop) s : suffix_closed Q ->
  (forall pos prev rest, Q rest -> match_at ml r pos prev rest = None) ->
  Q s -> exec ml r s = None.
Proof.
  intros HQc Hm HQ. unfold exec. rewrite (search_none ml r Q HQc Hm s 0 None HQ). reflexivity.
Qed.

Lemma no_space_closed : suffix_closed (fun s => all_chars not_space s = true).
Proof. intros c s. apply all_chars_tail. Qed.

Lemma no_space_head s :
  all_chars not_space s = true ->
  match s with String c _ => Chars.is_space c = false | EmptyString => True end.
Proof.
  destruct s as [|c s]; [trivial|]. cbn [all_chars]. intros H.
  apply andb_true_iff in H. destruct H as [H _]. apply negb_true_iff, H.
Qed.

(** A pattern that asks for white space fails on a text without any. *)
Lemma needs_space ml a b st k :
  all_chars not_space (m_rest st) = true ->
  rmatch ml (RSeq a (RSeq (rplus ws) b)) st k = None.
Proof.
  intros H. apply (rmatch_seq_none ml (fun s => all_chars not_space s = true));
    [apply no_space_closed|exact H|].
  intros st' H'. rewrite rmatch_seq. apply rmatch_plus_char_none, no_space_head, H'.
Qed.

Lemma test_primaryKeyRe_no_space t :
  all_chars not_space t = true -> test false primaryKeyRe t = false.
Proof.
  intros H. unfold test.
  rewrite (exec_none false primaryKeyRe (fun s => all_chars not_space s = true) t
             no_space_closed); [reflexivity| |exact H].
  intros pos prev rest Hr. unfold match_at, primaryKeyRe. cbn [rseq].
  rewrite rmatch_seq, rmatch_wordb. destruct (at_word_boundary _); [|reflexivity].
  apply needs_space. exact Hr.
Qed.

Lemma test_notNullRe_no_space t :
  all_chars not_space t = true -> test false notNullRe t = false.
Proof.
  intros H. unfold test.
  rewrite (exec_none false notNullRe (fun s => all_chars not_space s = true) t
             no_space_closed); [reflexivity| |exact H].
  intros pos prev rest Hr. unfold match_at, notNullRe. cbn [rseq].
  rewrite rmatch_seq, rmatch_wordb. destruct (at_word_boundary _); [|reflexivity].
  apply needs_space. exact Hr.
Qed.

Lemma no_lparen_closed : suffix_closed (fun s => all_chars (fun c => negb (is_lparen c)) s = true).
Proof. intros c s. apply all_chars_tail. Qed.

(** [tableFkRe] asks for an opening parenthesis. *)
Lemma exec_tableFkRe_no_lparen line :
  all_chars (fun c => negb (is_lparen c)) line = true -> exec false tableFkRe line = None.
Proof.
  intros H.
  apply (exec_none false tableFkRe _ line no_lparen_closed); [|exact H].
  intros pos prev rest Hr0. unfold match_at, tableFkRe. cbn [rseq].
  generalize (Some : mstate -> option mstate). intros k.
  set (st := MState pos prev rest []).
  assert (Hr : all_chars (fun c => negb (is_lparen c)) (m_rest st) = true) by exact Hr0.
  clearbody st. clear Hr0 pos prev rest.
  do 5 (apply (rmatch_seq_none false _ _ _ _ _ no_lparen_closed); [exact Hr|];
        clear st Hr; intros st Hr).
  rewrite rmatch_seq. apply rmatch_lit_none; [discriminate|].
  destruct (m_rest st) as [|c r]; [reflexivity|]. cbn [all_chars] in Hr.
  apply andb_true_iff in Hr. destruct Hr as [Hc _]. apply negb_true_iff in Hc.
  cbn [Str.is_prefix]. unfold is_lparen in Hc. rewrite Ascii.eqb_sym, Hc. reflexivity.
Qed.

Lemma one_space_closed : suffix_closed (fun s => one_space s = true).
Proof.
  intros c s. cbn [one_space]. destruct (Chars.is_space c); [|trivial].
  intros H. clear c. induction s as [|c s IH]; [reflexivity|].
  cbn [all_chars one_space] in *. apply andb_true_iff in H. destruct H as [Hc Hs].
  apply negb_true_iff in Hc. rewrite Hc. apply IH, Hs.
Qed.

(** [colRefRe] asks for white space twice. *)
Lemma exec_colRefRe_one_space line : one_space line = true -> exec false colRefRe line = None.
Proof.
  intros H.
  apply (exec_none false colRefRe _ line one_space_closed); [|exact H].
  intros pos prev rest Hr0. unfold match_at, colRefRe. cbn [rseq].
  generalize (Some : mstate -> option mstate). intros k.
  set (st := MState pos prev rest []).
  assert (Hr : one_space (m_rest st) = true) by exact Hr0.
  clearbody st. clear Hr0 pos prev rest.
  do 2 (apply (rmatch_seq_none false _ _ _ _ _ one_space_closed); [exact Hr|];
        clear st Hr; intros st Hr).
  rewrite rmatch_seq. unfold rplus at 1. rewrite rmatch_seq. unfold ws at 1.
  rewrite rmatch_char. destruct (m_rest st) as [|c r]; [reflexivity|].
  cbn [one_space] in Hr. destruct (Chars.is_space c); [|reflexivity].
  apply (rmatch_none_on false _ no_space_closed); [exact Hr|].
  intros st' Hst'. apply needs_space, Hst'.
Qed.

(** *** About one column definition *)

Lemma single_spaced_word_run : forall a rest prev,
  all_chars Chars.is_word a = true -> a <> ""%string ->
  single_spaced (String.append a rest) prev = single_spaced rest false.
Proof.
  induction a as [|c a IH]; intros rest prev Hw Hne; [contradiction|].
  rewrite str_app_cons. cbn [all_chars single_spaced] in *.
  apply andb_true_iff in Hw. destruct Hw as [Hc Hw].
  destruct (is_word_other _ Hc) as [-> _].
  destruct a as [|c2 a]; [reflexivity|]. apply IH; [exact Hw|discriminate].
Qed.

Lemma column_item_normal c t :
  ident c = true -> ident t = true -> normalizeWs (column_item (c, t)) = column_item (c, t).
Proof.
  intros Hc Ht. rewrite normalizeWs_join_words. apply ws_normal_join_words.
  destruct (ident_inv _ Hc) as (c0 & c' & -> & Hc0 & Hcw).
  destruct (ident_inv _ Ht) as (t0 & t' & Et & Ht0 & Htw).
  unfold column_item. cbn [fst snd]. rewrite str_app_cons. unfold ws_normal.
  rewrite <- str_app_cons.
  rewrite single_spaced_word_run by (exact Hcw || discriminate).
  cbn [single_spaced]. change (Chars.is_space " ") with true. cbn [andb negb Ascii.eqb].
  change (Ascii.eqb " " " ") with true. cbn [andb].
  rewrite <- (str_app_nil_r t).
  rewrite single_spaced_word_run by (exact Htw || (rewrite Et; discriminate)).
  reflexivity.
Qed.

Lemma column_item_chars (p : ascii -> bool) c t :
  (forall x, Chars.is_word x = true -> p x = true) -> p " "%char = true ->
  ident c = true -> ident t = true -> all_chars p (column_item (c, t)) = true.
Proof.
  intros Hp Hsp Hc Ht.
  destruct (ident_inv _ Hc) as (_ & _ & _ & _ & Hcw).
  destruct (ident_inv _ Ht) as (_ & _ & _ & _ & Htw).
  unfold column_item. cbn [fst snd]. rewrite all_chars_app. cbn [all_chars].
  rewrite Hsp, (all_chars_impl _ _ _ Hp Hcw), (all_chars_impl _ _ _ Hp Htw). reflexivity.
Qed.

Lemma column_item_one_space c t :
  ident c = true -> ident t = true -> one_space (column_item (c, t)) = true.
Proof.
  intros Hc Ht.
  destruct (ident_inv _ Hc) as (_ & _ & _ & _ & Hcw).
  destruct (ident_inv _ Ht) as (_ & _ & _ & _ & Htw).
  unfold column_item. cbn [fst snd]. clear Hc.
  induction c as [|x c IH].
  - rewrite str_app_nil_l. cbn [one_space]. change (Chars.is_space " ") with true.
    cbn beta iota. apply word_not_space, Htw.
  - rewrite str_app_cons. cbn [one_space all_chars] in *.
    apply andb_true_iff in Hcw. destruct Hcw as [Hx Hcw].
    destruct (is_word_other _ Hx) as [-> _]. apply IH, Hcw.
Qed.

(** X-lemma. What [processItem] does with the item [name type]. *)
Lemma processItem_column es tn a c t :
  ident c = true -> ident t = true -> is_noise (column_item (c, t)) = false ->
  processItem es tn a (column_item (c, t)) =
    Some (mkAcc
            (a_columns a ++
             [mkColumn c (columnType t) false (Some false) None None
                ((fun _ => true) <$> enumOf es (columnType t))
                (enumOf es (columnType t))])
            (a_relations a) (a_pkByTable a)).
Proof.
  intros Hc Ht Hnoise. unfold processItem.
  rewrite (column_item_normal c t Hc Ht).
  set (line := column_item (c, t)) in *.
  rewrite exec_tableFkRe_no_lparen.
  2:{ apply column_item_chars; [|reflexivity|exact Hc|exact Ht].
      intros x Hx. apply is_word_other in Hx. destruct Hx as (_ & _ & -> & _). reflexivity. }
  unfold is_noise in Hnoise.
  apply orb_false_iff in Hnoise. destruct Hnoise as [Hnoise H4].
  apply orb_false_iff in Hnoise. destruct Hnoise as [Hnoise H3].
  apply orb_false_iff in Hnoise. destruct Hnoise as [H1 H2].
  rewrite H1, H2, H3, H4.
  destruct (match_colDefRe c t Hc Ht) as (st & Hm & Hcaps).
  fold line in Hm.
  assert (Hexec : exec false colDefRe line = Some (result_of 0 st)).
  { unfold exec. destruct line as [|x l] eqn:El; cbn [search]; rewrite Hm; reflexivity. }
  rewrite Hexec. unfold columnDef, group. cbn [result_of mr_caps]. rewrite Hcaps.
  cbn [find_cap Nat.eqb].
  assert (Eline : line = String.append c (String.append " " t)) by reflexivity.
  assert (Eg1 : Str.slice 0 (String.length c) line = c).
  { unfold Str.slice. cbn [Str.drop]. rewrite Nat.sub_0_r.
    replace (Str.drop 0 line) with line by (destruct line; reflexivity).
    rewrite Eline. apply take_app. }
  assert (Eg2 : Str.slice (String.length c + 1) (String.length c + 1 + String.length t) line
                = t).
  { rewrite Eline. rewrite <- str_app_assoc.
    replace (String.length c + 1) with (String.length (String.append c " "))
      by (rewrite str_length_app; reflexivity).
    pose proof (slice_app (String.append c " ") t "") as H. rewrite str_app_nil_r in H.
    exact H. }
  rewrite Eg1, Eg2. cbn [mbind option_bind].
  destruct (ident_inv _ Hc) as (_ & _ & _ & _ & Hcw).
  destruct (ident_inv _ Ht) as (_ & _ & _ & _ & Htw).
  rewrite (unquoteIdent_ident c Hcw).
  rewrite (test_primaryKeyRe_no_space t (word_not_space t Htw)).
  rewrite (test_notNullRe_no_space t (word_not_space t Htw)).
  rewrite (exec_colRefRe_one_space line (column_item_one_space c t Hc Ht)).
  cbn [andb orb]. destruct (enumOf es (columnType t)); reflexivity.
Qed.

(** *** About the characters of a statement *)

Lemma column_ok_inv ct :
  column_ok ct = true ->
  ident ct.1 = true /\ ident ct.2 = true /\ is_noise (column_item ct) = false.
Proof.
  unfold column_ok. rewrite !andb_true_iff, negb_true_iff. tauto.
Qed.

Lemma column_item_trim c t :
  ident c = true -> ident t = true -> Str.trim (column_item (c, t)) = column_item (c, t).
Proof.
  intros Hc Ht.
  destruct (ident_inv _ Hc) as (c0 & c' & Ec & Hc0 & Hcw).
  destruct (ident_inv _ Ht) as (t0 & t' & Et & Ht0 & Htw).
  rewrite trim_trimEnd. unfold column_item. cbn [fst snd].
  assert (Es : Str.trimStart (String.append c (String " " t))
               = String.append c (String " " t)).
  { rewrite Ec, str_app_cons. cbn [Str.trimStart].
    destruct (is_word_other _ Hc0) as [-> _]. reflexivity. }
  rewrite Es. clear Es Ec Hc Hc0 c0 c'.
  induction c as [|x c IH].
  - rewrite str_app_nil_l. subst t.
    destruct (is_word_other _ Ht0) as [Hsp _].
    rewrite (trimEnd_cons_cons _ _ _ Hsp). rewrite trimEnd_id; [reflexivity|].
    apply word_not_space. apply (all_chars_tail _ _ _ Htw).
  - rewrite str_app_cons. cbn [all_chars] in Hcw.
    apply andb_true_iff in Hcw. destruct Hcw as [Hx Hcw].
    destruct (is_word_other _ Hx) as [Hsp _].
    rewrite (trimEnd_cons_nonspace _ _ Hsp), (IH Hcw). reflexivity.
Qed.

Lemma word_item_char c : Chars.is_word c = true -> is_item_char c = true.
Proof.
  intros H. apply is_word_other in H.
  destruct H as (_ & H1 & H2 & H3 & H4 & H5 & _).
  unfold is_item_char, is_plain. rewrite H1, H2, H3, H4, H5. reflexivity.
Qed.

Lemma column_item_ok ct : column_ok ct = true -> item_ok (column_item ct) = true.
Proof.
  intros H. destruct (column_ok_inv _ H) as (Hc & Ht & _). destruct ct as [c t].
  cbn [fst snd] in *. unfold item_ok. rewrite !andb_true_iff. repeat split.
  - destruct (ident_inv _ Hc) as (c0 & c' & -> & _). reflexivity.
  - rewrite <- (str_app_nil_r (column_item (c, t))).
    rewrite item_chars_nested; [reflexivity|].
    apply column_item_chars; [apply word_item_char|reflexivity|exact Hc|exact Ht].
  - apply String.eqb_eq, column_item_trim; assumption.
Qed.

Lemma foldlM_columns es tn : forall cols a,
  Forall (fun ct => column_ok ct = true) cols ->
  exists cs,
    foldlM (processItem es tn) a (List.map column_item cols)
      = Some (mkAcc (a_columns a ++ cs) (a_relations a) (a_pkByTable a)) /\
    List.map column_facts cs
      = List.map (fun ct => (ct.1, columnType ct.2, false, Some false, None, None)) cols.
Proof.
  induction cols as [|[c t] cols IH]; intros a Hok.
  - exists []. rewrite app_nil_r. destruct a; split; reflexivity.
  - inversion Hok as [|? ? H1 H2]; subst.
    destruct (column_ok_inv _ H1) as (Hc & Ht & Hn). cbn [fst snd] in Hc, Ht.
    cbn [List.map foldlM]. rewrite (processItem_column es tn a c t Hc Ht Hn).
    cbn [mbind option_bind].
    match goal with |- context [foldlM _ ?a' _] =>
      destruct (IH a' H2) as (cs & E & Hcs) end.
    cbn [a_columns a_relations a_pkByTable] in E.
    eexists (_ :: cs). split.
    + rewrite E. rewrite <- app_assoc. reflexivity.
    + cbn [List.map]. rewrite Hcs. reflexivity.
Qed.

Lemma more_items_chars (p : ascii -> bool) w : forall items,
  p ","%char = true -> all_chars p w = true ->
  Forall (fun x => all_chars p x = true) items ->
  all_chars p (more_items w items) = true.
Proof.
  intros items Hc Hw. induction 1 as [|x items Hx _ IH]; [reflexivity|].
  cbn [more_items all_chars]. rewrite Hc, !all_chars_app, Hw, Hx, IH. reflexivity.
Qed.

Lemma join_items_chars (p : ascii -> bool) w items :
  p ","%char = true -> all_chars p w = true ->
  Forall (fun x => all_chars p x = true) items ->
  all_chars p (join_items w items) = true.
Proof.
  intros Hc Hw H. destruct H as [|x items Hx H]; [reflexivity|].
  cbn [join_items]. rewrite all_chars_app, Hx. apply more_items_chars; assumption.
Qed.

Lemma columns_chars (p : ascii -> bool) cols :
  (forall x, Chars.is_word x = true -> p x = true) -> p " "%char = true ->
  Forall (fun ct => column_ok ct = true) cols ->
  Forall (fun x => all_chars p x = true) (List.map column_item cols).
Proof.
  intros Hp Hsp. induction 1 as [|[c t] cols H _ IH]; cbn [List.map]; constructor;
    [|exact IH].
  destruct (column_ok_inv _ H) as (Hc & Ht & _). apply column_item_chars; assumption.
Qed.

Lemma all_chars_occurs (p : ascii -> bool) a needle : forall s,
  p a = false -> all_chars p s = true -> occurs (String a needle) s = false.
Proof.
  intros s Ha. induction s as [|c s IH]; intros H; [reflexivity|].
  cbn [all_chars] in H. apply andb_true_iff in H. destruct H as [Hc Hs].
  cbn [occurs Str.is_prefix]. rewrite (IH Hs).
  destruct (Ascii.eqb a c) eqn:E; [|reflexivity].
  apply Ascii.eqb_eq in E. congruence.
Qed.

Lemma table_statement_chars (p : ascii -> bool) name w cols :
  (forall x, is_statement_char x = true -> p x = true) ->
  ident name = true -> all_chars Chars.is_space w = true ->
  Forall (fun ct => column_ok ct = true) cols ->
  all_chars p (join_items w (List.map column_item cols)) = true /\
  all_chars p (table_statement name w cols) = true.
Proof.
  intros Hp Hname Hw Hcols.
  assert (Hword : forall x, Chars.is_word x = true -> p x = true).
  { intros x Hx. apply Hp. unfold is_statement_char. rewrite Hx. reflexivity. }
  assert (Hbody : all_chars p (join_items w (List.map column_item cols)) = true).
  { apply join_items_chars.
    - apply Hp. reflexivity.
    - revert Hw. apply all_chars_impl. intros x Hx. apply Hp.
      unfold is_statement_char. rewrite Hx. destruct (Chars.is_word x); reflexivity.
    - apply columns_chars; [exact Hword|apply Hp; reflexivity|exact Hcols]. }
  split; [exact Hbody|].
  unfold table_statement, create_table.
  destruct (ident_inv _ Hname) as (_ & _ & _ & _ & Hn).
  rewrite all_chars_app, all_chars_app. cbn [all_chars]. rewrite all_chars_app.
  rewrite (all_chars_impl _ _ _ Hword Hn), Hbody. cbn [all_chars].
  rewrite !Hp by reflexivity. reflexivity.
Qed.

Lemma item_char_plain x : is_item_char x = true -> is_plain x = true.
Proof. unfold is_item_char. intros H. apply andb_true_iff in H. tauto. Qed.

Lemma space_plain x : Chars.is_space x = true -> is_plain x = true.
Proof. intros H. apply item_char_plain, is_space_item_char, H. Qed.

(** *** About the type token *)

Lemma star_char_zero ml p greedy k n st :
  match m_rest st with String c _ => p c = false | EmptyString => True end ->
  star_loop (rmatch ml (RChar p)) [] greedy k n st = k st.
Proof.
  intros H. destruct n as [|n]; [reflexivity|].
  rewrite star_loop_S, clear_groups_nil, rmatch_char.
  destruct (m_rest st) as [|c r]; [destruct greedy, (k st); reflexivity|].
  rewrite H. destruct greedy, (k st); reflexivity.
Qed.

Lemma type_stop_inv r :
  type_stop r = true ->
  match r with
  | String c _ => is_type_letter c = false /\ Chars.is_space c = false /\
                  is_lparen c = false /\ Ascii.eqb c "[" = false
  | EmptyString => True
  end.
Proof.
  destruct r as [|c r]; [exact (fun _ => I)|]. unfold type_stop.
  rewrite negb_true_iff, !orb_false_iff. tauto.
Qed.

Lemma type_letter_word c : is_type_letter c = true -> Chars.is_word c = true.
Proof.
  destruct c as [b0 b1 b2 b3 b4 b5 b6 b7].
  destruct b0, b1, b2, b3, b4, b5, b6, b7; vm_compute; intros H;
    first [discriminate H | reflexivity].
Qed.

Lemma match_typeRe c a r :
  is_type_letter c = true -> all_chars is_type_letter a = true -> type_stop r = true ->
  exists st, match_at false typeRe 0 None (String c (String.append a r)) = Some st /\
             m_pos st = S (String.length a).
Proof.
  intros Hc Ha Hr. apply type_stop_inv in Hr.
  unfold match_at, typeRe. cbn [rseq].
  rewrite rmatch_seq, rmatch_bol. cbn [at_bol m_prev].
  rewrite rmatch_seq. unfold rstar at 1, ws at 1. rewrite rmatch_star, star_char_zero.
  2:{ cbn [m_rest]. apply type_letter_word, is_word_other in Hc. tauto. }
  rewrite rmatch_seq, rmatch_group. cbn [m_pos].
  apply (rmatch_plus_char_run false _ _ _ c a r 0 None [] Hc Ha).
  { destruct r; [exact I|]. apply Hr. }
  intros prev1. cbn [set_cap m_pos m_prev m_rest m_caps Nat.add].
  rewrite rmatch_seq, rmatch_opt.
  assert (Hws : forall st k, m_rest st = r -> rmatch false (rplus ws) st k = None).
  { intros st k E. apply rmatch_plus_char_none. rewrite E.
    destruct r; [exact I|]. apply Hr. }
  assert (Hlit : forall x st k, m_rest st = r -> (x = "("%char \/ x = "["%char) ->
                   rmatch false (chr x) st k = None).
  { intros x st k E Hx. unfold chr. rewrite rmatch_char, E.
    destruct r as [|y r]; [reflexivity|].
    destruct Hr as (_ & _ & H3 & H4).
    assert (Ascii.eqb x y = false) as ->; [|reflexivity].
    destruct Hx as [-> | ->]; [|rewrite Ascii.eqb_sym; exact H4].
    rewrite Ascii.eqb_sym. exact H3. }
  rewrite rmatch_group, rmatch_alt, rmatch_alt. cbn [rseq].
  rewrite !rmatch_seq, !Hws by reflexivity. cbn [orelse].
  rewrite rmatch_opt, rmatch_group. cbn [rseq].
  rewrite rmatch_seq. unfold rstar at 1, ws at 1. rewrite rmatch_star, star_char_zero.
  2:{ cbn [clear_groups m_rest]. destruct r; [exact I|]. apply Hr. }
  rewrite rmatch_seq. change (lit "(") with (chr "(").
  rewrite Hlit by (reflexivity || (left; reflexivity)). cbn [orelse].
  rewrite rmatch_opt, rmatch_group.
  change (lit "[]") with (RSeq (chr "[") (chr "]")).
  rewrite rmatch_seq, Hlit by (reflexivity || (right; reflexivity)). cbn [orelse].
  eexists. split; [reflexivity|]. reflexivity.
Qed.

Lemma type_letters_normal a :
  all_chars is_type_letter a = true -> normalizeWs a = a.
Proof.
  intros Ha. rewrite normalizeWs_join_words. apply ws_normal_join_words.
  destruct a as [|c a]; [reflexivity|]. unfold ws_normal.
  rewrite <- (str_app_nil_r (String c a)).
  rewrite single_spaced_word_run; [reflexivity| |discriminate].
  revert Ha. apply all_chars_impl, type_letter_word.
Qed.

(** X22. The type of a column is the run of letters and underscores its
    definition starts with, when that run is followed by the end of the
    text or by a character that is neither white space, nor an opening
    parenthesis, nor an opening bracket: a digit is not part of the type. *)
Theorem columnType_letters (a r : string) :
  Str.truthy a = true -> all_chars is_type_letter a = true -> type_stop r = true ->
  columnType (String.append a r) = a.
Proof.
  intros Hne Ha Hr. destruct a as [|c a]; [discriminate|].
  cbn [all_chars] in Ha. apply andb_true_iff in Ha. destruct Ha as [Hc Ha].
  destruct (match_typeRe c a r Hc Ha Hr) as (st & Hm & Hpos).
  rewrite str_app_cons. unfold columnType, exec. cbn [search]. rewrite Hm.
  unfold whole. cbn [result_of mr_index mr_end]. rewrite Hpos.
  assert (E : Str.slice 0 (S (String.length a)) (String c (String.append a r))
              = String c a).
  { unfold Str.slice. rewrite Nat.sub_0_r. cbn [Str.drop].
    rewrite <- str_app_cons. apply (take_app (String c a) r). }
  rewrite E. cbn [Str.truthy]. apply type_letters_normal.
  cbn [all_chars]. rewrite Hc, Ha. reflexivity.
Qed.

Lemma columnType_letters_witness : columnType "int4 not null" = "int".
Proof. apply (columnType_letters "int" "4 not null"); reflexivity. Defined.

(** *** About enum values *)

Lemma squote_eq c : is_squote c = true -> c = "'"%char.
Proof. unfold is_squote. apply Ascii.eqb_eq. Qed.

Lemma valAlt_pair pos prev rest caps k :
  rmatch false (RAlt (lit "''") (not_chr "'"))
    (MState pos prev (String "'" (String "'" rest)) caps) k
  = orelse (k (MState (S (S pos)) (Some "'"%char) rest caps)) None.
Proof.
  rewrite rmatch_alt. change (lit "''") with (RSeq (chr "'") (chr "'")).
  unfold chr, not_chr. rewrite rmatch_seq, !rmatch_char. cbn [m_rest m_pos m_caps].
  change (Ascii.eqb "'" "'") with true. cbn iota. rewrite rmatch_char.
  cbn [m_rest m_pos m_caps negb]. change (Ascii.eqb "'" "'") with true. reflexivity.
Qed.

Lemma valAlt_other pos prev c rest caps k :
  is_squote c = false ->
  rmatch false (RAlt (lit "''") (not_chr "'")) (MState pos prev (String c rest) caps) k
  = k (MState (S pos) (Some c) rest caps).
Proof.
  intros Hc. unfold is_squote in Hc. rewrite Ascii.eqb_sym in Hc.
  rewrite rmatch_alt. change (lit "''") with (RSeq (chr "'") (chr "'")).
  unfold chr, not_chr. rewrite rmatch_seq, !rmatch_char. cbn [m_rest m_pos m_caps].
  rewrite Hc. reflexivity.
Qed.

Lemma valAlt_end pos prev rest' caps k :
  no_quote_ahead rest' = true ->
  rmatch false (RAlt (lit "''") (not_chr "'")) (MState pos prev (String "'" rest') caps) k
  = None.
Proof.
  intros Hr. rewrite rmatch_alt. change (lit "''") with (RSeq (chr "'") (chr "'")).
  unfold chr, not_chr. rewrite rmatch_seq, !rmatch_char. cbn [m_rest m_pos m_caps].
  change (Ascii.eqb "'" "'") with true. cbn iota. rewrite rmatch_char.
  cbn [m_rest negb]. destruct rest' as [|c0 rest0]; [reflexivity|].
  cbn [no_quote_ahead] in Hr. unfold is_squote in Hr. apply negb_true_iff in Hr.
  rewrite Ascii.eqb_sym, Hr. reflexivity.
Qed.

Lemma valRe_star : forall v n pos prev caps rest' k,
  no_quote_ahead rest' = true -> String.length v <= n ->
  (forall prev', is_Some (k (MState (pos + String.length (escape v)) prev'
                               (String "'" rest') caps))) ->
  exists prev',
    star_loop (rmatch false (RAlt (lit "''") (not_chr "'"))) [] true k n
      (MState pos prev (String.append (escape v) (String "'" rest')) caps)
    = k (MState (pos + String.length (escape v)) prev' (String "'" rest') caps).
Proof.
  induction v as [|c v IH]; intros n pos prev caps rest' k Hrest Hn Hk.
  - cbn [escape String.length] in *. rewrite str_app_nil_l, Nat.add_0_r in *.
    exists prev. destruct n as [|n]; [reflexivity|].
    rewrite star_loop_S, clear_groups_nil, valAlt_end by exact Hrest. reflexivity.
  - destruct n as [|n]; [cbn [String.length] in Hn; lia|].
    cbn [String.length] in Hn.
    rewrite star_loop_S, clear_groups_nil. cbn [escape] in Hk |- *.
    destruct (is_squote c) eqn:Ec.
    + rewrite !str_app_cons, valAlt_pair. cbn [m_pos].
      assert (Hlt : (pos <? S (S pos)) = true) by (apply Nat.ltb_lt; lia). rewrite Hlt.
      cbn [String.length] in *.
      replace (pos + S (S (String.length (escape v))))
        with (S (S pos) + String.length (escape v)) in * by lia.
      destruct (IH n (S (S pos)) (Some "'"%char) caps rest' k Hrest ltac:(lia) Hk)
        as (prev' & E).
      exists prev'. rewrite E. destruct (Hk prev') as [x ->]. reflexivity.
    + rewrite !str_app_cons, valAlt_other by exact Ec. cbn [m_pos].
      assert (Hlt : (pos <? S pos) = true) by (apply Nat.ltb_lt; lia). rewrite Hlt.
      cbn [String.length] in *.
      replace (pos + S (String.length (escape v)))
        with (S pos + String.length (escape v)) in * by lia.
      destruct (IH n (S pos) (Some c) caps rest' k Hrest ltac:(lia) Hk) as (prev' & E).
      exists prev'. rewrite E. destruct (Hk prev') as [x ->]. reflexivity.
Qed.

Lemma escape_length v : String.length v <= String.length (escape v).
Proof.
  induction v as [|c v IH]; [reflexivity|]. cbn [escape].
  destruct (is_squote c); cbn [String.length]; lia.
Qed.

Lemma match_valRe v rest' pos prev :
  no_quote_ahead rest' = true ->
  exists st,
    match_at false valRe pos prev (String.append (quote v) rest') = Some st /\
    m_pos st = pos + String.length (quote v) /\
    m_caps st = [(1, (S pos, S pos + String.length (escape v)))].
Proof.
  intros Hr. unfold match_at, valRe, quote. cbn [rseq].
  change (lit "'") with (chr "'"). unfold chr at 1.
  rewrite rmatch_seq, rmatch_char, str_app_cons. cbn [m_rest m_pos m_caps].
  change (Ascii.eqb "'" "'") with true. cbn iota.
  rewrite rmatch_seq, rmatch_group. unfold rstar. rewrite rmatch_star.
  cbn [m_rest m_pos].
  change (groups_of (RAlt (lit "''") (not_chr "'"))) with (@nil nat).
  rewrite str_app_assoc, str_app_cons, str_app_nil_l.
  match goal with |- context [star_loop _ _ _ ?k ?n _] =>
    destruct (valRe_star v n (S pos) (Some "'"%char) [] rest' k Hr) as (prev' & E)
  end.
  - rewrite str_length_app. pose proof (escape_length v). lia.
  - intros p. cbn [set_cap m_pos m_prev m_rest m_caps]. unfold chr.
    rewrite rmatch_char. cbn [m_rest]. change (Ascii.eqb "'" "'") with true. eauto.
  - rewrite E. cbn [set_cap m_pos m_prev m_rest m_caps]. unfold chr.
    rewrite rmatch_char. cbn [m_rest m_pos m_caps]. change (Ascii.eqb "'" "'") with true.
    eexists. split; [reflexivity|]. unfold set_cap. cbn [m_pos m_caps String.length].
    rewrite str_length_app. cbn [String.length]. split; [lia|reflexivity].
Qed.

Lemma match_valRe_none pos prev rest :
  no_quote_ahead rest = true -> match_at false valRe pos prev rest = None.
Proof.
  intros Hr. unfold match_at, valRe. cbn [rseq]. change (lit "'") with (chr "'").
  unfold chr at 1. rewrite rmatch_seq, rmatch_char. cbn [m_rest].
  destruct rest as [|c rest]; [reflexivity|]. cbn [no_quote_ahead] in Hr.
  unfold is_squote in Hr. apply negb_true_iff in Hr. rewrite Ascii.eqb_sym, Hr. reflexivity.
Qed.

(** The characters of a match are skipped. *)
Lemma exec_loop_skip ml r : forall a pos prev rest,
  exists prev',
    exec_loop ml r pos prev (String.append a rest) (String.length a)
    = exec_loop ml r (pos + String.length a) prev' rest 0 \/
    (rest = ""%string /\
     exec_loop ml r pos prev (String.append a rest) (String.length a) = Some []).
Proof.
  induction a as [|c a IH]; intros pos prev rest.
  - exists prev. left. rewrite str_app_nil_l. cbn [String.length]. rewrite Nat.add_0_r.
    reflexivity.
  - rewrite str_app_cons. cbn [String.length exec_loop].
    destruct (IH (S pos) (Some c) rest) as (prev' & H). exists prev'.
    replace (pos + S (String.length a)) with (S pos + String.length a) by lia. exact H.
Qed.

Lemma exec_loop_end ml r pos prev :
  match_at ml r pos prev "" = None -> exec_loop ml r pos prev "" 0 = Some [].
Proof. intros H. cbn [exec_loop]. rewrite H. reflexivity. Qed.

(** White space and commas between the literals are passed over. *)
Lemma exec_loop_pass : forall a pos prev rest,
  all_chars (fun c => negb (is_squote c)) a = true ->
  exists prev',
    exec_loop false valRe pos prev (String.append a rest) 0
    = exec_loop false valRe (pos + String.length a) prev' rest 0.
Proof.
  induction a as [|c a IH]; intros pos prev rest Ha.
  - exists prev. rewrite str_app_nil_l. cbn [String.length]. rewrite Nat.add_0_r.
    reflexivity.
  - cbn [all_chars] in Ha. apply andb_true_iff in Ha. destruct Ha as [Hc Ha].
    rewrite str_app_cons. cbn [exec_loop].
    rewrite match_valRe_none by exact Hc.
    destruct (IH (S pos) (Some c) rest Ha) as (prev' & E). exists prev'.
    cbn [String.length]. replace (pos + S (String.length a)) with (S pos + String.length a) by lia.
    exact E.
Qed.

Lemma unescape_loop : forall v pos prev,
  replace_loop false twoQuotesRe "'" pos prev (escape v) 0 = v.
Proof.
  induction v as [|c v IH]; intros pos prev; [reflexivity|].
  cbn [escape]. destruct (is_squote c) eqn:Ec.
  - apply squote_eq in Ec. subst c. cbn [replace_loop].
    unfold match_at, twoQuotesRe. change (lit "''") with (RSeq (chr "'") (chr "'")).
    unfold chr. rewrite rmatch_seq, !rmatch_char. cbn [m_rest m_pos m_caps].
    change (Ascii.eqb "'" "'") with true. cbn iota. rewrite rmatch_char.
    cbn [m_rest m_pos m_caps]. change (Ascii.eqb "'" "'") with true. cbn iota.
    cbn [m_pos].
    assert (E1 : (S (S pos) <=? pos) = false) by (apply Nat.leb_gt; lia).
    rewrite E1. replace (S (S pos) - pos - 1) with 1 by lia.
    cbn [replace_loop].
    change (RSeq (RChar (Ascii.eqb "'")) (RChar (Ascii.eqb "'"))) with twoQuotesRe.
    rewrite IH. reflexivity.
  - cbn [replace_loop].
    assert (E : match_at false twoQuotesRe pos prev (String c (escape v)) = None).
    { unfold match_at, twoQuotesRe. change (lit "''") with (RSeq (chr "'") (chr "'")).
      unfold chr. rewrite rmatch_seq, !rmatch_char. cbn [m_rest].
      unfold is_squote in Ec. rewrite Ascii.eqb_sym, Ec. reflexivity. }
    rewrite E, IH. reflexivity.
Qed.

Lemma unescape v : replace_all false twoQuotesRe "'" (escape v) = v.
Proof. apply unescape_loop. Qed.

Lemma more_items_no_quote w qs :
  no_quote_ahead (more_items w qs) = true.
Proof. destruct qs; reflexivity. Qed.

Lemma value_of_match body pre v rest' st :
  body = String.append pre (String.append (quote v) rest') ->
  m_caps st = [(1, (S (String.length pre), S (String.length pre) + String.length (escape v)))] ->
  (v0 ← group body (result_of (String.length pre) st) 1;
   Some (replace_all false twoQuotesRe "'" v0)) = Some v.
Proof.
  intros Hb Hc. unfold group. cbn [result_of mr_caps]. rewrite Hc. cbn [find_cap Nat.eqb].
  assert (E : Str.slice (S (String.length pre))
                (S (String.length pre) + String.length (escape v)) body = escape v).
  { rewrite Hb. unfold quote. rewrite str_app_cons, str_app_assoc.
    change (String "'" (String.append (escape v) (String.append "'" rest')))
      with (String.append "'" (String.append (escape v) (String.append "'" rest'))).
    rewrite <- (str_app_assoc pre "'").
    replace (S (String.length pre)) with (String.length (String.append pre "'"))
      by (rewrite str_length_app; cbn [String.length]; lia).
    apply slice_app. }
  rewrite E. cbn [mbind option_bind]. rewrite unescape. reflexivity.
Qed.

Lemma exec_loop_values w : all_chars (fun c => negb (is_squote c)) w = true ->
  forall vs v pre prev body,
    body = String.append pre (String.append (quote v) (more_items w (List.map quote vs))) ->
    exists rs,
      exec_loop false valRe (String.length pre) prev
        (String.append (quote v) (more_items w (List.map quote vs))) 0 = Some rs /\
      mapM (fun vm => v0 ← group body vm 1;
                      Some (replace_all false twoQuotesRe "'" v0)) rs = Some (v :: vs).
Proof.
  intros Hw. induction vs as [|v2 vs IH]; intros v pre prev body Hb.
  - set (rest' := more_items w (List.map quote [])) in *.
    destruct (match_valRe v rest' (String.length pre) prev eq_refl) as (st & Hm & Hpos & Hcaps).
    exists [result_of (String.length pre) st]. split.
    + unfold quote at 1. rewrite str_app_cons. cbn [exec_loop].
      unfold quote in Hm. rewrite str_app_cons in Hm. rewrite Hm.
      assert (E1 : (m_pos st <=? String.length pre) = false)
        by (apply Nat.leb_gt; rewrite Hpos; unfold quote; cbn [String.length]; lia).
      rewrite E1.
      replace (m_pos st - String.length pre - 1)
        with (String.length (String.append (escape v) "'"))
        by (rewrite Hpos; unfold quote; cbn [String.length]; lia).
      destruct (exec_loop_skip false valRe (String.append (escape v) "'")
                  (S (String.length pre)) (Some "'"%char) rest') as (prev' & [E|[_ E]]).
      * rewrite E. unfold rest'. cbn [List.map more_items].
        rewrite exec_loop_end by (apply match_valRe_none; reflexivity). reflexivity.
      * rewrite E. reflexivity.
    + cbn [mapM]. rewrite (value_of_match body pre v rest' st Hb Hcaps). reflexivity.
  - set (rest' := more_items w (List.map quote (v2 :: vs))) in *.
    destruct (match_valRe v rest' (String.length pre) prev (more_items_no_quote _ _))
      as (st & Hm & Hpos & Hcaps).
    set (pre' := String.append pre (String.append (quote v) (String.append "," w))).
    assert (Hb' : body = String.append pre'
                           (String.append (quote v2) (more_items w (List.map quote vs)))).
    { rewrite Hb. unfold pre', rest'. cbn [List.map more_items].
      rewrite !str_app_assoc, str_app_cons, str_app_nil_l. reflexivity. }
    assert (Hlen : String.length pre' =
                   S (String.length pre) + String.length (String.append (escape v) "'")
                   + String.length (String.append "," w)).
    { unfold pre', quote. rewrite !str_length_app. cbn [String.length].
      rewrite !str_length_app. cbn [String.length]. lia. }
    destruct (exec_loop_skip false valRe (String.append (escape v) "'")
                (S (String.length pre)) (Some "'"%char) rest') as (prev1 & [E|[E _]]);
      [|discriminate E].
    destruct (exec_loop_pass (String.append "," w)
                (S (String.length pre) + String.length (String.append (escape v) "'")) prev1
                (String.append (quote v2) (more_items w (List.map quote vs))))
      as (prev2 & E2).
    { rewrite str_app_cons, str_app_nil_l. cbn [all_chars]. rewrite Hw. reflexivity. }
    rewrite <- Hlen in E2.
    destruct (IH v2 pre' prev2 body Hb') as (rs & Hrs & Hvals).
    exists (result_of (String.length pre) st :: rs). split.
    + unfold quote at 1. rewrite str_app_cons. cbn [exec_loop].
      unfold quote in Hm. rewrite str_app_cons in Hm. rewrite Hm.
      assert (E1 : (m_pos st <=? String.length pre) = false)
        by (apply Nat.leb_gt; rewrite Hpos; unfold quote; cbn [String.length]; lia).
      rewrite E1.
      replace (m_pos st - String.length pre - 1)
        with (String.length (String.append (escape v) "'"))
        by (rewrite Hpos; unfold quote; cbn [String.length]; lia).
      rewrite E. unfold rest'. cbn [List.map more_items].
      rewrite str_app_assoc, str_app_cons, str_app_nil_l in E2.
      rewrite E2, Hrs. reflexivity.
    + cbn [mapM]. rewrite (value_of_match body pre v rest' st Hb Hcaps).
      cbn [mbind option_bind]. rewrite Hvals. reflexivity.
Qed.

Lemma parseEnumValues_join (w : string) (vs : list string) :
  all_chars (fun c => negb (is_squote c)) w = true ->
  parseEnumValues (join_items w (List.map quote vs)) = Some vs.
Proof.
  intros Hw. unfold parseEnumValues, exec_all. destruct vs as [|v vs]; [reflexivity|].
  cbn [List.map join_items].
  destruct (exec_loop_values w Hw vs v "" None _ eq_refl) as (rs & Hrs & Hvals).
  cbn [String.length] in Hrs. rewrite Hrs. cbn [mbind option_bind].
  rewrite str_app_nil_l in Hvals. exact Hvals.
Qed.

(** X23. The values of an enum come back as written: for literals with every
    single quote doubled, separated by commas and text without a single
    quote, [parseEnumValues] returns the values, in order. *)
Theorem parseEnumValues_quoted (w : string) (vs : list string) :
  all_chars (fun c => negb (is_squote c)) w = true ->
  parseEnumValues (join_items w (List.map quote vs)) = Some vs.
Proof. apply parseEnumValues_join. Qed.

Lemma parseEnumValues_quoted_witness :
  parseEnumValues "'a''b', 'c, d', ''" = Some ["a'b"; "c, d"; ""].
Proof. apply (parseEnumValues_quoted " " ["a'b"; "c, d"; ""]). reflexivity. Defined.

(** *** About an enum statement *)

Lemma eq_ci_refl c : Chars.eq_ci c c = true.
Proof.
  unfold Chars.eq_ci. destruct (Chars.is_alpha c); rewrite Ascii.eqb_refl; reflexivity.
Qed.

(** A keyword matches itself. *)
Lemma rmatch_lit_i_self ml (P : mstate -> Prop) k : forall w rest pos prev caps,
  Str.truthy w = true ->
  (forall prev', exists x,
      k (MState (pos + String.length w) prev' rest caps) = Some x /\ P x) ->
  exists x,
    rmatch ml (lit_i w) (MState pos prev (String.append w rest) caps) k = Some x /\ P x.
Proof.
  induction w as [|c w IH]; intros rest pos prev caps Hne Hk; [discriminate|].
  destruct w as [|c2 w].
  - cbn [lit_i]. rewrite rmatch_char, str_app_cons, str_app_nil_l. cbn [m_rest m_pos m_caps].
    rewrite eq_ci_refl. cbn [String.length] in Hk.
    replace (S pos) with (pos + 1) by lia. apply Hk.
  - change (lit_i (String c (String c2 w)))
      with (RSeq (RChar (Chars.eq_ci c)) (lit_i (String c2 w))).
    rewrite rmatch_seq, rmatch_char, str_app_cons. cbn [m_rest m_pos m_caps].
    rewrite eq_ci_refl. apply IH; [reflexivity|].
    intros prev'. cbn [String.length] in Hk |- *.
    replace (S pos + S (String.length w)) with (pos + S (S (String.length w))) by lia.
    apply Hk.
Qed.

(** A lazy star over any character stops at the first place where what
    follows matches. *)
Lemma star_lazy_until ml (stop : ascii -> bool) k (P : mstate -> Prop) :
  (forall st, match m_rest st with
              | String c _ => stop c = false
              | EmptyString => True
              end -> k st = None) ->
  forall run n pos prev caps rest,
    all_chars (fun c => negb (stop c)) run = true -> String.length run <= n ->
    (forall prev', exists x,
        k (MState (pos + String.length run) prev' rest caps) = Some x /\ P x) ->
    exists x,
      star_loop (rmatch ml any) [] false k n
        (MState pos prev (String.append run rest) caps) = Some x /\ P x.
Proof.
  intros Hstop. induction run as [|c run IH]; intros n pos prev caps rest Hrun Hn Hk.
  - rewrite str_app_nil_l. cbn [String.length] in Hk. rewrite Nat.add_0_r in Hk.
    destruct (Hk prev) as (x & Hx & HP). exists x. split; [|exact HP].
    destruct n as [|n]; [exact Hx|]. rewrite star_loop_S, Hx. reflexivity.
  - cbn [all_chars] in Hrun. apply andb_true_iff in Hrun. destruct Hrun as [Hc Hrun].
    apply negb_true_iff in Hc.
    destruct n as [|n]; [cbn [String.length] in Hn; lia|]. cbn [String.length] in Hn.
    rewrite star_loop_S, clear_groups_nil, str_app_cons.
    rewrite (Hstop (MState pos prev (String c (String.append run rest)) caps) Hc).
    cbn [orelse]. unfold any. rewrite rmatch_char. cbn [m_rest m_pos m_caps].
    assert (Hlt : (pos <? S pos) = true) by (apply Nat.ltb_lt; lia). rewrite Hlt.
    apply IH; [exact Hrun|lia|].
    intros prev'. cbn [String.length] in Hk.
    replace (S pos + String.length run) with (pos + S (String.length run)) by lia.
    apply Hk.
Qed.

Lemma star_char_greedy_run ml p k (P : mstate -> Prop) rest' run n pos prev caps :
  match rest' with String c _ => p c = false | EmptyString => True end ->
  all_chars p run = true -> String.length run <= n ->
  (forall prev', exists x,
      k (MState (pos + String.length run) prev' rest' caps) = Some x /\ P x) ->
  exists x,
    star_loop (rmatch ml (RChar p)) [] true k n
      (MState pos prev (String.append run rest') caps) = Some x /\ P x.
Proof.
  intros Hstop Hrun Hn Hk.
  destruct (star_char_greedy ml p k rest' Hstop run n pos prev caps Hrun Hn) as (prev' & E).
  - intros prev'. destruct (Hk prev') as (x & -> & _). eauto.
  - rewrite E. apply Hk.
Qed.

Lemma one_space_run ml k (P : mstate -> Prop) c rest pos prev caps :
  Chars.is_space c = false ->
  (forall prev', exists x, k (MState (S pos) prev' (String c rest) caps) = Some x /\ P x) ->
  exists x,
    rmatch ml (rplus ws) (MState pos prev (String " " (String c rest)) caps) k = Some x /\ P x.
Proof.
  intros Hc Hk. unfold ws.
  change (String " " (String c rest)) with (String " " (String.append "" (String c rest))).
  apply (rmatch_plus_char_run ml Chars.is_space k P " "%char "" (String c rest) pos prev caps
           eq_refl eq_refl Hc).
  intros prev'. cbn [String.length]. replace (pos + 1) with (S pos) by lia. apply Hk.
Qed.

Lemma match_enumRe name body pos prev :
  ident name = true -> all_chars not_rparen body = true ->
  exists st,
    match_at false enumRe pos prev (enum_statement name body) = Some st /\
    m_pos st = pos + String.length (enum_statement name body) /\
    m_caps st = [(2, (pos + 12 + String.length name + 10,
                      pos + 12 + String.length name + 10 + String.length body));
                 (1, (pos + 12, pos + 12 + String.length name))].
Proof.
  intros Hname Hbody.
  destruct (ident_inv _ Hname) as (n0 & n' & -> & Hn0 & Hnw).
  pose proof (all_chars_tail _ _ _ Hnw) as Hnw'.
  unfold match_at, enum_statement, enumRe. cbn [rseq].
  change (String.append "create type " ?x)
    with (String.append "create" (String " " (String.append "type" (String " " x)))).
  rewrite rmatch_seq. apply (rmatch_lit_i_self false _ _ "create"); [reflexivity|]. intros p1.
  rewrite rmatch_seq. apply one_space_run; [reflexivity|]. intros p2.
  rewrite rmatch_seq. apply (rmatch_lit_i_self false _ _ "type"); [reflexivity|]. intros p3.
  rewrite rmatch_seq. rewrite str_app_cons.
  apply one_space_run; [apply is_word_other in Hn0; tauto|]. intros p4.
  rewrite rmatch_seq, rmatch_group. unfold qname. cbn [rseq].
  rewrite rmatch_seq. unfold dq at 1, chr.
  rewrite rmatch_opt_char_skip by (cbn [m_rest]; apply word_not_dquote, Hn0).
  rewrite rmatch_seq. unfold word_or_dot. cbn [m_pos].
  change (String.append " as enum (" ?x)
    with (String " " (String.append "as" (String " " (String.append "enum"
            (String " " (String "(" x)))))).
  apply (rmatch_plus_char_run false _ _ _ n0 n'); [rewrite Hn0; reflexivity| |reflexivity|].
  { revert Hnw'. apply all_chars_impl. intros x ->. reflexivity. }
  intros p5. unfold dq, chr. rewrite rmatch_opt_char_skip by reflexivity.
  cbn [set_cap m_pos m_prev m_rest m_caps].
  rewrite rmatch_seq. apply one_space_run; [reflexivity|]. intros p6.
  rewrite rmatch_seq. apply (rmatch_lit_i_self false _ _ "as"); [reflexivity|]. intros p7.
  rewrite rmatch_seq. apply one_space_run; [reflexivity|]. intros p8.
  rewrite rmatch_seq. apply (rmatch_lit_i_self false _ _ "enum"); [reflexivity|]. intros p9.
  rewrite rmatch_seq. unfold rstar at 1, ws. rewrite rmatch_star. cbn [m_rest groups_of].
  change (String " " (String "(" ?x)) with (String.append " " (String "(" x)).
  apply (star_char_greedy_run false Chars.is_space _ _ (String "(" (String.append body ")")) " ");
    [reflexivity|reflexivity|rewrite str_length_app; cbn [String.length]; lia|].
  intros p10.
  rewrite rmatch_seq. change (lit "(") with (chr "("). unfold chr at 1.
  rewrite rmatch_char. cbn [m_rest m_pos m_caps]. change (Ascii.eqb "(" "(") with true.
  cbn iota. rewrite rmatch_seq, rmatch_group, rmatch_star. cbn [m_rest m_pos groups_of].
  change (groups_of any) with (@nil nat).
  apply (star_lazy_until false is_rparen).
  - intros st Hst. unfold set_cap. rewrite rmatch_seq. change (lit ")") with (chr ")").
    unfold chr at 1. rewrite rmatch_char. cbn [m_rest].
    destruct (m_rest st) as [|c r]; [reflexivity|].
    unfold is_rparen in Hst. rewrite Ascii.eqb_sym, Hst. reflexivity.
  - exact Hbody.
  - rewrite str_length_app. lia.
  - intros p11. unfold set_cap. cbn [m_pos m_prev m_rest m_caps].
    rewrite rmatch_seq. change (lit ")") with (chr ")"). unfold chr at 1.
    rewrite rmatch_char. cbn [m_rest m_pos m_caps]. change (Ascii.eqb ")" ")") with true.
    cbn iota. rewrite rmatch_seq. unfold rstar. rewrite rmatch_star.
    rewrite star_char_zero by exact I.
    change (lit ";") with (RChar (Ascii.eqb ";")).
    rewrite rmatch_opt_char_skip by exact I.
    eexists. split; [reflexivity|]. cbn [m_pos m_caps String.length].
    repeat first [rewrite str_length_app | progress cbn [String.length]].
    split; [lia|]. repeat f_equal; lia.
Qed.

Lemma escape_chars (p : ascii -> bool) v :
  p "'"%char = true -> all_chars p v = true -> all_chars p (escape v) = true.
Proof.
  intros Hq. induction v as [|c v IH]; [reflexivity|]. cbn [all_chars escape].
  intros H. apply andb_true_iff in H. destruct H as [Hc Hv].
  destruct (is_squote c); cbn [all_chars]; rewrite ?Hq, ?Hc, (IH Hv); reflexivity.
Qed.

Lemma quote_chars (p : ascii -> bool) v :
  p "'"%char = true -> all_chars p v = true -> all_chars p (quote v) = true.
Proof.
  intros Hq Hv. unfold quote. cbn [all_chars]. rewrite Hq, all_chars_app.
  rewrite (escape_chars p v Hq Hv). cbn [all_chars]. rewrite Hq. reflexivity.
Qed.

Lemma parseEnumTypes_one name body :
  ident name = true -> all_chars not_rparen body = true ->
  parseEnumTypes (enum_statement name body)
    = (fun vs => [mkEnum name vs]) <$> parseEnumValues body.
Proof.
  intros Hname Hbody. unfold parseEnumTypes, exec_all.
  destruct (match_enumRe name body 0 None Hname Hbody) as (st & Hm & Hpos & Hcaps).
  rewrite Nat.add_0_l in Hpos.
  assert (Hs : exists c rest, enum_statement name body = String c rest)
    by (unfold enum_statement; eauto).
  destruct Hs as (c & rest & Hs).
  assert (Hloop : exec_loop false enumRe 0 None (enum_statement name body) 0
                  = Some [result_of 0 st]).
  { rewrite Hs in *. cbn [exec_loop]. rewrite Hm, Hpos. cbn [String.length Nat.leb].
    replace (S (String.length rest) - 0 - 1) with (String.length rest) by lia.
    destruct (exec_loop_skip false enumRe rest 1 (Some c) "") as (prev' & [E|[_ E]]);
      rewrite str_app_nil_r in E; rewrite E; reflexivity. }
  rewrite Hloop. cbn [mbind option_bind mapM]. unfold parseEnum, group.
  cbn [result_of mr_caps]. rewrite Hcaps. cbn [find_cap Nat.eqb].
  assert (E1 : Str.slice (0 + 12) (0 + 12 + String.length name) (enum_statement name body)
               = name).
  { unfold enum_statement. exact (slice_app "create type " name _). }
  assert (E2 : Str.slice (0 + 12 + String.length name + 10)
                 (0 + 12 + String.length name + 10 + String.length body)
                 (enum_statement name body) = body).
  { unfold enum_statement. do 2 rewrite <- str_app_assoc.
    replace (0 + 12 + String.length name + 10)
      with (String.length (String.append (String.append "create type " name) " as enum ("))
      by (rewrite !str_length_app; reflexivity).
    apply slice_app. }
  rewrite E1, E2. cbn [mbind option_bind].
  destruct (ident_inv _ Hname) as (_ & _ & _ & _ & Hw).
  rewrite (normalizeTableName_ident name Hw).
  destruct (parseEnumValues body); reflexivity.
Qed.

(** X24. The statement [create type name as enum ('v1', 'v2', ...)] gives
    exactly one enum, named [name], with the values as written, in order:
    for a name of word characters, values with every single quote doubled
    and no closing parenthesis in them, and separators without a single
    quote or a closing parenthesis. *)
Theorem parseEnumTypes_statement (name w : string) (vs : list string) :
  ident name = true ->
  all_chars (fun c => negb (is_squote c) && not_rparen c) w = true ->
  Forall (fun v => all_chars not_rparen v = true) vs ->
  parseEnumTypes (enum_statement name (join_items w (List.map quote vs)))
    = Some [mkEnum name vs].
Proof.
  intros Hname Hw Hvs.
  assert (Hw1 : all_chars (fun c => negb (is_squote c)) w = true).
  { revert Hw. apply all_chars_impl. intros c H. apply andb_true_iff in H. tauto. }
  assert (Hw2 : all_chars not_rparen w = true).
  { revert Hw. apply all_chars_impl. intros c H. apply andb_true_iff in H. tauto. }
  rewrite parseEnumTypes_one; [|exact Hname|].
  - rewrite (parseEnumValues_join w vs Hw1). reflexivity.
  - apply join_items_chars; [reflexivity|exact Hw2|].
    induction Hvs as [|v vs Hv _ IH]; cbn [List.map]; constructor; [|exact IH].
    apply quote_chars; [reflexivity|exact Hv].
Qed.

Lemma parseEnumTypes_statement_witness :
  parseEnumTypes "create type mood as enum ('sad', 'it''s ok', 'happy')"
    = Some [mkEnum "mood" ["sad"; "it's ok"; "happy"]].
Proof.
  apply (parseEnumTypes_statement "mood" " " ["sad"; "it's ok"; "happy"]);
    [reflexivity|reflexivity|repeat constructor].
Defined.

(** *** About names *)

Lemma match_outerQuotes_inner pos p c rest :
  Ascii.eqb Chars.dquote c = false ->
  match_at false outerQuotesRe pos (Some p) (String c rest) = None.
Proof.
  intros Hc. unfold match_at, outerQuotesRe.
  rewrite rmatch_alt, rmatch_seq, rmatch_bol. cbn [at_bol m_prev andb orelse].
  unfold dq, chr. rewrite rmatch_seq. apply rmatch_plus_char_none. cbn [m_rest]. exact Hc.
Qed.

Lemma unquote_loop_tail : forall n pos p,
  all_chars Chars.is_word n = true ->
  replace_loop false outerQuotesRe "" pos (Some p)
    (String.append n (String Chars.dquote "")) 0 = n.
Proof.
  induction n as [|c n IH]; intros pos p Hn.
  - rewrite str_app_nil_l. cbn [replace_loop].
    assert (E : match_at false outerQuotesRe pos (Some p) (String Chars.dquote "")
                = Some (MState (S pos) (Some Chars.dquote) "" [])).
    { unfold match_at, outerQuotesRe.
      rewrite rmatch_alt, rmatch_seq, rmatch_bol. cbn [at_bol m_prev andb orelse].
      unfold dq, chr, rplus. rewrite !rmatch_seq, rmatch_char. cbn [m_rest m_pos m_caps].
      rewrite Ascii.eqb_refl. rewrite rmatch_star. cbn [m_rest String.length star_loop].
      reflexivity. }
    rewrite E. cbn [m_pos].
    assert (E1 : (S pos <=? pos) = false) by (apply Nat.leb_gt; lia). rewrite E1.
    replace (S pos - pos - 1) with 0 by lia. reflexivity.
  - cbn [all_chars] in Hn. apply andb_true_iff in Hn. destruct Hn as [Hc Hn].
    rewrite str_app_cons. cbn [replace_loop].
    rewrite (match_outerQuotes_inner pos p c _ (word_not_dquote c Hc)).
    rewrite (IH (S pos) c Hn). reflexivity.
Qed.

Lemma unquoteIdent_quoted n : ident n = true -> unquoteIdent (quoted_name n) = n.
Proof.
  intros Hn. destruct (ident_inv _ Hn) as (c & n' & En & Hc & Hw).
  unfold unquoteIdent, replace_all, quoted_name. cbn [replace_loop].
  assert (E : match_at false outerQuotesRe 0 None
                (String Chars.dquote (String.append n (String Chars.dquote "")))
              = Some (MState 1 (Some Chars.dquote)
                        (String.append n (String Chars.dquote "")) [])).
  { unfold match_at, outerQuotesRe.
    rewrite rmatch_alt, rmatch_seq, rmatch_bol. cbn [at_bol m_prev].
    unfold dq, chr, rplus. rewrite rmatch_seq, rmatch_char. cbn [m_rest m_pos m_caps].
    rewrite Ascii.eqb_refl. rewrite rmatch_star, star_char_zero; [reflexivity|].
    cbn [m_rest]. rewrite En, str_app_cons. apply word_not_dquote, Hc. }
  rewrite E. cbn [m_pos Nat.leb Nat.sub]. rewrite str_app_nil_l.
  rewrite (unquote_loop_tail n 1 Chars.dquote Hw).
  apply trim_id, word_not_space, Hw.
Qed.

Lemma split_go_last sep n : all_chars (fun c => negb (Ascii.eqb c sep)) n = true ->
  forall q cur,
    last_part (Str.split_go sep (String.append q (String sep n)) cur) = Some n.
Proof.
  intros Hn. induction q as [|c q IH]; intros cur.
  - rewrite str_app_nil_l. cbn [Str.split_go]. rewrite Ascii.eqb_refl.
    rewrite (split_go_no_sep_id sep n "" Hn). reflexivity.
  - rewrite str_app_cons. cbn [Str.split_go]. destruct (Ascii.eqb c sep).
    + unfold last_part in *. cbn [List.map]. specialize (IH ""%string).
      destruct (Str.split_go sep (String.append q (String sep n)) "") as [|x l] eqn:E;
        [discriminate IH|]. exact IH.
    + apply IH.
Qed.

(** X25. A table name written plain, between double quotes, or after a
    schema prefix and a dot is read as the bare name. *)
Theorem normalizeTableName_forms (q n : string) :
  ident n = true -> all_chars is_prefix_char q = true ->
  normalizeTableName n = n /\
  normalizeTableName (quoted_name n) = n /\
  normalizeTableName (String.append q (String "." n)) = n.
Proof.
  intros Hn Hq. destruct (ident_inv _ Hn) as (_ & _ & _ & _ & Hw).
  assert (Hdot : all_chars (fun c => negb (Ascii.eqb c ".")) n = true).
  { revert Hw. apply all_chars_impl. intros c Hc. apply is_word_other in Hc.
    destruct Hc as (_ & _ & _ & _ & _ & _ & Hd & _). unfold is_dot in Hd.
    rewrite Hd. reflexivity. }
  split; [apply normalizeTableName_ident, Hw|]. split.
  - unfold normalizeTableName.
    assert (Et : Str.trim (quoted_name n) = quoted_name n).
    { apply trim_id. unfold quoted_name. cbn [all_chars]. rewrite all_chars_app.
      rewrite (word_not_space n Hw). reflexivity. }
    rewrite Et, (unquoteIdent_quoted n Hn). unfold Str.split.
    rewrite (split_go_no_sep_id "." n "" Hdot). reflexivity.
  - unfold normalizeTableName.
    set (s := String.append q (String "." n)).
    assert (Hs : all_chars is_prefix_char s = true).
    { unfold s. rewrite all_chars_app, Hq. cbn [all_chars andb].
      change (is_prefix_char ".") with true. cbn [andb]. revert Hw. apply all_chars_impl.
      intros c Hc. apply is_word_other in Hc. destruct Hc as (H1 & H2 & _).
      unfold is_prefix_char. rewrite H1, H2. reflexivity. }
    assert (Hsp : all_chars not_space s = true).
    { revert Hs. apply all_chars_impl. intros c H. apply andb_true_iff in H.
      destruct H as [H _]. exact H. }
    rewrite (trim_id s Hsp). unfold unquoteIdent. rewrite unquote_id.
    2:{ revert Hs. apply all_chars_impl. intros c H. apply andb_true_iff in H.
        destruct H as [_ H]. exact H. }
    rewrite (trim_id s Hsp). unfold Str.split, s.
    rewrite (split_go_last "." n Hdot q ""). reflexivity.
Qed.

Lemma normalizeTableName_forms_witness :
  normalizeTableName "users" = "users" /\
  normalizeTableName (quoted_name "users") = "users" /\
  normalizeTableName "app.public.users" = "users".
Proof.
  apply (normalizeTableName_forms "app.public" "users"); reflexivity.
Defined.

(** *** About a script of tables *)

Lemma map_length f s : String.length (Str.map f s) = String.length s.
Proof. induction s as [|c s IH]; [reflexivity|]. cbn [Str.map String.length]. rewrite IH. reflexivity. Qed.

Lemma drop_app_eq a x k : k = String.length a -> Str.drop k (String.append a x) = x.
Proof. intros ->. apply drop_app. Qed.

Lemma sep_char_lower c :
  is_sep_char c = true ->
  Ascii.eqb "c" (Chars.to_lower c) = false /\ Chars.is_space (Chars.to_lower c) || Ascii.eqb (Chars.to_lower c) ";" = true.
Proof.
  destruct c as [b0 b1 b2 b3 b4 b5 b6 b7].
  destruct b0, b1, b2, b3, b4, b5, b6, b7; vm_compute; intros H;
    first [discriminate H | split; reflexivity].
Qed.

Lemma indexOf_from_skip a needle : forall w rest pos,
  all_chars (fun c => negb (Ascii.eqb a c)) w = true ->
  Str.indexOf_from (String a needle) (String.append w rest) pos
    = Str.indexOf_from (String a needle) rest (pos + String.length w).
Proof.
  induction w as [|c w IH]; intros rest pos H.
  - rewrite str_app_nil_l. cbn [String.length]. rewrite Nat.add_0_r. reflexivity.
  - cbn [all_chars] in H. apply andb_true_iff in H. destruct H as [Hc Hw].
    apply negb_true_iff in Hc. rewrite str_app_cons.
    cbn [Str.indexOf_from Str.is_prefix]. rewrite Hc. cbn [andb].
    rewrite (IH rest (S pos) Hw). cbn [String.length]. f_equal. lia.
Qed.

Lemma create_table_app n b rest :
  String.append (create_table n b) rest
    = String.append "create table "
        (String.append n (String "(" (String.append b (String ")" rest)))).
Proof.
  unfold create_table. rewrite !str_app_assoc. rewrite (str_app_cons "("%char).
  rewrite !str_app_assoc. rewrite (str_app_cons ")"%char), str_app_nil_l. reflexivity.
Qed.

Lemma create_table_length n b :
  String.length (create_table n b) = 13 + String.length n + 1 + String.length b + 1.
Proof.
  unfold create_table. rewrite !str_length_app. cbn [String.length].
  rewrite str_length_app. cbn [String.length]. lia.
Qed.

(** One turn of the loop of [parseCreateTableBlocks] reads one statement. *)
Lemma blocks_loop_step pre w n b rest fuel out :
  ident n = true -> well_nested true b 0 = true -> all_chars is_sep_char w = true ->
  let s := String.append pre (String.append w (String.append (create_table n b) rest)) in
  blocks_loop (S fuel) s (Str.toLowerCase s) (String.length pre) out
  = blocks_loop fuel s (Str.toLowerCase s)
      (String.length pre + String.length w + String.length (create_table n b))
      (out ++ [mkBlock n b]).
Proof.
  intros Hname Hbody Hw s.
  destruct (ident_inv _ Hname) as (n0 & name' & En & Hn0 & Hword).
  destruct (is_word_other _ Hn0) as (Hsp0 & Hdq0 & _).
  set (tail := String "(" (String.append b (String ")" rest))).
  set (j := String.length pre + String.length w).
  assert (Es : s = String.append (String.append pre w)
                     (String.append "create table " (String.append n tail))).
  { unfold s. rewrite create_table_app, str_app_assoc. reflexivity. }
  assert (Hj : String.length (String.append pre w) = j)
    by (rewrite str_length_app; reflexivity).
  assert (Hlen : String.length s
                 = j + 13 + String.length n + 1 + String.length b + 1 + String.length rest).
  { rewrite Es, !str_length_app. unfold tail. cbn [String.length].
    rewrite str_length_app. cbn [String.length]. fold j. lia. }
  cbn [blocks_loop].
  replace (String.length pre <? String.length s) with true
    by (symmetry; apply Nat.ltb_lt; unfold j in Hlen; lia).
  cbn [negb].
  assert (Hidx : Str.indexOf createTable (Str.toLowerCase s) (String.length pre) = Some j).
  { unfold Str.indexOf, Str.toLowerCase. rewrite map_length.
    replace (String.length s <? String.length pre) with false
      by (symmetry; apply Nat.ltb_ge; unfold j in Hlen; lia).
    unfold s. rewrite map_app.
    rewrite (drop_app_eq (Str.map Chars.to_lower pre)) by (rewrite map_length; reflexivity).
    rewrite map_app. unfold createTable.
    rewrite indexOf_from_skip.
    2:{ clear -Hw. induction w as [|c w IH]; [reflexivity|].
        cbn [all_chars Str.map] in *. apply andb_true_iff in Hw. destruct Hw as [Hc Hw].
        destruct (sep_char_lower c Hc) as [-> _]. cbn [negb andb]. apply IH, Hw. }
    rewrite map_length. fold j.
    apply indexOf_from_here. rewrite create_table_app, map_app.
    change (Str.map Chars.to_lower "create table ")
      with (String.append "create table" " ").
    rewrite str_app_assoc. apply is_prefix_app. }
  rewrite Hidx. change (String.length createTable) with 12.
  assert (Hd12 : Str.drop (j + 12) s = String " " (String.append n tail)).
  { rewrite Es.
    change (String.append "create table " (String.append n tail))
      with (String.append "create table" (String " " (String.append n tail))).
    rewrite <- str_app_assoc. apply drop_app_eq. rewrite str_length_app, Hj. reflexivity. }
  assert (Hd13 : Str.drop (j + 13) s = String.append n tail).
  { rewrite Es, <- str_app_assoc. apply drop_app_eq.
    rewrite str_length_app, Hj. reflexivity. }
  assert (Hp1 : scan_while Chars.is_space s (j + 12) = j + 13).
  { unfold scan_while. rewrite Hd12. cbn [scan_run].
    change (Chars.is_space " ") with true. cbn beta iota.
    replace (S (j + 12)) with (j + 13) by lia.
    apply scan_run_stop. rewrite En, str_app_cons. exact Hsp0. }
  rewrite Hp1.
  assert (Hname_run : scan_while is_name_char s (j + 13) = j + 13 + String.length n).
  { unfold scan_while. rewrite Hd13. apply scan_run_app.
    - revert Hword. apply all_chars_impl. intros c Hc. apply is_word_other in Hc. tauto.
    - reflexivity. }
  assert (Hrn : read_name s (j + 13) = (n, j + 13 + String.length n)).
  { unfold read_name. unfold Str.at_. rewrite Hd13, En, str_app_cons.
    cbn [opt_test]. rewrite Hdq0. rewrite <- En, Hname_run. f_equal.
    unfold Str.slice. rewrite Hd13.
    replace (j + 13 + String.length n - (j + 13)) with (String.length n) by lia.
    apply take_app. }
  rewrite Hrn. rewrite (normalizeTableName_ident n Hword).
  set (p := j + 13 + String.length n).
  assert (Hdp : Str.drop p s = tail).
  { rewrite Es, <- !str_app_assoc. apply drop_app_eq.
    rewrite !str_length_app. unfold p, j. reflexivity. }
  assert (Hp2 : scan_while (fun c => negb (is_lparen c)) s p = p).
  { unfold scan_while. rewrite Hdp. reflexivity. }
  rewrite Hp2.
  replace (String.length s <=? p) with false by (symmetry; apply Nat.leb_gt; unfold p; lia).
  assert (Hat : Str.at_ s p = Some "("%char).
  { unfold Str.at_. rewrite Hdp. reflexivity. }
  rewrite Hat. cbn [opt_test orb negb]. change (is_lparen "(") with true. cbn [negb].
  assert (HdSp : Str.drop (S p) s = String.append b (String ")" rest)).
  { rewrite Es, <- !str_app_assoc.
    change tail with (String.append "(" (String.append b (String ")" rest))).
    rewrite <- str_app_assoc. apply drop_app_eq.
    rewrite !str_length_app. unfold p, j. cbn [String.length]. lia. }
  rewrite HdSp, (body_scan_nested b 0 rest (S p) Hbody).
  assert (Hbody_slice : Str.slice (p + 1) (S p + String.length b + 1 - 1) s = b).
  { unfold Str.slice. replace (p + 1) with (S p) by lia. rewrite HdSp.
    replace (S p + String.length b + 1 - 1 - S p) with (String.length b) by lia.
    apply take_app. }
  rewrite Hbody_slice. f_equal. rewrite create_table_length. unfold p, j. lia.
Qed.

Lemma table_script_length sep l : length l <= String.length (table_script sep l).
Proof.
  induction l as [|[n b] l IH]; [reflexivity|]. cbn [table_script length fst snd].
  rewrite str_length_app, create_table_length, str_length_app. lia.
Qed.

Lemma blocks_loop_script sep : all_chars is_sep_char sep = true ->
  forall l, Forall (fun nb => ident nb.1 = true /\ well_nested true nb.2 0 = true) l ->
  forall pre w fuel out,
    all_chars is_sep_char w = true -> length l < fuel ->
    blocks_loop fuel
      (String.append pre (String.append w (table_script sep l)))
      (Str.toLowerCase (String.append pre (String.append w (table_script sep l))))
      (String.length pre) out
    = Some (out ++ List.map (fun nb => mkBlock nb.1 nb.2) l).
Proof.
  intros Hsep. induction 1 as [|[n b] l [Hn Hb] _ IH]; intros pre w fuel out Hw Hfuel.
  - destruct fuel as [|fuel]; [cbn [length] in Hfuel; lia|].
    cbn [table_script List.map]. rewrite str_app_nil_r, app_nil_r. cbn [blocks_loop].
    destruct w as [|c w].
    + rewrite str_app_nil_r, Nat.ltb_irrefl. reflexivity.
    + assert (Hlt : (String.length pre <? String.length (String.append pre (String c w)))
                    = true)
        by (apply Nat.ltb_lt; rewrite str_length_app; cbn [String.length]; lia).
      rewrite Hlt. cbn [negb].
      assert (Hidx : Str.indexOf createTable
                       (Str.toLowerCase (String.append pre (String c w)))
                       (String.length pre) = None).
      { unfold Str.indexOf, Str.toLowerCase. rewrite map_length.
        replace (String.length (String.append pre (String c w)) <? String.length pre)
          with false by (symmetry; apply Nat.ltb_ge; rewrite str_length_app; lia).
        rewrite map_app.
        rewrite (drop_app_eq (Str.map Chars.to_lower pre)) by (rewrite map_length; reflexivity).
        rewrite <- (str_app_nil_r (Str.map Chars.to_lower (String c w))).
        unfold createTable. rewrite indexOf_from_skip; [reflexivity|].
        clear -Hw. induction (String c w) as [|x y IH]; [reflexivity|].
        cbn [all_chars Str.map] in *. apply andb_true_iff in Hw. destruct Hw as [Hc Hw].
        destruct (sep_char_lower x Hc) as [-> _]. cbn [negb andb]. apply IH, Hw. }
      rewrite Hidx. reflexivity.
  - destruct fuel as [|fuel]; [cbn [length] in Hfuel; lia|]. cbn [length] in Hfuel.
    cbn [table_script fst snd List.map].
    pose proof (blocks_loop_step pre w n b (String.append sep (table_script sep l))
                  fuel out Hn Hb Hw) as Hstep.
    cbn zeta in Hstep. rewrite Hstep. clear Hstep.
    specialize (IH (String.append pre (String.append w (create_table n b))) sep fuel
                  (out ++ [mkBlock n b]) Hsep ltac:(lia)).
    rewrite !str_length_app in IH. rewrite Nat.add_assoc in IH.
    rewrite !str_app_assoc in IH. rewrite IH, <- app_assoc. reflexivity.
Qed.

Lemma parseCreateTableBlocks_blocks (sep : string) (l : list (string * string)) :
  all_chars is_sep_char sep = true ->
  Forall (fun nb => ident nb.1 = true /\ well_nested true nb.2 0 = true) l ->
  parseCreateTableBlocks (table_script sep l)
    = Some (List.map (fun nb => mkBlock nb.1 nb.2) l).
Proof.
  intros Hsep Hl. unfold parseCreateTableBlocks.
  pose proof (blocks_loop_script sep Hsep l Hl "" "" (S (String.length (table_script sep l)))
                [] eq_refl) as H.
  rewrite !str_app_nil_l in H. apply H.
  pose proof (table_script_length sep l). lia.
Qed.

(** X20. In a script of statements [create table name(body)], each followed
    by white space and semicolons, [parseCreateTableBlocks] finds the
    statements: one block per statement, in the order of the script, with
    the name and exactly the body of the statement. The script is a
    [string], that is, made of code units below 256: on these [toLowerCase]
    keeps every character at its position, which the scan relies on when it
    reads the text at the positions found in its lower-case copy. *)
Theorem parseCreateTableBlocks_script (sep : string) (l : list (string * string)) :
  all_chars is_sep_char sep = true ->
  Forall (fun nb => ident nb.1 = true /\ well_nested true nb.2 0 = true) l ->
  parseCreateTableBlocks (table_script sep l)
    = Some (List.map (fun nb => mkBlock nb.1 nb.2) l).
Proof. apply parseCreateTableBlocks_blocks. Qed.

Lemma parseCreateTableBlocks_script_witness :
  parseCreateTableBlocks
    "create table a(id int, price numeric(10,2)); create table b(id int); "
  = Some [mkBlock "a" "id int, price numeric(10,2)"; mkBlock "b" "id int"].
Proof.
  apply (parseCreateTableBlocks_script "; "
           [("a", "id int, price numeric(10,2)"); ("b", "id int")]);
    [reflexivity|repeat constructor].
Defined.

Lemma table_ok_inv nc :
  table_ok nc = true -> ident nc.1 = true /\ Forall (fun ct => column_ok ct = true) nc.2.
Proof.
  unfold table_ok. rewrite andb_true_iff, forallb_forall, Forall_forall.
  intros [H1 H2]. split; [exact H1|]. intros x Hx. apply H2.
  apply list_elem_of_In. exact Hx.
Qed.

Lemma processBlock_columns es w st nc :
  all_chars Chars.is_space w = true -> table_ok nc = true ->
  exists t,
    processBlock es st (mkBlock (table_text w nc).1 (table_text w nc).2)
      = Some (mkPState (p_tables st ++ [t]) (p_relations st)
                (<[nc.1 := length (p_tables st)]> (p_tableByName st)) (p_pkByTable st)) /\
    table_facts t = stated_facts nc.
Proof.
  intros Hw Hok. destruct (table_ok_inv _ Hok) as [Hname Hcols].
  destruct nc as [n cols]. cbn [fst snd table_text] in *.
  unfold processBlock. cbn [b_name b_body].
  rewrite splitTopLevelComma_join_items; [|exact Hw|].
  2:{ clear -Hcols. induction Hcols as [|ct cols H _ IH]; cbn [List.map]; constructor;
        [apply column_item_ok, H|exact IH]. }
  destruct (foldlM_columns es n cols (mkAcc [] (p_relations st) (p_pkByTable st)) Hcols)
    as (cs & E & Hcs).
  rewrite E. cbn [mbind option_bind a_columns a_relations a_pkByTable app].
  eexists. split; [reflexivity|].
  unfold table_facts, stated_facts. cbn [t_name columns fst snd]. rewrite Hcs. reflexivity.
Qed.

Lemma foldlM_blocks es w : all_chars Chars.is_space w = true ->
  forall ts st, Forall (fun nc => table_ok nc = true) ts ->
  exists st',
    foldlM (processBlock es) st
      (List.map (fun nb => mkBlock nb.1 nb.2) (List.map (table_text w) ts)) = Some st' /\
    p_relations st' = p_relations st /\
    exists tabs, p_tables st' = p_tables st ++ tabs /\
                 List.map table_facts tabs = List.map stated_facts ts.
Proof.
  intros Hw. induction ts as [|nc ts IH]; intros st Hok.
  - exists st. split; [reflexivity|]. split; [reflexivity|]. exists [].
    rewrite app_nil_r. split; reflexivity.
  - inversion Hok as [|? ? H1 H2]; subst.
    destruct (processBlock_columns es w st nc Hw H1) as (t & E & Ht).
    cbn [List.map foldlM]. rewrite E. cbn [mbind option_bind].
    match goal with |- context [foldlM _ ?st1 _] =>
      destruct (IH st1 H2) as (st' & E' & Hr & tabs & Htabs & Hfacts) end.
    exists st'. split; [exact E'|]. split; [exact Hr|].
    exists (t :: tabs). cbn [p_tables] in Htabs. rewrite Htabs, <- app_assoc.
    split; [reflexivity|]. cbn [List.map]. rewrite Ht, Hfacts. reflexivity.
Qed.

Lemma table_script_chars (p : ascii -> bool) sep : all_chars p sep = true ->
  forall l, Forall (fun nb => all_chars p (create_table nb.1 nb.2) = true) l ->
  all_chars p (table_script sep l) = true.
Proof.
  intros Hsep. induction 1 as [|nb l H _ IH]; [reflexivity|].
  cbn [table_script]. rewrite !all_chars_app, H, Hsep, IH. reflexivity.
Qed.

Lemma script_char_cases c :
  (is_statement_char c = true -> is_script_char c = true) /\
  (is_sep_char c = true -> is_script_char c = true).
Proof.
  unfold is_script_char, is_sep_char, is_statement_char. split; intros H.
  - rewrite H. reflexivity.
  - apply orb_true_iff in H. destruct H as [-> | ->];
      [destruct (Chars.is_word c); reflexivity|apply orb_true_r].
Qed.

(** X21. A script of table definitions [create table name(c1 t1, c2 t2, ...)],
    each followed by white space and semicolons, gives exactly the tables
    of the script, in its order: each with its name and one column per item
    in the order of the text, named as written, neither primary key nor
    not-null nor foreign key; and no relation. The names and types are
    words, and no item is one of the clauses the extractor ignores. *)
Theorem schema_script_tables (sep w : string) (ts : list (string * list (string * string))) :
  all_chars is_sep_char sep = true -> all_chars Chars.is_space w = true ->
  Forall (fun nc => table_ok nc = true) ts ->
  exists g, parseSqlToGraph (schema_script sep w ts) = Some g /\
    List.map table_facts (tables g) = List.map stated_facts ts /\
    relations g = [].
Proof.
  intros Hsep Hw Hts. unfold parseSqlToGraph, capture.
  set (sql := schema_script sep w ts).
  assert (Hstmt : Forall (fun nb => ident nb.1 = true /\
                            all_chars is_script_char (create_table nb.1 nb.2) = true /\
                            well_nested true nb.2 0 = true)
                    (List.map (table_text w) ts)).
  { clear -Hw Hts. induction Hts as [|nc ts H _ IH]; cbn [List.map]; constructor;
      [|exact IH].
    destruct (table_ok_inv _ H) as [Hn Hcols]. cbn [table_text fst snd].
    split; [exact Hn|].
    destruct (table_statement_chars is_script_char nc.1 w nc.2
                (fun x => proj1 (script_char_cases x)) Hn Hw Hcols) as [_ Hall].
    split; [exact Hall|].
    rewrite <- (str_app_nil_r (join_items _ _)). rewrite plain_nested; [reflexivity|].
    apply join_items_chars; [reflexivity| |].
    - revert Hw. apply all_chars_impl. intros x Hx. rewrite (space_plain x Hx). reflexivity.
    - apply columns_chars; [|reflexivity|exact Hcols].
      intros x Hx. rewrite (item_char_plain x (word_item_char x Hx)). reflexivity. }
  assert (Hchars : forall a needle, is_script_char a = false ->
            occurs (String a needle) sql = false).
  { intros a needle Ha. apply (all_chars_occurs is_script_char); [exact Ha|].
    apply table_script_chars.
    - revert Hsep. apply all_chars_impl. intros x. apply script_char_cases.
    - eapply Forall_impl; [exact Hstmt|]. cbn beta. tauto. }
  rewrite stripComments_id by (apply Hchars; reflexivity).
  destruct (parseEnumTypes_total sql) as [enums ->]. cbn [mbind option_bind].
  destruct (parseIndexes_total sql) as [ixs ->]. cbn [mbind option_bind].
  unfold collect, sql, schema_script.
  rewrite (parseCreateTableBlocks_blocks sep _ Hsep)
    by (eapply Forall_impl; [exact Hstmt|]; cbn beta; tauto).
  cbn [mbind option_bind].
  destruct (foldlM_blocks (list_to_set (List.map en_name enums)) w Hw ts initPState Hts)
    as (st' & -> & Hrel & tabs & Htabs & Hfacts).
  cbn [mbind option_bind fmap option_fmap option_map].
  eexists. split; [reflexivity|].
  unfold assemble. cbn [cp_state cp_indexes cp_enums tables relations].
  cbn [initPState p_relations p_tables app] in Hrel, Htabs. rewrite Hrel, Htabs.
  unfold resolveRelations. cbn [List.map List.filter foldl]. split; [|reflexivity].
  pose proof (foldl_attachIndex_fmap table_facts (p_tableByName st')
                (fun _ _ => eq_refl) ixs tabs) as H.
  change (@fmap list _ _ _ ?f ?l) with (List.map f l) in H. rewrite H. exact Hfacts.
Qed.

Lemma schema_script_tables_witness :
  exists g,
    parseSqlToGraph "create table a(id bigint, name text); create table b(id bigint); "
      = Some g /\
    List.map table_facts (tables g)
      = [("a", [("id", "bigint", false, Some false, None, None);
                ("name", "text", false, Some false, None, None)]);
         ("b", [("id", "bigint", false, Some false, None, None)])] /\
    relations g = [].
Proof.
  apply (schema_script_tables "; " " "
           [("a", [("id", "bigint"); ("name", "text")]); ("b", [("id", "bigint")])]);
    [reflexivity|reflexivity|repeat constructor].
Defined.

(** *** About an index statement *)

Lemma indexRe_unfold :
  indexRe = RSeq (lit_i "create")
              (RSeq (rplus ws)
                 (RSeq (ROpt (RGroup 1 (RSeq (lit_i "unique") (rplus ws)))) indexRe_tail)).
Proof. reflexivity. Qed.

(** An optional part that does not match is passed over. *)
Lemma rmatch_opt_none ml a st k :
  (forall k', rmatch ml a (clear_groups (groups_of a) st) k' = None) ->
  rmatch ml (ROpt a) st k = k st.
Proof. intros H. rewrite rmatch_opt, H. reflexivity. Qed.

(** A keyword does not match where its first letter is not. *)
Lemma rmatch_lit_i_head ml w0 w1 w' st k :
  match m_rest st with
  | String c _ => Chars.eq_ci w0 c = false
  | EmptyString => True
  end ->
  rmatch ml (lit_i (String w0 (String w1 w'))) st k = None.
Proof.
  intros H. change (lit_i (String w0 (String w1 w')))
    with (RSeq (RChar (Chars.eq_ci w0)) (lit_i (String w1 w'))).
  rewrite rmatch_seq, rmatch_char. destruct (m_rest st) as [|c r]; [reflexivity|].
  rewrite H. reflexivity.
Qed.

Lemma word_name_char c :
  Chars.is_word c = true ->
  negb (is_dquote c || Chars.is_space c || Ascii.eqb c ";") = true.
Proof.
  destruct c as [b0 b1 b2 b3 b4 b5 b6 b7].
  destruct b0, b1, b2, b3, b4, b5, b6, b7; vm_compute; intros H;
    first [discriminate H | reflexivity].
Qed.

Lemma match_indexRe_tail n t e pos prev caps :
  ident n = true -> ident t = true -> all_chars not_rparen e = true ->
  exists st,
    rmatch false indexRe_tail
      (MState pos prev
         (String.append "index "
            (String.append n
               (String.append " on "
                  (String.append t (String.append " (" (String.append e ")"))))))
         caps) Some = Some st /\
    m_pos st = pos + 6 + String.length n + 4 + String.length t + 2 + String.length e + 1 /\
    m_caps st =
      (5, (pos + 6 + String.length n + 4 + String.length t + 2,
           pos + 6 + String.length n + 4 + String.length t + 2 + String.length e))
      :: (3, (pos + 6 + String.length n + 4,
              pos + 6 + String.length n + 4 + String.length t))
      :: (2, (pos + 6, pos + 6 + String.length n)) :: caps.
Proof.
  intros Hn Ht He.
  destruct (ident_inv _ Hn) as (n0 & n' & -> & Hn0 & Hnw).
  destruct (ident_inv _ Ht) as (t0 & t' & -> & Ht0 & Htw).
  pose proof (all_chars_tail _ _ _ Hnw) as Hnw'.
  pose proof (all_chars_tail _ _ _ Htw) as Htw'.
  unfold indexRe_tail. cbn [rseq].
  change (String.append "index " ?x) with (String.append "index" (String " " x)).
  rewrite rmatch_seq. apply (rmatch_lit_i_self false _ _ "index"); [reflexivity|]. intros p1.
  rewrite rmatch_seq, str_app_cons.
  apply one_space_run; [apply is_word_other in Hn0; tauto|]. intros p2.
  rewrite rmatch_seq, rmatch_group, rmatch_seq. unfold dq at 1, chr. cbn [m_pos].
  rewrite rmatch_opt_char_skip by (cbn [m_rest]; apply word_not_dquote, Hn0).
  rewrite rmatch_seq.
  change (String.append " on " ?x)
    with (String " " (String.append "on" (String " " x))).
  apply (rmatch_plus_char_run false _ _ _ n0 n');
    [apply word_name_char, Hn0| |reflexivity|].
  { revert Hnw'. apply all_chars_impl, word_name_char. }
  intros p3. unfold dq at 1, chr. rewrite rmatch_opt_char_skip by reflexivity.
  unfold set_cap at 1. cbn [m_pos m_prev m_rest m_caps].
  rewrite rmatch_seq. apply one_space_run; [reflexivity|]. intros p4.
  rewrite rmatch_seq. apply (rmatch_lit_i_self false _ _ "on"); [reflexivity|]. intros p5.
  rewrite rmatch_seq, str_app_cons.
  apply one_space_run; [apply is_word_other in Ht0; tauto|]. intros p6.
  rewrite rmatch_seq, rmatch_group. unfold qname. cbn [rseq].
  rewrite rmatch_seq. unfold dq at 1, chr. cbn [m_pos].
  rewrite rmatch_opt_char_skip by (cbn [m_rest]; apply word_not_dquote, Ht0).
  rewrite rmatch_seq. unfold word_or_dot.
  change (String.append " (" ?x) with (String.append " " (String "(" x)).
  apply (rmatch_plus_char_run false _ _ _ t0 t'); [rewrite Ht0; reflexivity| |reflexivity|].
  { revert Htw'. apply all_chars_impl. intros x ->. reflexivity. }
  intros p7. unfold dq at 1, chr. rewrite rmatch_opt_char_skip by reflexivity.
  unfold set_cap at 1. cbn [m_pos m_prev m_rest m_caps].
  rewrite rmatch_seq. unfold rstar at 1, ws. rewrite rmatch_star. cbn [m_rest groups_of].
  apply (star_char_greedy_run false Chars.is_space _ _ (String "(" (String.append e ")")) " ");
    [reflexivity|reflexivity|rewrite str_length_app; cbn [String.length]; lia|].
  intros p8. rewrite rmatch_seq.
  rewrite rmatch_opt_none.
  2:{ intros k'. cbn [rseq]. rewrite rmatch_seq. apply rmatch_lit_i_head. reflexivity. }
  rewrite rmatch_seq. change (lit "(") with (chr "("). unfold chr at 1.
  rewrite rmatch_char. cbn [m_rest m_pos m_caps]. change (Ascii.eqb "(" "(") with true.
  cbn iota. rewrite rmatch_seq, rmatch_group, rmatch_star. cbn [m_rest m_pos].
  change (groups_of any) with (@nil nat).
  apply (star_lazy_until false is_rparen).
  - intros st Hst. unfold set_cap. rewrite rmatch_seq. change (lit ")") with (chr ")").
    unfold chr at 1. rewrite rmatch_char. cbn [m_rest].
    destruct (m_rest st) as [|c r]; [reflexivity|].
    unfold is_rparen in Hst. rewrite Ascii.eqb_sym, Hst. reflexivity.
  - exact He.
  - rewrite str_length_app. lia.
  - intros p9. unfold set_cap. cbn [m_pos m_prev m_rest m_caps].
    rewrite rmatch_seq. change (lit ")") with (chr ")"). unfold chr at 1.
    rewrite rmatch_char. cbn [m_rest m_pos m_caps]. change (Ascii.eqb ")" ")") with true.
    cbn iota. rewrite rmatch_seq. unfold rstar. rewrite rmatch_star.
    rewrite star_char_zero by exact I.
    rewrite rmatch_seq, rmatch_opt_none.
    2:{ intros k'. cbn [rseq]. rewrite rmatch_seq. apply rmatch_lit_i_head. exact I. }
    rewrite rmatch_seq, rmatch_opt_none.
    2:{ intros k'. cbn [rseq]. rewrite rmatch_seq. apply rmatch_lit_i_head. exact I. }
    change (lit ";") with (RChar (Ascii.eqb ";")).
    rewrite rmatch_opt_char_skip by exact I.
    eexists. split; [reflexivity|]. cbn [m_pos m_caps String.length].
    split; [lia|]. repeat f_equal; lia.
Qed.

Lemma match_indexRe (unique : bool) n t e :
  ident n = true -> ident t = true -> all_chars not_rparen e = true ->
  let u := if unique then 7 else 0 in
  exists st,
    match_at false indexRe 0 None (index_statement unique n t e) = Some st /\
    m_pos st = String.length (index_statement unique n t e) /\
    m_caps st =
      (5, (7 + u + 6 + String.length n + 4 + String.length t + 2,
           7 + u + 6 + String.length n + 4 + String.length t + 2 + String.length e))
      :: (3, (7 + u + 6 + String.length n + 4,
              7 + u + 6 + String.length n + 4 + String.length t))
      :: (2, (7 + u + 6, 7 + u + 6 + String.length n))
      :: (if unique then [(1, (7, 14))] else []).
Proof.
  intros Hn Ht He u. unfold match_at. rewrite indexRe_unfold.
  unfold index_statement.
  assert (Hlen : forall a, String.length
            (String.append "create "
               (String.append a
                  (String.append "index "
                     (String.append n
                        (String.append " on "
                           (String.append t (String.append " (" (String.append e ")"))))))))
            = 7 + String.length a + 6 + String.length n + 4 + String.length t + 2
              + String.length e + 1).
  { intros a. repeat first [rewrite str_length_app | progress cbn [String.length]]. lia. }
  rewrite Hlen.
  change (String.append "create " ?x) with (String.append "create" (String " " x)).
  rewrite rmatch_seq. apply (rmatch_lit_i_self false _ _ "create"); [reflexivity|].
  intros p1. rewrite rmatch_seq. destruct unique; subst u.
  - change (String.append "unique " ?x) with (String.append "unique" (String " " x)).
    rewrite str_app_cons.
    apply one_space_run; [reflexivity|]. intros p2.
    rewrite rmatch_seq, rmatch_opt, rmatch_group, rmatch_seq.
    cbn [groups_of app clear_groups m_pos m_prev m_rest m_caps List.filter].
    change (String "u" (String.append "nique" ?x)) with (String.append "unique" x).
    match goal with |- exists x, orelse ?A ?B = Some x /\ _ =>
      assert (HA : exists x, A = Some x /\
                (m_pos x = 7 + 7 + 6 + String.length n + 4 + String.length t + 2
                           + String.length e + 1 /\
                 m_caps x =
                   (5, (7 + 7 + 6 + String.length n + 4 + String.length t + 2,
                        7 + 7 + 6 + String.length n + 4 + String.length t + 2
                        + String.length e))
                   :: (3, (7 + 7 + 6 + String.length n + 4,
                           7 + 7 + 6 + String.length n + 4 + String.length t))
                   :: (2, (7 + 7 + 6, 7 + 7 + 6 + String.length n)) :: [(1, (7, 14))]))
    end.
    { apply (rmatch_lit_i_self false _ _ "unique"); [reflexivity|]. intros p3.
      apply one_space_run; [reflexivity|]. intros p4.
      unfold set_cap. cbn [m_pos m_prev m_rest m_caps String.length Nat.add].
      assert (Hlt : (7 <? 14) = true) by reflexivity. rewrite Hlt.
      destruct (match_indexRe_tail n t e 14 p4 [(1, (7, 14))] Hn Ht He)
        as (st & Hm & Hpos & Hcaps).
      exists st. split; [exact Hm|]. split; [rewrite Hpos; lia|].
      rewrite Hcaps. repeat f_equal; lia. }
    destruct HA as (x & -> & HP). exists x. split; [reflexivity|].
    cbn [String.length]. exact HP.
  - rewrite str_app_nil_l.
    change (String.append "index " ?x) with (String "i" (String.append "ndex " x)).
    apply one_space_run; [reflexivity|]. intros p2.
    rewrite rmatch_seq, rmatch_opt_none.
    2:{ intros k'. rewrite rmatch_group, rmatch_seq. apply rmatch_lit_i_head. reflexivity. }
    change (String "i" (String.append "ndex " ?x)) with (String.append "index " x).
    cbn [String.length Nat.add].
    destruct (match_indexRe_tail n t e 7 p2 [] Hn Ht He) as (st & Hm & Hpos & Hcaps).
    exists st. split; [exact Hm|]. split; [rewrite Hpos; lia|].
    rewrite Hcaps. repeat f_equal; lia.
Qed.

Lemma slice_eq s a b c p q :
  s = String.append a (String.append b c) -> p = String.length a ->
  q = p + String.length b -> Str.slice p q s = b.
Proof. intros -> -> ->. apply slice_app. Qed.

(** X27. The statement [create index name on table (expression)], with or
    without [unique], gives exactly one index with that name, table and
    uniqueness, the expression with its white space normalized, and no
    method, include or where part: for a name and a table of word
    characters and an expression without a closing parenthesis. *)
Theorem parseIndexes_statement (unique : bool) (n t e : string) :
  ident n = true -> ident t = true -> all_chars not_rparen e = true ->
  parseIndexes (index_statement unique n t e)
    = Some [mkIndex n t unique None (normalizeWs e) None None].
Proof.
  intros Hn Ht He. unfold parseIndexes, exec_all.
  destruct (match_indexRe unique n t e Hn Ht He) as (st & Hm & Hpos & Hcaps).
  set (sql := index_statement unique n t e) in *.
  assert (Hs : exists c rest, sql = String c rest) by (unfold sql, index_statement; eauto).
  destruct Hs as (c & rest & Hs).
  assert (Hloop : exec_loop false indexRe 0 None sql 0 = Some [result_of 0 st]).
  { rewrite Hs in *. cbn [exec_loop]. rewrite Hm, Hpos. cbn [String.length Nat.leb].
    replace (S (String.length rest) - 0 - 1) with (String.length rest) by lia.
    destruct (exec_loop_skip false indexRe rest 1 (Some c) "") as (prev' & [E|[_ E]]);
      rewrite str_app_nil_r in E; rewrite E; reflexivity. }
  rewrite Hloop. cbn [mbind option_bind mapM]. clear Hloop Hs Hm Hpos c rest.
  set (A := String.append "create " (String.append (if unique then "unique " else "") "index ")).
  assert (HA : String.length A = 7 + (if unique then 7 else 0) + 6)
    by (unfold A; destruct unique; reflexivity).
  assert (Es : sql = String.append A
                 (String.append n
                    (String.append " on "
                       (String.append t (String.append " (" (String.append e ")")))))).
  { unfold sql, index_statement, A. destruct unique; reflexivity. }
  assert (E2 : Str.slice (7 + (if unique then 7 else 0) + 6)
                 (7 + (if unique then 7 else 0) + 6 + String.length n) sql = n).
  { eapply slice_eq; [exact Es|rewrite HA; reflexivity|reflexivity]. }
  assert (E3 : Str.slice (7 + (if unique then 7 else 0) + 6 + String.length n + 4)
                 (7 + (if unique then 7 else 0) + 6 + String.length n + 4 + String.length t)
                 sql = t).
  { eapply (slice_eq sql (String.append A (String.append n " on ")) t).
    - rewrite Es, !str_app_assoc. reflexivity.
    - rewrite !str_length_app, HA. cbn [String.length]. lia.
    - reflexivity. }
  assert (E5 : Str.slice
                 (7 + (if unique then 7 else 0) + 6 + String.length n + 4
                  + String.length t + 2)
                 (7 + (if unique then 7 else 0) + 6 + String.length n + 4
                  + String.length t + 2 + String.length e)
                 sql = e).
  { eapply (slice_eq sql
              (String.append A (String.append n (String.append " on " (String.append t " ("))))
              e).
    - rewrite Es, !str_app_assoc. reflexivity.
    - rewrite !str_length_app, HA. cbn [String.length]. lia.
    - reflexivity. }
  destruct (ident_inv _ Hn) as (_ & _ & _ & _ & Hnw).
  destruct (ident_inv _ Ht) as (_ & _ & _ & _ & Htw).
  unfold parseIndex, group. cbn [result_of mr_caps]. rewrite Hcaps.
  assert (E1 : match find_cap 1 (if unique then [(1, (7, 14))] else []) with
               | Some (a, b) => Some (Str.slice a b sql)
               | None => None
               end = if unique then Some "unique " else None).
  { unfold sql, index_statement. destruct unique; reflexivity. }
  cbn [find_cap Nat.eqb]. rewrite E1, E2, E3, E5.
  cbn [mbind option_bind fmap option_fmap option_map if_truthy].
  rewrite (unquoteIdent_ident n Hnw), (normalizeTableName_ident t Htw).
  destruct unique; reflexivity.
Qed.

Lemma parseIndexes_statement_witness :
  parseIndexes "create unique index idx_a on company (name,  id)"
    = Some [mkIndex "idx_a" "company" true None "name, id" None None].
Proof.
  apply (parseIndexes_statement true "idx_a" "company" "name,  id"); reflexivity.
Defined.

(** *** About comments *)

Lemma line_pass_id s : occurs "--" s = false -> replace_all true lineCommentRe "" s = s.
Proof.
  intros H. unfold replace_all.
  apply (replace_loop_none true lineCommentRe "" (fun x => occurs "--" x = false));
    [intros c x; apply occurs_tail| |exact H].
  intros pos prev rest Hr. unfold match_at, lineCommentRe.
  change (rseq [lit "--"; rstar dot; REol]) with (RSeq (lit "--") (RSeq (rstar dot) REol)).
  rewrite rmatch_seq. apply rmatch_lit_none; [discriminate|]. apply occurs_prefix, Hr.
Qed.

Lemma block_pass_loop s pos prev :
  occurs "/*" s = false -> replace_loop false blockCommentRe "" pos prev s 0 = s.
Proof.
  intros H.
  apply (replace_loop_none false blockCommentRe "" (fun x => occurs "/*" x = false));
    [intros c x; apply occurs_tail| |exact H].
  intros pos0 prev0 rest Hr. unfold match_at, blockCommentRe.
  change (rseq [lit "/*"; RStar false any; lit "*/"])
    with (RSeq (lit "/*") (RSeq (RStar false any) (lit "*/"))).
  rewrite rmatch_seq. apply rmatch_lit_none; [discriminate|]. apply occurs_prefix, Hr.
Qed.

Lemma line_pass_loop s pos prev :
  occurs "--" s = false -> replace_loop true lineCommentRe "" pos prev s 0 = s.
Proof.
  intros H.
  apply (replace_loop_none true lineCommentRe "" (fun x => occurs "--" x = false));
    [intros c x; apply occurs_tail| |exact H].
  intros pos0 prev0 rest Hr. unfold match_at, lineCommentRe.
  change (rseq [lit "--"; rstar dot; REol]) with (RSeq (lit "--") (RSeq (rstar dot) REol)).
  rewrite rmatch_seq. apply rmatch_lit_none; [discriminate|]. apply occurs_prefix, Hr.
Qed.

(** A match is replaced and its characters are skipped. *)
Lemma replace_loop_match ml r repl pos prev c rest st :
  match_at ml r pos prev (String c rest) = Some st -> (m_pos st <=? pos) = false ->
  replace_loop ml r repl pos prev (String c rest) 0
  = String.append repl
      (replace_loop ml r repl (S pos) (Some c) rest (m_pos st - pos - 1)).
Proof.
  intros H1 H2.
  change (replace_loop ml r repl pos prev (String c rest) 0)
    with (match match_at ml r pos prev (String c rest) with
          | Some st =>
              String.append repl
                (if m_pos st <=? pos
                 then String c (replace_loop ml r repl (S pos) (Some c) rest 0)
                 else replace_loop ml r repl (S pos) (Some c) rest (m_pos st - pos - 1))
          | None => String c (replace_loop ml r repl (S pos) (Some c) rest 0)
          end).
  rewrite H1, H2. reflexivity.
Qed.

(** The characters of a match are skipped. *)
Lemma replace_loop_skip ml r repl : forall a pos prev rest,
  exists prev',
    replace_loop ml r repl pos prev (String.append a rest) (String.length a)
    = replace_loop ml r repl (pos + String.length a) prev' rest 0.
Proof.
  induction a as [|c a IH]; intros pos prev rest.
  - exists prev. rewrite str_app_nil_l. cbn [String.length]. rewrite Nat.add_0_r.
    reflexivity.
  - rewrite str_app_cons. cbn [String.length replace_loop].
    destruct (IH (S pos) (Some c) rest) as (prev' & H). exists prev'.
    replace (pos + S (String.length a)) with (S pos + String.length a) by lia. exact H.
Qed.

(** The text before the first match is copied. *)
Lemma replace_loop_pass ml r repl (p : ascii -> bool) :
  (forall pos prev c x, p c = true -> match_at ml r pos prev (String c x) = None) ->
  forall a pos prev rest, all_chars p a = true ->
  exists prev',
    replace_loop ml r repl pos prev (String.append a rest) 0
    = String.append a (replace_loop ml r repl (pos + String.length a) prev' rest 0).
Proof.
  intros Hm. induction a as [|c a IH]; intros pos prev rest Ha.
  - exists prev. rewrite !str_app_nil_l. cbn [String.length]. rewrite Nat.add_0_r.
    reflexivity.
  - cbn [all_chars] in Ha. apply andb_true_iff in Ha. destruct Ha as [Hc Ha].
    rewrite !str_app_cons. cbn [replace_loop]. rewrite (Hm _ _ _ _ Hc).
    destruct (IH (S pos) (Some c) rest Ha) as (prev' & E). exists prev'. rewrite E.
    cbn [String.length]. replace (pos + S (String.length a)) with (S pos + String.length a)
      by lia. reflexivity.
Qed.

Lemma no_char_occurs a b s :
  all_chars (fun c => negb (Ascii.eqb c a)) s = true -> occurs (String a b) s = false.
Proof.
  intros H. apply (all_chars_occurs (fun c => negb (Ascii.eqb c a))); [|exact H].
  rewrite Ascii.eqb_refl. reflexivity.
Qed.

Lemma match_lineComment c b pos prev :
  all_chars (fun x => negb (Chars.is_line_terminator x)) c = true -> line_end b = true ->
  exists st,
    match_at true lineCommentRe pos prev (String "-" (String "-" (String.append c b)))
      = Some st /\ m_pos st = pos + 2 + String.length c.
Proof.
  intros Hc Hb. unfold match_at, lineCommentRe. cbn [rseq].
  change (lit "--") with (RSeq (chr "-") (chr "-")). unfold chr.
  rewrite !rmatch_seq, rmatch_char. cbn [m_rest m_pos m_caps].
  change (Ascii.eqb "-" "-") with true. cbn iota. rewrite rmatch_char.
  cbn [m_rest m_pos m_caps]. change (Ascii.eqb "-" "-") with true. cbn iota.
  rewrite ?rmatch_seq. unfold rstar, dot. rewrite rmatch_star. cbn [m_rest groups_of].
  apply (star_char_greedy_run true _ _ _ b c).
  - destruct b as [|x b]; [exact I|]. cbn [line_end] in Hb. rewrite Hb. reflexivity.
  - exact Hc.
  - rewrite str_length_app. lia.
  - intros p1. rewrite rmatch_eol. unfold at_eol, next_char. cbn [m_rest].
    destruct b as [|x b].
    + eexists. split; [reflexivity|]. cbn [m_pos]. lia.
    + cbn [line_end] in Hb. rewrite Hb. cbn [andb].
      eexists. split; [reflexivity|]. cbn [m_pos]. lia.
Qed.

(** X28. A line comment is removed up to the end of its line, whatever it
    contains: for a text before it without a dash, a rest of the line [c],
    and a text [b] after the line without a dash, with no slash-star
    around. *)
Theorem stripComments_line_comment (a c b : string) :
  all_chars not_dash a = true ->
  all_chars (fun x => negb (Chars.is_line_terminator x)) c = true ->
  line_end b = true -> all_chars not_dash b = true ->
  occurs "/*" (String.append a b) = false ->
  stripComments (String.append a (String.append "--" (String.append c b)))
    = String.append a b.
Proof.
  intros Ha Hc Hb Hb' Hblock. unfold stripComments.
  assert (E : replace_all true lineCommentRe ""
                (String.append a (String.append "--" (String.append c b)))
              = String.append a b).
  { unfold replace_all.
    destruct (replace_loop_pass true lineCommentRe "" not_dash) with
      (a := a) (pos := 0) (prev := @None ascii)
      (rest := String.append "--" (String.append c b)) as (p1 & E1); [|exact Ha|].
    { intros pos prev x y Hx. unfold match_at, lineCommentRe. cbn [rseq].
      rewrite rmatch_seq. apply rmatch_lit_none; [discriminate|].
      cbn [m_rest Str.is_prefix]. unfold not_dash in Hx. apply negb_true_iff in Hx.
      rewrite Ascii.eqb_sym, Hx. reflexivity. }
    rewrite E1. f_equal. clear E1. cbn [Nat.add].
    change (String.append "--" (String.append c b))
      with (String "-" (String "-" (String.append c b))).
    destruct (match_lineComment c b (String.length a) p1 Hc Hb) as (st & Hm & Hpos).
    rewrite (replace_loop_match _ _ _ _ _ _ _ st Hm)
      by (rewrite Hpos; apply Nat.leb_gt; lia).
    rewrite Hpos.
    replace (String.length a + 2 + String.length c - String.length a - 1)
      with (String.length (String "-" c)) by (cbn [String.length]; lia).
    rewrite str_app_nil_l. rewrite <- str_app_cons.
    destruct (replace_loop_skip true lineCommentRe "" (String "-" c)
                (S (String.length a)) (Some "-"%char) b) as (p2 & E2).
    rewrite E2. apply line_pass_loop, no_char_occurs. exact Hb'. }
  rewrite E. unfold replace_all. apply block_pass_loop, Hblock.
Qed.

Lemma stripComments_line_comment_witness :
  stripComments "create table a(id int) -- the /* first */ table"
    = "create table a(id int) ".
Proof.
  apply (stripComments_line_comment "create table a(id int) " " the /* first */ table" "");
    reflexivity.
Defined.

(** A lazy star over any character stops at the first place where what
    follows matches. *)
Lemma star_lazy_scan ml k (P : mstate -> Prop) caps rest : forall run n pos prev,
  (forall pre suf, run = String.append pre suf -> suf <> ""%string ->
     forall pos prev, k (MState pos prev (String.append suf rest) caps) = None) ->
  String.length run <= n ->
  (forall prev', exists x,
      k (MState (pos + String.length run) prev' rest caps) = Some x /\ P x) ->
  exists x,
    star_loop (rmatch ml any) [] false k n
      (MState pos prev (String.append run rest) caps) = Some x /\ P x.
Proof.
  induction run as [|c run IH]; intros n pos prev Hnone Hn Hk.
  - rewrite str_app_nil_l. cbn [String.length] in Hk. rewrite Nat.add_0_r in Hk.
    destruct (Hk prev) as (x & Hx & HP). exists x. split; [|exact HP].
    destruct n as [|n]; [exact Hx|]. rewrite star_loop_S, Hx. reflexivity.
  - destruct n as [|n]; [cbn [String.length] in Hn; lia|]. cbn [String.length] in Hn.
    rewrite star_loop_S, clear_groups_nil.
    rewrite (Hnone "" (String c run) eq_refl ltac:(discriminate) pos prev).
    cbn [orelse]. rewrite str_app_cons. unfold any. rewrite rmatch_char.
    cbn [m_rest m_pos m_caps].
    assert (Hlt : (pos <? S pos) = true) by (apply Nat.ltb_lt; lia). rewrite Hlt.
    apply IH; [|lia|].
    + intros pre suf E Hsuf pos0 prev0.
      apply (Hnone (String c pre) suf); [rewrite E; reflexivity|exact Hsuf].
    + intros prev'. cbn [String.length] in Hk.
      replace (S pos + String.length run) with (pos + S (String.length run)) by lia.
      apply Hk.
Qed.

Lemma occurs_app_r needle pre suf :
  occurs needle (String.append pre suf) = false -> occurs needle suf = false.
Proof.
  induction pre as [|c pre IH]; [rewrite str_app_nil_l; exact (fun H => H)|].
  rewrite str_app_cons. intros H. apply IH. eapply occurs_tail, H.
Qed.

Lemma close_not_before c b pre suf :
  occurs "*/" c = false -> c = String.append pre suf -> suf <> ""%string ->
  Str.is_prefix "*/" (String.append suf (String.append "*/" b)) = false.
Proof.
  intros Hc -> Hsuf. apply occurs_app_r, occurs_prefix in Hc.
  destruct suf as [|x [|y suf]]; [contradiction| |].
  - cbn [Str.is_prefix] in *. rewrite str_app_cons, str_app_nil_l.
    cbn [Str.is_prefix]. change (Ascii.eqb "/" "*") with false.
    cbn [andb]. apply andb_false_r.
  - rewrite !str_app_cons. cbn [Str.is_prefix] in *. exact Hc.
Qed.

Lemma match_blockComment c b pos prev :
  occurs "*/" c = false ->
  exists st,
    match_at false blockCommentRe pos prev
      (String "/" (String "*" (String.append c (String.append "*/" b)))) = Some st /\
    m_pos st = pos + 2 + String.length c + 2.
Proof.
  intros Hc. unfold match_at, blockCommentRe. cbn [rseq].
  change (lit "/*") with (RSeq (chr "/") (chr "*")). unfold chr.
  rewrite !rmatch_seq, rmatch_char. cbn [m_rest m_pos m_caps].
  change (Ascii.eqb "/" "/") with true. cbn iota. rewrite rmatch_char.
  cbn [m_rest m_pos m_caps]. change (Ascii.eqb "*" "*") with true. cbn iota.
  rewrite ?rmatch_seq. rewrite rmatch_star. cbn [m_rest].
  change (groups_of any) with (@nil nat).
  apply star_lazy_scan.
  - intros pre suf E Hsuf pos0 prev0. apply rmatch_lit_none; [discriminate|].
    cbn [m_rest]. apply (close_not_before c b pre suf Hc E Hsuf).
  - rewrite str_length_app. lia.
  - intros p1. change (lit "*/") with (RSeq (chr "*") (chr "/")). unfold chr.
    rewrite rmatch_seq, rmatch_char.
    change (String.append "*/" b) with (String "*" (String "/" b)).
    cbn [m_rest m_pos m_caps]. change (Ascii.eqb "*" "*") with true. cbn iota.
    rewrite rmatch_char. cbn [m_rest m_pos m_caps].
    change (Ascii.eqb "/" "/") with true. cbn iota.
    eexists. split; [reflexivity|]. cbn [m_pos]. lia.
Qed.

(** X29. A block comment is removed, from its slash-star to the first
    star-slash after it: for a comment text [c] without a dash and without
    star-slash, between texts without a dash or a slash. *)
Theorem stripComments_block_comment (a c b : string) :
  all_chars (fun x => not_dash x && not_slash x) a = true ->
  all_chars not_dash c = true -> occurs "*/" c = false ->
  all_chars (fun x => not_dash x && not_slash x) b = true ->
  stripComments
    (String.append a (String.append "/*" (String.append c (String.append "*/" b))))
    = String.append a b.
Proof.
  intros Ha Hc Hclose Hb. unfold stripComments.
  assert (Ha1 : all_chars not_dash a = true).
  { revert Ha. apply all_chars_impl. intros x H. apply andb_true_iff in H. tauto. }
  assert (Ha2 : all_chars not_slash a = true).
  { revert Ha. apply all_chars_impl. intros x H. apply andb_true_iff in H. tauto. }
  assert (Hb1 : all_chars not_dash b = true).
  { revert Hb. apply all_chars_impl. intros x H. apply andb_true_iff in H. tauto. }
  assert (Hb2 : all_chars not_slash b = true).
  { revert Hb. apply all_chars_impl. intros x H. apply andb_true_iff in H. tauto. }
  rewrite line_pass_id.
  2:{ apply no_char_occurs. fold not_dash.
      rewrite !all_chars_app, Ha1, Hc, Hb1. reflexivity. }
  unfold replace_all.
  destruct (replace_loop_pass false blockCommentRe "" not_slash) with
    (a := a) (pos := 0) (prev := @None ascii)
    (rest := String.append "/*" (String.append c (String.append "*/" b)))
    as (p1 & E1); [|exact Ha2|].
  { intros pos prev x y Hx. unfold match_at, blockCommentRe. cbn [rseq].
    rewrite rmatch_seq. apply rmatch_lit_none; [discriminate|].
    cbn [m_rest Str.is_prefix]. unfold not_slash in Hx. apply negb_true_iff in Hx.
    rewrite Ascii.eqb_sym, Hx. reflexivity. }
  rewrite E1. f_equal. clear E1. cbn [Nat.add].
  change (String.append "/*" (String.append c (String.append "*/" b)))
    with (String "/" (String "*" (String.append c (String.append "*/" b)))).
  destruct (match_blockComment c b (String.length a) p1 Hclose) as (st & Hm & Hpos).
  rewrite (replace_loop_match _ _ _ _ _ _ _ st Hm)
    by (rewrite Hpos; apply Nat.leb_gt; lia).
  rewrite Hpos.
  replace (String.length a + 2 + String.length c + 2 - String.length a - 1)
    with (String.length (String.append (String "*" c) "*/"))
    by (rewrite str_length_app; cbn [String.length]; lia).
  rewrite str_app_nil_l.
  replace (String "*" (String.append c (String.append "*/" b)))
    with (String.append (String.append (String "*" c) "*/") b)
    by (rewrite str_app_assoc, str_app_cons; reflexivity).
  destruct (replace_loop_skip false blockCommentRe "" (String.append (String "*" c) "*/")
              (S (String.length a)) (Some "/"%char) b) as (p2 & E2).
  rewrite E2. apply block_pass_loop, no_char_occurs. exact Hb2.
Qed.

Lemma stripComments_block_comment_witness :
  stripComments "create table a(id int /* the key */, x int)"
    = "create table a(id int , x int)".
Proof.
  apply (stripComments_block_comment "create table a(id int " " the key " ", x int)");
    reflexivity.
Defined.

(** *** About enum flags *)










(** *** About an enum statement in any letter case *)

Lemma alpha_not_space c : Chars.is_alpha c = true -> Chars.is_space c = false.
Proof.
  intros H. assert (Hw : Chars.is_word c = true) by (unfold Chars.is_word; rewrite H; reflexivity).
  apply is_word_other in Hw. tauto.
Qed.

Lemma eq_ci_not_space p c :
  Chars.is_alpha p = true -> Chars.eq_ci p c = true -> Chars.is_space c = false.
Proof.
  unfold Chars.eq_ci. intros ->. intros H. apply andb_true_iff in H.
  apply alpha_not_space. tauto.
Qed.

(** A keyword matches in any letter case. *)
Lemma rmatch_lit_i_ci ml (P : mstate -> Prop) k : forall w x rest pos prev caps,
  Str.truthy w = true -> same_ci w x = true ->
  (forall prev', exists y,
      k (MState (pos + String.length x) prev' rest caps) = Some y /\ P y) ->
  exists y,
    rmatch ml (lit_i w) (MState pos prev (String.append x rest) caps) k = Some y /\ P y.
Proof.
  induction w as [|p w IH]; intros x rest pos prev caps Hne Hx Hk; [discriminate|].
  destruct x as [|c x]; [discriminate|]. cbn [same_ci] in Hx.
  apply andb_true_iff in Hx. destruct Hx as [Hc Hx].
  destruct w as [|p2 w].
  - destruct x as [|c2 x]; [|discriminate].
    cbn [lit_i]. rewrite rmatch_char, str_app_cons, str_app_nil_l. cbn [m_rest m_pos m_caps].
    rewrite Hc. cbn [String.length] in Hk.
    replace (S pos) with (pos + 1) by lia. apply Hk.
  - change (lit_i (String p (String p2 w)))
      with (RSeq (RChar (Chars.eq_ci p)) (lit_i (String p2 w))).
    rewrite rmatch_seq, rmatch_char, str_app_cons. cbn [m_rest m_pos m_caps].
    rewrite Hc. apply IH; [reflexivity|exact Hx|].
    intros prev'. cbn [String.length] in Hk.
    replace (S pos + String.length x) with (pos + S (String.length x)) by lia.
    apply Hk.
Qed.

(** What follows a keyword written in some letter case starts with no
    white space. *)
Lemma same_ci_head p w x rest :
  Chars.is_alpha p = true -> same_ci (String p w) x = true ->
  match String.append x rest with
  | String c _ => Chars.is_space c = false
  | EmptyString => True
  end.
Proof.
  intros Hp Hx. destruct x as [|c x]; [discriminate|]. cbn [same_ci] in Hx.
  apply andb_true_iff in Hx. destruct Hx as [Hc _]. rewrite str_app_cons.
  eapply eq_ci_not_space; eauto.
Qed.

(** A run of white space before something else. *)
Lemma spaces_run ml k (P : mstate -> Prop) s rest pos prev caps :
  spaces s = true ->
  match rest with String c _ => Chars.is_space c = false | EmptyString => True end ->
  (forall prev', exists y,
      k (MState (pos + String.length s) prev' rest caps) = Some y /\ P y) ->
  exists y,
    rmatch ml (rplus ws) (MState pos prev (String.append s rest) caps) k = Some y /\ P y.
Proof.
  unfold spaces, blank. intros Hs Hrest Hk. apply andb_true_iff in Hs.
  destruct Hs as [Hne Hs]. destruct s as [|c run]; [discriminate|].
  cbn [all_chars] in Hs. apply andb_true_iff in Hs. destruct Hs as [Hc Hrun].
  rewrite str_app_cons. unfold ws.
  apply (rmatch_plus_char_run ml Chars.is_space k P c run rest pos prev caps Hc Hrun Hrest).
  exact Hk.
Qed.

Lemma space_not_name c :
  Chars.is_space c = true ->
  (Chars.is_word c || Ascii.eqb c ".") = false /\ Ascii.eqb Chars.dquote c = false.
Proof.
  destruct c as [b0 b1 b2 b3 b4 b5 b6 b7].
  destruct b0, b1, b2, b3, b4, b5, b6, b7; vm_compute; intros H;
    first [discriminate H | split; reflexivity].
Qed.

Lemma spaces_head s rest (q : ascii -> bool) :
  spaces s = true -> (forall c, Chars.is_space c = true -> q c = false) ->
  match String.append s rest with String c _ => q c = false | EmptyString => True end.
Proof.
  unfold spaces, blank. intros Hs Hq. apply andb_true_iff in Hs. destruct Hs as [Hne Hs].
  destruct s as [|c s]; [discriminate|]. rewrite str_app_cons.
  cbn [all_chars] in Hs. apply andb_true_iff in Hs. apply Hq. tauto.
Qed.

Lemma words_ok_inv W :
  words_ok W = true ->
  same_ci "create" (w_create W) = true /\ spaces (s_create W) = true /\
  same_ci "type" (w_type W) = true /\ spaces (s_type W) = true /\
  spaces (s_name W) = true /\
  same_ci "as" (w_as W) = true /\ spaces (s_as W) = true /\
  same_ci "enum" (w_enum W) = true /\ blank (s_enum W) = true.
Proof.
  unfold words_ok. intros H. repeat (apply andb_true_iff in H; destruct H as [H ?]).
  repeat split; assumption.
Qed.

Lemma match_enumRe_words W name body pos prev :
  words_ok W = true -> ident name = true -> all_chars not_rparen body = true ->
  exists st,
    match_at false enumRe pos prev (enum_text W name body) = Some st /\
    m_pos st = pos + String.length (enum_text W name body) /\
    m_caps st =
      [(2, (pos + String.length (enum_head W) + String.length name
              + String.length (enum_mid W),
            pos + String.length (enum_head W) + String.length name
              + String.length (enum_mid W) + String.length body));
       (1, (pos + String.length (enum_head W),
            pos + String.length (enum_head W) + String.length name))].
Proof.
  intros HW Hname Hbody.
  destruct (words_ok_inv W HW) as (Hk1 & Hs1 & Hk2 & Hs2 & Hs3 & Hk3 & Hs4 & Hk4 & Hs5).
  destruct W as [k1 s1 k2 s2 s3 k3 s4 k4 s5].
  cbn [w_create s_create w_type s_type s_name w_as s_as w_enum s_enum] in *.
  destruct (ident_inv _ Hname) as (n0 & n' & -> & Hn0 & Hnw).
  pose proof (all_chars_tail _ _ _ Hnw) as Hnw'.
  unfold match_at, enum_text, enum_head, enum_mid, enumRe.
  cbn [rseq w_create s_create w_type s_type s_name w_as s_as w_enum s_enum].
  rewrite !str_app_assoc.
  rewrite rmatch_seq. apply (rmatch_lit_i_ci false _ _ "create"); [reflexivity|exact Hk1|].
  intros p1.
  rewrite rmatch_seq. apply spaces_run; [exact Hs1|apply (same_ci_head "t" "ype"); auto|].
  intros p2.
  rewrite rmatch_seq. apply (rmatch_lit_i_ci false _ _ "type"); [reflexivity|exact Hk2|].
  intros p3.
  rewrite rmatch_seq. apply spaces_run; [exact Hs2| |].
  { rewrite str_app_cons. apply is_word_other in Hn0. tauto. }
  intros p4.
  rewrite rmatch_seq, rmatch_group. unfold qname. cbn [rseq].
  rewrite rmatch_seq. unfold dq at 1, chr.
  rewrite rmatch_opt_char_skip
    by (cbn [m_rest]; rewrite str_app_cons; apply word_not_dquote, Hn0).
  rewrite rmatch_seq. unfold word_or_dot. cbn [m_pos]. rewrite str_app_cons.
  apply (rmatch_plus_char_run false _ _ _ n0 n'); [rewrite Hn0; reflexivity| | |].
  { revert Hnw'. apply all_chars_impl. intros x ->. reflexivity. }
  { apply spaces_head; [exact Hs3|]. intros c Hc. apply space_not_name, Hc. }
  intros p5. unfold dq, chr.
  rewrite rmatch_opt_char_skip
    by (cbn [m_rest]; apply spaces_head; [exact Hs3|]; intros c Hc; apply space_not_name, Hc).
  cbn [set_cap m_pos m_prev m_rest m_caps].
  rewrite rmatch_seq. apply spaces_run; [exact Hs3|apply (same_ci_head "a" "s"); auto|].
  intros p6.
  rewrite rmatch_seq. apply (rmatch_lit_i_ci false _ _ "as"); [reflexivity|exact Hk3|].
  intros p7.
  rewrite rmatch_seq. apply spaces_run; [exact Hs4|apply (same_ci_head "e" "num"); auto|].
  intros p8.
  rewrite rmatch_seq. apply (rmatch_lit_i_ci false _ _ "enum"); [reflexivity|exact Hk4|].
  intros p9.
  rewrite rmatch_seq. unfold rstar at 1, ws. rewrite rmatch_star. cbn [m_rest groups_of].
  rewrite (str_app_cons "("%char), str_app_nil_l.
  apply (star_char_greedy_run false Chars.is_space _ _ (String "(" (String.append body ")")) s5);
    [reflexivity|exact Hs5|rewrite str_length_app; lia|].
  intros p10.
  rewrite rmatch_seq. change (lit "(") with (chr "("). unfold chr at 1.
  rewrite rmatch_char. cbn [m_rest m_pos m_caps]. change (Ascii.eqb "(" "(") with true.
  cbn iota. rewrite rmatch_seq, rmatch_group, rmatch_star. cbn [m_rest m_pos groups_of].
  change (groups_of any) with (@nil nat).
  apply (star_lazy_until false is_rparen).
  - intros st Hst. unfold set_cap. rewrite rmatch_seq. change (lit ")") with (chr ")").
    unfold chr at 1. rewrite rmatch_char. cbn [m_rest].
    destruct (m_rest st) as [|c r]; [reflexivity|].
    unfold is_rparen in Hst. rewrite Ascii.eqb_sym, Hst. reflexivity.
  - exact Hbody.
  - rewrite str_length_app. lia.
  - intros p11. unfold set_cap. cbn [m_pos m_prev m_rest m_caps].
    rewrite rmatch_seq. change (lit ")") with (chr ")"). unfold chr at 1.
    rewrite rmatch_char. cbn [m_rest m_pos m_caps]. change (Ascii.eqb ")" ")") with true.
    cbn iota. rewrite rmatch_seq. unfold rstar. rewrite rmatch_star.
    rewrite star_char_zero by exact I.
    change (lit ";") with (RChar (Ascii.eqb ";")).
    rewrite rmatch_opt_char_skip by exact I.
    eexists. split; [reflexivity|]. cbn [m_pos m_caps String.length].
    repeat first [rewrite str_length_app | progress cbn [String.length]].
    split; [lia|].
    repeat match goal with
           | |- _ :: _ = _ :: _ => f_equal
           | |- (_, _) = (_, _) => f_equal
           end; lia.
Qed.

Lemma parseEnumTypes_words W name body :
  words_ok W = true -> ident name = true -> all_chars not_rparen body = true ->
  parseEnumTypes (enum_text W name body)
    = (fun vs => [mkEnum name vs]) <$> parseEnumValues body.
Proof.
  intros HW Hname Hbody. unfold parseEnumTypes, exec_all.
  destruct (match_enumRe_words W name body 0 None HW Hname Hbody) as (st & Hm & Hpos & Hcaps).
  rewrite Nat.add_0_l in Hpos.
  assert (Hs : exists c rest, enum_text W name body = String c rest).
  { destruct (enum_text W name body) as [|c rest] eqn:E; [|eauto].
    apply (f_equal String.length) in E. unfold enum_text in E.
    rewrite !str_length_app in E. cbn [String.length] in E. lia. }
  destruct Hs as (c & rest & Hs).
  assert (Hloop : exec_loop false enumRe 0 None (enum_text W name body) 0
                  = Some [result_of 0 st]).
  { rewrite Hs in *. cbn [exec_loop]. rewrite Hm, Hpos. cbn [String.length Nat.leb].
    replace (S (String.length rest) - 0 - 1) with (String.length rest) by lia.
    destruct (exec_loop_skip false enumRe rest 1 (Some c) "") as (prev' & [E|[_ E]]);
      rewrite str_app_nil_r in E; rewrite E; reflexivity. }
  rewrite Hloop. cbn [mbind option_bind mapM]. unfold parseEnum, group.
  cbn [result_of mr_caps]. rewrite Hcaps. cbn [find_cap Nat.eqb].
  assert (E1 : Str.slice (0 + String.length (enum_head W))
                 (0 + String.length (enum_head W) + String.length name)
                 (enum_text W name body) = name).
  { unfold enum_text. exact (slice_app (enum_head W) name _). }
  assert (E2 : Str.slice (0 + String.length (enum_head W) + String.length name
                          + String.length (enum_mid W))
                 (0 + String.length (enum_head W) + String.length name
                  + String.length (enum_mid W) + String.length body)
                 (enum_text W name body) = body).
  { unfold enum_text. do 2 rewrite <- str_app_assoc.
    replace (0 + String.length (enum_head W) + String.length name + String.length (enum_mid W))
      with (String.length (String.append (String.append (enum_head W) name) (enum_mid W)))
      by (rewrite !str_length_app; reflexivity).
    apply slice_app. }
  rewrite E1, E2. cbn [mbind option_bind].
  destruct (ident_inv _ Hname) as (_ & _ & _ & _ & Hw).
  rewrite (normalizeTableName_ident name Hw).
  destruct (parseEnumValues body); reflexivity.
Qed.

Lemma capture_enums sql cp :
  capture sql = Some cp -> parseEnumTypes (stripComments sql) = Some (cp_enums cp).
Proof.
  unfold capture.
  destruct (parseEnumTypes _) as [enums|]; [|discriminate]. cbn [mbind option_bind].
  destruct (parseIndexes _) as [ixs|]; [|discriminate]. cbn [mbind option_bind].
  match goal with |- context [collect ?a ?b] => destruct (collect a b) as [st|] end;
    [|discriminate].
  cbn [mbind option_bind]. intros H. injection H as <-. reflexivity.
Qed.

(** C7. Enum value lists are read from single-quoted literals, every doubled
    single quote in a literal standing for one quote. For values written
    with each single quote doubled, separated by commas and text without a
    single quote, [parseEnumValues] returns the values as they were before
    the doubling, in order. A statement [create type name as enum (...)]
    around such a list, its keywords in any letter case and any white space
    between its words, yields exactly one enum with that name and these
    values, when no value and no separator holds a closing parenthesis; and
    the extractor returns it as its only enum when the statement holds no
    comment marker. *)
Theorem C7_enum_values (W : EnumWords) (name w : string) (vs : list string) :
  all_chars (fun c => negb (is_squote c)) w = true ->
  parseEnumValues (join_items w (List.map quote vs)) = Some vs /\
  (words_ok W = true -> ident name = true ->
   all_chars not_rparen w = true -> Forall (fun v => all_chars not_rparen v = true) vs ->
   let sql := enum_text W name (join_items w (List.map quote vs)) in
   parseEnumTypes sql = Some [mkEnum name vs] /\
   (occurs "--" sql = false -> occurs "/*" sql = false ->
    enums <$> parseSqlToGraph sql = Some [mkEnum name vs])).
Proof.
  intros Hw1. split; [apply parseEnumValues_join, Hw1|].
  intros HW Hname Hw2 Hvs sql.
  assert (He : parseEnumTypes sql = Some [mkEnum name vs]).
  { unfold sql. rewrite parseEnumTypes_words; [|exact HW|exact Hname|].
    - rewrite (parseEnumValues_join w vs Hw1). reflexivity.
    - apply join_items_chars; [reflexivity|exact Hw2|].
      induction Hvs as [|v vs' Hv _ IH]; cbn [List.map]; constructor; [|exact IH].
      apply quote_chars; [reflexivity|exact Hv]. }
  split; [exact He|].
  intros H1 H2. destruct (parseSqlToGraph_capture sql) as (cp & Hcp & Hg).
  rewrite Hg. cbn [fmap option_fmap option_map]. f_equal.
  apply capture_enums in Hcp. rewrite (stripComments_id sql H1 H2), He in Hcp.
  unfold assemble. cbn [enums]. congruence.
Qed.

Lemma C7_enum_values_witness :
  parseEnumValues "'a''b','c'" = Some ["a'b"; "c"] /\
  parseEnumTypes "CREATE TYPE t AS ENUM('a''b','c')" = Some [mkEnum "t" ["a'b"; "c"]] /\
  enums <$> parseSqlToGraph "CREATE TYPE t AS ENUM('a''b','c')"
    = Some [mkEnum "t" ["a'b"; "c"]].
Proof.
  destruct (C7_enum_values upper_words "t" "" ["a'b"; "c"] eq_refl) as [Hv H].
  split; [exact Hv|].
  destruct H as [He Hg]; [reflexivity|reflexivity|reflexivity|repeat constructor|].
  split; [exact He|]. apply Hg; reflexivity.
Defined.

End SqlMore.

(** ** The orthogonal router *)

Module RouterFacts.
Import Router ListFacts.

(** *** A sample run *)

(** [b] far from [a], with a wall between them: the search finds a way
    around the wall in 88 turns, and the points of the edge keep to the
    axes. *)
Example edgePoints_sample :
  let b := mkNode "b" (TableNode ["id"; "a_id"]) (num 700) (num 300) (num 360) (num 112) in
  let wall := mkNode "w" EnumNode (num 450) (num 0) (num 100) (num 500) in
  let nodes := [mkNode "a" (TableNode ["id"; "name"]) (num 0) (num 0) (num 360) (num 112);
                b; wall] in
  (snd <$> routeManhattanAStar_counted (num 360, num 64) (num 700, num 364)
             (buildObstaclesForEdge nodes "a" "b") ROUTE_GRID) = Some 88 /\
  option_map (option_map coords)
    (edgePoints nodes (mkEdge "a" "b" (Some "id") (Some "id")))
  = Some (Some [(360 # 1, 64 # 1); (408 # 1, 64 # 1); (408 # 1, 72 # 1); (432 # 1, 72 # 1);
                (432 # 1, 528 # 1); (672 # 1, 528 # 1); (672 # 1, 364 # 1);
                (700 # 1, 364 # 1)]%Q).
Proof. vm_compute. split; reflexivity. Qed.

(** *** The walk back from the goal ends *)

Lemma lt_inf_nat_Some (x y : option nat) :
  lt_inf Nat.ltb x y = true ->
  exists a, x = Some a /\ forall b, y = Some b -> a < b.
Proof.
  destruct x as [a|]; [|discriminate]. intros H. exists a. split; [reflexivity|].
  intros b ->. simpl in H. apply Nat.ltb_lt in H. exact H.
Qed.

Lemma visit_score_ok b obstacles g current st nb :
  score_ok st -> score_ok (visit b obstacles g current st nb).
Proof.
  intros Hok. unfold visit.
  destruct (negb (inBounds b nb)); [exact Hok|].
  destruct (isBlocked nb.1 nb.2 obstacles); [exact Hok|].
  destruct (lt_inf Nat.ltb (S <$> gScore st !! current) (gScore st !! nb)) eqn:Hlt;
    [|exact Hok].
  apply lt_inf_nat_Some in Hlt. destruct Hlt as (t & Ht & Hlt). rewrite Ht.
  destruct (gScore st !! current) as [gc|] eqn:Hgc; [|discriminate].
  simpl in Ht. injection Ht as <-.
  assert (Hne : nb <> current).
  { intros ->. specialize (Hlt gc Hgc). lia. }
  intros k p. cbn [cameFrom gScore]. intros Hk.
  destruct (decide (k = nb)) as [->|Hknb].
  - rewrite lookup_insert_eq in Hk. injection Hk as <-.
    exists (S gc), gc. rewrite lookup_insert_eq, lookup_insert_ne by exact Hne.
    auto.
  - rewrite lookup_insert_ne in Hk by congruence.
    destruct (Hok k p Hk) as (gk & gp & Hgk & Hgp & Hl).
    rewrite (lookup_insert_ne _ nb k) by congruence.
    destruct (decide (p = nb)) as [->|Hpnb].
    + exists gk, (S gc). rewrite lookup_insert_eq.
      specialize (Hlt gp Hgp). repeat split; [exact Hgk|lia].
    + exists gk, gp. rewrite lookup_insert_ne by congruence. auto.
Qed.

Lemma walk_back_total (st : AStar) :
  score_ok st ->
  forall fuel k path,
    (forall gk, gScore st !! k = Some gk -> gk <= fuel) ->
    is_Some (walk_back fuel (cameFrom st) k path).
Proof.
  intros Hok. induction fuel as [|fuel IH]; intros k path Hk.
  - simpl. destruct (cameFrom st !! k) as [p|] eqn:Hp; [|eauto].
    destruct (Hok k p Hp) as (gk & gp & Hgk & _ & Hl). specialize (Hk gk Hgk). lia.
  - simpl. destruct (cameFrom st !! k) as [p|] eqn:Hp; [|eauto].
    destruct (Hok k p Hp) as (gk & gp & Hgk & Hgp & Hl). specialize (Hk gk Hgk).
    apply IH. intros gp' Hgp'. rewrite Hgp in Hgp'. injection Hgp' as <-. lia.
Qed.

(** *** The main loop ends *)

Lemma bestIndex_loop_bound fs : forall cells i best bestF,
  let r := bestIndex_loop fs cells i best bestF in
  r = best \/ (i <= r /\ r < i + length cells).
Proof.
  induction cells as [|c cells IH]; intros i best bestF; simpl; [left; reflexivity|].
  destruct (lt_inf ltb (fs !! c) bestF).
  - destruct (IH (S i) i (fs !! c)) as [->|H]; right; lia.
  - destruct (IH (S i) best bestF) as [->|H]; [left; reflexivity|right; lia].
Qed.

Lemma bestIndex_lt st : 0 < length (open st) -> bestIndex st < length (open st).
Proof.
  intros H. unfold bestIndex.
  destruct (bestIndex_loop_bound (fScore st) (open st) 0 0 None) as [->|[_ Hr]];
    [exact H|exact Hr].
Qed.

Lemma iteration_ok b obstacles step startWorld endWorld g st :
  score_ok st -> 0 < length (open st) ->
  exists r, iteration b obstacles step startWorld endWorld g st = Some r /\
    match r with inl st' => score_ok st' | inr _ => True end.
Proof.
  intros Hok Hopen. unfold iteration.
  destruct (lookup_lt_is_Some_2 _ _ (bestIndex_lt st Hopen)) as [current ->].
  cbn [mbind option_bind]. cbn [cameFrom gScore].
  destruct (point_eqb current g).
  - destruct (walk_back_total st Hok (default 0 (gScore st !! current)) current [current])
      as [path ->].
    + intros gk ->. simpl. lia.
    + cbn [mbind option_bind]. eexists. split; [reflexivity|exact I].
  - eexists. split; [reflexivity|].
    apply foldl_inv; [|exact Hok].
    intros st' nb Hst'. apply visit_score_ok, Hst'.
Qed.

Lemma main_loop_total b obstacles step startWorld endWorld g :
  forall fuel st iters,
    score_ok st -> iters <= ROUTE_MAX_ITERS -> ROUTE_MAX_ITERS - iters < fuel ->
    exists r n,
      main_loop fuel b obstacles step startWorld endWorld g st iters = Some (r, n) /\
      n <= ROUTE_MAX_ITERS.
Proof.
  induction fuel as [|fuel IH]; intros st iters Hok Hle Hfuel; [lia|].
  cbn [main_loop].
  destruct (0 <? length (open st)) eqn:Hopen; cbn [negb orb]; [|eauto].
  destruct (iters <? ROUTE_MAX_ITERS) eqn:Hit; cbn [negb]; [|eauto].
  apply Nat.ltb_lt in Hopen, Hit.
  destruct (iteration_ok b obstacles step startWorld endWorld g st Hok Hopen)
    as (r & -> & Hr).
  cbn [mbind option_bind]. destruct r as [st'|pts].
  - apply IH; [exact Hr|lia|lia].
  - exists (Some pts), (iters + 1). split; [reflexivity|lia].
Qed.

Lemma setup_score_ok startWorld endWorld obstacles step :
  score_ok (su_state (setup startWorld endWorld obstacles step)).
Proof. intros k p H. cbn in H. rewrite lookup_empty in H. discriminate. Qed.

(** C5. For every start, end, obstacle set and grid step the search
    returns - a path or [null] - and its main loop takes at most
    [ROUTE_MAX_ITERS] = 40000 turns; the walk back from the goal ends too. *)
Theorem C5_search_terminates (startWorld endWorld : Point) (obstacles : list AARect)
  (step : Qc) :
  exists r n,
    routeManhattanAStar_counted startWorld endWorld obstacles step = Some (r, n) /\
    n <= ROUTE_MAX_ITERS /\ N.of_nat ROUTE_MAX_ITERS = 40000%N /\
    routeManhattanAStar startWorld endWorld obstacles step = Some r.
Proof.
  unfold routeManhattanAStar, routeManhattanAStar_counted.
  destruct (main_loop_total
              (su_bounds (setup startWorld endWorld obstacles step)) obstacles step
              startWorld endWorld (su_goal (setup startWorld endWorld obstacles step))
              (S ROUTE_MAX_ITERS)
              (su_state (setup startWorld endWorld obstacles step)) 0)
    as (r & n & H & Hn).
  - apply setup_score_ok.
  - lia.
  - lia.
  - exists r, n. rewrite H. split; [reflexivity|]. split; [exact Hn|].
    split; [vm_compute; reflexivity|reflexivity].
Qed.

(** *** The ends of a routed path *)

Lemma eqb_eq (x y : Qc) : eqb x y = true -> x = y.
Proof. unfold eqb. intros H. apply Qc_is_canon, Qeq_bool_eq, H. Qed.

Lemma point_eqb_eq (a b : Point) : point_eqb a b = true -> a = b.
Proof.
  destruct a as [ax ay], b as [bx by_]. unfold point_eqb. simpl.
  intros H. apply andb_true_iff in H. destruct H as [Hx Hy].
  apply eqb_eq in Hx, Hy. congruence.
Qed.

Lemma head_rev {A} (l : list A) p : last l = Some p -> head (rev l) = Some p.
Proof.
  intros H. apply last_Some in H. destruct H as [l' ->].
  rewrite rev_unit. reflexivity.
Qed.

Lemma last_rev {A} (l : list A) o : head l = Some o -> last (rev l) = Some o.
Proof.
  destruct l as [|x l]; [discriminate|]. intros H. injection H as ->.
  cbn [rev]. apply last_snoc.
Qed.

(** The first point pushed to [out] stays its first point. *)
Lemma compress_loop_head : forall pts rout p,
  last rout = Some p -> head (compress_loop rout pts) = Some p.
Proof.
  induction pts as [|[x y] pts IH]; intros rout p Hp.
  - apply head_rev, Hp.
  - cbn [compress_loop]. destruct rout as [|[ox oy] before]; [discriminate|].
    destruct (eqb x ox && eqb y oy); [apply IH, Hp|].
    destruct before as [|[px py] before'].
    + apply IH. exact Hp.
    + destruct ((eqb px ox && eqb ox x) || (eqb py oy && eqb oy y)); apply IH.
      * rewrite last_cons_cons in Hp |- *. exact Hp.
      * rewrite last_cons_cons. exact Hp.
Qed.

(** The last point of [out] is the last point read. *)
Lemma compress_loop_last : forall pts rout o,
  head rout = Some o ->
  last (compress_loop rout pts) = Some (default o (last pts)).
Proof.
  induction pts as [|[x y] pts IH]; intros rout o Ho.
  - apply last_rev, Ho.
  - cbn [compress_loop]. destruct rout as [|[ox oy] before]; [discriminate|].
    injection Ho as <-. rewrite last_cons.
    destruct (eqb x ox && eqb y oy) eqn:Hsame.
    + apply andb_true_iff in Hsame. destruct Hsame as [Hx Hy].
      apply eqb_eq in Hx, Hy. subst ox oy.
      rewrite (IH _ (x, y)) by reflexivity. destruct (last pts); reflexivity.
    + destruct before as [|[px py] before'].
      * rewrite (IH _ (x, y)) by reflexivity. destruct (last pts); reflexivity.
      * destruct ((eqb px ox && eqb ox x) || (eqb py oy && eqb oy y));
          rewrite (IH _ (x, y)) by reflexivity; destruct (last pts); reflexivity.
Qed.

(** [compressOrthogonal] keeps the first and the last point. *)
Lemma compressOrthogonal_ends pts :
  head (compressOrthogonal pts) = head pts /\ last (compressOrthogonal pts) = last pts.
Proof.
  unfold compressOrthogonal. destruct (length pts <=? 2); [auto|].
  destruct pts as [|p0 rest]; [auto|]. split.
  - apply compress_loop_head. reflexivity.
  - rewrite (compress_loop_last rest [p0] p0) by reflexivity.
    rewrite last_cons. destruct (last rest); reflexivity.
Qed.

Lemma corner_after_start_ends out :
  head (corner_after_start out) = head out /\ last (corner_after_start out) = last out.
Proof.
  unfold corner_after_start. destruct out as [|[sx sy] [|[nx ny] tl]]; auto.
  destruct (negb (eqb sx nx) && negb (eqb sy ny)); auto.
Qed.

Lemma corner_before_end_ends out :
  head (corner_before_end out) = head out /\ last (corner_before_end out) = last out.
Proof.
  unfold corner_before_end.
  destruct (out !! (length out - 1)) as [[ex ey]|] eqn:He; [|auto].
  destruct (out !! (length out - 2)) as [[px py]|] eqn:Hp; [|auto].
  destruct (negb (eqb ex px) && negb (eqb ey py)) eqn:Hd; [|auto].
  assert (Hlen : 2 <= length out).
  { destruct (decide (length out - 1 = length out - 2)) as [E|E]; [|lia].
    rewrite E, Hp in He. injection He as <- <-.
    apply andb_true_iff in Hd. destruct Hd as [Hd _].
    unfold eqb in Hd. rewrite (proj2 (Qeq_bool_iff px px)) in Hd by reflexivity.
    discriminate. }
  split.
  - rewrite head_app. destruct out as [|o0 [|o1 out']]; simpl in Hlen; try lia.
    reflexivity.
  - rewrite last_app. cbn [last]. rewrite (last_lookup out).
    replace (pred (length out)) with (length out - 1) by lia.
    rewrite He. reflexivity.
Qed.

(** [enforceRightAngleEndpoints] keeps the first and the last point. *)
Lemma enforceRightAngleEndpoints_ends pts :
  head (enforceRightAngleEndpoints pts) = head pts /\
  last (enforceRightAngleEndpoints pts) = last pts.
Proof.
  unfold enforceRightAngleEndpoints. destruct (length pts <? 4); [auto|].
  destruct (compressOrthogonal_ends (corner_before_end (corner_after_start pts))) as [-> ->].
  destruct (corner_before_end_ends (corner_after_start pts)) as [-> ->].
  apply corner_after_start_ends.
Qed.

(** The fallback starts and ends at the anchors. *)
Lemma fallbackPath_ends start end_ :
  head (fallbackPath start end_) = Some start /\ last (fallbackPath start end_) = Some end_.
Proof.
  unfold fallbackPath.
  destruct (compressOrthogonal_ends
              [start; (((start.1 + end_.1) / num 2)%Qc, start.2);
               (((start.1 + end_.1) / num 2)%Qc, end_.2); end_]) as [-> ->].
  split; reflexivity.
Qed.

Lemma exact_endpoints_one startWorld endWorld c :
  exact_endpoints startWorld endWorld [c] = [endWorld].
Proof. reflexivity. Qed.

Lemma exact_endpoints_ends startWorld endWorld path :
  2 <= length path ->
  head (exact_endpoints startWorld endWorld path) = Some startWorld /\
  last (exact_endpoints startWorld endWorld path) = Some endWorld.
Proof.
  intros Hlen. unfold exact_endpoints. rewrite length_insert. split.
  - rewrite head_lookup, list_lookup_insert_ne by lia.
    apply list_lookup_insert_eq. lia.
  - rewrite last_lookup, !length_insert.
    replace (pred (length path)) with (length path - 1) by lia.
    apply list_lookup_insert_eq. rewrite length_insert. lia.
Qed.

(** The walk back only pushes: it pushes nothing when the cell it starts
    from has no link, something when it has one. *)
Lemma walk_back_pushes cf : forall fuel k path res,
  walk_back fuel cf k path = Some res ->
  exists ext, res = path ++ ext /\ (cf !! k = None -> ext = []) /\
              (is_Some (cf !! k) -> ext <> []).
Proof.
  induction fuel as [|fuel IH]; intros k path res H; simpl in H.
  - destruct (cf !! k) as [prev|]; [discriminate|]. injection H as <-.
    exists []. rewrite app_nil_r. split; [reflexivity|]. split; [reflexivity|].
    intros [? ?]. discriminate.
  - destruct (cf !! k) as [prev|].
    + apply IH in H. destruct H as (ext & -> & _).
      exists (prev :: ext). rewrite <- app_assoc. split; [reflexivity|].
      split; [discriminate|]. intros _. discriminate.
    + injection H as <-. exists []. rewrite app_nil_r.
      split; [reflexivity|]. split; [reflexivity|]. intros [? ?]. discriminate.
Qed.

Lemma visit_open_ok s b obstacles g current st nb :
  open_ok s st -> open_ok s (visit b obstacles g current st nb).
Proof.
  intros Hok. unfold visit.
  destruct (negb (inBounds b nb)); [exact Hok|].
  destruct (isBlocked nb.1 nb.2 obstacles); [exact Hok|].
  destruct (lt_inf Nat.ltb (S <$> gScore st !! current) (gScore st !! nb)); [|exact Hok].
  destruct (S <$> gScore st !! current) as [t|]; [|exact Hok].
  intros c Hc. cbn [open cameFrom] in *.
  destruct (decide (c = nb)) as [->|Hne].
  - right. rewrite lookup_insert_eq. eauto.
  - rewrite lookup_insert_ne by congruence. apply Hok.
    destruct (existsb (point_eqb nb) (open st)); [exact Hc|].
    apply elem_of_app in Hc. destruct Hc as [Hc|Hc]; [exact Hc|].
    apply list_elem_of_singleton in Hc. contradiction.
Qed.

Lemma iteration_ends b obstacles step startWorld endWorld s g st r :
  open_ok s st ->
  iteration b obstacles step startWorld endWorld g st = Some r ->
  match r with
  | inl st' => open_ok s st'
  | inr pts => ends_ok startWorld endWorld s g pts
  end.
Proof.
  intros Hok. unfold iteration.
  destruct (open st !! bestIndex st) as [current|] eqn:Hcur; [|discriminate].
  cbn [mbind option_bind]. cbn [cameFrom gScore].
  destruct (point_eqb current g) eqn:Hg.
  - apply point_eqb_eq in Hg. subst g.
    destruct (walk_back _ (cameFrom st) current [current]) as [path|] eqn:Hw;
      [|discriminate].
    cbn [mbind option_bind]. intros H. injection H as <-. lazy beta iota.
    apply walk_back_pushes in Hw. destruct Hw as (ext & -> & Hnone & Hsome).
    unfold ends_ok.
    destruct (compressOrthogonal_ends
                (exact_endpoints startWorld endWorld (rev ([current] ++ ext)))) as [-> ->].
    destruct (cameFrom st !! current) as [prev|] eqn:Hcf.
    + destruct (exact_endpoints_ends startWorld endWorld (rev ([current] ++ ext)))
        as [Hh Hl].
      * rewrite length_rev, length_app. cbn [length].
        destruct ext; [exfalso; apply Hsome; eauto|]. cbn [length]. lia.
      * auto.
    + rewrite (Hnone eq_refl). cbn [app rev]. rewrite exact_endpoints_one.
      split; [reflexivity|]. right. split; [|reflexivity].
      destruct (Hok current (list_elem_of_lookup_2 _ _ _ Hcur)) as [->|[x Hx]];
        [reflexivity|]. rewrite Hcf in Hx. discriminate.
  - intros H. injection H as <-. lazy beta iota.
    do 4 apply visit_open_ok.
    intros c Hc. cbn [open cameFrom] in *. apply Hok.
    eapply list_elem_of_delete_inv, Hc.
Qed.

Lemma main_loop_ends b obstacles step startWorld endWorld s g :
  forall fuel st iters pts n,
    open_ok s st ->
    main_loop fuel b obstacles step startWorld endWorld g st iters = Some (Some pts, n) ->
    ends_ok startWorld endWorld s g pts.
Proof.
  induction fuel as [|fuel IH]; intros st iters pts n Hok H; [discriminate|].
  cbn [main_loop] in H.
  destruct (negb (0 <? length (open st)) || negb (iters <? ROUTE_MAX_ITERS));
    [discriminate|].
  destruct (iteration b obstacles step startWorld endWorld g st) as [r|] eqn:Hit;
    [|discriminate].
  cbn [mbind option_bind] in H.
  pose proof (iteration_ends _ _ _ _ _ s _ _ _ Hok Hit) as Hr.
  destruct r as [st'|pts'].
  - eapply IH; eauto.
  - injection H as <- _. exact Hr.
Qed.

(** The ends of the points of an edge: the last one is always the target
    anchor; the first one is the source anchor unless start and goal fall in
    one cell, and then the points are the target anchor alone. *)
Theorem routedPoints_ends (start end_ : Point) (obstacles : list AARect) :
  let su := setup start end_ obstacles ROUTE_GRID in
  exists pts, routedPoints start end_ obstacles = Some pts /\
    ends_ok start end_ (su_start su) (su_goal su) pts.
Proof.
  cbn zeta. unfold routedPoints.
  unfold routeManhattanAStar, routeManhattanAStar_counted.
  destruct (main_loop_total
              (su_bounds (setup start end_ obstacles ROUTE_GRID)) obstacles ROUTE_GRID
              start end_ (su_goal (setup start end_ obstacles ROUTE_GRID))
              (S ROUTE_MAX_ITERS) (su_state (setup start end_ obstacles ROUTE_GRID)) 0)
    as (r & n & Hc & _); [apply setup_score_ok|lia|lia|].
  rewrite Hc. cbn [fmap option_fmap option_map fst mbind option_bind].
  eexists. split; [reflexivity|].
  unfold ends_ok.
  destruct (enforceRightAngleEndpoints_ends (default (fallbackPath start end_) r))
    as [Hh Hl].
  destruct r as [pts|]; cbn [default] in *.
  - apply (main_loop_ends _ _ _ _ _ (su_start (setup start end_ obstacles ROUTE_GRID)))
      in Hc.
    + destruct Hc as [Hlast [Hhead|[Heq ->]]].
      * rewrite Hh, Hl. auto.
      * split; [reflexivity|]. right. split; [exact Heq|reflexivity].
    + intros c Hc'. cbn in Hc'. apply list_elem_of_singleton in Hc'. left. exact Hc'.
  - rewrite Hh, Hl. destruct (fallbackPath_ends start end_) as [-> ->]. auto.
Qed.

(** *** Where the search starts *)

Lemma nudgeOut_nudged b obstacles step c :
  nudged b obstacles step c (nudgeOut b obstacles step c).
Proof.
  unfold nudged, nudgeOut. split; [reflexivity|].
  destruct (isBlocked c.1 c.2 obstacles) eqn:Hc; cbn [negb].
  - split; [discriminate|]. intros _.
    destruct (List.find (free_cell b obstacles) (candidates step c)) as [k|] eqn:Hf.
    + left. apply find_first in Hf. destruct Hf as (l1 & l2 & Hl & Hk & Hl1).
      exists l1, l2. split; [exact Hl|]. split; [exact Hl1|].
      unfold free_cell in Hk. apply andb_true_iff in Hk. destruct Hk as [Hb Hk].
      apply negb_true_iff in Hk. auto.
    + right. split; [apply find_none, Hf|reflexivity].
  - split; [reflexivity|discriminate].
Qed.

(** C9, amended. The search starts from the cell [nudgeOut] makes of the
    snapped start and aims at the cell it makes of the snapped goal. A
    snapped cell inside an obstacle is replaced by the first of its six
    candidates that is in bounds and outside every obstacle; when none of the
    six is, the snapped cell is kept although it is inside an obstacle. *)
Theorem C9_start_and_goal_cells (startWorld endWorld : Point)
  (obstacles : list AARect) (step : Qc) :
  let su := setup startWorld endWorld obstacles step in
  open (su_state su) = [su_start su] /\
  nudged (su_bounds su) obstacles step
    (snap startWorld.1 step, snap startWorld.2 step) (su_start su) /\
  nudged (su_bounds su) obstacles step
    (snap endWorld.1 step, snap endWorld.2 step) (su_goal su).
Proof.
  cbn zeta. split; [reflexivity|]. split; apply nudgeOut_nudged.
Qed.

(** *** Two tables close to each other *)

Lemma C9_start_and_goal_cells_witness :
  let obstacles := buildObstaclesForEdge [table_a; table_b_lower] "a" "b" in
  let su := setup (num 360, num 64) (num 400, num 94) obstacles ROUTE_GRID in
  coords [su_start su] = [(384 # 1, 72 # 1)]%Q /\
  isBlocked (su_start su).1 (su_start su).2 obstacles = false.
Proof.
  cbn zeta. split; [vm_compute; reflexivity|].
  destruct (C9_start_and_goal_cells (num 360, num 64) (num 400, num 94)
              (buildObstaclesForEdge [table_a; table_b_lower] "a" "b") ROUTE_GRID)
    as (_ & (_ & _ & H) & _).
  destruct H as [(l1 & l2 & _ & _ & _ & Hfree)|[Hall _]].
  - vm_compute. reflexivity.
  - exact Hfree.
  - apply Forall_inv in Hall. vm_compute in Hall. discriminate.
Defined.

(** C9 as stated fails: between two tables ten units apart the snapped start
    cell (360, 72) lies inside an obstacle and so do its six candidates; the
    search starts from it, and aims at it. *)
Lemma C9_blocked_start_counterexample :
  let obstacles := buildObstaclesForEdge [table_a; table_b_near] "a" "b" in
  let su := setup (num 360, num 64) (num 370, num 64) obstacles ROUTE_GRID in
  coords (open (su_state su)) = [(360 # 1, 72 # 1)]%Q /\
  coords [su_goal su] = [(360 # 1, 72 # 1)]%Q /\
  isBlocked (su_start su).1 (su_start su).2 obstacles = true /\
  isBlocked (su_goal su).1 (su_goal su).2 obstacles = true.
Proof. vm_compute. repeat split; reflexivity. Qed.

(** Paths of fewer than four points pass through
    [enforceRightAngleEndpoints] as they are, and paths of at most two points
    through [compressOrthogonal]. *)
Lemma enforceRightAngleEndpoints_short pts :
  length pts < 4 -> enforceRightAngleEndpoints pts = pts.
Proof.
  intros H. unfold enforceRightAngleEndpoints.
  apply Nat.ltb_lt in H. rewrite H. reflexivity.
Qed.

Lemma compressOrthogonal_short pts :
  length pts <= 2 -> compressOrthogonal pts = pts.
Proof.
  intros H. unfold compressOrthogonal.
  apply Nat.leb_le in H. rewrite H. reflexivity.
Qed.

(** C4 at a failing input: from [a] to [b], forty units to the right and
    thirty lower, the points of the edge are the two anchors, joined by one
    diagonal segment. *)
Theorem C4_diagonal_at_failing_input :
  anchors table_a table_b_lower (Some "id") (Some "id")
    = ((num 360, num 64), (num 400, num 94)) /\
  option_map (option_map coords) (edgePoints [table_a; table_b_lower] edge_ab)
    = Some (Some [(360 # 1, 64 # 1); (400 # 1, 94 # 1)]%Q).
Proof. split; vm_compute; reflexivity. Qed.

(** C10 at a failing input: from [a] to [b], ten units to the right, start
    and goal fall in the same cell and the points of the edge are the target
    anchor alone; the first point is not the source anchor (360, 64). *)
Theorem C10_single_point_at_failing_input :
  option_map (fun se => coords [se.1; se.2])
    (Some (anchors table_a table_b_near (Some "id") (Some "id")))
    = Some [(360 # 1, 64 # 1); (370 # 1, 64 # 1)]%Q /\
  option_map (option_map coords) (edgePoints [table_a; table_b_near] edge_ab)
    = Some (Some [(370 # 1, 64 # 1)]%Q).
Proof. split; vm_compute; reflexivity. Qed.

End RouterFacts.

(** ** More about the orthogonal router *)

Module RouterMore.
Import Router ListFacts RouterFacts.

(** *** Numbers *)

Lemma leb_le (x y : Qc) : leb x y = true <-> (x <= y)%Qc.
Proof. unfold leb. apply Qle_bool_iff. Qed.

Lemma leb_false_lt (x y : Qc) : leb x y = false -> (y < x)%Qc.
Proof.
  intros H. apply Qcnot_le_lt. intros Hle. apply leb_le in Hle. congruence.
Qed.

Lemma nmin_le_l (x y : Qc) : (nmin x y <= x)%Qc.
Proof.
  unfold nmin. destruct (leb x y) eqn:E; [apply Qcle_refl|].
  apply Qclt_le_weak, leb_false_lt, E.
Qed.

Lemma nmin_le_r (x y : Qc) : (nmin x y <= y)%Qc.
Proof.
  unfold nmin. destruct (leb x y) eqn:E; [apply leb_le, E|apply Qcle_refl].
Qed.

Lemma nmax_ge_l (x y : Qc) : (x <= nmax x y)%Qc.
Proof.
  unfold nmax. destruct (leb x y) eqn:E; [apply leb_le, E|apply Qcle_refl].
Qed.

Lemma nmax_ge_r (x y : Qc) : (y <= nmax x y)%Qc.
Proof.
  unfold nmax. destruct (leb x y) eqn:E; [apply Qcle_refl|].
  apply Qclt_le_weak, leb_false_lt, E.
Qed.

Lemma min_of_le_init : forall rest a, (min_of a rest <= a)%Qc.
Proof.
  unfold min_of. induction rest as [|x rest IH]; intros a; simpl; [apply Qcle_refl|].
  eapply Qcle_trans; [apply IH|apply nmin_le_l].
Qed.

Lemma min_of_le_elem : forall rest a x, x ∈ rest -> (min_of a rest <= x)%Qc.
Proof.
  unfold min_of. induction rest as [|y rest IH]; intros a x Hx; [inversion Hx|].
  simpl. apply elem_of_cons in Hx. destruct Hx as [->|Hx].
  - eapply Qcle_trans; [apply min_of_le_init|apply nmin_le_r].
  - apply IH, Hx.
Qed.

Lemma max_of_ge_init : forall rest a, (a <= max_of a rest)%Qc.
Proof.
  unfold max_of. induction rest as [|x rest IH]; intros a; simpl; [apply Qcle_refl|].
  eapply Qcle_trans; [apply nmax_ge_l|apply IH].
Qed.

Lemma max_of_ge_elem : forall rest a x, x ∈ rest -> (x <= max_of a rest)%Qc.
Proof.
  unfold max_of. induction rest as [|y rest IH]; intros a x Hx; [inversion Hx|].
  simpl. apply elem_of_cons in Hx. destruct Hx as [->|Hx].
  - eapply Qcle_trans; [apply nmax_ge_r|apply max_of_ge_init].
  - apply IH, Hx.
Qed.

Lemma sub_pad_le (x y : Qc) : (x <= y)%Qc -> (x - ROUTE_PAD <= y)%Qc.
Proof.
  intros H. eapply Qcle_trans; [|exact H].
  assert (H0 : (0 <= ROUTE_PAD)%Qc) by (vm_compute; discriminate).
  rewrite <- (Qcplus_0_r x) at 2. unfold Qcminus.
  apply Qcplus_le_compat; [apply Qcle_refl|].
  apply Qcopp_le_compat in H0. exact H0.
Qed.

Lemma add_pad_ge (x y : Qc) : (x <= y)%Qc -> (x <= y + ROUTE_PAD)%Qc.
Proof.
  intros H. eapply Qcle_trans; [exact H|].
  assert (H0 : (0 <= ROUTE_PAD)%Qc) by (vm_compute; discriminate).
  rewrite <- (Qcplus_0_r y) at 1.
  apply Qcplus_le_compat; [apply Qcle_refl|exact H0].
Qed.

Lemma num_this (z : Z) : (this (num z) == inject_Z z)%Q.
Proof. unfold num. simpl. apply Qred_correct. Qed.

(** *** [compressOrthogonal] and [enforceRightAngleEndpoints] *)

Lemma eqb_refl (x : Qc) : eqb x x = true.
Proof. unfold eqb. apply Qeq_bool_iff. reflexivity. Qed.

(** *** [compressOrthogonal] drops points *)

Lemma compress_loop_sublist : forall pts rout,
  sublist (compress_loop rout pts) (rev rout ++ pts).
Proof.
  induction pts as [|[x y] pts IH]; intros rout.
  - simpl. rewrite app_nil_r. reflexivity.
  - cbn [compress_loop]. destruct rout as [|[ox oy] before].
    + apply (IH [(x, y)]).
    + destruct (eqb x ox && eqb y oy).
      * etransitivity; [apply IH|]. apply sublist_app; [reflexivity|].
        apply sublist_cons, reflexivity.
      * assert (Hpush : sublist (compress_loop ((x, y) :: (ox, oy) :: before) pts)
                          (rev ((ox, oy) :: before) ++ (x, y) :: pts)).
        { etransitivity; [apply IH|]. cbn [rev]. rewrite <- !app_assoc. reflexivity. }
        destruct before as [|[px py] before']; [exact Hpush|].
        destruct ((eqb px ox && eqb ox x) || (eqb py oy && eqb oy y)); [|exact Hpush].
        etransitivity; [apply IH|]. cbn [rev]. rewrite <- !app_assoc.
        apply sublist_app; [reflexivity|]. apply sublist_app; [reflexivity|].
        cbn [app]. apply sublist_cons. reflexivity.
Qed.

Lemma compressOrthogonal_sublist pts : sublist (compressOrthogonal pts) pts.
Proof.
  unfold compressOrthogonal. destruct (length pts <=? 2); [reflexivity|].
  destruct pts as [|p0 rest]; [reflexivity|]. apply (compress_loop_sublist rest [p0]).
Qed.

(** X7. [compressOrthogonal] only drops points: what it returns is a
    subsequence of its argument with the same first and the same last
    point. *)
Theorem compressOrthogonal_subsequence (pts : list Point) :
  sublist (compressOrthogonal pts) pts /\
  head (compressOrthogonal pts) = head pts /\
  last (compressOrthogonal pts) = last pts.
Proof.
  split; [apply compressOrthogonal_sublist|apply compressOrthogonal_ends].
Qed.

(** *** The first and the last segment *)

(** Once two points are out, the first segment stays on its axis. *)
Lemma compress_loop_first s : forall pts rout,
  (exists pre o1, rout = pre ++ [o1; s] /\ aligned s o1) ->
  exists o1 tl, compress_loop rout pts = s :: o1 :: tl /\ aligned s o1.
Proof.
  induction pts as [|[x y] pts IH]; intros rout (pre & o1 & -> & Hal).
  - simpl. rewrite rev_app_distr. simpl. eauto.
  - cbn [compress_loop].
    destruct (pre ++ [o1; s]) as [|[ox oy] before] eqn:E.
    { destruct pre; discriminate. }
    destruct (eqb x ox && eqb y oy).
    { apply IH. exists pre, o1. rewrite E. auto. }
    assert (Hpush : exists o1' tl, compress_loop ((x, y) :: (ox, oy) :: before) pts
                                   = s :: o1' :: tl /\ aligned s o1').
    { apply IH. exists ((x, y) :: pre), o1. rewrite <- E. auto. }
    destruct before as [|[px py] before']; [exact Hpush|].
    destruct ((eqb px ox && eqb ox x) || (eqb py oy && eqb oy y)) eqn:Hcol;
      [|exact Hpush].
    apply IH. destruct pre as [|a pre].
    + simpl in E. injection E as E1 E2 E3. subst o1 s before'.
      exists [], (x, y). split; [reflexivity|].
      apply orb_true_iff in Hcol. unfold aligned. simpl.
      destruct Hcol as [H|H]; apply andb_true_iff in H; destruct H as [H1 H2];
        apply eqb_eq in H1, H2; [left|right]; congruence.
    + simpl in E. injection E as E1 E2. exists ((x, y) :: pre), o1.
      rewrite <- E2. auto.
Qed.

(** After a point is read it is the last point out. *)
Lemma compress_loop_step pt rout :
  exists rout', (forall pts, compress_loop rout (pt :: pts) = compress_loop rout' pts) /\
                head rout' = Some pt.
Proof.
  destruct pt as [x y]. cbn [compress_loop].
  destruct rout as [|[ox oy] before]; [eexists; split; [reflexivity|reflexivity]|].
  destruct (eqb x ox && eqb y oy) eqn:Heq.
  - apply andb_true_iff in Heq. destruct Heq as [H1 H2]. apply eqb_eq in H1, H2.
    subst. eexists. split; [reflexivity|reflexivity].
  - destruct before as [|[px py] before'];
      [eexists; split; [reflexivity|reflexivity]|].
    destruct (_ || _); eexists; (split; [reflexivity|reflexivity]).
Qed.

Lemma compress_loop_snoc2 p e : forall pre rout,
  exists rout', compress_loop rout (pre ++ [p; e]) = compress_loop rout' [e] /\
                head rout' = Some p.
Proof.
  induction pre as [|pt pre IH]; intros rout.
  - destruct (compress_loop_step p rout) as (rout' & H & Hh).
    exists rout'. split; [apply H|exact Hh].
  - destruct (compress_loop_step pt rout) as (rout1 & H & _).
    cbn [app]. rewrite H. apply IH.
Qed.

Lemma compress_loop_last_segment p e pre rout :
  point_eqb e p = false -> aligned p e ->
  exists init a, compress_loop rout (pre ++ [p; e]) = init ++ [a; e] /\ aligned a e.
Proof.
  intros Hne Hal. destruct (compress_loop_snoc2 p e pre rout) as (rout' & -> & Hh).
  destruct rout' as [|o before]; [discriminate|]. simpl in Hh. injection Hh as ->.
  destruct p as [ox oy], e as [x y]. cbn [compress_loop].
  unfold point_eqb in Hne. simpl in Hne. rewrite Hne.
  assert (Hpush : exists init a, rev ((x, y) :: (ox, oy) :: before) = init ++ [a; (x, y)]
                                 /\ aligned a (x, y)).
  { exists (rev before), (ox, oy). cbn [rev]. rewrite <- app_assoc. auto. }
  destruct before as [|[px py] before']; [exact Hpush|].
  destruct ((eqb px ox && eqb ox x) || (eqb py oy && eqb oy y)) eqn:Hcol; [|exact Hpush].
  exists (rev before'), (px, py). cbn [rev]. rewrite <- app_assoc.
  split; [reflexivity|].
  apply orb_true_iff in Hcol. unfold aligned. simpl.
  destruct Hcol as [H|H]; apply andb_true_iff in H; destruct H as [H1 H2];
    apply eqb_eq in H1, H2; [left|right]; congruence.
Qed.

Lemma corner_before_end_snoc2 X p e :
  corner_before_end (X ++ [p; e]) =
    if negb (eqb e.1 p.1) && negb (eqb e.2 p.2)
    then X ++ [p; (p.1, e.2); e] else X ++ [p; e].
Proof.
  unfold corner_before_end. rewrite length_app. cbn [length].
  replace (length X + 2 - 1) with (length X + 1) by lia.
  replace (length X + 2 - 2) with (length X) by lia.
  rewrite (lookup_app_r X) by lia. replace (length X + 1 - length X) with 1 by lia.
  rewrite (lookup_app_r X) by lia. rewrite Nat.sub_diag.
  cbn [lookup list_lookup]. destruct p as [px py], e as [ex ey]. cbn [fst snd].
  destruct (negb (eqb ex px) && negb (eqb ey py)); [|reflexivity].
  rewrite take_app_ge by lia. replace (length X + 1 - length X) with 1 by lia.
  cbn [take]. rewrite <- app_assoc. reflexivity.
Qed.

(** X8. On four points or more whose first two points differ and whose
    last two points differ, [enforceRightAngleEndpoints] returns a path that
    starts at the same point with a horizontal or vertical first segment, and
    ends at the same point with a horizontal or vertical last segment. *)
Theorem enforceRightAngleEndpoints_aligned (s n p e : Point) (mid : list Point) :
  point_eqb n s = false -> point_eqb e p = false ->
  let out := enforceRightAngleEndpoints (s :: n :: mid ++ [p; e]) in
  (exists o1 tl, out = s :: o1 :: tl /\ aligned s o1) /\
  (exists init a, out = init ++ [a; e] /\ aligned a e).
Proof.
  intros Hsn Hpe. cbn zeta. unfold enforceRightAngleEndpoints.
  assert (Hlen : (length (s :: n :: mid ++ [p; e]) <? 4) = false).
  { apply Nat.ltb_ge. cbn [length]. rewrite length_app. cbn [length]. lia. }
  rewrite Hlen.
  (* the list after the two insertions *)
  assert (HL : exists x1 Y q,
             corner_before_end (corner_after_start (s :: n :: mid ++ [p; e]))
               = s :: x1 :: Y ++ [q; e] /\
             point_eqb x1 s = false /\ aligned s x1 /\
             point_eqb e q = false /\ aligned q e).
  { assert (Hstart : exists x1 Y0,
               corner_after_start (s :: n :: mid ++ [p; e]) = s :: x1 :: Y0 ++ [p; e] /\
               point_eqb x1 s = false /\ aligned s x1).
    { destruct s as [sx sy], n as [nx ny]. cbn [corner_after_start].
      destruct (negb (eqb sx nx) && negb (eqb sy ny)) eqn:Hd.
      - apply andb_true_iff in Hd. destruct Hd as [H1 H2].
        apply negb_true_iff in H1, H2.
        exists (nx, sy), ((nx, ny) :: mid). split; [reflexivity|]. split.
        + unfold point_eqb. simpl. destruct (eqb nx sx) eqn:E; [|reflexivity].
          apply eqb_eq in E. subst. rewrite eqb_refl in H1. discriminate.
        + right. reflexivity.
      - exists (nx, ny), mid. split; [reflexivity|]. split; [exact Hsn|].
        apply andb_false_iff in Hd. unfold aligned. simpl.
        destruct Hd as [H|H]; apply negb_false_iff, eqb_eq in H; auto. }
    destruct Hstart as (x1 & Y0 & -> & Hx1 & Hal1).
    change (s :: x1 :: Y0 ++ [p; e]) with ((s :: x1 :: Y0) ++ [p; e]).
    rewrite corner_before_end_snoc2.
    destruct (negb (eqb e.1 p.1) && negb (eqb e.2 p.2)) eqn:Hd.
    - apply andb_true_iff in Hd. destruct Hd as [H1 H2].
      apply negb_true_iff in H1, H2.
      exists x1, (Y0 ++ [p]), (p.1, e.2). rewrite <- !app_assoc.
      split; [reflexivity|]. split; [exact Hx1|]. split; [exact Hal1|]. split.
      + unfold point_eqb. simpl. rewrite H1. reflexivity.
      + right. reflexivity.
    - exists x1, Y0, p. split; [reflexivity|]. split; [exact Hx1|].
      split; [exact Hal1|]. split; [exact Hpe|].
      apply andb_false_iff in Hd. unfold aligned.
      destruct Hd as [H|H]; apply negb_false_iff, eqb_eq in H; auto. }
  destruct HL as (x1 & Y & q & -> & Hx1 & Hal1 & Hq & Halq).
  unfold compressOrthogonal.
  assert (Hlen2 : (length (s :: x1 :: Y ++ [q; e]) <=? 2) = false).
  { apply Nat.leb_gt. cbn [length]. rewrite length_app. cbn [length]. lia. }
  rewrite Hlen2. split.
  - destruct s as [sx sy], x1 as [x y]. cbn [compress_loop].
    unfold point_eqb in Hx1. simpl in Hx1. rewrite Hx1.
    apply compress_loop_first. exists [], (x, y). auto.
  - change (x1 :: Y ++ [q; e]) with ((x1 :: Y) ++ [q; e]).
    apply compress_loop_last_segment; assumption.
Qed.

Lemma enforceRightAngleEndpoints_aligned_witness :
  let s := (num 0, num 0) in
  let e := (num 50, num 60) in
  let out := enforceRightAngleEndpoints [s; (num 24, num 10); (num 24, num 48); e] in
  (exists o1 tl, out = s :: o1 :: tl /\ aligned s o1) /\
  (exists init a, out = init ++ [a; e] /\ aligned a e).
Proof.
  apply (enforceRightAngleEndpoints_aligned (num 0, num 0) (num 24, num 10)
           (num 24, num 48) (num 50, num 60) []); vm_compute; reflexivity.
Defined.

(** *** The search window *)

(** The search window holds the two snapped cells. *)
Lemma routeBounds_ends start goal obstacles :
  inBounds (routeBounds start goal obstacles) start = true /\
  inBounds (routeBounds start goal obstacles) goal = true.
Proof.
  unfold inBounds, routeBounds. cbn [minX minY maxX maxY].
  split; rewrite !andb_true_iff, !leb_le; repeat split;
    first [ apply sub_pad_le, min_of_le_init
          | apply add_pad_ge, max_of_ge_init
          | apply sub_pad_le, min_of_le_elem, list_elem_of_here
          | apply add_pad_ge, max_of_ge_elem, list_elem_of_here ].
Qed.

Lemma nudgeOut_inBounds b obstacles step c :
  inBounds b c = true -> inBounds b (nudgeOut b obstacles step c) = true.
Proof.
  intros Hc. unfold nudgeOut. destruct (negb _); [exact Hc|].
  destruct (List.find _ _) as [ok|] eqn:E; [|exact Hc].
  apply List.find_some in E. destruct E as [_ E]. unfold free_cell in E.
  apply andb_true_iff in E. tauto.
Qed.

Lemma setup_in_bounds startWorld endWorld obstacles step :
  let su := setup startWorld endWorld obstacles step in
  inBounds (su_bounds su) (su_start su) = true /\
  inBounds (su_bounds su) (su_goal su) = true.
Proof.
  cbn zeta. unfold setup. cbn [su_bounds su_start su_goal].
  split; apply nudgeOut_inBounds; apply routeBounds_ends.
Qed.

(** *** The route of the search *)

Lemma foldl_inv_in {A B} (f : A -> B -> A) (P : A -> Prop) : forall l a,
  (forall a b, b ∈ l -> P a -> P (f a b)) -> P a -> P (foldl f a l).
Proof.
  induction l as [|b l IH]; intros a Hf Ha; simpl; [exact Ha|].
  apply IH.
  - intros a' b' Hb'. apply Hf. apply list_elem_of_further, Hb'.
  - apply Hf; [apply list_elem_of_here|exact Ha].
Qed.

Lemma walk_back_linked cf : forall fuel k path res,
  walk_back fuel cf k path = Some res ->
  exists ext, res = path ++ ext /\ linked cf k ext.
Proof.
  induction fuel as [|fuel IH]; intros k path res H; simpl in H.
  - destruct (cf !! k) as [prev|] eqn:E; [discriminate|]. injection H as <-.
    exists []. rewrite app_nil_r. split; [reflexivity|exact E].
  - destruct (cf !! k) as [prev|] eqn:E.
    + apply IH in H. destruct H as (ext & -> & Hl).
      exists (prev :: ext). rewrite <- app_assoc. split; [reflexivity|].
      split; [exact E|exact Hl].
    + injection H as <-. exists []. rewrite app_nil_r. split; [reflexivity|exact E].
Qed.

Lemma grid_walk_snoc step : forall cells p k,
  last cells = Some p -> k ∈ neighbors step p -> grid_walk step cells ->
  grid_walk step (cells ++ [k]).
Proof.
  induction cells as [|c cells IH]; intros p k Hl Hk Hw; [discriminate|].
  destruct cells as [|c2 cells].
  - assert (c = p) as -> by (cbv in Hl; congruence). simpl. auto.
  - destruct Hw as [H1 H2]. split; [exact H1|].
    apply (IH p k); [exact Hl|exact Hk|exact H2].
Qed.

Lemma linked_route b obstacles step s st :
  links_ok b obstacles step s st ->
  forall ext k,
    k = s \/ is_Some (cameFrom st !! k) ->
    linked (cameFrom st) k ext ->
    route_cells b obstacles step s k (rev (k :: ext)).
Proof.
  intros Hok. induction ext as [|p ext IH]; intros k Hk Hl.
  - simpl in Hl. destruct Hk as [->|[x Hx]]; [|congruence].
    constructor; simpl; auto.
  - destruct Hl as [Hkp Hl].
    destruct (IH p (lk_back _ _ _ _ _ Hok _ _ Hkp) Hl) as [Hh Hla Hw Hf].
    destruct (lk_free _ _ _ _ _ Hok _ _ Hkp) as [Hfree Hnb].
    change (rev (k :: p :: ext)) with (rev (p :: ext) ++ [k]).
    destruct (rev (p :: ext)) as [|c0 cells] eqn:E; [discriminate|].
    constructor.
    + exact Hh.
    + rewrite last_snoc. reflexivity.
    + eapply grid_walk_snoc; eauto.
    + simpl. apply Forall_app. split; [exact Hf|]. constructor; [exact Hfree|constructor].
Qed.

Lemma visit_links_ok b obstacles step s g current st nb :
  nb ∈ neighbors step current ->
  current = s \/ is_Some (cameFrom st !! current) ->
  links_ok b obstacles step s st ->
  links_ok b obstacles step s (visit b obstacles g current st nb) /\
  (current = s \/ is_Some (cameFrom (visit b obstacles g current st nb) !! current)).
Proof.
  intros Hnb Hcur Hok. unfold visit.
  destruct (inBounds b nb) eqn:Hin; cbn [negb]; [|auto].
  destruct (isBlocked nb.1 nb.2 obstacles) eqn:Hbl; [auto|].
  destruct (lt_inf Nat.ltb (S <$> gScore st !! current) (gScore st !! nb)) eqn:Hlt; [|auto].
  apply lt_inf_nat_Some in Hlt. destruct Hlt as (t & Ht & Hlt). rewrite Ht.
  destruct (gScore st !! current) as [gc|] eqn:Hgc; [|discriminate].
  simpl in Ht. injection Ht as <-.
  assert (Hns : nb <> s).
  { intros ->. specialize (Hlt 0 (lk_start_score _ _ _ _ _ Hok)). lia. }
  split.
  - constructor; cbn [cameFrom gScore].
    + intros k p Hk. destruct (decide (k = nb)) as [->|Hne].
      * rewrite lookup_insert_eq in Hk. injection Hk as <-.
        split; [|exact Hnb]. unfold free_cell. rewrite Hin, Hbl. reflexivity.
      * rewrite lookup_insert_ne in Hk by congruence. eapply lk_free; eauto.
    + intros k p Hk. destruct (decide (k = nb)) as [->|Hne].
      * rewrite lookup_insert_eq in Hk. injection Hk as <-.
        destruct Hcur as [->|[x Hx]]; [left; reflexivity|right].
        destruct (decide (current = nb)) as [->|Hc].
        -- rewrite lookup_insert_eq. eauto.
        -- rewrite lookup_insert_ne by congruence. eauto.
      * rewrite lookup_insert_ne in Hk by congruence.
        destruct (lk_back _ _ _ _ _ Hok _ _ Hk) as [->|[x Hx]]; [left; reflexivity|right].
        destruct (decide (p = nb)) as [->|Hp].
        -- rewrite lookup_insert_eq. eauto.
        -- rewrite lookup_insert_ne by congruence. eauto.
    + rewrite lookup_insert_ne by exact Hns. eapply lk_start, Hok.
    + rewrite lookup_insert_ne by exact Hns. eapply lk_start_score, Hok.
  - cbn [cameFrom]. destruct Hcur as [->|[x Hx]]; [left; reflexivity|right].
    destruct (decide (current = nb)) as [->|Hc].
    + rewrite lookup_insert_eq. eauto.
    + rewrite lookup_insert_ne by congruence. eauto.
Qed.

Lemma iteration_route b obstacles step startWorld endWorld s g st r :
  open_ok s st -> links_ok b obstacles step s st ->
  iteration b obstacles step startWorld endWorld g st = Some r ->
  match r with
  | inl st' => open_ok s st' /\ links_ok b obstacles step s st'
  | inr pts => exists cells,
      pts = compressOrthogonal (exact_endpoints startWorld endWorld cells) /\
      route_cells b obstacles step s g cells
  end.
Proof.
  intros Hopen Hok Hit.
  pose proof (iteration_ends _ _ _ _ _ s _ _ _ Hopen Hit) as Hends.
  revert Hit. unfold iteration.
  destruct (open st !! bestIndex st) as [current|] eqn:Hcur; [|discriminate].
  cbn [mbind option_bind]. cbn [cameFrom gScore].
  pose proof (Hopen current (list_elem_of_lookup_2 _ _ _ Hcur)) as Hc.
  destruct (point_eqb current g) eqn:Hg.
  - apply point_eqb_eq in Hg. subst g.
    destruct (walk_back _ (cameFrom st) current [current]) as [path|] eqn:Hw;
      [|discriminate].
    cbn [mbind option_bind]. intros H. injection H as <-.
    apply walk_back_linked in Hw. destruct Hw as (ext & -> & Hl).
    exists (rev ([current] ++ ext)). split; [reflexivity|].
    eapply linked_route; eauto.
  - intros H. injection H as <-. split; [exact Hends|].
    set (st0 := mkAStar _ _ _ _).
    assert (H0 : links_ok b obstacles step s st0 /\
                 (current = s \/ is_Some (cameFrom st0 !! current))).
    { split; [|exact Hc]. destruct Hok. constructor; assumption. }
    assert (Hstep : forall a nb, nb ∈ neighbors step current ->
              links_ok b obstacles step s a /\
              (current = s \/ is_Some (cameFrom a !! current)) ->
              links_ok b obstacles step s (visit b obstacles g current a nb) /\
              (current = s \/
               is_Some (cameFrom (visit b obstacles g current a nb) !! current))).
    { intros a nb Hnb [Ha1 Ha2]. apply visit_links_ok; assumption. }
    pose proof (foldl_inv_in (visit b obstacles g current)
                  (fun st => links_ok b obstacles step s st /\
                             (current = s \/ is_Some (cameFrom st !! current)))
                  (neighbors step current) st0 Hstep H0) as [HH _].
    exact HH.
Qed.

Lemma main_loop_route b obstacles step startWorld endWorld s g :
  forall fuel st iters pts n,
    open_ok s st -> links_ok b obstacles step s st ->
    main_loop fuel b obstacles step startWorld endWorld g st iters = Some (Some pts, n) ->
    exists cells,
      pts = compressOrthogonal (exact_endpoints startWorld endWorld cells) /\
      route_cells b obstacles step s g cells.
Proof.
  induction fuel as [|fuel IH]; intros st iters pts n Hopen Hok H; [discriminate|].
  cbn [main_loop] in H.
  destruct (negb (0 <? length (open st)) || negb (iters <? ROUTE_MAX_ITERS));
    [discriminate|].
  destruct (iteration b obstacles step startWorld endWorld g st) as [r|] eqn:Hit;
    [|discriminate].
  cbn [mbind option_bind] in H.
  pose proof (iteration_route _ _ _ _ _ s _ _ _ Hopen Hok Hit) as Hr.
  destruct r as [st'|pts'].
  - destruct Hr as [Ho Hl]. eapply IH; eauto.
  - injection H as <- _. exact Hr.
Qed.

Lemma found_route_cells startWorld endWorld obstacles step pts :
  routeManhattanAStar startWorld endWorld obstacles step = Some (Some pts) ->
  let su := setup startWorld endWorld obstacles step in
  exists cells,
    pts = compressOrthogonal (exact_endpoints startWorld endWorld cells) /\
    route_cells (su_bounds su) obstacles step (su_start su) (su_goal su) cells.
Proof.
  intros H su. unfold routeManhattanAStar, routeManhattanAStar_counted in H.
  fold su in H.
  destruct (main_loop _ _ _ _ _ _ _ _ _) as [[r n]|] eqn:Hm; [|discriminate].
  simpl in H. injection H as ->.
  apply (main_loop_route _ _ _ _ _ (su_start su)) in Hm.
  - exact Hm.
  - intros c Hc. cbn in Hc. apply list_elem_of_singleton in Hc. left. exact Hc.
  - constructor; cbn.
    + intros k p Hk. rewrite lookup_empty in Hk. discriminate.
    + intros k p Hk. rewrite lookup_empty in Hk. discriminate.
    + apply lookup_empty.
    + apply lookup_singleton_eq.
Qed.

Lemma num_add (a b : Z) : num (a + b) = (num a + num b)%Qc.
Proof.
  apply Qc_is_canon. unfold num. simpl. rewrite !Qred_correct.
  rewrite inject_Z_plus. reflexivity.
Qed.

Lemma grid_plus (z k : Z) (step : Qc) :
  (num z * step + num k * step)%Qc = (num (z + k) * step)%Qc.
Proof. rewrite num_add. ring. Qed.

Lemma on_grid_shift step c (kx ky : Z) :
  on_grid step c ->
  on_grid step (c.1 + num kx * step, c.2 + num ky * step)%Qc.
Proof.
  intros (zx & zy & ->). exists (zx + kx)%Z, (zy + ky)%Z. simpl.
  rewrite !grid_plus. reflexivity.
Qed.

Lemma on_grid_neighbors step c k :
  on_grid step c -> k ∈ neighbors step c -> on_grid step k.
Proof.
  intros Hc Hk. unfold neighbors in Hk.
  assert (E1 : num 1 = 1%Qc) by reflexivity.
  assert (Em : num (-1) = (- (1))%Qc) by reflexivity.
  assert (E0 : num 0 = 0%Qc) by reflexivity.
  repeat (apply elem_of_cons in Hk; destruct Hk as [->|Hk]); [| | | |inversion Hk].
  - replace (c.1 + step, c.2)%Qc with (c.1 + num 1 * step, c.2 + num 0 * step)%Qc;
      [apply on_grid_shift, Hc|]. rewrite E1, E0. f_equal; ring.
  - replace (c.1 - step, c.2)%Qc with (c.1 + num (-1) * step, c.2 + num 0 * step)%Qc;
      [apply on_grid_shift, Hc|]. rewrite Em, E0. f_equal; ring.
  - replace (c.1, c.2 + step)%Qc with (c.1 + num 0 * step, c.2 + num 1 * step)%Qc;
      [apply on_grid_shift, Hc|]. rewrite E1, E0. f_equal; ring.
  - replace (c.1, c.2 - step)%Qc with (c.1 + num 0 * step, c.2 + num (-1) * step)%Qc;
      [apply on_grid_shift, Hc|]. rewrite Em, E0. f_equal; ring.
Qed.

Lemma on_grid_candidates step c k :
  on_grid step c -> k ∈ candidates step c -> on_grid step k.
Proof.
  intros Hc Hk. unfold candidates in Hk.
  assert (E1 : num 1 = 1%Qc) by reflexivity.
  assert (Em : num (-1) = (- (1))%Qc) by reflexivity.
  assert (E0 : num 0 = 0%Qc) by reflexivity.
  assert (E2 : num 2 = (1 + 1)%Qc) by reflexivity.
  assert (Em2 : num (-2) = (- (1 + 1))%Qc) by reflexivity.
  repeat (apply elem_of_cons in Hk; destruct Hk as [->|Hk]); [| | | | | |inversion Hk].
  - replace (c.1 + step, c.2)%Qc with (c.1 + num 1 * step, c.2 + num 0 * step)%Qc;
      [apply on_grid_shift, Hc|]. rewrite E1, E0. f_equal; ring.
  - replace (c.1 - step, c.2)%Qc with (c.1 + num (-1) * step, c.2 + num 0 * step)%Qc;
      [apply on_grid_shift, Hc|]. rewrite Em, E0. f_equal; ring.
  - replace (c.1, c.2 + step)%Qc with (c.1 + num 0 * step, c.2 + num 1 * step)%Qc;
      [apply on_grid_shift, Hc|]. rewrite E1, E0. f_equal; ring.
  - replace (c.1, c.2 - step)%Qc with (c.1 + num 0 * step, c.2 + num (-1) * step)%Qc;
      [apply on_grid_shift, Hc|]. rewrite Em, E0. f_equal; ring.
  - replace (c.1 + step * num 2, c.2)%Qc
      with (c.1 + num 2 * step, c.2 + num 0 * step)%Qc;
      [apply on_grid_shift, Hc|]. rewrite E0. f_equal; ring.
  - replace (c.1 - step * num 2, c.2)%Qc
      with (c.1 + num (-2) * step, c.2 + num 0 * step)%Qc;
      [apply on_grid_shift, Hc|]. rewrite Em2, E2, E0. f_equal; ring.
Qed.

Lemma nudgeOut_on_grid b obstacles step c :
  on_grid step c -> on_grid step (nudgeOut b obstacles step c).
Proof.
  intros Hc. unfold nudgeOut. destruct (negb _); [exact Hc|].
  destruct (List.find _ _) as [ok|] eqn:E; [|exact Hc].
  apply List.find_some in E. destruct E as [E _].
  eapply on_grid_candidates; [exact Hc|]. apply list_elem_of_In, E.
Qed.

Lemma setup_on_grid startWorld endWorld obstacles step :
  on_grid step (su_start (setup startWorld endWorld obstacles step)) /\
  on_grid step (su_goal (setup startWorld endWorld obstacles step)).
Proof.
  unfold setup. cbn [su_start su_goal].
  split; apply nudgeOut_on_grid; unfold snap; eexists _, _; reflexivity.
Qed.

Lemma grid_walk_on_grid step : forall cells c,
  head cells = Some c -> on_grid step c -> grid_walk step cells ->
  Forall (on_grid step) cells.
Proof.
  induction cells as [|c1 cells IH]; intros c Hh Hc Hw; [constructor|].
  simpl in Hh. injection Hh as ->. constructor; [exact Hc|].
  destruct Hw as [H1 H2]. destruct cells as [|c2 cells]; [constructor|].
  apply (IH c2); [reflexivity| |exact H2].
  eapply on_grid_neighbors; eauto.
Qed.

Lemma insert_snoc {A} (x y : A) : forall l : list A,
  <[length l := y]> (l ++ [x]) = l ++ [y].
Proof. induction l as [|a l IH]; simpl; [reflexivity|]. f_equal. exact IH. Qed.

Lemma exact_endpoints_shape startWorld endWorld c0 cm cz :
  exact_endpoints startWorld endWorld (c0 :: cm ++ [cz]) = startWorld :: cm ++ [endWorld].
Proof.
  unfold exact_endpoints.
  change (<[0 := startWorld]> (c0 :: cm ++ [cz])) with (startWorld :: cm ++ [cz]).
  assert (E : length (startWorld :: cm ++ [cz]) - 1 = S (length cm)).
  { cbn [length]. rewrite length_app. cbn [length]. lia. }
  rewrite E.
  change (<[S (length cm) := endWorld]> (startWorld :: cm ++ [cz]))
    with (startWorld :: <[length cm := endWorld]> (cm ++ [cz])).
  rewrite insert_snoc. reflexivity.
Qed.

Lemma sublist_middle {A} (P : A -> Prop) (p0 pz a z : A) mid m :
  sublist (p0 :: mid ++ [pz]) (a :: m ++ [z]) -> Forall P m -> Forall P mid.
Proof.
  intros Hs Hm. apply sublist_cons_l in Hs. destruct Hs as (k1 & k2 & E & Hs).
  apply sublist_app_l in Hs. destruct Hs as (k3 & k4 & -> & H3 & H4).
  assert (Hk3 : Forall P k3).
  { assert (E' : exists pre, m ++ [z] = pre ++ k3 ++ k4).
    { destruct k1 as [|a' k1]; simpl in E; injection E as _ E.
      - exists []. exact E.
      - exists (k1 ++ [p0]). rewrite <- app_assoc. exact E. }
    destruct E' as (pre & E').
    destruct (exists_last (l := k4)) as (k4' & y & ->).
    { intros ->. apply sublist_nil_r in H4. discriminate. }
    rewrite !app_assoc in E'. apply app_inj_tail in E'. destruct E' as [-> _].
    apply Forall_app in Hm. destruct Hm as [Hm _].
    apply Forall_app in Hm. tauto. }
  rewrite Forall_forall in Hk3 |- *. intros x Hx. apply Hk3.
  eapply elem_of_sublist; eauto.
Qed.

(** X9. A route the search returns is made from a walk on the grid: the
    walk starts at the start cell and ends at the goal cell, each of its steps
    goes to one of the four neighbours, all its cells are cells of the grid in
    bounds, and all but the first are outside every obstacle. The route is the
    walk with the two anchors for its first and last cell, compressed. *)
Theorem route_is_grid_walk (startWorld endWorld : Point) (obstacles : list AARect)
  (step : Qc) (pts : list Point) :
  routeManhattanAStar startWorld endWorld obstacles step = Some (Some pts) ->
  let su := setup startWorld endWorld obstacles step in
  exists cells,
    pts = compressOrthogonal (exact_endpoints startWorld endWorld cells) /\
    head cells = Some (su_start su) /\ last cells = Some (su_goal su) /\
    grid_walk step cells /\
    Forall (fun k => on_grid step k /\ inBounds (su_bounds su) k = true) cells /\
    Forall (fun k => isBlocked k.1 k.2 obstacles = false) (tail cells).
Proof.
  intros H su. destruct (found_route_cells _ _ _ _ _ H) as (cells & Hpts & [Hh Hl Hw Hf]).
  fold su in Hh, Hl, Hf. exists cells.
  split; [exact Hpts|]. split; [exact Hh|]. split; [exact Hl|]. split; [exact Hw|].
  destruct (setup_on_grid startWorld endWorld obstacles step) as [Hgs _].
  destruct (setup_in_bounds startWorld endWorld obstacles step) as [Hbs _].
  fold su in Hgs, Hbs.
  pose proof (grid_walk_on_grid _ _ _ Hh Hgs Hw) as Hg.
  split.
  - destruct cells as [|c0 cells]; [constructor|].
    simpl in Hh. injection Hh as ->. simpl in Hf.
    inversion Hg as [|? ? Hg0 Hg']; subst. constructor; [auto|].
    rewrite Forall_forall in Hg', Hf |- *. intros k Hk. split; [auto|].
    specialize (Hf k Hk). unfold free_cell in Hf. apply andb_true_iff in Hf. tauto.
  - eapply Forall_impl; [exact Hf|]. intros k Hk. unfold free_cell in Hk.
    apply andb_true_iff in Hk. destruct Hk as [_ H2]. apply negb_true_iff in H2. exact H2.
Qed.

Lemma route_is_grid_walk_witness :
  routeManhattanAStar (num 0, num 0) (num 100, num 10) sample_wall ROUTE_GRID
    = Some (Some sample_route) /\
  let su := setup (num 0, num 0) (num 100, num 10) sample_wall ROUTE_GRID in
  exists cells,
    sample_route = compressOrthogonal (exact_endpoints (num 0, num 0) (num 100, num 10) cells) /\
    head cells = Some (su_start su) /\ last cells = Some (su_goal su) /\
    grid_walk ROUTE_GRID cells /\
    Forall (fun k => on_grid ROUTE_GRID k /\ inBounds (su_bounds su) k = true) cells /\
    Forall (fun k => isBlocked k.1 k.2 sample_wall = false) (tail cells).
Proof.
  assert (H : routeManhattanAStar (num 0, num 0) (num 100, num 10) sample_wall ROUTE_GRID
              = Some (Some sample_route)) by (vm_compute; reflexivity).
  split; [exact H|]. exact (route_is_grid_walk _ _ _ _ _ H).
Defined.

(** X10. Every point of a returned route other than its first and its last
    point is a cell of the grid, in bounds and outside every obstacle. *)
Theorem route_bends_are_free_cells (startWorld endWorld : Point)
  (obstacles : list AARect) (step : Qc) (pts : list Point) :
  routeManhattanAStar startWorld endWorld obstacles step = Some (Some pts) ->
  forall p0 mid pz, pts = p0 :: mid ++ [pz] ->
    Forall (fun k => on_grid step k /\
                     inBounds (su_bounds (setup startWorld endWorld obstacles step)) k = true /\
                     isBlocked k.1 k.2 obstacles = false) mid.
Proof.
  intros H p0 mid pz Hpts.
  destruct (found_route_cells _ _ _ _ _ H) as (cells & Hc & [Hh Hl Hw Hf]).
  set (su := setup startWorld endWorld obstacles step) in *.
  destruct (setup_on_grid startWorld endWorld obstacles step) as [Hgs _]. fold su in Hgs.
  pose proof (grid_walk_on_grid _ _ _ Hh Hgs Hw) as Hg.
  destruct cells as [|c0 cells]; [discriminate|].
  destruct cells as [|c1 cells'] eqn:Ecells.
  - rewrite exact_endpoints_one in Hc.
    subst pts. unfold compressOrthogonal in Hc. simpl in Hc.
    apply (f_equal (@length _)) in Hc. simpl in Hc. rewrite length_app in Hc.
    simpl in Hc. lia.
  - rewrite <- Ecells in *.
    destruct (exists_last (l := cells)) as (cm & cz & ->); [subst cells; discriminate|].
    clear Ecells. pose proof (compressOrthogonal_sublist
                  (exact_endpoints startWorld endWorld (c0 :: cm ++ [cz]))) as Hs.
    rewrite <- Hc, Hpts, exact_endpoints_shape in Hs.
    eapply sublist_middle; [exact Hs|].
    simpl in Hf. apply Forall_app in Hf. destruct Hf as [Hf _].
    inversion Hg as [|? ? _ Hg']; subst. apply Forall_app in Hg'. destruct Hg' as [Hg' _].
    rewrite Forall_forall in Hg', Hf |- *. intros k Hk. split; [auto|].
    specialize (Hf k Hk). unfold free_cell in Hf. apply andb_true_iff in Hf.
    destruct Hf as [H1 H2]. apply negb_true_iff in H2. auto.
Qed.

Lemma route_bends_are_free_cells_witness :
  routeManhattanAStar (num 0, num 0) (num 100, num 10) sample_wall ROUTE_GRID
    = Some (Some sample_route) /\
  Forall (fun k => on_grid ROUTE_GRID k /\
            inBounds (su_bounds (setup (num 0, num 0) (num 100, num 10) sample_wall
                                   ROUTE_GRID)) k = true /\
            isBlocked k.1 k.2 sample_wall = false)
    [(num 24, num 0); (num 24, num 72); (num 96, num 72); (num 96, num 24)].
Proof.
  assert (H : routeManhattanAStar (num 0, num 0) (num 100, num 10) sample_wall ROUTE_GRID
              = Some (Some sample_route)) by (vm_compute; reflexivity).
  split; [exact H|].
  exact (route_bends_are_free_cells _ _ _ _ _ H (num 0, num 0)
           [(num 24, num 0); (num 24, num 72); (num 96, num 72); (num 96, num 24)]
           (num 100, num 10) eq_refl).
Defined.

(** *** The label *)

Lemma ltb_lt (x y : Qc) : ltb x y = true <-> (x < y)%Qc.
Proof.
  change (ltb x y) with (negb (leb y x)). rewrite negb_true_iff. split.
  - intros H. apply leb_false_lt, H.
  - intros H. destruct (leb y x) eqn:E; [|reflexivity].
    apply leb_le in E. exfalso. eapply Qclt_not_le; eauto.
Qed.

Lemma ltb_ge (x y : Qc) : ltb x y = false <-> (y <= x)%Qc.
Proof.
  change (ltb x y) with (negb (leb y x)). rewrite negb_false_iff. apply leb_le.
Qed.






(** *** Double precision *)

(** Reading an inequality of [Qc] in [Q], where [lra] decides it. *)
Lemma this_plus (x y : Qc) : (this (x + y)%Qc == this x + this y)%Q.
Proof. unfold Qcplus. simpl. apply Qred_correct. Qed.

Lemma this_minus (x y : Qc) : (this (x - y)%Qc == this x - this y)%Q.
Proof. unfold Qcminus, Qcplus, Qcopp. simpl. rewrite !Qred_correct. reflexivity. Qed.

Lemma this_mult (x y : Qc) : (this (x * y)%Qc == this x * this y)%Q.
Proof. unfold Qcmult. simpl. apply Qred_correct. Qed.

Lemma this_opp (x : Qc) : (this (- x)%Qc == - this x)%Q.
Proof. unfold Qcopp. simpl. apply Qred_correct. Qed.

Lemma this_half : (this half == 1 # 2)%Q.
Proof. reflexivity. Qed.

Ltac to_Q :=
  unfold Qcle, Qclt in *;
  repeat match goal with
         | H : context [this (_ + _)%Qc] |- _ => rewrite this_plus in H
         | H : context [this (_ - _)%Qc] |- _ => rewrite this_minus in H
         | H : context [this (_ * _)%Qc] |- _ => rewrite this_mult in H
         | H : context [this (- _)%Qc] |- _ => rewrite this_opp in H
         | H : context [this (num _)] |- _ => rewrite num_this in H
         | H : context [this half] |- _ => rewrite this_half in H
         | |- context [this (_ + _)%Qc] => rewrite this_plus
         | |- context [this (_ - _)%Qc] => rewrite this_minus
         | |- context [this (_ * _)%Qc] => rewrite this_mult
         | |- context [this (- _)%Qc] => rewrite this_opp
         | |- context [this (num _)] => rewrite num_this
         | |- context [this half] => rewrite this_half
         end;
  rewrite ?inject_Z_plus in *;
  change (this 1%Qc) with 1%Q in *; change (this 0%Qc) with 0%Q in *;
  repeat match goal with
         | H : context [inject_Z (Zpos ?p)] |- _ =>
             change (inject_Z (Zpos p)) with (Zpos p # 1)%Q in H
         | H : context [inject_Z (Zneg ?p)] |- _ =>
             change (inject_Z (Zneg p)) with (Zneg p # 1)%Q in H
         | |- context [inject_Z (Zpos ?p)] =>
             change (inject_Z (Zpos p)) with (Zpos p # 1)%Q
         | |- context [inject_Z (Zneg ?p)] =>
             change (inject_Z (Zneg p)) with (Zneg p # 1)%Q
         end;
  change (inject_Z 0) with 0%Q in *.

Lemma floor_le (x : Qc) : (num (Qfloor x) <= x)%Qc.
Proof. to_Q. apply Qfloor_le. Qed.

Lemma floor_gt (x : Qc) : (x < num (Qfloor x) + 1)%Qc.
Proof.
  pose proof (Qlt_floor x) as H. to_Q. exact H.
Qed.

Lemma rne_err (x : Qc) :
  (num (Double.rne x) - half <= x)%Qc /\ (x <= num (Double.rne x) + half)%Qc.
Proof.
  pose proof (floor_le x) as H1. pose proof (floor_gt x) as H2.
  unfold Double.rne. cbn zeta.
  destruct (ltb (x - num (Qfloor x)) half) eqn:E1.
  - apply ltb_lt in E1. to_Q. split; lra.
  - apply ltb_ge in E1. destruct (ltb half (x - num (Qfloor x))) eqn:E2.
    + apply ltb_lt in E2. to_Q. split; lra.
    + apply ltb_ge in E2. destruct (Z.even (Qfloor x)); to_Q; split; lra.
Qed.

Lemma num_mul (a b : Z) : num (a * b) = (num a * num b)%Qc.
Proof.
  apply Qc_is_canon. to_Q. rewrite inject_Z_mult. reflexivity.
Qed.

Lemma num_lt (a b : Z) : (a < b)%Z -> (num a < num b)%Qc.
Proof. intros H. to_Q. rewrite <- Zlt_Qlt. exact H. Qed.

Lemma num_le (a b : Z) : (a <= b)%Z -> (num a <= num b)%Qc.
Proof. intros H. to_Q. rewrite <- Zle_Qle. exact H. Qed.

Lemma num_lt_inv (a b : Z) : (num a < num b)%Qc -> (a < b)%Z.
Proof. intros H. to_Q. rewrite <- Zlt_Qlt in H. exact H. Qed.

Lemma num_le_inv (a b : Z) : (num a <= num b)%Qc -> (a <= b)%Z.
Proof. intros H. to_Q. rewrite <- Zle_Qle in H. exact H. Qed.

Lemma num_pow2_neq (j : Z) : (0 <= j)%Z -> num (2 ^ j) <> 0%Qc.
Proof.
  intros Hj E. assert (H : (0 < 2 ^ j)%Z) by (apply Z.pow_pos_nonneg; lia).
  apply num_lt in H. rewrite E in H. apply Qclt_not_eq in H. apply H. reflexivity.
Qed.

Lemma pow2_inv (j : Z) : (0 <= j)%Z -> (Double.pow2 (- j) * num (2 ^ j) = 1)%Qc.
Proof.
  intros Hj. unfold Double.pow2. destruct (0 <=? - j)%Z eqn:E.
  - apply Z.leb_le in E. assert (j = 0%Z) by lia. subst j. reflexivity.
  - rewrite Z.opp_involutive. field. apply num_pow2_neq, Hj.
Qed.

Lemma pow2_neg_pos (j : Z) : (0 <= j)%Z -> (0 < Double.pow2 (- j))%Qc.
Proof.
  intros Hj. pose proof (pow2_inv j Hj) as H.
  assert (Hp : (0 < num (2 ^ j))%Qc) by (apply (num_lt 0); apply Z.pow_pos_nonneg; lia).
  destruct (Qclt_le_dec 0 (Double.pow2 (- j))) as [H0|H0]; [exact H0|exfalso].
  assert (H1 : (Double.pow2 (- j) * num (2 ^ j) <= 0 * num (2 ^ j))%Qc).
  { apply Qcmult_le_compat_r; [exact H0|apply Qclt_le_weak, Hp]. }
  rewrite H in H1. revert H1. apply Qclt_not_le. reflexivity.
Qed.

(** [2^(-k) = 2^(j-k) * 2^(-j)] *)
Lemma pow2_split (j k : Z) : (0 <= k <= j)%Z ->
  Double.pow2 (- k) = (num (2 ^ (j - k)) * Double.pow2 (- j))%Qc.
Proof.
  intros H. pose proof (pow2_inv j ltac:(lia)) as Hj.
  pose proof (pow2_inv k ltac:(lia)) as Hk.
  assert (E : num (2 ^ j) = (num (2 ^ (j - k)) * num (2 ^ k))%Qc).
  { rewrite <- num_mul, <- Z.pow_add_r by lia. f_equal. f_equal. lia. }
  rewrite E in Hj.
  transitivity (Double.pow2 (- k) * (Double.pow2 (- j) * (num (2 ^ (j - k)) * num (2 ^ k))))%Qc.
  - rewrite Hj. ring.
  - transitivity (num (2 ^ (j - k)) * Double.pow2 (- j) * (Double.pow2 (- k) * num (2 ^ k)))%Qc; [ring|].
    rewrite Hk. ring.
Qed.

Lemma floor_num (z : Z) : Qfloor (num z) = z.
Proof.
  transitivity (Qfloor (inject_Z z)); [|apply Qfloor_Z].
  apply Qfloor_comp, num_this.
Qed.

Lemma rne_num (z : Z) : Double.rne (num z) = z.
Proof.
  unfold Double.rne. cbn zeta. rewrite floor_num.
  replace (num z - num z)%Qc with 0%Qc by ring. reflexivity.
Qed.

(** A number with no binary digit below the last one a double keeps is a
    double. *)
Lemma fl_exact (x : Qc) (z k : Z) :
  (0 <= k)%Z -> x = (num z * Double.pow2 (- k))%Qc -> (Double.ulp_exp x <= - k)%Z -> Double.fl x = x.
Proof.
  intros Hk Hx Hp. unfold Double.fl. destruct (eqb x 0) eqn:E0.
  - apply eqb_eq in E0. congruence.
  - set (j := (- Double.ulp_exp x)%Z). replace (Double.ulp_exp x) with (- j)%Z by lia.
    assert (Hj : (0 <= k <= j)%Z) by lia.
    assert (Hpos : Double.pow2 (- j) <> 0%Qc).
    { intros E. pose proof (pow2_neg_pos j ltac:(lia)) as H. rewrite E in H.
      apply Qclt_not_eq in H. apply H. reflexivity. }
    assert (Ex : x = (num (z * 2 ^ (j - k)) * Double.pow2 (- j))%Qc).
    { rewrite Hx, (pow2_split j k Hj), num_mul. ring. }
    replace (x / Double.pow2 (- j))%Qc with (num (z * 2 ^ (j - k))).
    + rewrite rne_num. symmetry. exact Ex.
    + rewrite Ex at 1. field. exact Hpos.
Qed.

Lemma Qcabs_num (z : Z) : Qcabs (num z) = num (Z.abs z).
Proof.
  apply Qc_is_canon. unfold Qcabs. cbn [this]. rewrite !num_this.
  unfold Qabs.Qabs, inject_Z. reflexivity.
Qed.

(** The binary exponent of a number below [2^(E+1)] is at most [E]. *)
Lemma ilog2_le (x : Qc) (E : Z) :
  (0 <= E)%Z -> (Qcabs x < num (2 ^ (E + 1)))%Qc -> (Double.ilog2 x <= E)%Z.
Proof.
  intros HE Hx. unfold Double.ilog2. destruct (leb 1 (Qcabs x)) eqn:E1.
  - apply leb_le in E1.
    assert (H1 : (1 <= Qfloor (Qcabs x))%Z).
    { assert (H : (Qfloor 1%Qc <= Qfloor (Qcabs x))%Z) by (apply Qfloor_resp_le, E1).
      exact H. }
    assert (H2 : (Qfloor (Qcabs x) < 2 ^ (E + 1))%Z).
    { apply num_lt_inv. eapply Qcle_lt_trans; [apply floor_le|exact Hx]. }
    apply Z.log2_lt_pow2 in H2; lia.
  - pose proof (Z.log2_up_nonneg (Qceiling (1 / Qcabs x)%Qc)). lia.
Qed.

Lemma ulp_exp_le (x : Qc) (E : Z) :
  (0 <= E)%Z -> (Qcabs x < num (2 ^ (E + 1)))%Qc ->
  (Double.ulp_exp x <= Z.max (E - 52) (-1074))%Z.
Proof. intros HE Hx. pose proof (ilog2_le x E HE Hx). unfold Double.ulp_exp. lia. Qed.

(** A whole number below [2^53] is a double. *)
Lemma fl_int (z : Z) : (Z.abs z < 2 ^ 53)%Z -> Double.fl (num z) = num z.
Proof.
  intros Hz. apply (fl_exact (num z) z 0); [lia| |].
  - change (Double.pow2 (- 0)) with 1%Qc. ring.
  - pose proof (ulp_exp_le (num z) 52 ltac:(lia)) as H.
    rewrite Qcabs_num in H. specialize (H (num_lt _ _ Hz)). lia.
Qed.

Lemma Qc_eq_Q (x y : Qc) : x = y -> (this x == this y)%Q.
Proof. intros ->. reflexivity. Qed.

Lemma floor_unique (y : Qc) (m : Z) :
  (num m <= y)%Qc -> (y < num m + 1)%Qc -> Qfloor y = m.
Proof.
  intros H1 H2. pose proof (floor_le y) as H3. pose proof (floor_gt y) as H4.
  assert (Ha : (num m < num (Qfloor y) + 1)%Qc) by (to_Q; lra).
  assert (Hb : (num (Qfloor y) < num m + 1)%Qc) by (to_Q; lra).
  change 1%Qc with (num 1) in Ha, Hb. rewrite <- num_add in Ha, Hb.
  apply num_lt_inv in Ha, Hb. lia.
Qed.

Lemma Qcabs_lt (x b : Qc) : (- b < x)%Qc -> (x < b)%Qc -> (Qcabs x < b)%Qc.
Proof.
  intros H1 H2. apply (Qcabs_case x (fun a => (a < b)%Qc)); intros _; [exact H2|].
  to_Q. lra.
Qed.

(** What rounding to a double changes is at most half of the last binary
    digit kept. *)
Lemma fl_err (x : Qc) (j0 : Z) :
  (0 <= j0)%Z -> (Double.ulp_exp x <= - j0)%Z ->
  (Double.fl x - Double.pow2 (- j0) * half <= x)%Qc /\ (x <= Double.fl x + Double.pow2 (- j0) * half)%Qc.
Proof.
  intros Hj0 Hp. pose proof (pow2_neg_pos j0 Hj0) as Hw0.
  unfold Double.fl. destruct (eqb x 0) eqn:E0.
  - apply eqb_eq in E0. subst x. to_Q. split; lra.
  - set (j := (- Double.ulp_exp x)%Z). replace (Double.ulp_exp x) with (- j)%Z by lia.
    assert (Hj : (0 <= j0 <= j)%Z) by lia.
    pose proof (pow2_neg_pos j ltac:(lia)) as Hw.
    set (w := Double.pow2 (- j)) in *. set (w0 := Double.pow2 (- j0)) in *.
    assert (Hne : w <> 0%Qc).
    { intros E. rewrite E in Hw. apply Qclt_not_eq in Hw. apply Hw. reflexivity. }
    destruct (rne_err (x / w)) as [H1 H2]. set (r := num (Double.rne (x / w))) in *.
    assert (Ey : (x / w * w = x)%Qc) by (field; exact Hne).
    assert (G1 : ((r - half) * w <= x / w * w)%Qc).
    { apply Qcmult_le_compat_r; [exact H1|apply Qclt_le_weak, Hw]. }
    assert (G2 : (x / w * w <= (r + half) * w)%Qc).
    { apply Qcmult_le_compat_r; [exact H2|apply Qclt_le_weak, Hw]. }
    rewrite Ey in G1, G2. clearbody r. clear H1 H2 Ey.
    assert (G3 : (w <= w0)%Qc).
    { unfold w0. rewrite (pow2_split j j0 Hj). fold w.
      rewrite <- (Qcmult_1_l w) at 1. apply Qcmult_le_compat_r; [|apply Qclt_le_weak, Hw].
      apply (num_le 1). pose proof (Z.pow_pos_nonneg 2 (j - j0)). lia. }
    replace ((r - half) * w)%Qc with (r * w - half * w)%Qc in G1 by ring.
    replace ((r + half) * w)%Qc with (r * w + half * w)%Qc in G2 by ring.
    generalize dependent (r * w)%Qc. intros A G1 G2.
    replace (w0 * half)%Qc with (half * w0)%Qc by ring.
    to_Q. split; lra.
Qed.

Lemma pow2_m1 : Double.pow2 (-1) = half.
Proof. apply Qc_is_canon. reflexivity. Qed.

Lemma pow2_m16 : (this (Double.pow2 (-16)) == 1 # 65536)%Q.
Proof. reflexivity. Qed.

Lemma round_div24 (v : Z) : round (num v / num 24) = ((v + 12) / 24)%Z.
Proof.
  pose proof (Z.div_mod (v + 12) 24 ltac:(lia)) as Hd.
  pose proof (Z.mod_pos_bound (v + 12) 24 ltac:(lia)) as Hr.
  set (m := ((v + 12) / 24)%Z) in *. set (r := ((v + 12) mod 24)%Z) in *.
  assert (Ev : num v = (num 24 * num m + num r - num 12)%Qc).
  { rewrite <- num_mul, <- num_add. replace (num 12) with (- num (-12))%Qc by reflexivity.
    unfold Qcminus. rewrite Qcopp_involutive, <- num_add. f_equal. lia. }
  set (q := (num v / num 24)%Qc).
  assert (Eq : (q * num 24 = num 24 * num m + num r - num 12)%Qc).
  { rewrite <- Ev. unfold q. field. discriminate. }
  apply Qc_eq_Q in Eq.
  assert (Hr1 : (num 0 <= num r)%Qc) by (apply num_le; lia).
  assert (Hr2 : (num r < num 24)%Qc) by (apply num_lt; lia).
  unfold round. fold half. apply floor_unique; to_Q; lra.
Qed.

(** The division by the grid step rounds to the same whole number in
    double precision. *)
Lemma round_div24_fl (v : Z) : (Z.abs v <= 2 ^ 40)%Z ->
  round (Double.div (num v) (num 24)) = ((v + 12) / 24)%Z.
Proof.
  intros Hv. unfold Double.div.
  pose proof (Z.div_mod (v + 12) 24 ltac:(lia)) as Hd.
  pose proof (Z.mod_pos_bound (v + 12) 24 ltac:(lia)) as Hr.
  set (m := ((v + 12) / 24)%Z) in *. set (r := ((v + 12) mod 24)%Z) in *.
  assert (Ev : num v = (num 24 * num m + num r - num 12)%Qc).
  { rewrite <- num_mul, <- num_add. replace (num 12) with (- num (-12))%Qc by reflexivity.
    unfold Qcminus. rewrite Qcopp_involutive, <- num_add. f_equal. lia. }
  set (q := (num v / num 24)%Qc).
  assert (Eq : (q * num 24 = num v)%Qc) by (unfold q; field; discriminate).
  assert (Hulp : (Double.ulp_exp q <= -16)%Z).
  { pose proof (ulp_exp_le q 36 ltac:(lia)) as H.
    assert (Hq : (Qcabs q < num (2 ^ (36 + 1)))%Qc).
    { assert (H1 : (num (-1099511627776) <= num v)%Qc) by (apply num_le; lia).
      assert (H2 : (num v <= num (2 ^ 40))%Qc) by (apply num_le; lia).
      rewrite <- Eq in H1, H2.
      change (2 ^ 40)%Z with 1099511627776%Z in H1, H2.
      change (2 ^ (36 + 1))%Z with 137438953472%Z.
      apply Qcabs_lt; to_Q; lra. }
    specialize (H Hq). lia. }
  destruct (Z.eq_dec r 0%Z) as [Hr0|Hr0].
  - assert (Ex : Double.fl q = q).
    { apply (fl_exact q (2 * m - 1) 1); [lia| |lia].
      replace (Double.pow2 (Z.opp 1)) with half by (symmetry; apply pow2_m1). apply Qc_is_canon.
      apply Qc_eq_Q in Eq. rewrite Ev, Hr0 in Eq.
      replace (num (2 * m - 1)) with (num 2 * num m - num 1)%Qc.
      2:{ rewrite <- num_mul. replace (num 1) with (- num (-1))%Qc by reflexivity.
          unfold Qcminus. rewrite Qcopp_involutive, <- num_add. f_equal. }
      to_Q. lra. }
    rewrite Ex. unfold q. apply round_div24.
  - destruct (fl_err q 16 ltac:(lia) Hulp) as [F1 F2].
    rewrite Ev in Eq. apply Qc_eq_Q in Eq.
    assert (Hr1 : (num 1 <= num r)%Qc) by (apply num_le; lia).
    assert (Hr2 : (num r <= num 23)%Qc) by (apply num_le; lia).
    unfold round. fold half. generalize dependent (Double.fl q). intros F F1 F2.
    apply floor_unique; to_Q; rewrite pow2_m16 in *; lra.
Qed.

Lemma is_whole_inv x :
  is_whole x = true -> exists z, x = num z /\ (Z.abs z <= 2 ^ 32)%Z.
Proof.
  unfold is_whole. intros H. apply andb_true_iff in H. destruct H as [Hd Hn].
  apply Pos.eqb_eq in Hd. apply Z.leb_le in Hn.
  exists (Qnum (this x)). split; [|exact Hn].
  apply Qc_is_canon. rewrite num_this. destruct x as [[n d] Hc]. cbn [this Qnum Qden] in *.
  subst d. reflexivity.
Qed.

Lemma snap_whole (z : Z) : (Z.abs z <= 2 ^ 40)%Z ->
  snap (num z) ROUTE_GRID = num (24 * ((z + 12) / 24)) /\
  Double.snap (num z) ROUTE_GRID = num (24 * ((z + 12) / 24)).
Proof.
  intros Hz. pose proof (Z.div_mod (z + 12) 24 ltac:(lia)) as Hd.
  pose proof (Z.mod_pos_bound (z + 12) 24 ltac:(lia)) as Hr.
  split.
  - unfold snap, ROUTE_GRID. rewrite round_div24, num_mul. ring.
  - unfold Double.snap, ROUTE_GRID, Double.mul. rewrite (round_div24_fl z Hz).
    rewrite <- num_mul. rewrite fl_int by lia. f_equal. lia.
Qed.

Lemma num_inj (a b : Z) : num a = num b -> a = b.
Proof.
  intros E. assert (a <= b)%Z by (apply num_le_inv; rewrite E; apply Qcle_refl).
  assert (b <= a)%Z by (apply num_le_inv; rewrite E; apply Qcle_refl). lia.
Qed.

(** Some doubles: the nearest to one tenth and to one third; a tie going
    to the even neighbour, upwards and downwards; and the smallest one. *)
Example fl_samples :
  Double.fl (Q2Qc (1 # 10)) = (num 3602879701896397 * Double.pow2 (-55))%Qc /\
  Double.fl (Q2Qc (1 # 3)) = (num 6004799503160661 * Double.pow2 (-54))%Qc /\
  Double.fl (num (2 ^ 53 + 1)) = num (2 ^ 53) /\
  Double.fl (num (2 ^ 53 + 3)) = num (2 ^ 53 + 4) /\
  Double.fl (Double.pow2 (-1074) * Q2Qc (3 # 5)) = Double.pow2 (-1074) /\
  Double.fl (Double.pow2 (-1074) * Q2Qc (1 # 2)) = 0%Qc.
Proof. repeat split; apply Qc_is_canon; vm_compute; reflexivity. Qed.

(** In double precision [snap] leaves the grid on large numbers, and the
    obstacle of a node that is not at a whole position is not the exact
    one. *)
Example double_rounds :
  Double.snap (num (10 ^ 17)) ROUTE_GRID = num (10 ^ 17) /\
  (forall z : Z, num (10 ^ 17) <> (num z * ROUTE_GRID)%Qc) /\
  let r := mkRect (Double.fl (Q2Qc (6679999999999999 # 10000000000000))) 0 (num 356) (num 100) in
  Double.pointInRect (num 1028) 0 (Double.inflateRect r ENDPOINT_PAD) = true /\
  pointInRect (num 1028) 0 (inflateRect r ENDPOINT_PAD) = false.
Proof.
  split; [apply Qc_is_canon; vm_compute; reflexivity|]. split.
  - intros z E. unfold ROUTE_GRID in E. rewrite <- num_mul in E.
    apply num_inj in E.
    apply (f_equal (fun t => (t mod 24)%Z)) in E. rewrite Z.mod_mul in E by lia.
    vm_compute in E. discriminate E.
  - cbn zeta. split; vm_compute; reflexivity.
Qed.

(** X12. In double precision, as the source computes it, [snap] of a
    whole number of magnitude at most [2^32] to the grid step is what exact
    arithmetic gives: a whole multiple of the step within half a step, a tie
    going up; snapping it again changes nothing. *)
Theorem snap_nearest_multiple (v : Qc) :
  is_whole v = true ->
  Double.snap v ROUTE_GRID = snap v ROUTE_GRID /\
  (exists z : Z, Double.snap v ROUTE_GRID = (num z * ROUTE_GRID)%Qc) /\
  (v - ROUTE_GRID / num 2 < Double.snap v ROUTE_GRID)%Qc /\
  (Double.snap v ROUTE_GRID <= v + ROUTE_GRID / num 2)%Qc /\
  Double.snap (Double.snap v ROUTE_GRID) ROUTE_GRID = Double.snap v ROUTE_GRID.
Proof.
  intros Hv. destruct (is_whole_inv v Hv) as (z & -> & Hz).
  destruct (snap_whole z ltac:(lia)) as [E1 E2].
  pose proof (Z.div_mod (z + 12) 24 ltac:(lia)) as Hd.
  pose proof (Z.mod_pos_bound (z + 12) 24 ltac:(lia)) as Hr.
  set (m := ((z + 12) / 24)%Z) in *.
  split; [congruence|]. rewrite E2.
  split; [exists m; unfold ROUTE_GRID; rewrite <- num_mul; f_equal; lia|].
  assert (E12 : (ROUTE_GRID / num 2)%Qc = num 12) by (apply Qc_is_canon; reflexivity).
  rewrite E12. split; [|split].
  - replace (num z - num 12)%Qc with (num (z - 12)).
    + apply num_lt. lia.
    + replace (num 12) with (- num (-12))%Qc by reflexivity.
      unfold Qcminus. rewrite Qcopp_involutive, <- num_add. f_equal.
  - rewrite <- num_add. apply num_le. lia.
  - destruct (snap_whole (24 * m) ltac:(lia)) as [_ E3]. rewrite E3. f_equal.
    replace (24 * m + 12)%Z with (12 + m * 24)%Z by lia.
    rewrite Z.div_add by lia. change (12 / 24)%Z with 0%Z. lia.
Qed.

Lemma snap_nearest_multiple_witness :
  Double.snap (num 100) ROUTE_GRID = num 96 /\
  (num 100 - ROUTE_GRID / num 2 < Double.snap (num 100) ROUTE_GRID)%Qc.
Proof.
  destruct (snap_nearest_multiple (num 100) eq_refl) as (E & _ & H & _).
  split; [|exact H]. rewrite E. apply Qc_is_canon. reflexivity.
Defined.

(** *** Obstacles *)

Lemma pointInRect_inflate x y r pad :
  pointInRect x y (inflateRect r pad) = true <->
  (r_x r - pad <= x)%Qc /\ (x <= r_x r + r_w r + pad)%Qc /\
  (r_y r - pad <= y)%Qc /\ (y <= r_y r + r_h r + pad)%Qc.
Proof.
  unfold pointInRect, inflateRect. cbn [r_x r_y r_w r_h].
  rewrite !andb_true_iff, !leb_le.
  assert (E2 : num 2 = (1 + 1)%Qc) by reflexivity. rewrite E2.
  replace (r_x r - pad + (r_w r + pad * (1 + 1)))%Qc with (r_x r + r_w r + pad)%Qc by ring.
  replace (r_y r - pad + (r_h r + pad * (1 + 1)))%Qc with (r_y r + r_h r + pad)%Qc by ring.
  tauto.
Qed.

Lemma num_sub (a b : Z) : num (a - b) = (num a - num b)%Qc.
Proof. apply Qc_is_canon. to_Q. unfold Zminus. rewrite inject_Z_plus, inject_Z_opp. reflexivity. Qed.

(** Around a node at whole numbers, inflating its rectangle and testing a
    point against it round nothing. *)
Lemma pointInRect_whole (x y : Qc) (r : AARect) (pad : Z) :
  is_whole (r_x r) = true -> is_whole (r_y r) = true ->
  is_whole (r_w r) = true -> is_whole (r_h r) = true -> (0 <= pad <= 14)%Z ->
  Double.pointInRect x y (Double.inflateRect r (num pad))
  = pointInRect x y (inflateRect r (num pad)).
Proof.
  intros Hx Hy Hw Hh Hp.
  destruct (is_whole_inv _ Hx) as (a & Ea & Ha). destruct (is_whole_inv _ Hy) as (b & Eb & Hb).
  destruct (is_whole_inv _ Hw) as (w & Ew & Hw'). destruct (is_whole_inv _ Hh) as (h & Eh & Hh').
  unfold Double.pointInRect, Double.inflateRect, pointInRect, inflateRect.
  cbn [r_x r_y r_w r_h]. rewrite Ea, Eb, Ew, Eh.
  unfold Double.sub, Double.add, Double.mul.
  rewrite <- !num_sub, <- !num_mul.
  repeat first [rewrite fl_int by lia | rewrite <- num_add]. reflexivity.
Qed.

(** X13. For nodes at whole numbers (positions and sizes of magnitude at
    most [2^32]) a point is blocked for an edge, in double precision as the
    source computes it, exactly when it lies within the margin of some node:
    4 around the two end nodes of the edge, 14 around every other node. *)
Theorem blocked_iff_near_a_node (nodes : list Node) (sourceId targetId : string)
  (x y : Qc) :
  forallb whole_node nodes = true ->
  (Double.isBlocked x y (Double.buildObstaclesForEdge nodes sourceId targetId) = true <->
   exists n, n ∈ nodes /\
     let pad := if String.eqb (n_id n) sourceId || String.eqb (n_id n) targetId
                then num 4 else num 14 in
     (n_x n - pad <= x)%Qc /\ (x <= n_x n + n_w n + pad)%Qc /\
     (n_y n - pad <= y)%Qc /\ (y <= n_y n + n_h n + pad)%Qc).
Proof.
  intros Hall. rewrite forallb_forall in Hall.
  assert (Hpt : forall n, In n nodes ->
            Double.pointInRect x y
              (Double.inflateRect (nodeRect n)
                 (if String.eqb (n_id n) sourceId || String.eqb (n_id n) targetId
                  then ENDPOINT_PAD else OBSTACLE_PAD)) = true <->
            (let pad := if String.eqb (n_id n) sourceId || String.eqb (n_id n) targetId
                        then num 4 else num 14 in
             (n_x n - pad <= x)%Qc /\ (x <= n_x n + n_w n + pad)%Qc /\
             (n_y n - pad <= y)%Qc /\ (y <= n_y n + n_h n + pad)%Qc)).
  { intros n Hn. specialize (Hall n Hn). unfold whole_node in Hall.
    do 3 (apply andb_true_iff in Hall; destruct Hall as [Hall ?]).
    cbn zeta. unfold ENDPOINT_PAD, OBSTACLE_PAD.
    destruct (String.eqb (n_id n) sourceId || String.eqb (n_id n) targetId);
      rewrite pointInRect_whole by (cbn [nodeRect r_x r_y r_w r_h]; first [assumption|lia]);
      rewrite pointInRect_inflate; reflexivity. }
  unfold Double.isBlocked, Double.buildObstaclesForEdge. rewrite existsb_exists. split.
  - intros (r & Hin & Hr). apply in_map_iff in Hin. destruct Hin as (n & <- & Hn).
    exists n. split; [apply list_elem_of_In, Hn|]. apply (Hpt n Hn), Hr.
  - intros (n & Hn & H). apply list_elem_of_In in Hn. eexists. split.
    + apply in_map_iff. exists n. split; [reflexivity|exact Hn].
    + apply (Hpt n Hn), H.
Qed.

Lemma blocked_iff_near_a_node_witness :
  Double.isBlocked (num 364) (num 50)
    (Double.buildObstaclesForEdge [table_a; table_b_lower] "a" "b") = true.
Proof.
  apply (blocked_iff_near_a_node [table_a; table_b_lower] "a" "b" (num 364) (num 50));
    [reflexivity|].
  exists table_a. split; [apply list_elem_of_here|]. vm_compute. repeat split; discriminate.
Defined.

(** *** The best open cell *)

Lemma lt_inf_irrefl x : lt_inf ltb x x = false.
Proof.
  destruct x as [a|]; [|reflexivity]. cbn [lt_inf]. apply ltb_ge. apply Qcle_refl.
Qed.

Lemma lt_inf_trans_ge x y z :
  lt_inf ltb x y = true -> lt_inf ltb z y = false -> lt_inf ltb x z = true.
Proof.
  destruct x as [a|], y as [b|], z as [c|]; cbn [lt_inf]; try discriminate; try reflexivity.
  intros H1 H2. apply ltb_lt in H1. apply ltb_ge in H2. apply ltb_lt.
  eapply Qclt_le_trans; eassumption.
Qed.

Lemma lt_inf_ge_trans x y z :
  lt_inf ltb x y = false -> lt_inf ltb z y = true -> lt_inf ltb x z = false.
Proof.
  destruct x as [a|], y as [b|], z as [c|]; cbn [lt_inf]; try discriminate; try reflexivity.
  intros H1 H2. apply ltb_ge in H1. apply ltb_lt in H2. apply ltb_ge.
  apply Qclt_le_weak. eapply Qclt_le_trans; eassumption.
Qed.

Lemma bestIndex_loop_min fs : forall cells pre best bestF,
  let f := fun j => match (pre ++ cells) !! j with Some c => fs !! c | None => None end in
  (forall j, j < length pre -> lt_inf ltb (f j) bestF = false) ->
  (forall j, j < best -> lt_inf ltb bestF (f j) = true) ->
  (bestF = None /\ best = 0 \/ best < length pre /\ bestF = f best) ->
  let r := bestIndex_loop fs cells (length pre) best bestF in
  forall j, j < length (pre ++ cells) ->
    lt_inf ltb (f j) (f r) = false /\ (j < r -> lt_inf ltb (f r) (f j) = true).
Proof.
  induction cells as [|c cells IH]; intros pre best bestF f Hmin Hfirst Hbest r j Hj.
  - cbn [bestIndex_loop] in r. subst r. rewrite app_nil_r in Hj.
    destruct Hbest as [[-> ->]|[Hb ->]].
    + split; [|lia]. pose proof (Hmin j Hj) as H1. pose proof (Hmin 0 ltac:(lia)) as H0.
      destruct (f j); [discriminate H1|]. destruct (f 0); [discriminate H0|]. reflexivity.
    + split; [apply Hmin, Hj|apply Hfirst].
  - cbn [bestIndex_loop] in r.
    assert (Ef : f (length pre) = fs !! c).
    { unfold f. rewrite lookup_app_r by lia. rewrite Nat.sub_diag. reflexivity. }
    assert (Eapp : pre ++ c :: cells = (pre ++ [c]) ++ cells) by (rewrite <- app_assoc; reflexivity).
    assert (Hlen : length (pre ++ [c]) = S (length pre)) by (rewrite length_app; cbn; lia).
    destruct (lt_inf ltb (fs !! c) bestF) eqn:E.
    + pose proof (IH (pre ++ [c]) (length pre) (fs !! c)) as H.
      cbn zeta in H. rewrite <- Eapp, Hlen in H. apply H; [| | |exact Hj].
      * intros i Hi. fold (f i). destruct (Nat.eq_dec i (length pre)) as [->|Hne].
        -- rewrite Ef. apply lt_inf_irrefl.
        -- eapply lt_inf_ge_trans; [apply Hmin; lia|exact E].
      * intros i Hi. fold (f i). eapply lt_inf_trans_ge; [exact E|]. apply Hmin, Hi.
      * right. split; [lia|]. fold (f (length pre)). symmetry. exact Ef.
    + pose proof (IH (pre ++ [c]) best bestF) as H.
      cbn zeta in H. rewrite <- Eapp, Hlen in H. apply H; [| | |exact Hj].
      * intros i Hi. fold (f i). destruct (Nat.eq_dec i (length pre)) as [->|Hne].
        -- rewrite Ef. exact E.
        -- apply Hmin. lia.
      * intros i Hi. fold (f i). apply Hfirst, Hi.
      * destruct Hbest as [H0|[Hb H1]]; [left; exact H0|right; split; [lia|exact H1]].
Qed.

(** X26. [bestIndex] returns the first open cell of least score: no open
    cell has a smaller score, and every open cell before it has a greater
    one. A missing score counts as infinite. *)
Theorem bestIndex_first_minimum (st : AStar) (j : nat) :
  j < length (open st) ->
  lt_inf ltb (open_score st j) (open_score st (bestIndex st)) = false /\
  (j < bestIndex st ->
   lt_inf ltb (open_score st (bestIndex st)) (open_score st j) = true).
Proof.
  intros Hj. unfold bestIndex, open_score.
  apply (bestIndex_loop_min (fScore st) (open st) [] 0 None); cbn [length app];
    [intros i Hi; lia|intros i Hi; lia|left; split; reflexivity|exact Hj].
Qed.

Lemma bestIndex_first_minimum_witness :
  let st := mkAStar [(num 0, num 0); (num 24, num 0); (num 0, num 24)] ∅ ∅
              (<[(num 0, num 0) := num 3]> (<[(num 24, num 0) := num 2]>
                 (<[(num 0, num 24) := num 2]> ∅))) in
  lt_inf ltb (open_score st 2) (open_score st (bestIndex st)) = false /\
  (2 < bestIndex st ->
   lt_inf ltb (open_score st (bestIndex st)) (open_score st 2) = true).
Proof.
  apply bestIndex_first_minimum. cbn. lia.
Defined.

End RouterMore.

(** ** The diagram *)

Module DiagramFacts.
Import Sql Router Diagram ListFacts SqlFacts RouterFacts RouterMore.

Lemma rowTop_num (i : nat) : rowTop i = num (52 + 24 * Z.of_nat i).
Proof.
  unfold rowTop, headerH, padding, rowH. rewrite num_add, num_mul.
  replace (num 52) with (num 40 + num 12)%Qc by reflexivity. ring.
Qed.

Lemma findIndex_first name : forall cols i k,
  cols !! i = Some name -> (forall j, j < i -> cols !! j <> Some name) ->
  findIndex name cols k = Some (k + i).
Proof.
  induction cols as [|c cols IH]; intros i k Hi Hfirst; [discriminate|].
  simpl. destruct (String.eqb c name) eqn:E.
  - apply String.eqb_eq in E. subst c. destruct i as [|i]; [f_equal; lia|].
    exfalso. apply (Hfirst 0); [lia|reflexivity].
  - destruct i as [|i].
    + simpl in Hi. injection Hi as ->. rewrite String.eqb_refl in E. discriminate.
    + rewrite (IH i (S k)); [f_equal; lia|exact Hi|].
      intros j Hj. apply (Hfirst (S j)). lia.
Qed.

Lemma getIndexesBlockHeight_nonneg ixs : (0 <= getIndexesBlockHeight ixs)%Z.
Proof.
  unfold getIndexesBlockHeight. destruct ixs as [|ix ixs]; [lia|].
  assert (H : forall l acc, (0 <= acc)%Z ->
                            (0 <= foldl Z.add acc (List.map indexCardHeight l))%Z).
  { induction l as [|x l IH]; intros acc Ha; simpl; [exact Ha|].
    apply IH. unfold indexCardHeight. destruct (has_where x); lia. }
  specialize (H (ix :: ixs) 0%Z ltac:(lia)).
  cbn [length]. lia.
Qed.

(** X14. The anchor of an edge on a column of a table is the vertical centre
    of the row in which the card of the table draws the first column of that
    name, and that row lies inside the height of the card. *)
Theorem anchor_at_row_centre (t : SqlTable) (name : string) (i : nat) :
  List.map c_name (columns t) !! i = Some name ->
  (forall j, j < i -> List.map c_name (columns t) !! j <> Some name) ->
  tableAnchorY (List.map c_name (columns t)) (Some name) = (rowTop i + rowH / num 2)%Qc /\
  (0 < rowTop i)%Qc /\
  (rowTop i + rowH < num (estimateTableHeight t))%Qc.
Proof.
  intros Hi Hfirst.
  pose proof (lookup_lt_Some _ _ _ Hi) as Hlt. rewrite length_map in Hlt.
  split; [|split].
  - unfold tableAnchorY. rewrite (findIndex_first _ _ i 0 Hi Hfirst).
    change (default 0 (Some (0 + i))) with i. rewrite length_map.
    replace (Nat.min i (Nat.max 1 (length (columns t)) - 1)) with i by lia.
    reflexivity.
  - rewrite rowTop_num. apply (num_lt 0). lia.
  - rewrite rowTop_num. unfold rowH. rewrite <- num_add. apply num_lt.
    unfold estimateTableHeight. cbn zeta.
    pose proof (getIndexesBlockHeight_nonneg (indexes t)).
    destruct (getIndexesBlockHeight (indexes t) =? 0)%Z; lia.
Qed.

Lemma anchor_at_row_centre_witness :
  let t := mkTable "a"
             [mkColumn "id" "bigint" true (Some true) None None None None;
              mkColumn "name" "text" false (Some false) None None None None] [] in
  tableAnchorY (List.map c_name (columns t)) (Some "name") = (rowTop 1 + rowH / num 2)%Qc /\
  (0 < rowTop 1)%Qc /\
  (rowTop 1 + rowH < num (estimateTableHeight t))%Qc.
Proof.
  cbn zeta. apply (anchor_at_row_centre _ "name" 1); [reflexivity|].
  intros [|j] Hj; [discriminate|lia].
Defined.

(** *** The path of an edge *)

(** The path of an edge whose two end nodes are found. *)
Lemma edge_points_of nodes e a b :
  nodeById nodes (e_source e) = Some a ->
  nodeById nodes (e_target e) = Some b ->
  let start := (anchors a b (e_sourceColumn e) (e_targetColumn e)).1 in
  let end_ := (anchors a b (e_sourceColumn e) (e_targetColumn e)).2 in
  let su := setup start end_ (buildObstaclesForEdge nodes (e_source e) (e_target e))
              ROUTE_GRID in
  exists pts, edgePoints nodes e = Some (Some pts) /\
    ends_ok start end_ (su_start su) (su_goal su) pts.
Proof.
  intros Ha Hb. cbn zeta. unfold edgePoints. rewrite Ha, Hb.
  destruct (anchors a b (e_sourceColumn e) (e_targetColumn e)) as [start end_].
  cbn [fst snd].
  destruct (routedPoints_ends start end_
              (buildObstaclesForEdge nodes (e_source e) (e_target e)))
    as (pts & -> & Hends).
  exists pts. split; [reflexivity|exact Hends].
Qed.



(** *** From the text to the paths *)

Lemma find_app {A} (p : A -> bool) (l1 l2 : list A) :
  List.find p (l1 ++ l2) = match List.find p l1 with
                           | Some x => Some x
                           | None => List.find p l2
                           end.
Proof.
  induction l1 as [|a l1 IH]; simpl; [reflexivity|]. destruct (p a); [reflexivity|exact IH].
Qed.

Lemma last_cons_filter {A} (a : A) (l : list A) :
  last (a :: l) = match last l with Some x => Some x | None => Some a end.
Proof. destruct l as [|b l]; [reflexivity|]. simpl. destruct (last (b :: l)) eqn:E; [reflexivity|].
  exfalso. revert E. generalize b. induction l as [|c l IH]; intros b0; simpl; [discriminate|]. apply IH.
Qed.

Lemma find_rev_map {A B} (f : A -> B) (p : B -> bool) (l : list A) :
  List.find p (rev (List.map f l)) = f <$> last (List.filter (fun a => p (f a)) l).
Proof.
  induction l as [|a l IH]; [reflexivity|].
  cbn [List.map rev List.filter]. rewrite find_app, IH.
  destruct (p (f a)) eqn:E.
  - rewrite last_cons_filter.
    destruct (last (List.filter (fun a0 => p (f a0)) l)); simpl; [reflexivity|].
    rewrite E. reflexivity.
  - destruct (last (List.filter (fun a0 => p (f a0)) l)); simpl; [reflexivity|].
    rewrite E. reflexivity.
Qed.

Lemma nodeById_diagramNodes pos tableW enumW g id :
  nodeById (diagramNodes pos tableW enumW g) id = node_of pos tableW enumW g id.
Proof.
  unfold nodeById, diagramNodes, node_of. rewrite rev_app_distr, find_app.
  rewrite !find_rev_map. cbn [n_id enumNode tableNode].
  destruct (last (List.filter _ (enums g))); reflexivity.
Qed.

Lemma last_filter_Some {A} (p : A -> bool) (l : list A) (a : A) :
  a ∈ l -> p a = true -> is_Some (last (List.filter p l)).
Proof.
  intros Hin Hp. destruct (last (List.filter p l)) eqn:E; [eauto|].
  apply last_None in E. assert (H : In a (List.filter p l)).
  { apply filter_In. split; [apply list_elem_of_In, Hin|exact Hp]. }
  rewrite E in H. destruct H.
Qed.

Lemma node_of_table pos tableW enumW g n :
  (exists t, t ∈ tables g /\ t_name t = n) ->
  is_Some (node_of pos tableW enumW g n).
Proof.
  intros (t & Ht & Hn). unfold node_of.
  destruct (last (List.filter _ (enums g))); [eauto|].
  destruct (last_filter_Some (fun t => String.eqb (t_name t) n) (tables g) t Ht) as [x ->];
    [apply String.eqb_eq, Hn|]. simpl. eauto.
Qed.

(** X16. Every relation of the graph extracted from a text is drawn once
    the layout returns. [useDiagrams] then sets the nodes of the graph and
    one edge for each relation, in order. For each relation the edge finds a
    node for its source and for its target: the node of the last table of
    that name or, when an enum node has that very id, the node of the last
    such enum; and it gets a path that ends at the anchor on the target
    node. When the layout throws, nothing is set. *)
Theorem every_relation_is_drawn (sql : string)
  (layout : SqlGraph -> option (string -> Point))
  (tableW : SqlTable -> Qc) (enumW : SqlEnum -> Qc) :
  exists g, parseSqlToGraph sql = Some g /\
    (layout g = None -> useDiagrams layout tableW enumW g = None) /\
    forall pos, layout g = Some pos ->
      let nodes := diagramNodes pos tableW enumW g in
      useDiagrams layout tableW enumW g = Some (nodes, List.map relationEdge (relations g)) /\
      forall r, r ∈ relations g ->
        exists a b pts,
          node_of pos tableW enumW g (fromTable r) = Some a /\
          node_of pos tableW enumW g (toTable r) = Some b /\
          nodeById nodes (fromTable r) = Some a /\
          nodeById nodes (toTable r) = Some b /\
          edgePoints nodes (relationEdge r) = Some (Some pts) /\
          last pts = Some (anchors a b (Some (fromColumn r)) (Some (toColumn r))).2.
Proof.
  destruct (parseSqlToGraph_capture sql) as (cp & Hcp & Hg).
  exists (assemble cp). split; [exact Hg|].
  split; [intros E; unfold useDiagrams; rewrite E; reflexivity|].
  intros pos Hpos. cbn zeta.
  split; [unfold useDiagrams; rewrite Hpos; reflexivity|].
  pose proof (capture_ok _ _ Hcp) as Hok.
  intros r Hr.
  pose proof (resolved_in_tables _ _ Hr) as [Hfrom Hto].
  apply (has_table_named _ _ Hok) in Hfrom, Hto.
  destruct (node_of_table pos tableW enumW _ _ Hfrom) as [a Ha].
  destruct (node_of_table pos tableW enumW _ _ Hto) as [b Hb].
  set (nodes := diagramNodes pos tableW enumW (assemble cp)).
  assert (Ha' : nodeById nodes (e_source (relationEdge r)) = Some a)
    by (unfold nodes; rewrite nodeById_diagramNodes; exact Ha).
  assert (Hb' : nodeById nodes (e_target (relationEdge r)) = Some b)
    by (unfold nodes; rewrite nodeById_diagramNodes; exact Hb).
  destruct (edge_points_of nodes (relationEdge r) a b Ha' Hb') as (pts & Hp & Hl & _).
  exists a, b, pts. auto 10.
Qed.

Lemma every_relation_is_drawn_witness :
  exists g pos, parseSqlToGraph example_sql = Some g /\
    exists a b pts,
      nodeById (diagramNodes pos (fun _ => num 360) (fun _ => num 200) g) "b" = Some a /\
      n_id a = "b" /\
      edgePoints (diagramNodes pos (fun _ => num 360) (fun _ => num 200) g)
        (mkEdge "b" "a" (Some "a_id") (Some "id")) = Some (Some pts) /\
      last pts = Some (anchors a b (Some "a_id") (Some "id")).2.
Proof.
  set (pos := fun id : string => if String.eqb id "a" then (num 0, num 0) else (num 480, num 40)).
  destruct (every_relation_is_drawn example_sql (fun _ => Some pos)
              (fun _ => num 360) (fun _ => num 200)) as (g & Hg & _ & H).
  exists g, pos. split; [exact Hg|].
  destruct (H pos eq_refl) as [_ Hr].
  vm_compute in Hg. injection Hg as <-.
  destruct (Hr (mkRelation (Some "b.a_id->a.id") "b" "a_id" "a" "id"))
    as (a & b & pts & Ha & _ & Ha' & _ & Hp & Hl); [apply list_elem_of_here|].
  exists a, b, pts. split; [exact Ha'|]. split; [|split; [exact Hp|exact Hl]].
  vm_compute in Ha. injection Ha as <-. reflexivity.
Defined.

End DiagramFacts.
